(* ===== verification/_CoqProject ===== *)
-Q . S2P
Prelude.v
GoLib.v
Utf8.v
Json.v
Schema.v
Api.v
DataStore.v
StoreSpec.v
Paging.v
Watch.v
Command.v
StateMachine.v
Replication.v
WatchLog.v
Codec.v
Snapshot.v
Peers.v
Messages.v
Saves.v
KVService.v
Leases.v
Commits.v
Handlers.v
Cluster.v
Sse.v
TextStore.v
Client.v
Wire.v
WatchClient.v
Server.v
Cli.v
Node.v
