(* ===== verification/Prelude.v ===== *)
(** * Zodiac, a replicated key-value store: verification library

    Zodiac is a key-value store replicated with Raft.  A client sends JSON
    requests to an HTTP server on each node; the node's handler turns a request
    into a command, submits it to Raft and waits; once the command is committed,
    the apply loop of every node executes it on its in-memory store, answers the
    handler that waits on this node and pushes events to the watchers.  Leases tie
    keys to a deadline, snapshots compact the log, and an address book lets nodes
    and clients find each other.

    ** The parts and the files that model them

    - [Prelude] (this file): the outcome of a Go computation ([go]: a value, a
      panic, or blocked for ever), int64 with its wrap-around ([wrap64]), the hint
      databases and tactics, and lemmas on lists and maps.
    - [GoLib]: what the sources use of Go and its standard library: prefixes of
      strings, [strconv], sorting, the unspecified iteration order of maps
      ([MapOrder], a permutation), buffered channels, indexing, remainder.
    - [Utf8], [Json]: what Go does with strings and JSON: decoding and encoding of
      UTF-8, the printer of encoding/json with its escapes, a parser for all of
      JSON with the nesting limit, and their round trips.
    - [Schema]: JSON forms of Go types.  [JSONValue] is what encoding/json does with
      a type, [JSONLaws] what it promises; a struct is given by its list of
      members ([schema]) and gets its form and its laws from them ([Struct]).
    - [Api]: the types of src/api/api.go.
    - [DataStore]: every method of src/kvservice/datastore.go and the invariant
      [wf] that ties the two directions of the key/lease association together.
    - [StoreSpec]: what the store promises.  The interface [StoreOps] has two
      instances, the store and a specification with one map; [abs] relates them.
    - [Paging]: cursor-based listing.
    - [Watch]: the ring buffer ([EventBuffer]) and the subscriptions ([WatchSubs])
      of src/kvservice/watch.go.
    - [Command]: src/kvservice/command.go.
    - [StateMachine]: the locked section of [handleCommand] (duplicate detection,
      execution, revision) as [applyCommand] on the replicated fields, and the
      events of an applied command ([commandEvents]).
    - [Replication]: logs of commands: replicas that apply the same log, duplicate
      requests, revisions.
    - [WatchLog]: the events of a log against the store it leads to.
    - [Codec]: what the code relies on of encoding/gob, a class with a round-trip
      law and an instance for every countable type.
    - [Snapshot]: [encodeSnapshot], [decodeSnapshot] and restoring.
    - [Peers]: the address book, its persistence and committed config changes; the
      durable store of the Raft library is the class [RaftStorage].
    - [Messages]: the JSON forms of the API types and of the stored peers, from the
      struct tags, and bodies as bytes.
    - [Saves]: several calls of [savePeers] at once, as a step relation ([sstep]) in
      which reading the book and writing the storage are apart.
    - [KVService]: the service of one node: state, mutex, commit subscriptions with
      their channels, [handleCommand], [maybeSnapshot], [handleSnapshot], the
      inputs of [runUpdater] ([updaterStep]), the lease expiry tick.
    - [Leases]: deadlines, the tick of the expiry loop and its command.
    - [Commits]: runs of one node as sequences of events, and what a waiting handler
      receives.
    - [Handlers]: the HTTP handlers as programs ([prog]) whose steps interleave with
      the rest of the node ([hrun]); the events of a run are tagged as the handler's
      own or not.
    - [Cluster]: nodes over one Raft log, as a step relation ([cstep]), with the
      handlers that hold a node's mutex over several steps.
    - [Sse]: the watch handler, the text of an event stream with the JSON of its
      events, and the client's reader.
    - [TextStore]: which text the store holds and the replies and events carry.
    - [Client]: src/kvclient/kvclient.go on decoded messages.
    - [Wire]: the same requests as bytes: src/kvservice/json.go, [sendJSONRequest] and
      the loop of [send] over it ([sendRequest]).
    - [WatchClient]: [Watch] of the client, its URL and how the server reads it.
    - [Server]: src/config/config.go, the join protocol of
      src/cmd/zodiacServer/main.go, [splitAddrs] of src/cmd/zodiacClient/main.go.
    - [Cli]: the main function of src/cmd/zodiacClient/main.go.
    - [Node]: the main function of src/cmd/zodiacServer/main.go: the peers it
      dials, the dial loop, start and stop; [ServeHTTP] and [Shutdown].

    ** How the code is modelled

    A method that runs under a lock from its first to its last statement is a
    function on the state.  What a method takes from its surroundings is an
    argument: the clock, the iteration order of maps, the answers of Raft and of
    the network.  In [KVService] and [Handlers] the mutex is explicit, so a
    second lock by its holder blocks.  The actions of the apply loop are atomic in
    [Commits] and [Cluster]; between them, handlers subscribe, receive, watch and
    change the address book in any order, and in [Cluster] a handler may hold the
    mutex.  Every mutation of the store happens in the apply loop, so finer steps
    would not be observable in the store; for a watcher they are, so [Sse] has
    the buffering and the delivery of an event, the subscription and the replay of a
    watch as steps of their own.

    JSON is modelled down to bytes.  A number of the model is the text of its
    literal; a field is found by its name up to case, as the decoder does; decoding
    writes into the value it is given and goes on after a type error.  Slices are
    lists and maps are finite maps, so whether a value is nil is not in the
    model: what the encoder prints for an empty one is an argument ([nilness]), and
    the theorems hold for every choice.  The elements of a slice are decoded into
    zero values: encoding/json may reuse what is left in the array of a slice that
    is decoded into twice, which in the sources can only be the response variable
    of a request that is retried after a response with a non-empty slice, and
    redirects have none.  The texts of decoding errors are a parameter ([ErrorText]), as is
    the parser of media types.

    Raft is not part of the sources.  The steps of [Cluster] state what the code
    relies on: one log of committed entries that only grows and is delivered in
    order and without gaps, snapshots that come from [InstallSnapshot] of some
    node, replay after a restart.  [Handlers] assumes nothing about the index that
    [Submit] returns.

    ** What the theorems show

    - The store ([store_refines_spec], [revoke_exact], [paging_partitions_list],
      [page_exact]): any sequence of operations behaves as the specification;
      revoking a lease deletes exactly its keys; paging reads every key once.
    - Leases ([expiry_is_exact], [lease_deadline], [grant_reply_is_new_lease]).
    - The replicated state machine ([replicas_converge], [retries_have_no_effect],
      [duplicates_exact], [revisions_count_mutations]): replicas agree, retried
      requests change nothing, revisions count mutations.
    - Watches ([replay_last_events], [replay_complete], [delivery_never_blocks],
      [watch_stream_describes_store], [resume_catches_up], [wire_roundtrip],
      [watch_end_to_end]): events describe the store, resuming at a command boundary
      loses nothing that is still buffered, and a client receives, in any
      interleaving, the replayed events and what its queue lets through.
    - Snapshots ([snapshot_roundtrip], [compaction_sound],
      [snapshot_cancels_covered]).
    - One node and the cluster ([command_reaches_its_handler],
      [received_is_applied], [waits_until_touched], [reply_is_applied_result],
      [nodes_agree], [apply_loop_progress]): nodes that have applied the same
      entries agree; the apply loop goes on unless a members handler holds the
      mutex; a reply comes from the index of the handler's own command.
    - Requests as bytes ([request_end_to_end], [sendRequest_refines],
      [accepted_request_typed], [unknown_member_refused], [text_in_text_out],
      [watch_request_arrives]): the client gets the reply the leader built; the loop
      over bytes refines the loop over messages; only JSON without unknown members
      is accepted, what is accepted is well typed, the
      store holds only UTF-8, and so its replies and events survive JSON.
    - Address book and join ([address_book_survives_restart],
      [peer_list_follows_changes], [join_effect], [stored_book_is_past]).
    - A node's process ([config_roundtrip], [dials_each_peer_once],
      [dial_terminates], [restart_same_node], [shutdown_once]).
    - The client ([send_finds_leader], [send_safe], [refresh_keeps_leader_valid]) and
      its command line ([cli_get], [cli_list_prints_all]).
    - Behaviour that differs from what the comments and the README say:
      [members_deadlocks], [no_snapshot_is_ever_taken], [ok_for_another_command],
      [resubscribing_panics], [keepalive_of_missing_lease_is_ok],
      [renewal_does_not_stop_expiry],
      [second_process_is_refused], [failed_join_is_nil],
      [follower_learns_no_address], [long_event_ends_stream], [later_change_lost],
      [watch_prefix_not_escaped], [put_arrives_as_utf8], [refusal_text_is_lost],
      [cli_no_address_panics].

    ** Bounds and fuel

    Theorems about counters assume fewer than 2^63 log entries, the range of the
    revision and lease counters.  [pages] and [send] take fuel because the source
    loops have no bound of their own; [paging_partitions_list] and
    [send_finds_leader] show how much is enough (one request more than there are
    keys; one attempt per address).  [runProg] takes seven steps for the longest
    branch of a join.  The JSON parser takes a unit of fuel per value and per element;
    [parse_fuel] shows that twice the length of the text and one is never
    used up.  A dial has time for 19 tries in its 30 seconds
    ([dial_terminates]).  A query is parsed with as much fuel as it has characters.
    The line limit of the event reader is the 64 KiB of
    [bufio.Scanner].

    ** Not modelled

    The Raft library, and the methods of [KVService] that only forward to it; the
    bytes of gob (a class with its law); the HTTP server and client below request
    and response; flag parsing, logging, timers and signals; [DelayNextHTTPResponse]
    and the other helpers of tests.  The deadlines of leases are kept in the model,
    but their relation to real time is not.

    ** Next

    In this order: the apply loop in steps finer than a whole command, with the
    handlers of [Handlers] between them; the cluster of [Cluster] with the clients of
    [Wire] on top, so that a history of requests can be compared with an atomic
    store; the reader of the event stream against a connection that is cut. *)

From stdpp Require Export base numbers list gmap sets strings sorting fin_maps.
From Stdlib Require Export ZArith Lia.

#[global] Open Scope Z_scope.

(** ** Outcome of a Go computation *)

Inductive go (A : Type) : Type :=
| Ret (a : A)
| Panic (msg : string)
| Block.
Arguments Ret {A} a.
Arguments Panic {A} msg.
Arguments Block {A}.

Definition go_bind {A B} (m : go A) (k : A -> go B) : go B :=
  match m with
  | Ret a => k a
  | Panic msg => Panic msg
  | Block => Block
  end.

Declare Scope go_scope.
Delimit Scope go_scope with go.
Notation "'let!' x := m 'in' k" := (go_bind m (fun x => k))
  (at level 10, x pattern, m at level 100, k at level 200) : go_scope.
#[global] Open Scope go_scope.

(** ** int64 *)

Definition int64_min : Z := -9223372036854775808.
Definition int64_max : Z := 9223372036854775807.
Definition in_int64 (z : Z) : Prop := int64_min <= z <= int64_max.
#[export] Instance in_int64_dec z : Decision (in_int64 z).
Proof. unfold in_int64. apply _. Defined.

Definition wrap64 (z : Z) : Z := (z + 2 ^ 63) `mod` 2 ^ 64 - 2 ^ 63.

Lemma wrap64_id z : in_int64 z -> wrap64 z = z.
Proof. unfold in_int64, wrap64, int64_min, int64_max. intros. rewrite Z.mod_small; lia. Qed.

Lemma wrap64_shift z : ∃ k, wrap64 z = z - k * 2 ^ 64.
Proof.
  exists ((z + 2 ^ 63) / 2 ^ 64). unfold wrap64. pose proof (Z.div_mod (z + 2 ^ 63) (2 ^ 64)). lia.
Qed.

Lemma wrap64_range z : in_int64 (wrap64 z).
Proof.
  unfold in_int64, wrap64, int64_min, int64_max.
  pose proof (Z.mod_pos_bound (z + 2 ^ 63) (2 ^ 64)). lia.
Qed.

(** ** Automation shared by the components *)

Create HintDb zodiac.
Create Rewrite HintDb zodiac_rw.

(** Case analysis on every [match], [if] and [decide] of the goal. *)
Ltac case_all := repeat (case_match || case_decide); simplify_eq/=.

(** Split a hypothesis [let! x := m in k = Ret b] into its steps. *)
Ltac go_inv :=
  repeat match goal with
  | H : go_bind ?m _ = Ret _ |- _ =>
      let E := fresh "E" in destruct m eqn:E; simpl in H; [| discriminate H ..]
  | H : Ret _ = Ret _ |- _ => injection H as H
  | H : Panic _ = Ret _ |- _ => discriminate H
  | H : Block = Ret _ |- _ => discriminate H
  end.

(** ** Lists *)

Section lists.
Context {A : Type}.
Implicit Types (l : list A) (x : A).

(** The suffix of [l] of length at most [n]. *)
Definition lastn (n : nat) l : list A := drop (length l - n) l.

Lemma length_lastn n l : length (lastn n l) = Nat.min n (length l).
Proof. unfold lastn. rewrite length_drop. lia. Qed.

Lemma lastn_all n l : (length l <= n)%nat -> lastn n l = l.
Proof. intros. unfold lastn. by replace (length l - n)%nat with 0%nat by lia. Qed.

Lemma lastn_snoc n l x : lastn (S n) (l ++ [x]) = lastn n l ++ [x].
Proof.
  unfold lastn. rewrite length_app. simpl.
  replace (length l + 1 - S n)%nat with (length l - n)%nat by lia.
  rewrite drop_app_le by lia. done.
Qed.

Lemma lastn_lastn_app n l l' : lastn n (lastn n l ++ l') = lastn n (l ++ l').
Proof.
  unfold lastn. rewrite !length_app, !length_drop.
  destruct (decide (length l <= n)%nat) as [Hle|Hgt].
  { replace (length l - n)%nat with 0%nat by lia. rewrite drop_0. by rewrite Nat.sub_0_r. }
  replace (length l + length l' - n)%nat
    with ((length l - n) + (length l - (length l - n) + length l' - n))%nat by lia.
  rewrite <-drop_drop. f_equal. rewrite drop_app_le by lia. done.
Qed.

Lemma elem_of_lastn n l x : x ∈ lastn n l -> x ∈ l.
Proof. intros. rewrite <-(take_drop (length l - n) l). apply elem_of_app. by right. Qed.

End lists.

Lemma filter_true {A} (P : A -> Prop) `{∀ x, Decision (P x)} (l : list A) :
  Forall P l -> filter P l = l.
Proof. induction 1; [done|]. rewrite filter_cons_True by done. by f_equal. Qed.

Lemma filter_none {A} (P : A -> Prop) `{∀ x, Decision (P x)} (l : list A) :
  Forall (λ x, ¬ P x) l -> filter P l = [].
Proof. induction 1; [done|]. by rewrite filter_cons_False. Qed.

(** ** Maps *)

(** The elements of a list of maps have no key in common. *)
Definition maps_disjoint {K A} `{Countable K} (ms : list (gmap K A)) : Prop :=
  ∀ i j m1 m2, ms !! i = Some m1 -> ms !! j = Some m2 -> i ≠ j -> m1 ##ₘ m2.

Lemma maps_disjoint_cons {K A} `{Countable K} (m : gmap K A) ms :
  maps_disjoint (m :: ms) ->
  maps_disjoint ms ∧ ∀ j m', ms !! j = Some m' -> m ##ₘ m'.
Proof.
  intros Hd. split.
  - intros i j m1 m2 H1 H2 Hij. eapply (Hd (S i) (S j)); [done|done|lia].
  - intros j m' Hm. by eapply (Hd 0%nat (S j)).
Qed.

Lemma union_list_subseteq {K A} `{Countable K} (ms : list (gmap K A)) j m :
  maps_disjoint ms -> ms !! j = Some m -> m ⊆ ⋃ ms.
Proof.
  revert j. induction ms as [|m' ms IH]; intros j Hms Hm; [done|].
  apply maps_disjoint_cons in Hms as [Hd Hm']. destruct j as [|j]; simplify_eq/=.
  - apply map_union_subseteq_l.
  - etrans; [by eapply IH|]. apply map_union_subseteq_r, map_disjoint_union_list_r.
    apply Forall_lookup. intros i r Hr. symmetry. eauto.
Qed.
