(* ===== verification/GoLib.v ===== *)
(** * What the program uses of Go and of its standard library

    - [strings.HasPrefix], [strings.TrimPrefix], the byte-wise order of strings;
    - [strconv.ParseInt] and [strconv.FormatInt] in base 10, 64 bits;
    - [sort.Strings];
    - the order of [range] over a map, which Go leaves open: an argument
      [MapOrder] of every operation whose result depends on it;
    - buffered channels, kept in a store of channels because a channel is
      shared by the goroutines that hold a reference to it. *)

From S2P Require Import Prelude.
From Stdlib Require Import Ascii.
From Stdlib Require String.

(** ** Strings: sequences of bytes *)

Module GoStrings.

Definition HasPrefix (s pre : string) : bool := String.prefix pre s.

Fixpoint TrimPrefix (s pre : string) : string :=
  match pre, s with
  | EmptyString, _ => s
  | String c pre', String d s' =>
      if HasPrefix s pre then TrimPrefix s' pre' else s
  | String _ _, EmptyString => s
  end.

Lemma HasPrefix_spec s pre : HasPrefix s pre = true <-> ∃ rest, s = pre +:+ rest.
Proof.
  unfold HasPrefix. revert s. induction pre as [|c pre IH]; intros s; simpl.
  - destruct s; (split; [by eexists|done]).
  - destruct s as [|d s].
    { split; [done|]. intros [rest ?]. discriminate. }
    simpl. destruct (ascii_dec c d) as [->|Hne].
    + rewrite IH. split; intros [rest E]; exists rest.
      * by rewrite E.
      * by injection E.
    + split; [done|]. intros [rest E]. injection E as E _. congruence.
Qed.

Lemma HasPrefix_nil s : HasPrefix s "" = true.
Proof. by destruct s. Qed.

Lemma HasPrefix_app pre s : HasPrefix (pre +:+ s) pre = true.
Proof. apply HasPrefix_spec. eauto. Qed.

Lemma TrimPrefix_app pre s : TrimPrefix (pre +:+ s) pre = s.
Proof.
  induction pre as [|c pre IH]; [by destruct s|].
  change (String c pre +:+ s) with (String c (pre +:+ s)).
  cbn [TrimPrefix]. change (String c (pre +:+ s)) with (String c pre +:+ s).
  by rewrite HasPrefix_app.
Qed.

(** *** Concatenation *)

Lemma append_cons c (a b : string) : String c a +:+ b = String c (a +:+ b).
Proof. done. Qed.
Lemma append_assoc (a b c : string) : (a +:+ b) +:+ c = a +:+ (b +:+ c).
Proof. induction a as [|x a IH]; [done|]. by rewrite !append_cons, IH. Qed.
Lemma append_nil (a : string) : a +:+ "" = a.
Proof. induction a as [|x a IH]; [done|]. by rewrite append_cons, IH. Qed.
Lemma length_append (a b : string) : String.length (a +:+ b) = (String.length a + String.length b)%nat.
Proof. induction a as [|x a IH]; [done|]. rewrite append_cons. simpl. by rewrite IH. Qed.

End GoStrings.
Export GoStrings.

(** Go's [<=] on strings. *)
Definition string_le (s1 s2 : string) : bool := String.leb s1 s2.

Lemma string_le_iff s1 s2 : string_le s1 s2 = true <-> String.le s1 s2.
Proof. unfold string_le, String.le. by rewrite Is_true_true. Qed.

(** ** strconv *)

Module Strconv.

Inductive NumError := ErrSyntax | ErrRange.
#[export] Instance NumError_eq_dec : EqDecision NumError.
Proof. solve_decision. Defined.

Definition uint64_max : Z := 18446744073709551615.
(** [maxUint64/base + 1]: multiplying a smaller number by 10 does not overflow. *)
Definition uint_cutoff : Z := 1844674407370955162.

Definition digit_val (c : ascii) : option Z :=
  let n := Z.of_N (N_of_ascii c) in
  if (48 <=? n) && (n <=? 57) then Some (n - 48) else None.

Fixpoint parse_digits (s : string) (n : Z) : Z * option NumError :=
  match s with
  | EmptyString => (n, None)
  | String c s' =>
      match digit_val c with
      | None => (0, Some ErrSyntax)
      | Some d =>
          if uint_cutoff <=? n then (uint64_max, Some ErrRange)
          else if uint64_max <? n * 10 + d then (uint64_max, Some ErrRange)
          else parse_digits s' (n * 10 + d)
      end
  end.

Definition ParseUint (s : string) : Z * option NumError :=
  match s with
  | EmptyString => (0, Some ErrSyntax)
  | _ => parse_digits s 0
  end.

(** [strconv.ParseInt(s, 10, 64)]. *)
Definition ParseInt (s : string) : Z * option NumError :=
  match s with
  | EmptyString => (0, Some ErrSyntax)
  | String c s' =>
      let neg := bool_decide (c = "-"%char) in
      let body := if bool_decide (c = "+"%char ∨ c = "-"%char) then s' else s in
      let '(un, err) := ParseUint body in
      match err with
      | Some ErrSyntax => (0, Some ErrSyntax)
      | _ =>
          if negb neg && (int64_max + 1 <=? un) then (int64_max, Some ErrRange)
          else if neg && (int64_max + 1 <? un) then (int64_min, Some ErrRange)
          else ((if neg then - un else un), None)
      end
  end.

Definition digit_char (d : Z) : ascii := ascii_of_N (Z.to_N (d + 48)).

Fixpoint format_uint (fuel : nat) (n : Z) (acc : string) : string :=
  match fuel with
  | O => acc
  | S fuel' =>
      if n <? 10 then String (digit_char n) acc
      else format_uint fuel' (n / 10) (String (digit_char (n `mod` 10)) acc)
  end.

(** [strconv.FormatInt(z, 10)]: an unsigned 64-bit number has at most 20 digits. *)
Definition FormatInt (z : Z) : string :=
  if z <? 0 then String "-" (format_uint 20 (- z) "") else format_uint 20 z "".

Lemma digit_val_char d : 0 <= d < 10 -> digit_val (digit_char d) = Some d.
Proof.
  intros. assert (d = 0 ∨ d = 1 ∨ d = 2 ∨ d = 3 ∨ d = 4 ∨ d = 5 ∨ d = 6 ∨ d = 7 ∨ d = 8 ∨ d = 9)
    as Hd by lia.
  repeat destruct Hd as [->|Hd]; try reflexivity. by subst.
Qed.

Lemma format_uint_parse fuel n acc :
  0 <= n < 10 ^ Z.of_nat fuel -> n <= uint64_max ->
  parse_digits (format_uint fuel n acc) 0 = parse_digits acc n.
Proof.
  revert n acc. induction fuel as [|fuel IH]; intros n acc Hn Hmax.
  { simpl in *. by assert (n = 0) as -> by lia. }
  assert (0 <= n `mod` 10 < 10) by (apply Z.mod_pos_bound; lia).
  pose proof (Z.div_mod n 10 ltac:(lia)) as Hdiv.
  assert (Hlt: 0 <= n / 10 < 10 ^ Z.of_nat fuel).
  { rewrite Nat2Z.inj_succ, Z.pow_succ_r in Hn by lia.
    split; [apply Z.div_pos; lia|apply Z.div_lt_upper_bound; lia]. }
  cbn [format_uint]. destruct (Z.ltb_spec n 10).
  - cbn [parse_digits]. rewrite digit_val_char by lia. unfold uint_cutoff, uint64_max.
    by rewrite (proj2 (Z.leb_gt _ _)), (proj2 (Z.ltb_ge _ _)) by lia.
  - rewrite IH by lia. cbn [parse_digits]. rewrite digit_val_char by lia.
    unfold uint_cutoff, uint64_max in *.
    rewrite (proj2 (Z.leb_gt _ _)), (proj2 (Z.ltb_ge _ _)) by lia.
    f_equal. lia.
Qed.

Lemma format_uint_cons fuel n acc :
  fuel ≠ 0%nat -> 0 <= n -> ∃ d s, 0 <= d < 10 ∧ format_uint fuel n acc = String (digit_char d) s.
Proof.
  revert n acc. induction fuel as [|fuel IH]; intros n acc Hf Hn; [done|].
  cbn [format_uint]. destruct (Z.ltb_spec n 10); [by exists n, acc; eauto with lia|].
  destruct fuel as [|fuel].
  - exists (n `mod` 10), acc. split; [apply Z.mod_pos_bound; lia|done].
  - apply IH; [done|]. apply Z.div_pos; lia.
Qed.

Lemma digit_char_not_sign d :
  0 <= d < 10 -> digit_char d ≠ "+"%char ∧ digit_char d ≠ "-"%char.
Proof.
  intros Hd. pose proof (digit_val_char d Hd) as Hv.
  split; intros E; rewrite E in Hv; discriminate Hv.
Qed.

(** Reading back a formatted int64 gives the number, without an error. *)
(** The result is in range, also next to an error. *)
Lemma parse_digits_nonneg s n : 0 <= n -> 0 <= (parse_digits s n).1.
Proof.
  revert n. induction s as [|c s IH]; intros n Hn; simpl; [done|].
  destruct (digit_val c) as [d|] eqn:E; [|done]. repeat case_match; try done. apply IH.
  unfold digit_val in E. case_match; [|done]. injection E as <-. lia.
Qed.

Lemma ParseInt_range s : in_int64 (ParseInt s).1.
Proof.
  unfold ParseInt, in_int64, int64_min, int64_max. destruct s as [|c s]; [simpl; lia|].
  set (u := if bool_decide (c = "+"%char ∨ c = "-"%char) then s else String c s).
  assert (Hu: 0 <= (ParseUint u).1).
  { unfold ParseUint. destruct u; [done|]. by apply parse_digits_nonneg. }
  destruct (ParseUint u) as [un [[]|]]; cbn [fst] in Hu |- *; [lia|..];
    destruct (bool_decide (c = "-"%char)); cbn [negb andb fst];
    repeat case_match; cbn [fst]; lia.
Qed.

Lemma ParseInt_FormatInt z : in_int64 z -> ParseInt (FormatInt z) = (z, None).
Proof.
  unfold in_int64, int64_min, int64_max. intros Hz. unfold FormatInt.
  assert (Hpow: 10 ^ Z.of_nat 20 = 100000000000000000000) by done.
  assert (Hu: ∀ n, 0 <= n <= 9223372036854775808 ->
    ParseUint (format_uint 20 n "") = (n, None)).
  { intros n Hn. destruct (format_uint_cons 20 n "") as (d & s & Hd & E); [done|lia|].
    unfold ParseUint. rewrite E, <-E, format_uint_parse; [done|..]; unfold uint64_max; lia. }
  destruct (Z.ltb_spec z 0).
  - cbn [ParseInt]. rewrite bool_decide_true by auto. rewrite bool_decide_true by auto.
    rewrite Hu by lia. cbn [negb andb].
    rewrite (proj2 (Z.ltb_ge _ _)) by (unfold int64_max; lia). f_equal. lia.
  - destruct (format_uint_cons 20 z "") as (d & s & Hd & E); [done|lia|].
    destruct (digit_char_not_sign d Hd). rewrite E. cbn [ParseInt].
    rewrite (bool_decide_false (_ = "-"%char)) by assumption.
    rewrite bool_decide_false by tauto. rewrite <-E, Hu by lia. cbn [negb andb].
    rewrite (proj2 (Z.leb_gt _ _)) by (unfold int64_max; lia). reflexivity.
Qed.

End Strconv.

(** ** sort.Strings *)

Definition sort_Strings (l : list string) : list string := merge_sort String.le l.

Lemma sort_Strings_perm l : sort_Strings l ≡ₚ l.
Proof. apply merge_sort_Permutation. Qed.

Lemma sort_Strings_sorted l : StronglySorted String.le (sort_Strings l).
Proof. apply (StronglySorted_merge_sort String.le). Qed.

(** Strings that are distinct have exactly one sorted order. *)
Lemma sort_Strings_unique l1 l2 :
  StronglySorted String.le l1 -> l1 ≡ₚ l2 -> sort_Strings l2 = l1.
Proof.
  intros Hs Hp. apply (StronglySorted_unique String.le).
  - apply sort_Strings_sorted.
  - done.
  - by rewrite sort_Strings_perm.
Qed.

(** ** The order of [range] over a map *)

(** Go visits the entries of a map in an order it does not specify, which may
    differ from one [range] to the next.  A [MapOrder] is one such choice. *)
Record MapOrder := mkMapOrder {
  visit : ∀ {A : Type}, list A -> list A;
  visit_perm : ∀ A (l : list A), visit l ≡ₚ l
}.
Arguments visit _ {A} l.

Definition in_order : MapOrder := mkMapOrder (λ A l, l) (λ A l, reflexivity l).
Definition reversed : MapOrder :=
  mkMapOrder (λ A l, reverse l) (λ A l, reverse_Permutation l).

Lemma elem_of_visit {A} (o : MapOrder) (l : list A) x : x ∈ visit o l <-> x ∈ l.
Proof. by rewrite (visit_perm o). Qed.

Lemma NoDup_visit {A} (o : MapOrder) (l : list A) : NoDup (visit o l) <-> NoDup l.
Proof. by rewrite (visit_perm o). Qed.

#[export] Hint Rewrite @elem_of_visit @NoDup_visit : zodiac_rw.

(** ** Buffered channels *)

Module Chan.

Record chan (A : Type) := mkChan { cap : nat; buf : list A; closed : bool }.
Arguments mkChan {A} _ _ _.
Arguments cap {A} _.
Arguments buf {A} _.
Arguments closed {A} _.

Definition make {A} (n : nat) : chan A := mkChan n [] false.

(** [ch <- x]: a panic on a closed channel, blocks when the buffer is full. *)
Definition send {A} (x : A) (ch : chan A) : go (chan A) :=
  if closed ch then Panic "send on closed channel"
  else if Nat.ltb (length (buf ch)) (cap ch) then Ret (mkChan (cap ch) (buf ch ++ [x]) false)
  else Block.

(** [select { case ch <- x: default: }]. *)
Definition try_send {A} (x : A) (ch : chan A) : go (chan A) :=
  match send x ch with Block => Ret ch | r => r end.

(** [v, ok := <-ch]: [None] when the channel is closed and drained. *)
Definition recv {A} (ch : chan A) : go (option A * chan A) :=
  match buf ch with
  | x :: rest => Ret (Some x, mkChan (cap ch) rest (closed ch))
  | [] => if closed ch then Ret (None, ch) else Block
  end.

Definition close {A} (ch : chan A) : go (chan A) :=
  if closed ch then Panic "close of closed channel"
  else Ret (mkChan (cap ch) (buf ch) true).

(** A channel is open with room for one more element. *)
Definition ready {A} (ch : chan A) : Prop :=
  closed ch = false ∧ (length (buf ch) < cap ch)%nat.

Lemma send_ready {A} (x : A) ch :
  ready ch -> send x ch = Ret (mkChan (cap ch) (buf ch ++ [x]) false).
Proof.
  intros [Ho Hr]. unfold send. rewrite Ho. by rewrite (proj2 (Nat.ltb_lt _ _)) by done.
Qed.

Lemma try_send_open {A} (x : A) ch :
  closed ch = false ->
  try_send x ch = Ret (mkChan (cap ch)
    (if Nat.ltb (length (buf ch)) (cap ch) then buf ch ++ [x] else buf ch) false).
Proof.
  intros Ho. unfold try_send, send. rewrite Ho.
  destruct ch as [c b cl]; simpl in *; subst. by destruct (Nat.ltb _ _).
Qed.

End Chan.

(** ** Slices and integer remainder *)

(** [l[i]]: a panic when the index is out of range. *)
Definition slice_get {A} (l : list A) (i : Z) : go A :=
  if (i <? 0) then Panic "index out of range"
  else match l !! Z.to_nat i with
       | Some x => Ret x
       | None => Panic "index out of range"
       end.

(** [l[i] = x]. *)
Definition slice_set {A} (l : list A) (i : Z) (x : A) : go (list A) :=
  if (0 <=? i) && (i <? Z.of_nat (length l)) then Ret (<[Z.to_nat i := x]> l)
  else Panic "index out of range".

(** [a % b]. *)
Definition go_rem (a b : Z) : go Z :=
  if b =? 0 then Panic "integer divide by zero" else Ret (Z.rem a b).

Lemma go_rem_mod a b : 0 <= a -> 0 < b -> go_rem a b = Ret (a `mod` b).
Proof.
  intros. unfold go_rem. destruct (Z.eqb_spec b 0); [lia|].
  by rewrite Z.rem_mod_nonneg by lia.
Qed.

Lemma slice_get_Some {A} (l : list A) i x :
  0 <= i -> l !! Z.to_nat i = Some x -> slice_get l i = Ret x.
Proof. intros. unfold slice_get. rewrite (proj2 (Z.ltb_ge i 0)) by done. by case_match; simplify_eq. Qed.

Lemma slice_set_in {A} (l : list A) i x :
  0 <= i < Z.of_nat (length l) -> slice_set l i x = Ret (<[Z.to_nat i := x]> l).
Proof.
  intros. unfold slice_set. by rewrite (proj2 (Z.leb_le _ _)), (proj2 (Z.ltb_lt _ _)) by lia.
Qed.
