(* ===== verification/Utf8.v ===== *)
(** * UTF-8: what encoding/json uses of unicode/utf8

    A Go string is a sequence of bytes; [range] over it and the JSON encoder read
    it as a sequence of runes, where a byte that does not start a well-formed
    encoding counts as one [RuneError].  [decodeAll] is that loop, [EncodeRune] the
    way back; [Valid] strings go around unchanged, and [ToValidUTF8] is what
    happens to the other ones. *)

From S2P Require Import Prelude GoLib.
From Stdlib Require Import Ascii.
From Stdlib Require String.

(** ** Bytes and runes *)

Definition code (c : ascii) : Z := Z.of_N (N_of_ascii c).
Definition char (z : Z) : ascii := ascii_of_N (Z.to_N z).

Lemma code_range c : 0 <= code c < 256.
Proof. unfold code. pose proof (N_ascii_bounded c). lia. Qed.

Lemma char_code c : char (code c) = c.
Proof. unfold char, code. by rewrite N2Z.id, ascii_N_embedding. Qed.

Lemma code_char z : 0 <= z < 256 -> code (char z) = z.
Proof. intros. unfold char, code. rewrite N_ascii_embedding by lia. lia. Qed.

Definition RuneError : Z := 65533.
Definition between (lo hi z : Z) : bool := (lo <=? z) && (z <=? hi).

(** Code points without the surrogates. *)
Definition scalar (r : Z) : bool := between 0 55295 r || between 57344 1114111 r.

Lemma between_iff lo hi z : between lo hi z = true <-> lo <= z <= hi.
Proof. unfold between. rewrite andb_true_iff, !Z.leb_le. lia. Qed.

Lemma scalar_iff r : scalar r = true <-> 0 <= r <= 55295 ∨ 57344 <= r <= 1114111.
Proof. unfold scalar. by rewrite orb_true_iff, !between_iff. Qed.

(** [utf8.EncodeRune]. *)
Definition encodeScalar (r : Z) : string :=
  if r <? 128 then String (char r) ""
  else if r <? 2048 then String (char (192 + r / 64)) (String (char (128 + r `mod` 64)) "")
  else if r <? 65536 then
    String (char (224 + r / 4096)) (String (char (128 + (r / 64) `mod` 64))
      (String (char (128 + r `mod` 64)) ""))
  else
    String (char (240 + r / 262144)) (String (char (128 + (r / 4096) `mod` 64))
      (String (char (128 + (r / 64) `mod` 64)) (String (char (128 + r `mod` 64)) ""))).
Definition EncodeRune (r : Z) : string :=
  encodeScalar (if scalar r then r else RuneError).

(** [utf8.DecodeRune] on a string that is not empty: the rune and its width; an
    ill-formed start is [None] with width 1. *)
Definition cont (c : ascii) : bool := between 128 191 (code c).
(** The second byte has a smaller range after some first bytes. *)
Definition second (b0 : Z) (c : ascii) : bool :=
  if b0 =? 224 then between 160 191 (code c)
  else if b0 =? 237 then between 128 159 (code c)
  else if b0 =? 240 then between 144 191 (code c)
  else if b0 =? 244 then between 128 143 (code c)
  else cont c.

Definition DecodeRune (s : string) : option Z * nat :=
  match s with
  | EmptyString => (None, 0%nat)
  | String c0 s0 =>
      let b0 := code c0 in
      if b0 <? 128 then (Some b0, 1%nat)
      else if between 194 223 b0 then
        match s0 with
        | String c1 _ =>
            if cont c1 then (Some ((b0 - 192) * 64 + (code c1 - 128)), 2%nat) else (None, 1%nat)
        | _ => (None, 1%nat)
        end
      else if between 224 239 b0 then
        match s0 with
        | String c1 (String c2 _) =>
            if second b0 c1 && cont c2
            then (Some ((b0 - 224) * 4096 + (code c1 - 128) * 64 + (code c2 - 128)), 3%nat)
            else (None, 1%nat)
        | _ => (None, 1%nat)
        end
      else if between 240 244 b0 then
        match s0 with
        | String c1 (String c2 (String c3 _)) =>
            if second b0 c1 && cont c2 && cont c3
            then (Some ((b0 - 240) * 262144 + (code c1 - 128) * 4096 + (code c2 - 128) * 64 +
                    (code c3 - 128)), 4%nat)
            else (None, 1%nat)
        | _ => (None, 1%nat)
        end
      else (None, 1%nat)
  end.

(** The loop over a string; [skip] bytes still belong to the last rune. *)
Fixpoint decodeFrom (skip : nat) (s : string) : list (option Z) :=
  match s with
  | EmptyString => []
  | String _ s' =>
      match skip with
      | S k => decodeFrom k s'
      | O => (DecodeRune s).1 :: decodeFrom (pred (DecodeRune s).2) s'
      end
  end.
Definition decodeAll : string -> list (option Z) := decodeFrom 0.

(** The runes a [range] loop sees. *)
Definition runes (s : string) : list Z := default RuneError <$> decodeAll s.

Fixpoint encodeAll (rs : list Z) : string :=
  match rs with
  | [] => ""
  | r :: rs' => EncodeRune r +:+ encodeAll rs'
  end.

(** [utf8.ValidString] and [strings.ToValidUTF8] with the replacement character
    for every bad byte. *)
Definition Valid (s : string) : bool := forallb (λ o, bool_decide (is_Some o)) (decodeAll s).
Definition ToValidUTF8 (s : string) : string := encodeAll (runes s).

Definition scalars (rs : list Z) : Prop := Forall (λ r, scalar r = true) rs.

(** ** One rune *)

Ltac decide_bools :=
  repeat match goal with
  | |- context [?a <? ?b] => destruct (Z.ltb_spec a b); try lia
  | |- context [?a =? ?b] => destruct (Z.eqb_spec a b); try lia
  | |- context [?a <=? ?b] => destruct (Z.leb_spec a b); try lia
  end; cbn [andb orb negb].
Ltac decode_digits :=
  cbn [DecodeRune]; unfold second, cont; rewrite !code_char by lia; unfold between; decide_bools;
  f_equal; f_equal; lia.

Lemma decode2 a b s :
  2 <= a < 32 -> 0 <= b < 64 ->
  DecodeRune (String (char (192 + a)) (String (char (128 + b)) s)) = (Some (64 * a + b), 2%nat).
Proof. intros. decode_digits. Qed.

Lemma decode3 a b c s :
  0 <= a < 16 -> 0 <= b < 64 -> 0 <= c < 64 -> scalar (4096 * a + 64 * b + c) = true ->
  2048 <= 4096 * a + 64 * b + c ->
  DecodeRune (String (char (224 + a)) (String (char (128 + b)) (String (char (128 + c)) s))) =
    (Some (4096 * a + 64 * b + c), 3%nat).
Proof. intros ??? ?%scalar_iff ?. decode_digits. Qed.

Lemma decode4 a b c d s :
  0 <= a < 5 -> 0 <= b < 64 -> 0 <= c < 64 -> 0 <= d < 64 ->
  65536 <= 262144 * a + 4096 * b + 64 * c + d <= 1114111 ->
  DecodeRune (String (char (240 + a)) (String (char (128 + b)) (String (char (128 + c))
    (String (char (128 + d)) s)))) = (Some (262144 * a + 4096 * b + 64 * c + d), 4%nat).
Proof. intros. decode_digits. Qed.

(** The digits of a rune in base 64. *)
Lemma digits r : 0 <= r ->
  r = 64 * (r / 64) + r `mod` 64 ∧ 0 <= r `mod` 64 < 64 ∧ 0 <= r / 64.
Proof.
  intros. pose proof (Z.div_mod r 64). pose proof (Z.mod_pos_bound r 64). split_and!; [lia..|].
  apply Z.div_pos; lia.
Qed.

Lemma decode_encodeScalar r s :
  scalar r = true ->
  DecodeRune (encodeScalar r +:+ s) = (Some r, String.length (encodeScalar r)).
Proof.
  intros Hs. pose proof Hs as Hr%scalar_iff. unfold encodeScalar.
  change 262144 with (64 * (64 * 64)). change 4096 with (64 * 64). rewrite <-!Z.div_div by lia.
  destruct (digits r) as (E0 & ? & ?); [lia|].
  destruct (digits (r / 64)) as (E1 & ? & ?); [lia|].
  destruct (digits (r / 64 / 64)) as (E2 & ? & ?); [lia|].
  destruct (Z.ltb_spec r 128); [|destruct (Z.ltb_spec r 2048); [|destruct (Z.ltb_spec r 65536)]];
    rewrite !append_cons; cbn [String.length].
  - cbn [DecodeRune]. rewrite code_char by lia. by decide_bools.
  - rewrite decode2 by lia. do 2 f_equal. lia.
  - assert (E: 4096 * (r / 64 / 64) + 64 * ((r / 64) `mod` 64) + r `mod` 64 = r) by lia.
    rewrite decode3; rewrite ?E; first [done|lia].
  - assert (E: 262144 * (r / 64 / 64 / 64) + 4096 * ((r / 64 / 64) `mod` 64) +
      64 * ((r / 64) `mod` 64) + r `mod` 64 = r) by lia.
    rewrite decode4; rewrite ?E; first [done|lia].
Qed.

(** Bytes given by their digits are the bytes the encoder writes. *)
Lemma char_sub c k : char (k + (code c - k)) = c.
Proof. rewrite <-(char_code c) at 2. f_equal. lia. Qed.

Lemma div_digit k a b : 0 < k -> 0 <= b < k -> (a * k + b) / k = a.
Proof. intros. rewrite Z.div_add_l by lia. rewrite Z.div_small; lia. Qed.
Lemma mod_digit k a b : 0 <= b < k -> (a * k + b) `mod` k = b.
Proof. intros. rewrite Z.add_comm, Z.mod_add by lia. by apply Z.mod_small. Qed.

Lemma encode2 a b : 2 <= a < 32 -> 0 <= b < 64 ->
  encodeScalar (a * 64 + b) = String (char (192 + a)) (String (char (128 + b)) "").
Proof.
  intros. unfold encodeScalar. decide_bools. by rewrite div_digit, mod_digit by lia.
Qed.

Lemma encode3 a b c :
  2048 <= (a * 64 + b) * 64 + c < 65536 -> 0 <= b < 64 -> 0 <= c < 64 ->
  encodeScalar ((a * 64 + b) * 64 + c) =
    String (char (224 + a)) (String (char (128 + b)) (String (char (128 + c)) "")).
Proof.
  intros. unfold encodeScalar. change 4096 with (64 * 64). rewrite <-!Z.div_div by lia. decide_bools.
  by rewrite !div_digit, !mod_digit by lia.
Qed.

Lemma encode4 a b c d :
  65536 <= ((a * 64 + b) * 64 + c) * 64 + d -> 0 <= b < 64 -> 0 <= c < 64 -> 0 <= d < 64 ->
  encodeScalar (((a * 64 + b) * 64 + c) * 64 + d) =
    String (char (240 + a)) (String (char (128 + b)) (String (char (128 + c))
      (String (char (128 + d)) ""))).
Proof.
  intros. unfold encodeScalar. change 262144 with (64 * (64 * 64)). change 4096 with (64 * 64).
  rewrite <-!Z.div_div by lia. decide_bools. by rewrite !div_digit, !mod_digit by lia.
Qed.

Lemma second_cont b0 c : second b0 c = true -> 128 <= code c <= 191.
Proof.
  unfold second, cont. repeat case_match; rewrite between_iff; lia.
Qed.

Lemma DecodeRune_sound s r n :
  DecodeRune s = (Some r, n) ->
  scalar r = true ∧ n = String.length (encodeScalar r) ∧ ∃ rest, s = encodeScalar r +:+ rest.
Proof.
  destruct s as [|c0 s0]; [done|]. cbn [DecodeRune]. pose proof (code_range c0).
  destruct (Z.ltb_spec (code c0) 128) as [Hlt|_].
  { intros [= <- <-]. rewrite scalar_iff. unfold encodeScalar. decide_bools.
    split_and!; [lia|done|]. exists s0. by rewrite char_code. }
  destruct (between 194 223 (code c0)) eqn:E2.
  { apply between_iff in E2. destruct s0 as [|c1 s1]; [done|]. destruct (cont c1) eqn:Ec; [|done].
    apply between_iff in Ec. intros [= <- <-]. rewrite encode2, scalar_iff by lia. rewrite !char_sub.
    split_and!; [lia|done|]. by exists s1. }
  clear E2. destruct (between 224 239 (code c0)) eqn:E3.
  { apply between_iff in E3. destruct s0 as [|c1 [|c2 s2]]; [done..|].
    destruct (second _ c1) eqn:Es; [|done]. destruct (cont c2) eqn:Ec; [|done]. cbn [andb].
    pose proof (second_cont _ _ Es). apply between_iff in Ec. intros [= <- <-].
    replace ((code c0 - 224) * 4096 + (code c1 - 128) * 64 + (code c2 - 128))
      with (((code c0 - 224) * 64 + (code c1 - 128)) * 64 + (code c2 - 128)) by lia.
    revert Es. unfold second. decide_bools; unfold cont; rewrite ?between_iff; intros;
      (rewrite encode3, scalar_iff by lia; rewrite !char_sub;
       split_and!; [lia|done|]; by exists s2). }
  clear E3. destruct (between 240 244 (code c0)) eqn:E4; [|done].
  apply between_iff in E4. destruct s0 as [|c1 [|c2 [|c3 s3]]]; [done..|].
  destruct (second _ c1) eqn:Es; [|done]. destruct (cont c2) eqn:Ec; [|done].
  destruct (cont c3) eqn:Ed; [|done]. cbn [andb]. pose proof (second_cont _ _ Es).
  apply between_iff in Ec, Ed. intros [= <- <-].
  replace ((code c0 - 240) * 262144 + (code c1 - 128) * 4096 + (code c2 - 128) * 64 + (code c3 - 128))
    with ((((code c0 - 240) * 64 + (code c1 - 128)) * 64 + (code c2 - 128)) * 64 + (code c3 - 128)) by lia.
  revert Es. unfold second. decide_bools; unfold cont; rewrite ?between_iff; intros;
    (rewrite encode4, scalar_iff by lia; rewrite !char_sub;
     split_and!; [lia|done|]; by exists s3).
Qed.

(** ** The loop *)

Lemma decodeFrom_skip t s : decodeFrom (String.length t) (t +:+ s) = decodeFrom 0 s.
Proof. induction t as [|c t IH]; [done|]. rewrite append_cons. apply IH. Qed.

Lemma encodeScalar_cons r : ∃ c t, encodeScalar r = String c t.
Proof. unfold encodeScalar. repeat case_match; eauto. Qed.

Lemma decodeAll_encode r s :
  scalar r = true -> decodeAll (EncodeRune r +:+ s) = Some r :: decodeAll s.
Proof.
  intros Hr. unfold EncodeRune, decodeAll. rewrite Hr. pose proof (decode_encodeScalar r s Hr) as Hd.
  destruct (encodeScalar_cons r) as (c & t & E). rewrite E, append_cons in *.
  cbn [decodeFrom]. rewrite Hd. cbn [fst snd String.length pred]. by rewrite decodeFrom_skip.
Qed.

Lemma decodeAll_encodeAll rs s :
  scalars rs -> decodeAll (encodeAll rs +:+ s) = (Some <$> rs) ++ decodeAll s.
Proof.
  induction 1 as [|r rs Hr Hrs IH]; [done|]. cbn [encodeAll].
  by rewrite append_assoc, decodeAll_encode, IH.
Qed.

Lemma runes_encodeAll rs : scalars rs -> runes (encodeAll rs) = rs.
Proof.
  intros Hrs. unfold runes. rewrite <-(append_nil (encodeAll rs)), decodeAll_encodeAll by done.
  rewrite app_nil_r, <-list_fmap_compose. apply list_fmap_id.
Qed.

(** The loop, one rune at a time. *)
Lemma decodeAll_cases s :
  s = "" ∨
  (∃ c s', s = String c s' ∧ decodeAll s = None :: decodeAll s') ∨
  (∃ r rest, scalar r = true ∧ s = EncodeRune r +:+ rest ∧ decodeAll s = Some r :: decodeAll rest).
Proof.
  destruct s as [|c s']; [by left|right]. destruct (DecodeRune (String c s')) as [[r|] n] eqn:E.
  - right. destruct (DecodeRune_sound _ _ _ E) as (Hr & -> & rest & Hs).
    exists r, rest. unfold EncodeRune. rewrite Hr. split_and!; [done|done|].
    rewrite Hs. pose proof (decodeAll_encode r rest Hr) as Hd. unfold EncodeRune in Hd. by rewrite Hr in Hd.
  - left. exists c, s'. split; [done|]. unfold decodeAll. cbn [decodeFrom]. rewrite E. cbn [fst snd].
    assert (n = 1%nat) as ->; [|done]. revert E. cbn [DecodeRune]. repeat case_match; by intros [=].
Qed.

Lemma decode_ind (P : string -> Prop) :
  P "" ->
  (∀ c s, decodeAll (String c s) = None :: decodeAll s -> P s -> P (String c s)) ->
  (∀ r s, scalar r = true -> P s -> P (EncodeRune r +:+ s)) ->
  ∀ s, P s.
Proof.
  intros H0 H1 H2. assert (H: ∀ n s, (String.length s <= n)%nat -> P s).
  2: { intros s. by apply (H (String.length s)). }
  induction n as [|n IH]; intros s Hs.
  { by destruct s; simpl in Hs; [|lia]. }
  destruct (decodeAll_cases s) as [->|[(c & s' & -> & Hd)|(r & rest & Hr & -> & Hd)]]; [done|..].
  - apply H1; [done|]. apply IH. simpl in Hs. lia.
  - apply H2; [done|]. apply IH. rewrite length_append in Hs. unfold EncodeRune in Hs.
    destruct (encodeScalar_cons (if scalar r then r else RuneError)) as (c & t & E).
    rewrite E in Hs. simpl in Hs. lia.
Qed.

Lemma runes_encode r s : scalar r = true -> runes (EncodeRune r +:+ s) = r :: runes s.
Proof. intros. unfold runes. by rewrite decodeAll_encode. Qed.

Lemma scalars_runes s : scalars (runes s).
Proof.
  induction s as [|c s Hd IH|r s Hr IH] using decode_ind; [constructor|..].
  - unfold runes. rewrite Hd. by constructor.
  - rewrite runes_encode by done. by constructor.
Qed.

Lemma ToValid_encode r s : scalar r = true -> ToValidUTF8 (EncodeRune r +:+ s) = EncodeRune r +:+ ToValidUTF8 s.
Proof. intros. unfold ToValidUTF8. by rewrite runes_encode. Qed.

Lemma ToValid_Valid s : Valid s = true -> ToValidUTF8 s = s.
Proof.
  unfold Valid. induction s as [|c s Hd IH|r s Hr IH] using decode_ind; [done|..].
  - rewrite Hd. simpl. done.
  - rewrite decodeAll_encode by done. intros H. rewrite ToValid_encode by done. f_equal. by apply IH.
Qed.

Lemma Valid_encodeAll rs : scalars rs -> Valid (encodeAll rs) = true.
Proof.
  intros Hrs. unfold Valid. rewrite <-(append_nil (encodeAll rs)), decodeAll_encodeAll by done.
  rewrite app_nil_r. clear Hrs. by induction rs.
Qed.

Lemma Valid_ToValid s : Valid (ToValidUTF8 s) = true.
Proof. apply Valid_encodeAll, scalars_runes. Qed.

Lemma Valid_ToValid_iff s : Valid s = true <-> ToValidUTF8 s = s.
Proof. split; [apply ToValid_Valid|]. intros <-. apply Valid_ToValid. Qed.

Lemma runes_app_ascii c s : code c < 128 -> runes (String c s) = code c :: runes s.
Proof.
  intros Hc. pose proof (code_range c). unfold runes, decodeAll. cbn [decodeFrom].
  assert (DecodeRune (String c s) = (Some (code c), 1%nat)) as ->; [|done].
  cbn [DecodeRune]. by decide_bools.
Qed.
