(* ===== verification/Json.v ===== *)
(** * JSON text: what the program uses of encoding/json

    A JSON document as a tree, the text [json.Marshal] writes for it (strings
    escaped as with the default HTML escaping), and the grammar the decoder
    accepts: white space, escapes with surrogate pairs, numbers with fraction
    and exponent, and the limit of 10000 on nesting.  Text is a sequence of runes;
    [Utf8] relates it to bytes.

    [parseValue] recurses on the nesting of the text, so it takes fuel;
    [parse_fuel] shows that the length of the text bounds what it needs.
    [parse_print] is the round trip: a printed document is read back with every
    string made valid UTF-8 and nothing else changed. *)

From S2P Require Import Prelude GoLib Utf8.
From Stdlib Require Import Ascii.
From Stdlib Require String.

Definition text : Type := list Z.

(** The text of an ASCII literal. *)
Fixpoint codes (s : string) : text :=
  match s with
  | EmptyString => []
  | String c s' => code c :: codes s'
  end.

(** ** Documents *)

(** Numbers are kept as the text of their literal; object members in their order,
    duplicates included. *)
Unset Elimination Schemes.
Inductive json :=
| JNull
| JBool (b : bool)
| JNumber (literal : text)
| JString (s : string)
| JArray (l : list json)
| JObject (ms : list (string * json)).
Set Elimination Schemes.

Section json_induction.
Variable P : json -> Prop.
Hypothesis P_null : P JNull.
Hypothesis P_bool : ∀ b, P (JBool b).
Hypothesis P_number : ∀ lit, P (JNumber lit).
Hypothesis P_string : ∀ s, P (JString s).
Hypothesis P_array : ∀ l, Forall P l -> P (JArray l).
Hypothesis P_object : ∀ ms, Forall (λ m, P m.2) ms -> P (JObject ms).

Fixpoint json_ind (j : json) : P j :=
  match j with
  | JNull => P_null
  | JBool b => P_bool b
  | JNumber lit => P_number lit
  | JString s => P_string s
  | JArray l =>
      P_array l ((fix go l : Forall P l :=
        match l with
        | [] => Forall_nil_2 P
        | x :: l' => Forall_cons_2 P x l' (json_ind x) (go l')
        end) l)
  | JObject ms =>
      P_object ms ((fix go ms : Forall (λ m, P m.2) ms :=
        match ms with
        | [] => Forall_nil_2 _
        | m :: ms' => Forall_cons_2 _ m ms' (json_ind m.2) (go ms')
        end) ms)
  end.
End json_induction.

(** ** Printing *)

Definition hexDigit (d : Z) : Z := if d <? 10 then 48 + d else 87 + d.
(** A rune below 65536 as a [\u] escape. *)
Definition escapeU (r : Z) : text :=
  [92; 117; hexDigit (r / 4096); hexDigit ((r / 256) `mod` 16); hexDigit ((r / 16) `mod` 16);
   hexDigit (r `mod` 16)].

(** The escapes with a letter of their own. *)
Definition shortEscapes : list (Z * Z) :=
  [(34, 34); (92, 92); (8, 98); (12, 102); (10, 110); (13, 114); (9, 116)].

Definition shortEscape (r : Z) : option Z :=
  snd <$> find (λ p, p.1 =? r) shortEscapes.

(** Control characters, the three characters that matter in HTML, and the two
    line separators of JavaScript. *)
Definition needsEscape (r : Z) : bool :=
  (r <? 32) || (r =? 38) || (r =? 60) || (r =? 62) || (r =? 8232) || (r =? 8233).

Definition quoteRune (o : option Z) : text :=
  match o with
  | None => escapeU RuneError
  | Some r =>
      match shortEscape r with
      | Some e => [92; e]
      | None => if needsEscape r then escapeU r else [r]
      end
  end.

Definition quoteBody (s : string) : text := decodeAll s ≫= quoteRune.
Definition quote (s : string) : text := 34 :: quoteBody s ++ [34].

Fixpoint joinComma (l : list text) : text :=
  match l with
  | [] => []
  | [t] => t
  | t :: l' => t ++ 44 :: joinComma l'
  end.

Fixpoint print (j : json) : text :=
  match j with
  | JNull => codes "null"
  | JBool true => codes "true"
  | JBool false => codes "false"
  | JNumber lit => lit
  | JString s => quote s
  | JArray l => 91 :: joinComma (print <$> l) ++ [93]
  | JObject ms => 123 :: joinComma ((λ m, quote m.1 ++ 58 :: print m.2) <$> ms) ++ [125]
  end.

(** ** Reading *)

Definition isSpace (c : Z) : bool := (c =? 32) || (c =? 9) || (c =? 13) || (c =? 10).

Fixpoint skipSpace (t : text) : text :=
  match t with
  | c :: t' => if isSpace c then skipSpace t' else t
  | [] => []
  end.

Definition hexVal (c : Z) : option Z :=
  if between 48 57 c then Some (c - 48)
  else if between 97 102 c then Some (c - 87)
  else if between 65 70 c then Some (c - 55)
  else None.

Definition hex4 (h1 h2 h3 h4 : Z) : option Z :=
  a ← hexVal h1; b ← hexVal h2; c ← hexVal h3; d ← hexVal h4;
  Some (a * 4096 + b * 256 + c * 16 + d).

Definition getu4 (t : text) : option Z :=
  match t with
  | c :: u :: h1 :: h2 :: h3 :: h4 :: _ =>
      if (c =? 92) && (u =? 117) then hex4 h1 h2 h3 h4 else None
  | _ => None
  end.

Definition unescape (e : Z) : option Z :=
  if e =? 47 then Some 47 else fst <$> find (λ p, p.2 =? e) shortEscapes.

Definition surrogate (u : Z) : bool := between 55296 57343 u.

(** [utf16.DecodeRune] of a surrogate and the escape that follows it, if any. *)
Definition surrogatePair (u : Z) (next : text) : option Z :=
  lo ← getu4 next;
  if between 55296 56319 u && between 56320 57343 lo
  then Some ((u - 55296) * 1024 + (lo - 56320) + 65536) else None.

Definition push (r : Z) (o : option (list Z * text)) : option (list Z * text) :=
  q ← o; Some (r :: q.1, q.2).

(** The rest of a string literal, after its opening quote. *)
Fixpoint lexString (t : text) : option (list Z * text) :=
  match t with
  | [] => None
  | c :: t1 =>
      if c =? 34 then Some ([], t1)
      else if c =? 92 then
        match t1 with
        | e :: t2 =>
            match unescape e with
            | Some r => push r (lexString t2)
            | None =>
                if e =? 117 then
                  match t2 with
                  | h1 :: h2 :: h3 :: h4 :: t6 =>
                      match hex4 h1 h2 h3 h4 with
                      | None => None
                      | Some u =>
                          if surrogate u then
                            match surrogatePair u t6 with
                            | Some r =>
                                match t6 with
                                | _ :: _ :: _ :: _ :: _ :: _ :: t12 => push r (lexString t12)
                                | _ => None
                                end
                            | None => push RuneError (lexString t6)
                            end
                          else push u (lexString t6)
                      end
                  | _ => None
                  end
                else None
            end
        | [] => None
        end
      else if c <? 32 then None
      else push c (lexString t1)
  end.

Definition isDigit (c : Z) : bool := between 48 57 c.

Fixpoint spanDigits (t : text) : text * text :=
  match t with
  | c :: t' => if isDigit c then let q := spanDigits t' in (c :: q.1, q.2) else ([], t)
  | [] => ([], [])
  end.

(** One digit or more, after [acc]. *)
Definition digits1 (acc t : text) : option (text * text) :=
  match spanDigits t with
  | ([], _) => None
  | (ds, t') => Some (acc ++ ds, t')
  end.

Definition lexExp (acc t : text) : option (text * text) :=
  match t with
  | e :: t1 =>
      if (e =? 101) || (e =? 69) then
        match t1 with
        | s :: t2 =>
            if (s =? 43) || (s =? 45) then digits1 (acc ++ [e; s]) t2 else digits1 (acc ++ [e]) t1
        | [] => None
        end
      else Some (acc, t)
  | [] => Some (acc, [])
  end.

Definition lexFrac (acc t : text) : option (text * text) :=
  match t with
  | p :: t1 => if p =? 46 then q ← digits1 (acc ++ [46]) t1; lexExp q.1 q.2 else lexExp acc t
  | [] => lexExp acc t
  end.

Definition lexInt (acc t : text) : option (text * text) :=
  match t with
  | c :: t1 =>
      if c =? 48 then lexFrac (acc ++ [48]) t1
      else if between 49 57 c then
        let q := spanDigits t1 in lexFrac (acc ++ c :: q.1) q.2
      else None
  | [] => None
  end.

Definition lexNumber (t : text) : option (text * text) :=
  match t with
  | c :: t1 => if c =? 45 then lexInt [45] t1 else lexInt [] t
  | [] => None
  end.

(** A keyword at the start of the text. *)
Fixpoint keyword (w t : text) : option text :=
  match w, t with
  | [], _ => Some t
  | a :: w', b :: t' => if a =? b then keyword w' t' else None
  | _ :: _, [] => None
  end.

(** The rest of the text after the next token, when that is [c]. *)
Definition closes (c : Z) (t : text) : option text :=
  match skipSpace t with
  | d :: t' => if d =? c then Some t' else None
  | [] => None
  end.

Definition maxNestingDepth : Z := 10000.

Fixpoint parseValue (fuel : nat) (depth : Z) (t : text) {struct fuel} : option (json * text) :=
  match fuel with
  | O => None
  | S fuel' =>
      match skipSpace t with
      | [] => None
      | c :: t1 =>
          if c =? 123 then
            if maxNestingDepth <=? depth then None
            else match closes 125 t1 with
                 | Some t2 => Some (JObject [], t2)
                 | None => q ← parseMembers fuel' (depth + 1) t1; Some (JObject q.1, q.2)
                 end
          else if c =? 91 then
            if maxNestingDepth <=? depth then None
            else match closes 93 t1 with
                 | Some t2 => Some (JArray [], t2)
                 | None => q ← parseElems fuel' (depth + 1) t1; Some (JArray q.1, q.2)
                 end
          else if c =? 34 then q ← lexString t1; Some (JString (encodeAll q.1), q.2)
          else if c =? 116 then t2 ← keyword (codes "rue") t1; Some (JBool true, t2)
          else if c =? 102 then t2 ← keyword (codes "alse") t1; Some (JBool false, t2)
          else if c =? 110 then t2 ← keyword (codes "ull") t1; Some (JNull, t2)
          else q ← lexNumber (c :: t1); Some (JNumber q.1, q.2)
      end
  end
with parseElems (fuel : nat) (depth : Z) (t : text) {struct fuel} : option (list json * text) :=
  match fuel with
  | O => None
  | S fuel' =>
      q ← parseValue fuel' depth t;
      match skipSpace q.2 with
      | [] => None
      | c :: t1 =>
          if c =? 44 then r ← parseElems fuel' depth t1; Some (q.1 :: r.1, r.2)
          else if c =? 93 then Some ([q.1], t1)
          else None
      end
  end
with parseMembers (fuel : nat) (depth : Z) (t : text) {struct fuel}
    : option (list (string * json) * text) :=
  match fuel with
  | O => None
  | S fuel' =>
      match skipSpace t with
      | [] => None
      | c :: t1 =>
          if c =? 34 then
            k ← lexString t1;
            match skipSpace k.2 with
            | [] => None
            | d :: t2 =>
                if d =? 58 then
                  q ← parseValue fuel' depth t2;
                  match skipSpace q.2 with
                  | [] => None
                  | e :: t3 =>
                      if e =? 44 then
                        r ← parseMembers fuel' depth t3;
                        Some ((encodeAll k.1, q.1) :: r.1, r.2)
                      else if e =? 125 then Some ([(encodeAll k.1, q.1)], t3)
                      else None
                  end
                else None
            end
          else None
      end
  end.

Definition parseText (t : text) : option (json * text) :=
  parseValue (S (2 * length t)) 0 t.

(** [json.Decoder.Decode] reads the first value of its input; [json.Unmarshal] the
    only one. *)
Definition decodeDoc (s : string) : option json := fst <$> parseText (runes s).
Definition unmarshalDoc (s : string) : option json :=
  q ← parseText (runes s); if bool_decide (skipSpace q.2 = []) then Some q.1 else None.

(** [json.Marshal], and [json.Encoder.Encode] that adds a newline. *)
Definition marshalDoc (j : json) : string := encodeAll (print j).
Definition encodeDoc (j : json) : string := encodeAll (print j ++ [10]).

(** ** The parser consumes its input *)

Lemma skipSpace_length t : (length (skipSpace t) <= length t)%nat.
Proof. induction t as [|c t IH]; simpl; [done|]. case_match; simpl; lia. Qed.

Lemma skipSpace_cons t c t1 : skipSpace t = c :: t1 -> (length t1 < length t)%nat.
Proof. intros E. pose proof (skipSpace_length t). rewrite E in *. simpl in *. lia. Qed.

Lemma closes_length c t t' : closes c t = Some t' -> (length t' < length t)%nat.
Proof.
  unfold closes. destruct (skipSpace t) as [|d t1] eqn:E; [done|]. case_match; [|done].
  intros [= ->]. by eapply skipSpace_cons.
Qed.

Lemma push_Some r o k t : push r o = Some (k, t) -> ∃ k', o = Some (k', t) ∧ k = r :: k'.
Proof. destruct o as [[k' t']|]; simpl; [|done]. intros [= <- <-]. eauto. Qed.

Lemma lexString_length t k t' : lexString t = Some (k, t') -> (length t' < length t)%nat.
Proof.
  remember (length t) as n eqn:Hn. revert t k t' Hn.
  induction (lt_wf n) as [n _ IH]. intros t k t' -> H.
  assert (Hrec: ∀ r t2, (length t2 < length t)%nat -> push r (lexString t2) = Some (k, t') ->
    (length t' < length t)%nat).
  { intros r t2 Hlt (k' & E & _)%push_Some. pose proof (IH _ Hlt _ _ _ eq_refl E). lia. }
  clear IH. destruct t as [|c t1]; [done|]. cbn [lexString] in H.
  repeat case_match; simplify_eq; try done; simpl in *; try lia;
    (eapply Hrec; [|eassumption]; lia).
Qed.

Lemma spanDigits_length t : (length (spanDigits t).2 <= length t)%nat.
Proof. induction t as [|c t IH]; simpl; [done|]. case_match; simpl; lia. Qed.

Lemma digits1_length acc t acc' t' :
  digits1 acc t = Some (acc', t') -> (length t' <= length t)%nat.
Proof.
  unfold digits1. pose proof (spanDigits_length t) as Hl.
  destruct (spanDigits t) as [[|d ds] t1]; simpl in *; [done|]. intros [= _ <-]. lia.
Qed.

Lemma lexExp_length acc t acc' t' :
  lexExp acc t = Some (acc', t') -> (length t' <= length t)%nat.
Proof.
  unfold lexExp. repeat case_match; intros; simplify_eq/=; try lia;
    (etrans; [by eapply digits1_length|simpl; lia]).
Qed.

Lemma lexFrac_length acc t acc' t' :
  lexFrac acc t = Some (acc', t') -> (length t' <= length t)%nat.
Proof.
  unfold lexFrac. destruct t as [|p t1]; [apply lexExp_length|]. case_match; [|apply lexExp_length].
  destruct (digits1 _ t1) as [[a t2]|] eqn:E; simpl; [|done].
  intros H1%lexExp_length. apply digits1_length in E. lia.
Qed.

Lemma lexNumber_length t acc t' :
  lexNumber t = Some (acc, t') -> (length t' < length t)%nat.
Proof.
  assert (Hint: ∀ a u, lexInt a u = Some (acc, t') -> (length t' < length u)%nat).
  { intros a [|c u]; simpl; [done|]. pose proof (spanDigits_length u).
    repeat case_match; try done; intros Hf%lexFrac_length; lia. }
  unfold lexNumber. destruct t as [|c t1]; [done|].
  case_match; [|apply Hint]. intros H1%Hint. simpl. lia.
Qed.

Lemma keyword_length w t t' : keyword w t = Some t' -> (length t' <= length t)%nat.
Proof.
  revert t. induction w as [|a w IH]; intros t; [by intros [= ->]|].
  destruct t as [|b t]; simpl; [done|]. case_match; [|done]. intros ?%IH. lia.
Qed.

(** Case analysis of a successful parse in [H]. *)
Ltac parsed H :=
  repeat first
  [ apply bind_Some in H as ([? ?] & ? & H); cbn [fst snd] in H
  | apply bind_Some in H as (? & ? & H)
  | case_match; try discriminate H ];
  try (injection H as ? ?); subst.
Ltac consumed :=
  repeat match goal with
  | E : skipSpace _ = _ :: _ |- _ => apply skipSpace_cons in E
  | E : closes _ _ = Some _ |- _ => apply closes_length in E
  | E : lexString _ = Some (_, _) |- _ => apply lexString_length in E
  | E : lexNumber _ = Some (_, _) |- _ => apply lexNumber_length in E
  | E : keyword _ _ = Some _ |- _ => apply keyword_length in E
  | IH : (∀ d t j t', parseValue ?f d t = Some (j, t') -> _), E : parseValue ?f _ _ = Some (_, _) |- _ =>
      apply IH in E
  | IH : (∀ d t j t', parseElems ?f d t = Some (j, t') -> _), E : parseElems ?f _ _ = Some (_, _) |- _ =>
      apply IH in E
  | IH : (∀ d t j t', parseMembers ?f d t = Some (j, t') -> _), E : parseMembers ?f _ _ = Some (_, _) |- _ =>
      apply IH in E
  end.

Lemma parse_length fuel :
  (∀ d t j t', parseValue fuel d t = Some (j, t') -> (length t' < length t)%nat) ∧
  (∀ d t js t', parseElems fuel d t = Some (js, t') -> (length t' < length t)%nat) ∧
  (∀ d t ms t', parseMembers fuel d t = Some (ms, t') -> (length t' < length t)%nat).
Proof.
  induction fuel as [|fuel (IHv & IHe & IHm)]; [by split_and!|].
  split_and!; intros d t x t' H; cbn [parseValue parseElems parseMembers] in H;
    parsed H; consumed; simpl in *; lia.
Qed.

(** Fuel beyond twice the length of the text changes nothing: the parser never stops for
    want of it. *)
Lemma parse_fuel_all n : ∀ f1 f2 d t,
  (length t <= n)%nat ->
  ((2 * length t < f1)%nat -> (2 * length t < f2)%nat -> parseValue f1 d t = parseValue f2 d t) ∧
  ((2 * length t + 1 < f1)%nat -> (2 * length t + 1 < f2)%nat -> parseElems f1 d t = parseElems f2 d t) ∧
  ((2 * length t + 1 < f1)%nat -> (2 * length t + 1 < f2)%nat ->
     parseMembers f1 d t = parseMembers f2 d t).
Proof.
  induction n as [n IH] using lt_wf_ind. intros f1 f2 d t Hn.
  assert (Hv: ∀ g1 g2 d' t', (length t' < length t)%nat -> (2 * length t' < g1)%nat ->
    (2 * length t' < g2)%nat -> parseValue g1 d' t' = parseValue g2 d' t').
  { intros g1 g2 d' t' Hlt ??. by apply (IH (length t') ltac:(lia) g1 g2 d' t'). }
  assert (He: ∀ g1 g2 d' t', (length t' < length t)%nat -> (2 * length t' + 1 < g1)%nat ->
    (2 * length t' + 1 < g2)%nat -> parseElems g1 d' t' = parseElems g2 d' t').
  { intros g1 g2 d' t' Hlt ??. by apply (IH (length t') ltac:(lia) g1 g2 d' t'). }
  assert (Hm: ∀ g1 g2 d' t', (length t' < length t)%nat -> (2 * length t' + 1 < g1)%nat ->
    (2 * length t' + 1 < g2)%nat -> parseMembers g1 d' t' = parseMembers g2 d' t').
  { intros g1 g2 d' t' Hlt ??. by apply (IH (length t') ltac:(lia) g1 g2 d' t'). }
  clear IH. assert (Hval: ∀ g1 g2, (2 * length t < g1)%nat -> (2 * length t < g2)%nat ->
    parseValue g1 d t = parseValue g2 d t).
  { intros [|g1] [|g2] ??; try lia. cbn [parseValue].
    destruct (skipSpace t) as [|c t1] eqn:E; [done|]. apply skipSpace_cons in E.
    by rewrite (Hm g1 g2), (He g1 g2) by lia. }
  split_and!; [apply Hval|..]; destruct f1 as [|f1], f2 as [|f2]; intros; try lia;
    cbn [parseElems parseMembers].
  - rewrite (Hval f1 f2) by lia. destruct (parseValue f2 d t) as [[j t1]|] eqn:E; [|done].
    apply parse_length in E. cbn [mbind option_bind fst snd].
    destruct (skipSpace t1) as [|c t2] eqn:E2; [done|]. apply skipSpace_cons in E2.
    by rewrite (He f1 f2) by lia.
  - destruct (skipSpace t) as [|c t1] eqn:E; [done|]. apply skipSpace_cons in E.
    destruct (lexString t1) as [[k t2]|] eqn:Ek; [|done]. apply lexString_length in Ek.
    cbn [mbind option_bind fst snd]. destruct (skipSpace t2) as [|c2 t3] eqn:E3; [done|].
    apply skipSpace_cons in E3. rewrite (Hv f1 f2) by lia.
    destruct (parseValue f2 d t3) as [[j t4]|] eqn:Ej; [|done]. apply parse_length in Ej.
    cbn [mbind option_bind fst snd]. destruct (skipSpace t4) as [|c4 t5] eqn:E5; [done|].
    apply skipSpace_cons in E5. by rewrite (Hm f1 f2) by lia.
Qed.

Lemma parse_fuel f d t :
  (2 * length t < f)%nat -> parseValue f d t = parseValue (S (2 * length t)) d t.
Proof. intros. by apply (parse_fuel_all (length t)); [|lia|lia]. Qed.

(** ** Reading back what was printed *)

(** A document whose strings went through UTF-8. *)
Fixpoint clean (j : json) : json :=
  match j with
  | JString s => JString (ToValidUTF8 s)
  | JArray l => JArray (clean <$> l)
  | JObject ms => JObject ((λ m, (ToValidUTF8 m.1, clean m.2)) <$> ms)
  | _ => j
  end.

(** The numbers the encoder writes are integers. *)
Definition natText (t : text) : bool :=
  match t with
  | [] => false
  | c :: ds => if c =? 48 then bool_decide (ds = []) else between 49 57 c && forallb isDigit ds
  end.
Definition intText (t : text) : bool :=
  match t with
  | [] => false
  | c :: t' => if c =? 45 then natText t' else natText t
  end.

(** A property of every number of a document. *)
Fixpoint numbers (q : text -> bool) (j : json) : bool :=
  match j with
  | JNumber lit => q lit
  | JArray l => forallb (numbers q) l
  | JObject ms => forallb (λ m, numbers q m.2) ms
  | _ => true
  end.
Definition intDoc : json -> bool := numbers intText.

Fixpoint depthOf (j : json) : Z :=
  match j with
  | JArray l => 1 + foldr Z.max 0 (depthOf <$> l)
  | JObject ms => 1 + foldr Z.max 0 ((λ m, depthOf m.2) <$> ms)
  | _ => 0
  end.

(** Text that cannot continue a number. *)
Definition stops (t : text) : bool :=
  match t with
  | [] => true
  | c :: _ => negb (isDigit c || (c =? 46) || (c =? 101) || (c =? 69))
  end.

(** *** Strings *)

Lemma hexVal_hexDigit d : 0 <= d < 16 -> hexVal (hexDigit d) = Some d.
Proof. intros. unfold hexVal, hexDigit, between. decide_bools; f_equal; lia. Qed.

Lemma hex4_digits r :
  0 <= r < 65536 ->
  hex4 (hexDigit (r / 4096)) (hexDigit ((r / 256) `mod` 16)) (hexDigit ((r / 16) `mod` 16))
    (hexDigit (r `mod` 16)) = Some r.
Proof.
  intros. unfold hex4. rewrite !hexVal_hexDigit by (Z.to_euclidean_division_equations; lia).
  simpl. f_equal. Z.to_euclidean_division_equations; lia.
Qed.

Lemma lex_escapeU r t :
  0 <= r < 65536 -> surrogate r = false -> lexString (escapeU r ++ t) = push r (lexString t).
Proof.
  intros Hr Hs. unfold escapeU. cbn [app lexString]. simpl (92 =? 34). simpl (92 =? 92).
  change (unescape 117) with (@None Z). rewrite hex4_digits, Hs by done. done.
Qed.

Lemma shortEscape_sound r e : shortEscape r = Some e -> unescape e = Some r.
Proof.
  unfold shortEscape. cbn [find shortEscapes fst].
  repeat match goal with |- context [?a =? r] => destruct (Z.eqb_spec a r) as [<-|] end;
    simpl; by intros [= <-].
Qed.

Lemma shortEscape_None r : shortEscape r = None -> r ≠ 34 ∧ r ≠ 92.
Proof. intros H. split; by intros ->. Qed.

Lemma lex_quoteRune o t :
  (∀ r, o = Some r -> scalar r = true) ->
  lexString (quoteRune o ++ t) = push (default RuneError o) (lexString t).
Proof.
  intros Ho. destruct o as [r|]; [|by apply lex_escapeU]. specialize (Ho r eq_refl).
  apply scalar_iff in Ho. unfold quoteRune. destruct (shortEscape r) as [e|] eqn:E.
  { apply shortEscape_sound in E. cbn [app lexString]. simpl (92 =? 34). simpl (92 =? 92).
    by rewrite E. }
  apply shortEscape_None in E as [H34 H92]. unfold needsEscape.
  destruct (_ || _) eqn:En.
  - assert (r < 32 ∨ r = 38 ∨ r = 60 ∨ r = 62 ∨ r = 8232 ∨ r = 8233) as Hcase.
    { revert En. decide_bools; intros; first [done|lia]. }
    apply (lex_escapeU r); [lia|]. unfold surrogate, between. decide_bools; first [done|lia].
  - assert (32 <= r) by (revert En; decide_bools; done). cbn [app lexString]. decide_bools. done.
Qed.

Lemma decodeAll_scalar s : Forall (λ o, ∀ r, o = Some r -> scalar r = true) (decodeAll s).
Proof.
  induction s as [|c s Hd IH|r s Hr IH] using decode_ind; [constructor|..].
  - rewrite Hd. by constructor.
  - rewrite decodeAll_encode by done. constructor; [|done]. by intros ? [= <-].
Qed.

Lemma lex_quoteBody s rest :
  lexString (quoteBody s ++ 34 :: rest) = Some (runes s, rest).
Proof.
  unfold quoteBody, runes. induction (decodeAll_scalar s) as [|o os Ho Hos IH]; [done|].
  cbn [mbind list_bind]. rewrite <-app_assoc, lex_quoteRune by done. by rewrite IH.
Qed.

(** *** Numbers *)

Lemma spanDigits_app ds rest :
  forallb isDigit ds = true -> stops rest = true -> spanDigits (ds ++ rest) = (ds, rest).
Proof.
  intros Hds Hr. induction ds as [|d ds IH]; simpl in *.
  - destruct rest as [|c rest]; [done|]. simpl in *. by destruct (isDigit c).
  - apply andb_true_iff in Hds as [-> Hds]. by rewrite IH.
Qed.

Lemma lexFrac_stop acc rest : stops rest = true -> lexFrac acc rest = Some (acc, rest).
Proof.
  destruct rest as [|c rest]; [done|]. simpl. unfold lexExp.
  by destruct (isDigit c), (c =? 46), (c =? 101), (c =? 69).
Qed.

Lemma lexInt_app acc t rest :
  natText t = true -> stops rest = true -> lexInt acc (t ++ rest) = Some (acc ++ t, rest).
Proof.
  intros Ht Hr. destruct t as [|c ds]; [done|]. cbn [app lexInt natText] in *.
  destruct (Z.eqb_spec c 48) as [->|].
  - apply bool_decide_eq_true in Ht as ->. by apply lexFrac_stop.
  - apply andb_true_iff in Ht as [-> Hds]. rewrite spanDigits_app by done. by apply lexFrac_stop.
Qed.

Lemma lexNumber_app t rest :
  intText t = true -> stops rest = true -> lexNumber (t ++ rest) = Some (t, rest).
Proof.
  intros Ht Hr. destruct t as [|c t]; [done|]. cbn [app lexNumber intText] in *.
  destruct (Z.eqb_spec c 45) as [->|]; [by rewrite lexInt_app|].
  change (c :: t ++ rest) with ((c :: t) ++ rest). by rewrite lexInt_app.
Qed.

Lemma intText_head t : intText t = true -> ∃ c t', t = c :: t' ∧ (c = 45 ∨ 48 <= c <= 57).
Proof.
  destruct t as [|c t]; [done|]. simpl. destruct (Z.eqb_spec c 45) as [->|]; [eauto|].
  destruct (Z.eqb_spec c 48) as [->|]; intros H; (eexists _, _; split; [done|]; right); [lia|].
  apply andb_true_iff in H as [H%between_iff _]. lia.
Qed.

(** *** Values *)

Lemma skipSpace_id c t : isSpace c = false -> skipSpace (c :: t) = c :: t.
Proof. simpl. by intros ->. Qed.

Lemma print_head j : intDoc j = true ->
  ∃ c t, print j = c :: t ∧ isSpace c = false ∧ c ≠ 93 ∧ c ≠ 125.
Proof.
  destruct j as [|[]|lit|s|l|ms]; intros Hj; try (by eexists _, _; split_and!).
  destruct (intText_head lit Hj) as (c & t & -> & Hc). exists c, t.
  unfold isSpace. split_and!; [done| |lia|lia]. by decide_bools.
Qed.

Lemma closes_other c d t rest :
  isSpace d = false -> d ≠ c -> closes c ((d :: t) ++ rest) = None.
Proof.
  intros Hs Hd. unfold closes. cbn [app]. rewrite skipSpace_id by done.
  by destruct (Z.eqb_spec d c).
Qed.

(** What the round trip says of one document. *)
Definition readsBack (j : json) : Prop := ∀ d fuel rest,
  depthOf j + d <= maxNestingDepth -> stops rest = true ->
  (2 * length (print j ++ rest) < fuel)%nat ->
  parseValue fuel d (print j ++ rest) = Some (clean j, rest).

Lemma elems_read_back l d fuel rest :
  l ≠ [] -> Forall readsBack l -> foldr Z.max 0 (depthOf <$> l) + d <= maxNestingDepth ->
  (2 * length (joinComma (print <$> l) ++ 93%Z :: rest) + 1 < fuel)%nat ->
  parseElems fuel d (joinComma (print <$> l) ++ 93 :: rest) = Some (clean <$> l, rest).
Proof.
  intros Hne Hl. revert d fuel. induction Hl as [|j l Hj Hl IH]; [done|]. intros d fuel Hd Hf.
  destruct fuel as [|fuel]; [lia|]. cbn [parseElems fmap list_fmap foldr] in *.
  destruct l as [|j2 l].
  - cbn [joinComma fmap list_fmap] in *. rewrite Hj by (done || lia). done.
  - change (joinComma (print j :: (print <$> j2 :: l)))
      with (print j ++ 44 :: joinComma (print <$> j2 :: l)) in *.
    rewrite <-app_assoc in *. rewrite Hj by (done || lia). cbn [mbind option_bind fst snd app].
    rewrite skipSpace_id by done. simpl (44 =? 44).
    rewrite IH; [done|done|cbn [fmap list_fmap foldr] in *; lia|].
    rewrite length_app in Hf. cbn [length app] in Hf. lia.
Qed.

Lemma members_read_back ms d fuel rest :
  ms ≠ [] -> Forall (λ m, readsBack m.2) ms ->
  foldr Z.max 0 ((λ m, depthOf m.2) <$> ms) + d <= maxNestingDepth ->
  let t := joinComma ((λ m, quote m.1 ++ 58 :: print m.2) <$> ms) in
  (2 * length (t ++ 125%Z :: rest) + 1 < fuel)%nat ->
  parseMembers fuel d (t ++ 125 :: rest) =
    Some ((λ m, (ToValidUTF8 m.1, clean m.2)) <$> ms, rest).
Proof.
  intros Hne Hms. revert d fuel. induction Hms as [|[k j] ms Hj Hms IH]; [done|].
  intros d fuel Hd t Hf. destruct fuel as [|fuel]; [lia|]. cbn [fmap list_fmap foldr fst snd] in *.
  assert (Hkey: ∀ u, parseMembers (S fuel) d ((quote k ++ 58 :: print j) ++ u) =
    q ← parseValue fuel d (print j ++ u);
    match skipSpace q.2 with
    | [] => None
    | e :: t3 =>
        if e =? 44 then r ← parseMembers fuel d t3; Some ((ToValidUTF8 k, q.1) :: r.1, r.2)
        else if e =? 125 then Some ([(ToValidUTF8 k, q.1)], t3) else None
    end).
  { intros u. cbn [parseMembers]. unfold quote. cbn [app]. rewrite skipSpace_id by done.
    simpl (34 =? 34). rewrite <-!app_assoc. cbn [app]. rewrite lex_quoteBody.
    cbn [mbind option_bind fst snd]. by rewrite skipSpace_id. }
  destruct ms as [|m2 ms].
  - subst t. cbn [joinComma fmap list_fmap] in *. rewrite Hkey, Hj; [done|lia|done|].
    rewrite !length_app in *. cbn [length] in *. lia.
  - subst t. change (joinComma (?a :: ((λ m, quote m.1 ++ 58 :: print m.2) <$> m2 :: ms)))
      with (a ++ 44 :: joinComma ((λ m, quote m.1 ++ 58 :: print m.2) <$> m2 :: ms)) in *.
    rewrite <-(app_assoc _ (44 :: _)) in *. rewrite Hkey, Hj; [|lia|done|].
    2: { rewrite !length_app in *. cbn [length] in *. lia. }
    cbn [mbind option_bind fst snd app]. rewrite skipSpace_id by done. simpl (44 =? 44).
    rewrite IH; [done|done|cbn [fmap list_fmap foldr] in *; lia|].
    rewrite length_app in Hf. cbn [length app] in Hf. lia.
Qed.

Lemma joinComma_head f (l : list json) x rest :
  ∃ u, joinComma (f x :: (f <$> l)) ++ rest = f x ++ u.
Proof.
  destruct l as [|y l]; [by eexists|]. eexists (44 :: joinComma (f <$> y :: l) ++ rest).
  change (joinComma (f x :: (f <$> y :: l))) with (f x ++ 44 :: joinComma (f <$> y :: l)).
  by rewrite <-app_assoc.
Qed.

Lemma forallb_Forall_impl {A} (f : A -> bool) (P : A -> Prop) l :
  forallb f l = true -> Forall (λ x, f x = true -> P x) l -> Forall P l.
Proof.
  intros Hf. induction 1 as [|x l Hx Hl IH]; [constructor|].
  simpl in Hf. apply andb_true_iff in Hf as [H1 H2]. constructor; auto.
Qed.

Lemma foldr_max_nonneg l : 0 <= foldr Z.max 0 l.
Proof. induction l; simpl; lia. Qed.

Lemma array_reads_back l :
  forallb intDoc l = true -> Forall readsBack l -> readsBack (JArray l).
Proof.
  intros Hi Hl d fuel rest Hd Hs Hf. destruct fuel as [|fuel]; [lia|].
  cbn [print depthOf clean] in *. rewrite <-app_comm_cons, <-app_assoc in *. cbn [app] in *.
  pose proof (foldr_max_nonneg (depthOf <$> l)).
  cbn [parseValue]. rewrite skipSpace_id by done. simpl (91 =? 123). simpl (91 =? 91).
  rewrite (proj2 (Z.leb_gt _ _)) by lia. destruct l as [|j l]; [done|].
  assert (closes 93 (joinComma (print <$> j :: l) ++ 93 :: rest) = None) as ->.
  { cbn [forallb] in Hi. apply andb_true_iff in Hi as [(c & t & E & ? & ? & ?)%print_head _].
    destruct (joinComma_head print l j (93 :: rest)) as [u Hu]. cbn [fmap list_fmap] in *.
    rewrite Hu, E. by apply closes_other. }
  rewrite elems_read_back; [done|done|done|lia|]. cbn [length] in Hf. lia.
Qed.

Lemma object_reads_back ms :
  Forall (λ m, readsBack m.2) ms -> readsBack (JObject ms).
Proof.
  intros Hms d fuel rest Hd Hs Hf. destruct fuel as [|fuel]; [lia|].
  cbn [print depthOf clean] in *. rewrite <-app_comm_cons, <-app_assoc in *. cbn [app] in *.
  pose proof (foldr_max_nonneg ((λ m, depthOf m.2) <$> ms)).
  cbn [parseValue]. rewrite skipSpace_id by done. simpl (123 =? 123).
  rewrite (proj2 (Z.leb_gt _ _)) by lia. destruct ms as [|m ms]; [done|].
  assert (closes 125 (joinComma ((λ m, quote m.1 ++ 58 :: print m.2) <$> m :: ms) ++ 125 :: rest) = None)
    as ->.
  { unfold quote. cbn [fmap list_fmap joinComma]. by destruct ms. }
  rewrite members_read_back; [done|done|done|lia|]. cbn [length] in Hf. lia.
Qed.

Lemma parse_print_at j : intDoc j = true -> readsBack j.
Proof.
  induction j as [|b|lit|s|l IH|ms IH] using json_ind; intros Hj.
  - intros d [|fuel] rest _ _ Hf; [lia|]. done.
  - intros d [|fuel] rest _ _ Hf; [lia|]. by destruct b.
  - intros d [|fuel] rest _ Hs Hf; [lia|]. cbn [print clean parseValue].
    destruct (intText_head lit Hj) as (c & t & E & Hc).
    pose proof (lexNumber_app lit rest Hj Hs) as Hlex. rewrite E in *. cbn [app] in *.
    rewrite skipSpace_id by (unfold isSpace; by decide_bools). decide_bools. by rewrite Hlex.
  - intros d [|fuel] rest _ _ Hf; [lia|]. cbn [print clean parseValue]. unfold quote.
    cbn [app]. rewrite <-app_assoc, skipSpace_id by done. simpl. by rewrite lex_quoteBody.
  - unfold intDoc in *. cbn [numbers] in Hj. apply array_reads_back; [done|]. by apply (forallb_Forall_impl (numbers intText)).
  - apply object_reads_back. by apply (forallb_Forall_impl (λ m, numbers intText m.2)).
Qed.

(** ** Documents as bytes *)

Lemma parse_print j rest :
  intDoc j = true -> depthOf j <= maxNestingDepth -> stops rest = true ->
  parseText (print j ++ rest) = Some (clean j, rest).
Proof. intros. unfold parseText. apply parse_print_at; [done|lia|done|lia]. Qed.

(** Printed text has no control characters, line ends among them. *)
Definition printable (r : Z) : bool := (32 <=? r) && scalar r.
Definition printables (t : text) : Prop := Forall (λ r, printable r = true) t.

Lemma printable_iff r : printable r = true <-> 32 <= r ∧ scalar r = true.
Proof. unfold printable. by rewrite andb_true_iff, Z.leb_le. Qed.

Lemma printables_scalars t : printables t -> scalars t.
Proof. intros H. eapply Forall_impl; [exact H|]. by intros r [_ Hr]%printable_iff. Qed.

Lemma escapeU_printables r : 0 <= r < 65536 -> printables (escapeU r).
Proof.
  intros Hr. unfold escapeU, hexDigit. repeat constructor; apply printable_iff; rewrite scalar_iff;
    decide_bools; Z.to_euclidean_division_equations; lia.
Qed.

Lemma quoteRune_printables o : (∀ r, o = Some r -> scalar r = true) -> printables (quoteRune o).
Proof.
  destruct o as [r|]; intros Ho; [|by apply escapeU_printables]. specialize (Ho r eq_refl). unfold quoteRune.
  destruct (shortEscape r) as [e|] eqn:E.
  - constructor; [done|]. constructor; [|constructor]. revert E. unfold shortEscape.
    cbn [find shortEscapes fst]. repeat case_match; by intros [= <-].
  - destruct (needsEscape r) eqn:En.
    + apply escapeU_printables. apply scalar_iff in Ho. revert En. unfold needsEscape.
      decide_bools; intros; first [done|lia].
    + constructor; [|constructor]. apply printable_iff. split; [|done]. revert En. unfold needsEscape.
      by decide_bools.
Qed.

Lemma quote_printables s : printables (quote s).
Proof.
  constructor; [done|]. apply Forall_app. split; [|by repeat constructor].
  unfold quoteBody. induction (decodeAll_scalar s) as [|o os Ho Hos IH]; [constructor|].
  cbn [mbind list_bind]. apply Forall_app. split; [by apply quoteRune_printables|done].
Qed.

Lemma joinComma_printables l : Forall printables l -> printables (joinComma l).
Proof.
  induction 1 as [|t l Ht Hl IH]; [constructor|]. destruct l as [|t2 l]; [done|].
  change (joinComma (t :: t2 :: l)) with (t ++ 44 :: joinComma (t2 :: l)).
  apply Forall_app. split; [done|]. by constructor.
Qed.

Lemma print_printables j : numbers (forallb printable) j = true -> printables (print j).
Proof.
  induction j as [|b|lit|s|l IH|ms IH] using json_ind; intros Hj; cbn [print numbers] in *.
  - by repeat constructor.
  - destruct b; by repeat constructor.
  - apply Forall_forall. intros r Hr. rewrite forallb_forall in Hj. by apply Hj, list_elem_of_In.
  - apply quote_printables.
  - constructor; [done|]. apply Forall_app. split; [|by repeat constructor].
    apply joinComma_printables, Forall_fmap. by apply (forallb_Forall_impl (numbers (forallb printable))).
  - constructor; [done|]. apply Forall_app. split; [|by repeat constructor].
    apply joinComma_printables, Forall_fmap.
    apply (forallb_Forall_impl (λ m, numbers (forallb printable) m.2)); [done|].
    eapply Forall_impl; [exact IH|].
    intros m Hm Hi. apply Forall_app. split; [apply quote_printables|]. constructor; [done|by apply Hm].
Qed.

Lemma numbers_impl (q1 q2 : text -> bool) j :
  (∀ t, q1 t = true -> q2 t = true) -> numbers q1 j = true -> numbers q2 j = true.
Proof.
  intros Hq. induction j as [|b|lit|s|l IH|ms IH] using json_ind; cbn [numbers]; [done|done|apply Hq|done|..];
    induction IH as [|x l Hx Hl IHl]; [done| |done|]; simpl;
    intros [H1 H2]%andb_true_iff; apply andb_true_iff; split; [by apply Hx|by apply IHl|by apply Hx|by apply IHl].
Qed.

Lemma digits_printable ds : forallb isDigit ds = true -> forallb printable ds = true.
Proof.
  rewrite !forallb_forall. intros Hd c Hc%Hd. apply between_iff in Hc.
  apply printable_iff. rewrite scalar_iff. lia.
Qed.

Lemma intText_printable t : intText t = true -> forallb printable t = true.
Proof.
  assert (Hn: ∀ u, natText u = true -> forallb printable u = true).
  { intros [|c ds]; [done|]. simpl. destruct (Z.eqb_spec c 48) as [->|].
    - by intros ->%bool_decide_eq_true.
    - intros [Hc%between_iff Hds]%andb_true_iff. rewrite digits_printable by done.
      rewrite andb_true_r. apply printable_iff. rewrite scalar_iff. lia. }
  destruct t as [|c t]; [done|]. cbn [intText]. destruct (Z.eqb_spec c 45) as [->|]; intros H.
  - cbn [forallb]. by rewrite (Hn t H).
  - by apply (Hn (c :: t)).
Qed.

Lemma print_scalars j : intDoc j = true -> scalars (print j).
Proof.
  intros Hj. apply printables_scalars, print_printables. revert Hj. apply numbers_impl, intText_printable.
Qed.

(** The bytes of printed text. *)
Lemma encodeAll_bytes t : printables t ->
  Forall (λ c, 32 <= code c) (String.list_ascii_of_string (encodeAll t)).
Proof.
  induction 1 as [|r t [Hr Hs]%printable_iff Ht IH]; [constructor|]. cbn [encodeAll].
  assert (He: Forall (λ c, 32 <= code c) (String.list_ascii_of_string (EncodeRune r))).
  { unfold EncodeRune. rewrite Hs. apply scalar_iff in Hs. unfold encodeScalar.
    repeat (case_match; [|]); repeat constructor; rewrite code_char;
      Z.to_euclidean_division_equations; lia. }
  revert He. generalize (EncodeRune r). intros s Hsb. induction s as [|c s IHs]; [done|].
  rewrite append_cons. simpl in *. apply Forall_cons in Hsb as [Hc Hsb]. constructor; auto.
Qed.

(** What the decoder makes of an encoded document. *)
Lemma decodeDoc_encodeDoc j :
  intDoc j = true -> depthOf j <= maxNestingDepth -> decodeDoc (encodeDoc j) = Some (clean j).
Proof.
  intros Hj Hd. unfold decodeDoc, encodeDoc. rewrite runes_encodeAll.
  - by rewrite parse_print.
  - apply Forall_app. split; [by apply print_scalars|by repeat constructor].
Qed.

Lemma decodeDoc_marshalDoc j :
  intDoc j = true -> depthOf j <= maxNestingDepth -> decodeDoc (marshalDoc j) = Some (clean j).
Proof.
  intros Hj Hd. unfold decodeDoc, marshalDoc. rewrite runes_encodeAll by (by apply print_scalars).
  rewrite <-(app_nil_r (print j)), parse_print by done. done.
Qed.

Lemma unmarshalDoc_marshalDoc j :
  intDoc j = true -> depthOf j <= maxNestingDepth -> unmarshalDoc (marshalDoc j) = Some (clean j).
Proof.
  intros Hj Hd. unfold unmarshalDoc, marshalDoc. rewrite runes_encodeAll by (by apply print_scalars).
  rewrite <-(app_nil_r (print j)), parse_print by done. done.
Qed.

(** ** Integers *)

Definition intLiteral (z : Z) : text := codes (Strconv.FormatInt z).

Fixpoint asString (t : text) : string :=
  match t with
  | [] => ""
  | c :: t' => String (char c) (asString t')
  end.

Lemma asString_codes s : asString (codes s) = s.
Proof. induction s as [|c s IH]; simpl; [done|]. by rewrite char_code, IH. Qed.

Lemma code_digit d : 0 <= d < 10 -> code (Strconv.digit_char d) = 48 + d.
Proof. intros. unfold Strconv.digit_char. change (ascii_of_N (Z.to_N ?x)) with (char x). rewrite code_char; lia. Qed.

Lemma format_digits fuel n acc :
  0 < n < 10 ^ Z.of_nat fuel ->
  ∃ d ds, codes (Strconv.format_uint fuel n acc) = d :: ds ++ codes acc ∧
    between 49 57 d = true ∧ forallb isDigit ds = true.
Proof.
  revert n acc. induction fuel as [|fuel IH]; intros n acc Hn; [simpl in Hn; lia|].
  rewrite Nat2Z.inj_succ, Z.pow_succ_r in Hn by lia. cbn [Strconv.format_uint].
  destruct (Z.ltb_spec n 10).
  - exists (48 + n), []. cbn [codes]. rewrite code_digit, between_iff by lia. by split_and!; [|lia..|].
  - assert (0 < n / 10 < 10 ^ Z.of_nat fuel) as Hq.
    { split; [apply Z.div_str_pos; lia|apply Z.div_lt_upper_bound; lia]. }
    pose proof (Z.mod_pos_bound n 10 ltac:(lia)).
    destruct (IH (n / 10) (String (Strconv.digit_char (n `mod` 10)) acc) Hq) as (d & ds & E & Hd & Hds).
    exists d, (ds ++ [48 + n `mod` 10]). rewrite E. cbn [codes]. rewrite code_digit by lia.
    rewrite <-app_assoc, forallb_app, Hds. cbn [forallb andb app]. split_and!; [done|done|].
    rewrite andb_true_r. apply between_iff. lia.
Qed.

Lemma natText_format n : 0 <= n < 10 ^ 20 -> natText (codes (Strconv.format_uint 20 n "")) = true.
Proof.
  intros Hn. destruct (decide (n = 0)) as [->|]; [done|].
  destruct (format_digits 20 n "") as (d & ds & -> & Hd & Hds); [simpl; lia|].
  rewrite app_nil_r. simpl. rewrite Hd, Hds. apply between_iff in Hd. by destruct (Z.eqb_spec d 48); [lia|].
Qed.

Lemma intText_literal z : in_int64 z -> intText (intLiteral z) = true.
Proof.
  intros Hz. unfold intLiteral, Strconv.FormatInt, in_int64, int64_min, int64_max in *.
  destruct (Z.ltb_spec z 0).
  - cbn [codes intText]. change (code "-" =? 45) with true. cbv iota. apply natText_format. lia.
  - pose proof (natText_format z ltac:(lia)) as Hn. destruct (codes _) as [|c t]; [done|].
    simpl. destruct (Z.eqb_spec c 45) as [->|]; [by simpl in Hn|done].
Qed.

Lemma format_printable fuel n acc :
  0 <= n -> forallb printable (codes acc) = true ->
  forallb printable (codes (Strconv.format_uint fuel n acc)) = true.
Proof.
  assert (Hd: ∀ d, 0 <= d < 10 -> printable (code (Strconv.digit_char d)) = true).
  { intros d ?. rewrite code_digit by done. apply printable_iff. rewrite scalar_iff. lia. }
  revert n acc. induction fuel as [|fuel IH]; intros n acc Hn Hacc; [done|]. cbn [Strconv.format_uint].
  pose proof (Z.mod_pos_bound n 10 ltac:(lia)). destruct (Z.ltb_spec n 10).
  - cbn [codes forallb]. by rewrite Hd, Hacc by lia.
  - apply IH; [apply Z.div_pos; lia|]. cbn [codes forallb]. by rewrite Hd, Hacc by lia.
Qed.

Lemma intLiteral_printable z : forallb printable (intLiteral z) = true.
Proof.
  unfold intLiteral, Strconv.FormatInt. destruct (Z.ltb_spec z 0).
  - cbn [codes forallb]. by rewrite format_printable by (done || lia).
  - by apply format_printable.
Qed.

(** ** What the parser accepts *)

(** Every string of a document is valid UTF-8. *)
Fixpoint validDoc (j : json) : Prop :=
  match j with
  | JString s => Valid s = true
  | JArray l => (fix go l := match l with [] => True | x :: l' => validDoc x ∧ go l' end) l
  | JObject ms =>
      (fix go ms := match ms with [] => True | m :: ms' => (Valid m.1 = true ∧ validDoc m.2) ∧ go ms' end) ms
  | _ => True
  end.

Lemma validDoc_array l : validDoc (JArray l) <-> Forall validDoc l.
Proof.
  induction l as [|x l IH]; [by split|]. rewrite Forall_cons, <-IH. done.
Qed.

Lemma validDoc_object ms :
  validDoc (JObject ms) <-> Forall (λ m, Valid m.1 = true ∧ validDoc m.2) ms.
Proof. induction ms as [|m ms IH]; [by split|]. rewrite Forall_cons, <-IH. done. Qed.

Lemma hexVal_range c d : hexVal c = Some d -> 0 <= d < 16.
Proof.
  unfold hexVal. repeat case_match; try done; intros [= <-];
    match goal with H : between _ _ _ = true |- _ => apply between_iff in H end; lia.
Qed.

Lemma hex4_range h1 h2 h3 h4 u : hex4 h1 h2 h3 h4 = Some u -> 0 <= u < 65536.
Proof.
  unfold hex4. intros (a & Ha & (b & Hb & (c & Hc & (d & Hd & [= <-])%bind_Some)%bind_Some)%bind_Some)%bind_Some.
  apply hexVal_range in Ha, Hb, Hc, Hd. lia.
Qed.

Lemma surrogatePair_scalar u t r : surrogatePair u t = Some r -> scalar r = true.
Proof.
  unfold surrogatePair. intros (lo & _ & H)%bind_Some.
  destruct (between 55296 56319 u) eqn:E1; [|done]. destruct (between 56320 57343 lo) eqn:E2; [|done].
  apply between_iff in E1, E2. injection H as <-. apply scalar_iff. lia.
Qed.

Lemma unescape_scalar e r : unescape e = Some r -> scalar r = true.
Proof.
  unfold unescape. cbn [find shortEscapes snd]. repeat case_match; by intros [= <-].
Qed.

Lemma lexString_scalars t k t' :
  scalars t -> lexString t = Some (k, t') -> scalars k ∧ scalars t'.
Proof.
  remember (length t) as n eqn:Hn. revert t k t' Hn.
  induction (lt_wf n) as [n _ IH]. intros t k t' -> Ht H.
  assert (Hrec: ∀ r t2, scalar r = true -> scalars t2 -> (length t2 < length t)%nat ->
    push r (lexString t2) = Some (k, t') -> scalars k ∧ scalars t').
  { intros r t2 Hr Ht2 Hlt (k' & E & ->)%push_Some.
    destruct (IH _ Hlt _ _ _ eq_refl Ht2 E). split; [by constructor|done]. }
  clear IH. destruct t as [|c t1]; [done|]. cbn [lexString] in H. unfold scalars in Ht.
  repeat case_match; simplify_eq; try done; repeat (apply Forall_cons in Ht as [? Ht]).
  - by split; [constructor|].
  - eapply Hrec; [by eapply unescape_scalar|exact Ht|simpl; lia|done].
  - eapply Hrec; [by eapply surrogatePair_scalar|exact Ht|simpl; lia|done].
  - eapply Hrec; [|exact Ht|simpl; lia|done]. done.
  - eapply Hrec; [|exact Ht|simpl; lia|done].
    match goal with E : hex4 _ _ _ _ = Some _ |- _ => apply hex4_range in E end.
    match goal with E : surrogate _ = false |- _ => revert E end.
    unfold surrogate, between. rewrite scalar_iff. decide_bools; intros; first [done|lia].
  - eapply Hrec; [done|exact Ht|simpl; lia|done].
Qed.

Lemma spanDigits_scalars t : scalars t -> scalars (spanDigits t).2.
Proof. induction 1 as [|c t Hc Ht IH]; simpl; [constructor|]. case_match; [done|by constructor]. Qed.

Lemma digits1_scalars acc t acc' t' : digits1 acc t = Some (acc', t') -> scalars t -> scalars t'.
Proof.
  unfold digits1. intros H Ht%spanDigits_scalars.
  destruct (spanDigits t) as [[|d ds] t1]; [done|]. by injection H as _ <-.
Qed.

Lemma lexExp_scalars acc t acc' t' : lexExp acc t = Some (acc', t') -> scalars t -> scalars t'.
Proof.
  unfold lexExp. intros H Ht. repeat case_match; simplify_eq; try done;
    repeat (apply Forall_cons in Ht as [? Ht]); try (by eapply digits1_scalars).
  eapply digits1_scalars; [done|]. by constructor.
Qed.

Lemma lexFrac_scalars acc t acc' t' : lexFrac acc t = Some (acc', t') -> scalars t -> scalars t'.
Proof.
  unfold lexFrac. destruct t as [|p t1]; [apply lexExp_scalars|]. case_match; [|apply lexExp_scalars].
  intros ([a t2] & E & H2)%bind_Some [_ Ht]%Forall_cons.
  eapply lexExp_scalars; [done|]. by eapply digits1_scalars.
Qed.

Lemma lexNumber_scalars t acc t' : lexNumber t = Some (acc, t') -> scalars t -> scalars t'.
Proof.
  assert (Hint: ∀ a u, lexInt a u = Some (acc, t') -> scalars u -> scalars t').
  { intros a [|c u]; simpl; [done|]. intros H [_ Hu]%Forall_cons.
    repeat case_match; try done; (eapply lexFrac_scalars; [done|]); [done|by apply spanDigits_scalars]. }
  unfold lexNumber. destruct t as [|c t1]; [done|].
  case_match; [|apply Hint]. intros E [_ Ht]%Forall_cons. by eapply Hint.
Qed.

Lemma keyword_scalars w t t' : keyword w t = Some t' -> scalars t -> scalars t'.
Proof.
  revert t. induction w as [|a w IH]; intros t; [by intros [= ->]|].
  destruct t as [|b t]; simpl; [done|]. case_match; [|done]. intros E [_ Ht]%Forall_cons. by eapply IH.
Qed.

Lemma skipSpace_scalars t c t1 : skipSpace t = c :: t1 -> scalars t -> scalars t1.
Proof.
  induction t as [|d t IH]; simpl; [done|]. intros H [Hd Ht]%Forall_cons.
  case_match; [by apply IH|]. by injection H as -> ->.
Qed.

Lemma closes_scalars c t t' : closes c t = Some t' -> scalars t -> scalars t'.
Proof.
  unfold closes. destruct (skipSpace t) as [|d t1] eqn:E; [done|]. case_match; [|done].
  intros [= ->]. by eapply skipSpace_scalars.
Qed.

(** The tokens of scalar text leave scalar text. *)
Ltac scalar_rest :=
  repeat match goal with
  | E : skipSpace ?t = _ :: _, Ht : scalars ?t |- _ => apply skipSpace_scalars in E; [|exact Ht]
  | E : closes _ ?t = Some _, Ht : scalars ?t |- _ => apply closes_scalars in E; [|exact Ht]
  | E : lexString ?t = Some (_, _), Ht : scalars ?t |- _ =>
      apply lexString_scalars in E as [? ?]; [|exact Ht]
  | E : keyword _ ?t = Some _, Ht : scalars ?t |- _ => apply keyword_scalars in E; [|exact Ht]
  | IH : (∀ d t j t', scalars t -> parseValue ?f d t = Some (j, t') -> _),
      E : parseValue ?f _ ?t = Some (_, _), Ht : scalars ?t |- _ => apply IH in E as [? ?]; [|exact Ht]
  | IH : (∀ d t j t', scalars t -> parseElems ?f d t = Some (j, t') -> _),
      E : parseElems ?f _ ?t = Some (_, _), Ht : scalars ?t |- _ => apply IH in E as [? ?]; [|exact Ht]
  | IH : (∀ d t j t', scalars t -> parseMembers ?f d t = Some (j, t') -> _),
      E : parseMembers ?f _ ?t = Some (_, _), Ht : scalars ?t |- _ => apply IH in E as [? ?]; [|exact Ht]
  end.

Lemma parse_valid fuel :
  (∀ d t j t', scalars t -> parseValue fuel d t = Some (j, t') -> validDoc j ∧ scalars t') ∧
  (∀ d t js t', scalars t -> parseElems fuel d t = Some (js, t') -> Forall validDoc js ∧ scalars t') ∧
  (∀ d t ms t', scalars t -> parseMembers fuel d t = Some (ms, t') ->
     Forall (λ m, Valid m.1 = true ∧ validDoc m.2) ms ∧ scalars t').
Proof.
  induction fuel as [|fuel (IHv & IHe & IHm)]; [by split_and!|].
  split_and!; intros d t x t' Ht H; cbn [parseValue parseElems parseMembers] in H.
  - destruct (skipSpace t) as [|c t1] eqn:Et; [done|].
    assert (scalars (c :: t1)) as Hc.
    { clear H. induction t as [|c0 t IHt]; [done|]. simpl in Et. apply Forall_cons in Ht as [? Ht].
      case_match; [auto|]. injection Et as -> ->. by constructor. }
    scalar_rest. parsed H; scalar_rest; (split; [|done || by eapply lexNumber_scalars]);
      rewrite ?validDoc_object, ?validDoc_array; try done; try constructor. by apply Valid_encodeAll.
  - parsed H; scalar_rest; (split; [|done]); by repeat constructor.
  - parsed H; scalar_rest; (split; [|done]); repeat constructor; try done; by apply Valid_encodeAll.
Qed.

Lemma decodeDoc_valid s j : decodeDoc s = Some j -> validDoc j.
Proof.
  unfold decodeDoc. intros ([j' t] & E & ->)%fmap_Some.
  by apply (parse_valid _) in E as [? _]; [|apply scalars_runes].
Qed.

Lemma unmarshalDoc_valid s j : unmarshalDoc s = Some j -> validDoc j.
Proof.
  unfold unmarshalDoc. intros ([j' t] & E & H)%bind_Some. case_bool_decide; [|done].
  injection H as <-. by apply (parse_valid _) in E as [? _]; [|apply scalars_runes].
Qed.
