(* ===== verification/Schema.v ===== *)
(** * Go values as JSON: what the program uses of [json.Marshal] and [json.Decoder]

    [JSONValue] gives a type its encoding and the decoder's effect on a value of
    that type; [schema] describes the members of a struct with their names and
    [omitempty] tags, and [Struct] a record type with its schema.  The decoder finds a
    member by its exact name and then without regard to case, skips or refuses
    unknown members, leaves a field alone on [null], and goes on after a type
    error, of which it reports the first.

    [struct_roundtrip] is proved once, by induction on schemas; the types of
    [src/api/api.go] and the two others that are stored as JSON only give their
    schemas. *)

From S2P Require Import Prelude GoLib Utf8 Json.
From Stdlib Require Import Ascii.
From Stdlib Require String.

(** ** Errors *)

Inductive jsonError :=
| SyntaxError
| UnmarshalTypeError (value : json)
| UnknownField (name : string).

(** [saveError] keeps the first. *)
Definition firstError (e1 e2 : option jsonError) : option jsonError :=
  match e1 with
  | Some _ => e1
  | None => e2
  end.

(** ** Values *)

(** A slice of length 0 is written as [null] when it is nil and as [[]] when it is
    not; lists do not tell them apart, so the encoder is told, for each member name,
    whether an empty slice there is nil. *)
Definition nilness : Type := string -> bool.

(** [okJSON]: the values that survive a round trip; [blank]: the values of which
    decoding leaves no trace; [levels] bounds the nesting of the encoding. *)
Class JSONValue (A : Type) := mkJSONValue {
  zero : A;
  okJSON : A -> Prop;
  blank : A -> Prop;
  levels : Z;
  isEmpty : A -> bool;
  toJSON : nilness -> string -> A -> json;
  fromJSON : bool -> json -> A -> A * option jsonError }.

Class JSONLaws (A : Type) `{JSONValue A} : Prop := {
  json_int nils name a : okJSON a -> intDoc (toJSON nils name a) = true;
  json_depth nils name a : depthOf (toJSON nils name a) <= levels;
  json_blank : blank zero;
  json_zero : okJSON zero;
  json_typed strict j a : validDoc j -> okJSON a -> okJSON (fromJSON strict j a).1;
  json_roundtrip nils name strict a a0 :
    okJSON a -> blank a0 -> fromJSON strict (clean (toJSON nils name a)) a0 = (a, None) }.

Definition typeError {A} (j : json) (a : A) : A * option jsonError := (a, Some (UnmarshalTypeError j)).

#[export] Instance string_json : JSONValue string := {|
  zero := "";
  okJSON s := Valid s = true;
  blank _ := True;
  levels := 0;
  isEmpty s := bool_decide (s = "");
  toJSON _ _ s := JString s;
  fromJSON _ j s :=
    match j with
    | JNull => (s, None)
    | JString s' => (s', None)
    | _ => typeError j s
    end |}.

#[export] Instance bool_json : JSONValue bool := {|
  zero := false;
  okJSON _ := True;
  blank _ := True;
  levels := 0;
  isEmpty b := negb b;
  toJSON _ _ b := JBool b;
  fromJSON _ j b :=
    match j with
    | JNull => (b, None)
    | JBool b' => (b', None)
    | _ => typeError j b
    end |}.

(** [int64], and [int] on a 64-bit platform: a literal with a fraction or an exponent, or out
    of range, is a type error. *)
#[export] Instance int_json : JSONValue Z := {|
  zero := 0;
  okJSON := in_int64;
  blank _ := True;
  levels := 0;
  isEmpty z := z =? 0;
  toJSON _ _ z := JNumber (intLiteral z);
  fromJSON _ j z :=
    match j with
    | JNull => (z, None)
    | JNumber lit =>
        match Strconv.ParseInt (asString lit) with
        | (n, None) => (n, None)
        | _ => typeError j z
        end
    | _ => typeError j z
    end |}.

(** Slices: the elements start from the zero value. *)
Section slices.
Context {A : Type} `{JSONValue A}.

Fixpoint fromElems (strict : bool) (js : list json) : list A * option jsonError :=
  match js with
  | [] => ([], None)
  | j :: js' =>
      let q := fromJSON strict j zero in
      let r := fromElems strict js' in
      (q.1 :: r.1, firstError q.2 r.2)
  end.

#[export] Instance list_json : JSONValue (list A) := {|
  zero := [];
  okJSON := Forall okJSON;
  blank _ := True;
  levels := 1 + Z.max 0 (@levels A _);
  isEmpty l := bool_decide (length l = 0%nat);
  toJSON nils name l :=
    match l with
    | [] => if nils name then JNull else JArray []
    | _ => JArray (toJSON nils name <$> l)
    end;
  fromJSON strict j l :=
    match j with
    | JNull => ([], None)
    | JArray js => fromElems strict js
    | _ => typeError j l
    end |}.
End slices.

(** [map[string]string]; a nil map is [None].  The keys are written in order; the
    decoder adds to the map it finds, also when a value has the wrong type. *)
Fixpoint fromPairs (strict : bool) (ms : list (string * json)) (m : gmap string string)
    : gmap string string * option jsonError :=
  match ms with
  | [] => (m, None)
  | (k, j) :: ms' =>
      let q := fromJSON strict j "" in
      let r := fromPairs strict ms' (<[k := q.1]> m) in
      (r.1, firstError q.2 r.2)
  end.

#[export] Instance map_json : JSONValue (option (gmap string string)) := {|
  zero := None;
  okJSON m := ∀ k v, default ∅ m !! k = Some v -> Valid k = true ∧ Valid v = true;
  blank m := m = None;
  levels := 1;
  isEmpty m := bool_decide (default ∅ m = ∅);
  toJSON _ _ m :=
    match m with
    | None => JNull
    | Some m => JObject ((λ k, (k, JString (m !!! k))) <$> sort_Strings (map_to_list m).*1)
    end;
  fromJSON strict j m :=
    match j with
    | JNull => (None, None)
    | JObject ms => let q := fromPairs strict ms (default ∅ m) in (Some q.1, q.2)
    | _ => typeError j m
    end |}.

(** ** Structs *)

(** The members of a struct whose fields are the components of a tuple. *)
Inductive schema : Type -> Type :=
| End : schema unit
| Member {A T : Type} `{JSONValue A} (name : string) (omitempty : bool) (rest : schema T)
    : schema (A * T).

Fixpoint zeros {T} (s : schema T) : T :=
  match s with
  | End => tt
  | Member _ _ rest => (zero, zeros rest)
  end.

Fixpoint okFields {T} (s : schema T) : T -> Prop :=
  match s with
  | End => λ _, True
  | Member _ _ rest => λ t, okJSON t.1 ∧ okFields rest t.2
  end.

(** A field that may be absent from the text must be zero already. *)
Fixpoint blankFields {T} (s : schema T) : T -> Prop :=
  match s with
  | End => λ _, True
  | Member _ omitempty rest => λ t,
      blank t.1 ∧ (omitempty = true -> t.1 = zero) ∧ blankFields rest t.2
  end.

Fixpoint levelsOf {T} (s : schema T) : Z :=
  match s with
  | End => 0
  | @Member A _ _ _ _ rest => Z.max (@levels A _) (levelsOf rest)
  end.

Fixpoint members {T} (nils : nilness) (s : schema T) : T -> list (string * json) :=
  match s with
  | End => λ _, []
  | Member name omitempty rest => λ t,
      (if omitempty && isEmpty t.1 then [] else [(name, toJSON nils name t.1)]) ++
      members nils rest t.2
  end.

Fixpoint names {T} (s : schema T) : list string :=
  match s with
  | End => []
  | Member name _ rest => name :: names rest
  end.

(** Member names are compared after folding the case; two runes beyond ASCII fold to
    an ASCII letter, the long s and the Kelvin sign. *)
Definition foldRune (r : Z) : Z :=
  if between 97 122 r then r - 32
  else if r =? 383 then 83
  else if r =? 8490 then 75
  else r.
Definition foldName (s : string) : list Z := foldRune <$> runes s.

(** The name of the field a member belongs to. *)
Definition findField {T} (s : schema T) (key : string) : option string :=
  match find (λ n, bool_decide (n = key)) (names s) with
  | Some n => Some n
  | None => find (λ n, bool_decide (foldName n = foldName key)) (names s)
  end.

(** Decoding into one field. *)
Fixpoint setField {T} (strict : bool) (s : schema T) (field : string) (j : json)
    : T -> T * option jsonError :=
  match s with
  | End => λ t, (t, None)
  | Member name _ rest => λ t,
      if bool_decide (name = field) then
        let q := fromJSON strict j t.1 in ((q.1, t.2), q.2)
      else let q := setField strict rest field j t.2 in ((t.1, q.1), q.2)
  end.

Definition setMember {T} (strict : bool) (s : schema T) (m : string * json) (t : T)
    : T * option jsonError :=
  match findField s m.1 with
  | Some field => setField strict s field m.2 t
  | None => (t, if strict then Some (UnknownField m.1) else None)
  end.

Fixpoint setMembers {T} (strict : bool) (s : schema T) (ms : list (string * json)) (t : T)
    : T * option jsonError :=
  match ms with
  | [] => (t, None)
  | m :: ms' =>
      let q := setMember strict s m t in
      let r := setMembers strict s ms' q.1 in
      (r.1, firstError q.2 r.2)
  end.

(** A record type with the schema of its fields. *)
Class Struct (R : Type) := mkStruct {
  fieldsOf : Type;
  schemaOf : schema fieldsOf;
  unpack : R -> fieldsOf;
  pack : fieldsOf -> R }.

#[export] Instance struct_json {R} `{Struct R} : JSONValue R := {|
  zero := pack (zeros schemaOf);
  okJSON r := okFields schemaOf (unpack r);
  blank r := blankFields schemaOf (unpack r);
  levels := 1 + levelsOf schemaOf;
  isEmpty _ := false;
  toJSON nils _ r := JObject (members nils schemaOf (unpack r));
  fromJSON strict j r :=
    match j with
    | JNull => (r, None)
    | JObject ms => let q := setMembers strict schemaOf ms (unpack r) in (pack q.1, q.2)
    | _ => typeError j r
    end |}.

(** What makes a struct lawful: lawful fields and distinct ASCII names, which
    evaluation checks. *)
Fixpoint lawfulFields {T} (s : schema T) : Prop :=
  match s with
  | End => True
  | @Member A _ _ _ omitempty rest =>
      JSONLaws A ∧ (omitempty = true -> ∀ a : A, isEmpty a = true -> a = zero) ∧ lawfulFields rest
  end.

Class StructLaws (R : Type) `{Struct R} : Prop := {
  pack_unpack r : pack (unpack r) = r;
  unpack_pack t : unpack (pack t) = t;
  fields_lawful : lawfulFields schemaOf;
  names_distinct : bool_decide (NoDup (names schemaOf)) = true;
  names_valid : forallb Valid (names schemaOf) = true }.

(** ** Scalars *)

#[export] Instance string_laws : JSONLaws string.
Proof.
  split; simpl; [done|done|done|done|by intros _ [] ???|].
  intros _ _ strict a a0 Ha _. by rewrite ToValid_Valid.
Qed.

#[export] Instance bool_laws : JSONLaws bool.
Proof. by split. Qed.

#[export] Instance int_laws : JSONLaws Z.
Proof.
  split; simpl; [intros; by apply intText_literal|done|done|done|..].
  { intros _ [] a _ Ha; try done. cbn [fst]. pose proof (Strconv.ParseInt_range (asString literal)).
    by destruct (Strconv.ParseInt (asString literal)) as [n [e|]]. }
  intros _ _ strict a a0 Ha _. unfold intLiteral. by rewrite asString_codes, Strconv.ParseInt_FormatInt.
Qed.

(** ** Slices and maps *)

Lemma foldr_max_le (l : list Z) b : 0 <= b -> Forall (λ z, z <= b) l -> foldr Z.max 0 l <= b.
Proof. intros Hb. induction 1; simpl; lia. Qed.

Lemma forallb_fmap_true {A} (f : A -> json) l :
  Forall (λ x, intDoc (f x) = true) l -> forallb intDoc (f <$> l) = true.
Proof. induction 1 as [|x l Hx Hl IH]; [done|]. simpl. by rewrite Hx. Qed.

Lemma fromElems_roundtrip {A} `{JSONLaws A} nils name strict (l : list A) :
  Forall okJSON l -> fromElems strict (clean <$> (toJSON nils name <$> l)) = (l, None).
Proof.
  induction 1 as [|x l Hx Hl IH]; [done|]. cbn [fmap list_fmap fromElems] in *.
  by rewrite IH, json_roundtrip by (done || apply json_blank).
Qed.

#[export] Instance list_laws {A} `{JSONLaws A} : JSONLaws (list A).
Proof.
  split; simpl.
  - intros nils name [|x a] Ha; [by destruct (nils name)|]. apply (forallb_fmap_true _ (x :: a)).
    eapply Forall_impl; [exact Ha|]. apply json_int.
  - intros nils name [|x a]; [destruct (nils name); simpl; lia|]. cbn [depthOf].
    assert (foldr Z.max 0 (depthOf <$> (toJSON nils name <$> x :: a)) <= Z.max 0 (@levels A _)); [|lia].
    apply foldr_max_le; [lia|]. apply Forall_fmap, Forall_fmap, Forall_forall. intros y _. simpl.
    etrans; [apply json_depth|]. lia.
  - done.
  - constructor.
  - intros strict j a Hj Ha. destruct j; try done.
    apply validDoc_array in Hj. cbn [fst]. induction Hj as [|j js Hj Hjs IH]; [constructor|].
    cbn [fromElems fst]. constructor; [|done]. apply json_typed; [done|apply json_zero].
  - intros nils name strict [|x a] a0 Ha _; [by destruct (nils name)|].
    apply (fromElems_roundtrip nils name strict (x :: a) Ha).
Qed.

(** Inserting pairs with distinct keys: each key gets its value. *)
Lemma fromPairs_roundtrip strict (m : gmap string string) ks m0 :
  NoDup ks -> Forall (λ k, Valid k = true ∧ Valid (m !!! k) = true) ks ->
  ∃ m1, fromPairs strict ((λ p, (ToValidUTF8 p.1, clean p.2)) <$>
      ((λ k, (k, JString (m !!! k))) <$> ks)) m0 = (m1, None) ∧
    ∀ i, m1 !! i = if decide (i ∈ ks) then Some (m !!! i) else m0 !! i.
Proof.
  intros Hnd Hks. revert m0. induction Hks as [|k ks [Hvk Hvv] Hks IH]; intros m0.
  - exists m0. split; [done|]. intros i. by rewrite decide_False by apply not_elem_of_nil.
  - apply NoDup_cons in Hnd as [Hk Hnd].
    cbn [fmap list_fmap fromPairs clean fromJSON string_json fst snd] in *.
    rewrite (ToValid_Valid k), ToValid_Valid by done.
    destruct (IH Hnd (<[k:=m !!! k]> m0)) as (m1 & -> & Hm1). exists m1. split; [done|].
    intros i. rewrite Hm1. destruct (decide (i = k)) as [->|].
    + by rewrite decide_False, decide_True, lookup_insert_eq by (done || left).
    + rewrite lookup_insert_ne by done. destruct (decide (i ∈ ks)).
      * by rewrite decide_True by (by right).
      * by rewrite decide_False by (by rewrite elem_of_cons; intros [?|?]).
Qed.

Lemma elem_of_sorted_keys (m : gmap string string) k :
  k ∈ sort_Strings (map_to_list m).*1 <-> is_Some (m !! k).
Proof.
  rewrite sort_Strings_perm. rewrite list_elem_of_fmap. split.
  - intros ([k' v] & -> & Hv%elem_of_map_to_list). by eexists.
  - intros [v Hv]. exists (k, v). by rewrite elem_of_map_to_list.
Qed.

Lemma NoDup_sorted_keys (m : gmap string string) : NoDup (sort_Strings (map_to_list m).*1).
Proof. rewrite sort_Strings_perm. apply NoDup_fst_map_to_list. Qed.

Lemma fromPairs_typed strict ms m :
  Forall (λ p, Valid p.1 = true ∧ validDoc p.2) ms ->
  (∀ k v, m !! k = Some v -> Valid k = true ∧ Valid v = true) ->
  ∀ k v, (fromPairs strict ms m).1 !! k = Some v -> Valid k = true ∧ Valid v = true.
Proof.
  intros Hms. revert m. induction Hms as [|[k0 j] ms [Hk Hj] Hms IH]; intros m Hm; [done|].
  cbn [fromPairs fst snd] in *. apply IH. intros k v.
  destruct (decide (k = k0)) as [->|]; [|rewrite lookup_insert_ne by done; apply Hm].
  rewrite lookup_insert_eq. intros [= <-]. split; [done|]. by apply (@json_typed string string_json string_laws strict j "").
Qed.

Lemma nil_map_ok : okJSON (None : option (gmap string string)).
Proof. intros k v H. change ((∅ : gmap string string) !! k = Some v) in H. by rewrite lookup_empty in H. Qed.

#[export] Instance map_laws : JSONLaws (option (gmap string string)).
Proof.
  split.
  - intros nils name [m|] _; [|done]. cbn [toJSON map_json intDoc].
    by induction (sort_Strings (map_to_list m).*1).
  - intros nils name [m|]; [|done]. cbn [toJSON map_json depthOf levels].
    assert (foldr Z.max 0 ((λ p, depthOf p.2) <$> ((λ k, (k, JString (m !!! k))) <$>
      sort_Strings (map_to_list m).*1)) <= 0); [|lia].
    apply foldr_max_le; [lia|]. by apply Forall_fmap, Forall_fmap, Forall_forall.
  - done.
  - apply nil_map_ok.
  - intros strict j m Hj Hm. destruct j; try done.
    apply validDoc_object in Hj. cbn [fromJSON map_json fst okJSON default]. by apply fromPairs_typed.
  - intros nils name strict [m|] a0 Hok Ha0; [|done]. cbn in Ha0. subst a0. cbn [toJSON map_json clean fromJSON zero default].
    destruct (fromPairs_roundtrip strict m _ ∅ (NoDup_sorted_keys m)) as (m1 & -> & Hm1).
    + apply Forall_forall. intros k Hk%elem_of_sorted_keys. destruct Hk as [v Hv].
      rewrite (lookup_total_correct _ _ _ Hv). by apply Hok.
    + simpl. do 2 f_equal. apply map_eq. intros i. rewrite Hm1.
      destruct (decide _) as [Hi%elem_of_sorted_keys|Hi].
      * destruct Hi as [v Hv]. by rewrite (lookup_total_correct _ _ _ Hv), Hv.
      * rewrite elem_of_sorted_keys, <-eq_None_not_Some in Hi. by rewrite lookup_empty, Hi.
Qed.

(** ** Structs *)

Lemma find_name (l : list string) key : key ∈ l -> find (λ n, bool_decide (n = key)) l = Some key.
Proof.
  induction l as [|n l IH]; [by intros ?%elem_of_nil|]. intros Hin. simpl. case_bool_decide as E; [by subst|].
  apply IH. apply elem_of_cons in Hin as [?|?]; [by subst|done].
Qed.

Lemma findField_name {T} (s : schema T) key : key ∈ names s -> findField s key = Some key.
Proof. intros Hin. unfold findField. by rewrite find_name. Qed.

Section fields.
Context {A T : Type} `{JSONValue A} (name : string) (omitempty : bool) (rest : schema T).

(** A member of the rest does not touch the first field. *)
Lemma setMember_rest strict m a t :
  m.1 ∈ names rest -> m.1 ≠ name ->
  setMember strict (Member name omitempty rest) m (a, t) =
    let q := setMember strict rest m t in ((a, q.1), q.2).
Proof.
  intros Hin Hne. unfold setMember. rewrite !findField_name by (done || by right).
  cbn [setField fst snd]. by rewrite bool_decide_eq_false_2.
Qed.

Lemma setMembers_rest strict ms a t :
  Forall (λ m, m.1 ∈ names rest) ms -> name ∉ names rest ->
  setMembers strict (Member name omitempty rest) ms (a, t) =
    let q := setMembers strict rest ms t in ((a, q.1), q.2).
Proof.
  intros Hms Hn. revert t. induction Hms as [|m ms Hm Hms IH]; intros t; [done|].
  cbn [setMembers]. rewrite setMember_rest by (done || set_solver). simpl. by rewrite IH.
Qed.
End fields.

Definition cleanMembers (ms : list (string * json)) : list (string * json) :=
  (λ p, (ToValidUTF8 p.1, clean p.2)) <$> ms.

Lemma members_names {T} nils (s : schema T) t :
  forallb Valid (names s) = true ->
  Forall (λ m, m.1 ∈ names s) (cleanMembers (members nils s t)).
Proof.
  induction s as [|A T ? name omitempty rest IH]; [constructor|]. cbn [names forallb members].
  intros [Hn Hr]%andb_true_iff. unfold cleanMembers. rewrite fmap_app. apply Forall_app. split.
  - destruct (_ && _); [constructor|]. apply Forall_singleton. simpl. rewrite ToValid_Valid by done. left.
  - eapply Forall_impl; [by apply IH|]. intros m Hm. by right.
Qed.

Lemma members_roundtrip {T} nils strict (s : schema T) t t0 :
  lawfulFields s -> NoDup (names s) -> forallb Valid (names s) = true -> okFields s t ->
  blankFields s t0 -> setMembers strict s (cleanMembers (members nils s t)) t0 = (t, None).
Proof.
  induction s as [|A T ? name omitempty rest IH]; [by destruct t, t0|].
  cbn [lawfulFields names forallb members okFields blankFields].
  destruct t as [a t], t0 as [a0 t0]. cbn [fst snd].
  intros (Hlaw & Hom & Hrest) [Hn Hnd]%NoDup_cons [Hv Hvs]%andb_true_iff [Ha Ht] (Hb & Hz & Hbs).
  specialize (IH t t0 Hrest Hnd Hvs Ht Hbs). pose proof (members_names nils rest t Hvs) as Hms.
  unfold cleanMembers in *. rewrite fmap_app. destruct (omitempty && isEmpty a) eqn:E.
  - apply andb_true_iff in E as [-> E]. simpl. rewrite setMembers_rest, IH by done. simpl.
    by rewrite (Hom eq_refl a E), (Hz eq_refl).
  - cbn [fmap list_fmap app setMembers fst snd].
    assert (setMember strict (Member name omitempty rest) (ToValidUTF8 name, clean (toJSON nils name a))
      (a0, t0) = ((a, t0), None)) as ->.
    { unfold setMember. cbn [fst snd]. rewrite ToValid_Valid, findField_name by (done || left).
      cbn [setField fst snd]. rewrite bool_decide_eq_true_2 by done. by rewrite json_roundtrip. }
    cbn [fst snd]. by rewrite setMembers_rest, IH by done.
Qed.

Lemma members_depth {T} nils (s : schema T) t :
  lawfulFields s -> foldr Z.max 0 ((λ m, depthOf m.2) <$> members nils s t) <= levelsOf s.
Proof.
  induction s as [|A T ? name omitempty rest IH]; [done|]. cbn [lawfulFields members levelsOf].
  intros (Hlaw & _ & Hrest). rewrite fmap_app. specialize (IH t.2 Hrest).
  destruct (_ && _); simpl; [lia|]. pose proof (json_depth nils name t.1). lia.
Qed.

Lemma members_int {T} nils (s : schema T) t :
  lawfulFields s -> okFields s t -> forallb (λ m, intDoc m.2) (members nils s t) = true.
Proof.
  induction s as [|A T ? name omitempty rest IH]; [done|]. cbn [lawfulFields members okFields].
  intros (Hlaw & _ & Hrest) [Ha Ht]. rewrite forallb_app, (IH t.2) by done.
  destruct (omitempty && isEmpty t.1); [done|]. cbn [forallb snd andb]. by rewrite (json_int nils name t.1).
Qed.

Lemma blank_zeros {T} (s : schema T) : lawfulFields s -> blankFields s (zeros s).
Proof.
  induction s as [|A T ? name omitempty rest IH]; [done|]. cbn [lawfulFields blankFields zeros fst snd].
  intros (Hlaw & _ & Hrest). split_and!; [apply json_blank|done|auto].
Qed.

Lemma ok_zeros {T} (s : schema T) : lawfulFields s -> okFields s (zeros s).
Proof.
  induction s as [|A T ? name omitempty rest IH]; [done|]. cbn [lawfulFields okFields zeros fst snd].
  intros (Hlaw & _ & Hrest). split; [apply json_zero|auto].
Qed.

Lemma setField_typed {T} strict (s : schema T) field j t :
  lawfulFields s -> validDoc j -> okFields s t -> okFields s (setField strict s field j t).1.
Proof.
  induction s as [|A T ? name omitempty rest IH]; [done|]. cbn [lawfulFields okFields setField].
  intros (Hlaw & _ & Hrest) Hj [Ha Ht]. case_bool_decide; cbn [fst snd]; (split; [|by auto]); [|done].
  by apply json_typed.
Qed.

Lemma setMembers_typed {T} strict (s : schema T) ms t :
  lawfulFields s -> Forall (λ m, Valid m.1 = true ∧ validDoc m.2) ms -> okFields s t ->
  okFields s (setMembers strict s ms t).1.
Proof.
  intros Hs Hms. revert t. induction Hms as [|m ms [_ Hm] Hms IH]; intros t Ht; [done|].
  cbn [setMembers fst]. apply IH. unfold setMember. case_match; [|done]. by apply setField_typed.
Qed.

#[export] Instance struct_laws {R} `{StructLaws R} : JSONLaws R.
Proof.
  split.
  - intros nils name r Hr. cbn. apply members_int; [apply fields_lawful|done].
  - intros nils name r. cbn. pose proof (members_depth nils schemaOf (unpack r) fields_lawful). lia.
  - cbn. rewrite unpack_pack. apply blank_zeros, fields_lawful.
  - cbn. rewrite unpack_pack. apply ok_zeros, fields_lawful.
  - intros strict j r Hj Hr. destruct j; try done. apply validDoc_object in Hj.
    cbn [fromJSON struct_json fst okJSON]. rewrite unpack_pack.
    apply setMembers_typed; [apply fields_lawful|done|done].
  - intros nils name strict r r0 Hr Hb. cbn [toJSON struct_json clean fromJSON].
    pose proof (members_roundtrip nils strict schemaOf (unpack r) (unpack r0) fields_lawful) as Hm.
    unfold cleanMembers in Hm. rewrite Hm.
    + cbn [fst snd]. by rewrite pack_unpack.
    + eapply bool_decide_eq_true, names_distinct.
    + apply names_valid.
    + done.
    + done.
Qed.
