(* ===== verification/Api.v ===== *)
(** * The request, response and event types of [src/api/api.go]

    An enumeration of the source is an inductive type with the source's
    constants; [ResponseStatus], [CompareOp] and [TxnOpType] are decoded from JSON
    integers that nothing validates, so they have one more constructor for the
    other values. *)

From S2P Require Import Prelude GoLib.

(** ** Status of a response *)

Inductive ResponseStatus :=
| StatusInvalid
| StatusOK
| StatusNotLeader
| StatusFailedCommit
| StatusDuplicateRequest
| StatusOther (n : Z).
#[export] Instance ResponseStatus_eq_dec : EqDecision ResponseStatus.
Proof. solve_decision. Defined.

Definition responseName (rs : ResponseStatus) : string :=
  match rs with
  | StatusInvalid => "invalid"
  | StatusOK => "OK"
  | StatusNotLeader => "NotLeader"
  | StatusFailedCommit => "FailedCommit"
  | StatusDuplicateRequest => "DuplicateRequest"
  | StatusOther _ => ""
  end.

(** A status as its integer. *)
Definition statusOfInt (n : Z) : ResponseStatus :=
  if n =? 0 then StatusInvalid
  else if n =? 1 then StatusOK
  else if n =? 2 then StatusNotLeader
  else if n =? 3 then StatusFailedCommit
  else if n =? 4 then StatusDuplicateRequest
  else StatusOther n.
Definition statusInt (rs : ResponseStatus) : Z :=
  match rs with
  | StatusInvalid => 0
  | StatusOK => 1
  | StatusNotLeader => 2
  | StatusFailedCommit => 3
  | StatusDuplicateRequest => 4
  | StatusOther n => n
  end.

(** ** Key-value requests and responses *)

Record PutRequest := mkPutRequest {
  PutReq_Key : string; PutReq_Value : string;
  PutReq_ClientID : Z; PutReq_RequestID : Z; PutReq_LeaseID : Z }.

Record PutResponse := mkPutResponse {
  PutResp_RespStatus : ResponseStatus; PutResp_KeyFound : bool;
  PutResp_PrevValue : string; PutResp_Revision : Z }.

Record AppendRequest := mkAppendRequest {
  AppendReq_Key : string; AppendReq_Value : string;
  AppendReq_ClientID : Z; AppendReq_RequestID : Z }.

Record AppendResponse := mkAppendResponse {
  AppendResp_RespStatus : ResponseStatus; AppendResp_KeyFound : bool;
  AppendResp_PrevValue : string; AppendResp_Revision : Z }.

Record GetRequest := mkGetRequest {
  GetReq_Key : string; GetReq_ClientID : Z; GetReq_RequestID : Z }.

Record GetResponse := mkGetResponse {
  GetResp_RespStatus : ResponseStatus; GetResp_KeyFound : bool;
  GetResp_Value : string; GetResp_Revision : Z }.

Record CASRequest := mkCASRequest {
  CASReq_Key : string; CASReq_CompareValue : string; CASReq_Value : string;
  CASReq_ClientID : Z; CASReq_RequestID : Z }.

Record CASResponse := mkCASResponse {
  CASResp_RespStatus : ResponseStatus; CASResp_KeyFound : bool;
  CASResp_PrevValue : string; CASResp_Revision : Z }.

Record ListRequest := mkListRequest {
  ListReq_Prefix : string; ListReq_Limit : Z; ListReq_KeyAfter : string;
  ListReq_ClientID : Z; ListReq_RequestID : Z }.

(** A nil map is [None]: it is not the empty map once it is encoded as JSON. *)
Record ListResponse := mkListResponse {
  ListResp_RespStatus : ResponseStatus; ListResp_Pairs : option (gmap string string);
  ListResp_NextKey : string; ListResp_Revision : Z }.

(** ** Cluster management *)

Record JoinRequest := mkJoinRequest {
  JoinReq_ID : Z; JoinReq_RaftAddr : string; JoinReq_HTTPAddr : string }.
Record JoinResponse := mkJoinResponse { JoinResp_RespStatus : ResponseStatus }.
Record LeaveRequest := mkLeaveRequest { LeaveReq_ID : Z }.
Record LeaveResponse := mkLeaveResponse { LeaveResp_RespStatus : ResponseStatus }.

Record PeerInfo := mkPeerInfo { Peer_ID : Z; Peer_HTTPAddr : string }.

Record StatusResponse := mkStatusResponse {
  StatusResp_RespStatus : ResponseStatus; StatusResp_ID : Z;
  StatusResp_IsLeader : bool; StatusResp_PeerCount : Z }.

Record MembersResponse := mkMembersResponse {
  MembersResp_RespStatus : ResponseStatus; MembersResp_Members : list PeerInfo }.

(** ** Watch events *)

Inductive WatchEventType := EventInvalid | EventPut | EventDelete.
#[export] Instance WatchEventType_eq_dec : EqDecision WatchEventType.
Proof. solve_decision. Defined.

(** A missing key of the Go map reads as the empty string. *)
Definition WatchEventName (t : WatchEventType) : string :=
  match t with
  | EventPut => "put"
  | EventDelete => "delete"
  | EventInvalid => ""
  end.

Definition WatchEventTypeFromName (s : string) : option WatchEventType :=
  if bool_decide (s = "put") then Some EventPut
  else if bool_decide (s = "delete") then Some EventDelete
  else None.

Record WatchEvent := mkWatchEvent {
  Ev_Key : string; Ev_Value : string; Ev_Revision : Z; Ev_Type : WatchEventType }.
#[export] Instance WatchEvent_eq_dec : EqDecision WatchEvent.
Proof. solve_decision. Defined.

Lemma WatchEventTypeFromName_name t :
  t ≠ EventInvalid -> WatchEventTypeFromName (WatchEventName t) = Some t.
Proof. by destruct t. Qed.

(** ** Transactions *)

Inductive CompareOp :=
| CompareEQ | CompareNEQ | CompareGTE | CompareLTE | CompareExists | CompareNotExists
| CompareOther (n : Z).
#[export] Instance CompareOp_eq_dec : EqDecision CompareOp.
Proof. solve_decision. Defined.

Inductive TxnOpType :=
| TxnOpPut | TxnOpDelete | TxnOpCAS | TxnOpAppend
| TxnOpOther (n : Z).
#[export] Instance TxnOpType_eq_dec : EqDecision TxnOpType.
Proof. solve_decision. Defined.

(** Their integers. *)
Definition compareOfInt (n : Z) : CompareOp :=
  if n =? 0 then CompareEQ
  else if n =? 1 then CompareNEQ
  else if n =? 2 then CompareGTE
  else if n =? 3 then CompareLTE
  else if n =? 4 then CompareExists
  else if n =? 5 then CompareNotExists
  else CompareOther n.
Definition compareInt (op : CompareOp) : Z :=
  match op with
  | CompareEQ => 0
  | CompareNEQ => 1
  | CompareGTE => 2
  | CompareLTE => 3
  | CompareExists => 4
  | CompareNotExists => 5
  | CompareOther n => n
  end.
Definition txnOpOfInt (n : Z) : TxnOpType :=
  if n =? 0 then TxnOpPut
  else if n =? 1 then TxnOpDelete
  else if n =? 2 then TxnOpCAS
  else if n =? 3 then TxnOpAppend
  else TxnOpOther n.
Definition txnOpInt (op : TxnOpType) : Z :=
  match op with
  | TxnOpPut => 0
  | TxnOpDelete => 1
  | TxnOpCAS => 2
  | TxnOpAppend => 3
  | TxnOpOther n => n
  end.

Record TxnCondition := mkTxnCondition {
  Cond_Key : string; Cond_Compare : CompareOp; Cond_Value : string }.

Record TxnOp := mkTxnOp {
  Op_Op : TxnOpType; Op_Key : string; Op_Value : string;
  Op_CompareValue : string; Op_LeaseID : Z }.

Record TxnRequest := mkTxnRequest {
  TxnReq_Conditions : list TxnCondition; TxnReq_Success : list TxnOp;
  TxnReq_Failure : list TxnOp; TxnReq_ClientID : Z; TxnReq_RequestID : Z }.

Record TxnOpResult := mkTxnOpResult {
  Res_Key : string; Res_PrevValue : string; Res_KeyFound : bool }.

Record TxnResponse := mkTxnResponse {
  TxnResp_RespStatus : ResponseStatus; TxnResp_Succeeded : bool;
  TxnResp_Results : list TxnOpResult; TxnResp_Revision : Z }.

(** ** Leases *)

Record LeaseGrantRequest := mkLeaseGrantRequest {
  GrantReq_TTL : Z; GrantReq_ClientID : Z; GrantReq_RequestID : Z }.
Record LeaseGrantResponse := mkLeaseGrantResponse {
  GrantResp_RespStatus : ResponseStatus; GrantResp_ID : Z; GrantResp_TTL : Z }.
Record LeaseKeepAliveRequest := mkLeaseKeepAliveRequest {
  KeepAliveReq_ID : Z; KeepAliveReq_ClientID : Z; KeepAliveReq_RequestID : Z }.
Record LeaseKeepAliveResponse := mkLeaseKeepAliveResponse {
  KeepAliveResp_RespStatus : ResponseStatus; KeepAliveResp_ID : Z }.
Record LeaseRevokeRequest := mkLeaseRevokeRequest {
  RevokeReq_ID : Z; RevokeReq_ClientID : Z; RevokeReq_RequestID : Z }.
Record LeaseRevokeResponse := mkLeaseRevokeResponse {
  RevokeResp_RespStatus : ResponseStatus }.

(** ** The [Response] interface: every response type has a status. *)

Class Response (R : Type) := Status : R -> ResponseStatus.
#[export] Instance PutResponse_Status : Response PutResponse := PutResp_RespStatus.
#[export] Instance AppendResponse_Status : Response AppendResponse := AppendResp_RespStatus.
#[export] Instance GetResponse_Status : Response GetResponse := GetResp_RespStatus.
#[export] Instance CASResponse_Status : Response CASResponse := CASResp_RespStatus.
#[export] Instance ListResponse_Status : Response ListResponse := ListResp_RespStatus.
#[export] Instance JoinResponse_Status : Response JoinResponse := JoinResp_RespStatus.
#[export] Instance LeaveResponse_Status : Response LeaveResponse := LeaveResp_RespStatus.
#[export] Instance StatusResponse_Status : Response StatusResponse := StatusResp_RespStatus.
#[export] Instance MembersResponse_Status : Response MembersResponse := MembersResp_RespStatus.
#[export] Instance TxnResponse_Status : Response TxnResponse := TxnResp_RespStatus.
#[export] Instance LeaseGrantResponse_Status : Response LeaseGrantResponse :=
  GrantResp_RespStatus.
#[export] Instance LeaseKeepAliveResponse_Status : Response LeaseKeepAliveResponse :=
  KeepAliveResp_RespStatus.
#[export] Instance LeaseRevokeResponse_Status : Response LeaseRevokeResponse :=
  RevokeResp_RespStatus.
