(* ===== verification/DataStore.v ===== *)
(** * The in-memory store of [src/kvservice/datastore.go]

    One definition per method.  A method runs with the store's mutex held from
    its first to its last statement and calls no other locking method, so it is
    a function from the store to the store and its result.  A Go method that
    mutates is a function returning [(result, store)]; [Lease] objects are
    reached only through [leases], so they are values of that map.

    The inputs a method takes from its surroundings are arguments: [now] is the
    result of [time.Now()] (nanoseconds), [ord] the order in which a [range]
    visits a map.

    The file then gives the well-formedness invariant [wf] that ties the two
    directions of the key/lease association together, and proves that every
    method preserves it. *)

From S2P Require Import Prelude GoLib Api.

(** ** State *)

Record Lease := mkLease { ID : Z; TTL : Z; ExpiresAt : Z; Keys : gset string }.
#[export] Instance Lease_eq_dec : EqDecision Lease.
Proof. solve_decision. Defined.

Record DataStore := mkDataStore {
  data : gmap string string;
  leases : gmap Z Lease;
  keyLease : gmap string Z;
  leaseIDSeq : Z }.

(** The form of a lease in a snapshot: its key set is a slice. *)
Record leaseSnapshot := mkLeaseSnapshot {
  snap_ID : Z; snap_TTL : Z; snap_ExpiresAt : Z; snap_Keys : list string }.

Definition set_data (ds : DataStore) (m : gmap string string) : DataStore :=
  mkDataStore m (leases ds) (keyLease ds) (leaseIDSeq ds).
Definition set_leases (ds : DataStore) (m : gmap Z Lease) : DataStore :=
  mkDataStore (data ds) m (keyLease ds) (leaseIDSeq ds).
Definition set_keyLease (ds : DataStore) (m : gmap string Z) : DataStore :=
  mkDataStore (data ds) (leases ds) m (leaseIDSeq ds).

Definition set_Keys (l : Lease) (ks : gset string) : Lease :=
  mkLease (ID l) (TTL l) (ExpiresAt l) ks.
Definition set_ExpiresAt (l : Lease) (t : Z) : Lease :=
  mkLease (ID l) (TTL l) t (Keys l).

(** A map lookup with the comma-ok idiom: the zero value when the key is missing. *)
Definition comma_ok (o : option string) : string * bool :=
  match o with Some v => (v, true) | None => ("", false) end.

(** ** Operations *)

Definition NewDataStore : DataStore := mkDataStore ∅ ∅ ∅ 0.

Definition Get (key : string) (ds : DataStore) : string * bool :=
  comma_ok (data ds !! key).

Definition detachKeyFromLease (key : string) (ds : DataStore) : DataStore :=
  match keyLease ds !! key with
  | None => ds
  | Some oldLeaseID =>
      let ds1 := set_keyLease ds (delete key (keyLease ds)) in
      match leases ds1 !! oldLeaseID with
      | Some l => set_leases ds1 (<[oldLeaseID := set_Keys l (Keys l ∖ {[key]})]> (leases ds1))
      | None => ds1
      end
  end.

Definition attachKeyToLease (key : string) (leaseID : Z) (ds : DataStore) : DataStore :=
  let ds1 := detachKeyFromLease key ds in
  match leases ds1 !! leaseID with
  | None => ds1
  | Some l =>
      let ds2 := set_leases ds1 (<[leaseID := set_Keys l ({[key]} ∪ Keys l)]> (leases ds1)) in
      set_keyLease ds2 (<[key := leaseID]> (keyLease ds2))
  end.

Definition putLocked (key value : string) (leaseID : Z) (ds : DataStore)
    : (string * bool) * DataStore :=
  let ds1 := detachKeyFromLease key ds in
  let r := comma_ok (data ds1 !! key) in
  let ds2 := set_data ds1 (<[key := value]> (data ds1)) in
  (r, if bool_decide (leaseID ≠ 0) then attachKeyToLease key leaseID ds2 else ds2).

Definition Put (key value : string) (leaseID : Z) (ds : DataStore)
    : (string * bool) * DataStore :=
  putLocked key value leaseID ds.

Definition appendLocked (key value : string) (ds : DataStore) : (string * bool) * DataStore :=
  let '(v, ok) := comma_ok (data ds !! key) in
  ((v, ok), set_data ds (<[key := v +:+ value]> (data ds))).

Definition Append (key value : string) (ds : DataStore) : (string * bool) * DataStore :=
  appendLocked key value ds.

Definition casLocked (key compare value : string) (ds : DataStore)
    : (string * bool) * DataStore :=
  let '(prevValue, ok) := comma_ok (data ds !! key) in
  ((prevValue, ok),
   if ok && bool_decide (prevValue = compare)
   then set_data ds (<[key := value]> (data ds)) else ds).

Definition CAS (key compare value : string) (ds : DataStore) : (string * bool) * DataStore :=
  casLocked key compare value ds.

Definition deleteLocked (key : string) (ds : DataStore) : (string * bool) * DataStore :=
  let ds1 := detachKeyFromLease key ds in
  (comma_ok (data ds1 !! key), set_data ds1 (delete key (data ds1))).

Definition Delete (key : string) (ds : DataStore) : (string * bool) * DataStore :=
  deleteLocked key ds.

(** Named [ListPrefix]: [List] is a module of the Standard Library. *)
Definition ListPrefix (prefix : string) (ds : DataStore) : gmap string string :=
  filter (λ kv, HasPrefix kv.1 prefix = true) (data ds).

(** The loop over the sorted keys: [i] counts the keys already visited. *)
Fixpoint listPagedLoop (m : gmap string string) (limit i : Z) (keys : list string)
    (result : gmap string string) : gmap string string * string :=
  match keys with
  | [] => (result, "")
  | k :: rest =>
      if (0 <? limit) && (limit <=? i) then (result, k)
      else listPagedLoop m limit (i + 1) rest (<[k := default "" (m !! k)]> result)
  end.

(** The keys a page is cut from, sorted. *)
Definition pagedKeys (prefix keyAfter : string) (ds : DataStore) : list string :=
  sort_Strings (elements (dom
    (filter (λ kv, HasPrefix kv.1 prefix = true ∧ string_le keyAfter kv.1 = true) (data ds)))).

Definition ListPaged (prefix : string) (limit : Z) (keyAfter : string) (ds : DataStore)
    : gmap string string * string :=
  listPagedLoop (data ds) limit 0 (pagedKeys prefix keyAfter ds) ∅.

Definition CopyAll (ds : DataStore) : gmap string string := data ds.

Definition RestoreAll (m : gmap string string) (ds : DataStore) : DataStore := set_data ds m.

Definition evalCondition (c : TxnCondition) (ds : DataStore) : bool :=
  let '(v, ok) := comma_ok (data ds !! Cond_Key c) in
  match Cond_Compare c with
  | CompareEQ => ok && bool_decide (v = Cond_Value c)
  | CompareNEQ => negb ok || bool_decide (v ≠ Cond_Value c)
  | CompareGTE =>
      if negb ok then false
      else let '(vi, errV) := Strconv.ParseInt v in
           let '(ci, errC) := Strconv.ParseInt (Cond_Value c) in
           if bool_decide (errV ≠ None ∨ errC ≠ None) then string_le (Cond_Value c) v
           else ci <=? vi
  | CompareLTE =>
      if negb ok then false
      else let '(vi, errV) := Strconv.ParseInt v in
           let '(ci, errC) := Strconv.ParseInt (Cond_Value c) in
           if bool_decide (errV ≠ None ∨ errC ≠ None) then string_le v (Cond_Value c)
           else vi <=? ci
  | CompareExists => ok
  | CompareNotExists => negb ok
  | CompareOther _ => false
  end.

(** [time.Duration(ttl) * time.Second]: a product of int64s. *)
Definition ttlDuration (ttl : Z) : Z := wrap64 (ttl * 1000000000).

Definition GrantLease (now ttl : Z) (ds : DataStore) : Z * DataStore :=
  let id := wrap64 (leaseIDSeq ds + 1) in
  (id, mkDataStore (data ds) (<[id := mkLease id ttl (now + ttlDuration ttl) ∅]> (leases ds))
         (keyLease ds) id).

Definition KeepAliveLease (now id : Z) (ds : DataStore) : bool * DataStore :=
  match leases ds !! id with
  | None => (false, ds)
  | Some l =>
      (true, set_leases ds (<[id := set_ExpiresAt l (now + ttlDuration (TTL l))]> (leases ds)))
  end.

(** The body of the loop over the keys of a revoked lease. *)
Definition revokeKey (ds : DataStore) (k : string) : DataStore :=
  set_keyLease (set_data ds (delete k (data ds))) (delete k (keyLease ds)).

Definition RevokeLease (ord : MapOrder) (id : Z) (ds : DataStore) : list string * DataStore :=
  match leases ds !! id with
  | None => ([], ds)
  | Some l =>
      let ds1 := set_leases ds (delete id (leases ds)) in
      let keys := visit ord (elements (Keys l)) in
      (keys, fold_left revokeKey keys ds1)
  end.

Definition CheckExpiredLeases (ord : MapOrder) (now : Z) (ds : DataStore) : list Z :=
  (filter (λ p, ExpiresAt p.2 < now) (visit ord (map_to_list (leases ds)))).*1.

Definition LeaseCount (ds : DataStore) : Z := Z.of_nat (size (leases ds)).

Definition snapLease (ord : MapOrder) (l : Lease) : leaseSnapshot :=
  mkLeaseSnapshot (ID l) (TTL l) (ExpiresAt l) (visit ord (elements (Keys l))).

Definition GetLeaseSnapshot (ord : MapOrder) (ds : DataStore)
    : gmap Z leaseSnapshot * gmap string Z * Z :=
  (snapLease ord <$> leases ds, keyLease ds, leaseIDSeq ds).

Definition unsnapLease (s : leaseSnapshot) : Lease :=
  mkLease (snap_ID s) (snap_TTL s) (snap_ExpiresAt s) (list_to_set (snap_Keys s)).

Definition RestoreFromLeaseSnapshot (ls : gmap Z leaseSnapshot) (kl : gmap string Z)
    (nextID : Z) (ds : DataStore) : DataStore :=
  mkDataStore (data ds) (unsnapLease <$> ls) kl nextID.

(** ** Transactions *)

(** The loop over the conditions, which stops at the first one that fails. *)
Fixpoint evalConditions (conds : list TxnCondition) (ds : DataStore) : bool :=
  match conds with
  | [] => true
  | c :: rest => if evalCondition c ds then evalConditions rest ds else false
  end.

Definition execTxnOp (op : TxnOp) (ds : DataStore) : TxnOpResult * DataStore :=
  match Op_Op op with
  | TxnOpPut =>
      let '((pv, f), ds1) := putLocked (Op_Key op) (Op_Value op) (Op_LeaseID op) ds in
      (mkTxnOpResult (Op_Key op) pv f, ds1)
  | TxnOpDelete =>
      let '((pv, f), ds1) := deleteLocked (Op_Key op) ds in
      (mkTxnOpResult (Op_Key op) pv f, ds1)
  | TxnOpCAS =>
      let '((pv, f), ds1) := casLocked (Op_Key op) (Op_CompareValue op) (Op_Value op) ds in
      (mkTxnOpResult (Op_Key op) pv f, ds1)
  | TxnOpAppend =>
      let '((pv, f), ds1) := appendLocked (Op_Key op) (Op_Value op) ds in
      (mkTxnOpResult (Op_Key op) pv f, ds1)
  | TxnOpOther _ => (mkTxnOpResult (Op_Key op) "" false, ds)
  end.

Fixpoint execTxnOps (branch : list TxnOp) (ds : DataStore) : list TxnOpResult * DataStore :=
  match branch with
  | [] => ([], ds)
  | op :: rest =>
      let '(r, ds1) := execTxnOp op ds in
      let '(rs, ds2) := execTxnOps rest ds1 in
      (r :: rs, ds2)
  end.

Definition Txn (conds : list TxnCondition) (success failure : list TxnOp) (ds : DataStore)
    : (bool * list TxnOpResult) * DataStore :=
  let allMet := evalConditions conds ds in
  let branch := if allMet then success else failure in
  let '(results, ds1) := execTxnOps branch ds in
  ((allMet, results), ds1).

(** ** The well-formedness invariant

    [keyLease] and the key sets of [leases] describe one relation; a leased key
    is present in [data]; lease ids are those handed out so far. *)

Record wf (ds : DataStore) : Prop := mkWf {
  wf_assoc k id : keyLease ds !! k = Some id <-> ∃ l, leases ds !! id = Some l ∧ k ∈ Keys l;
  wf_data k id : keyLease ds !! k = Some id -> is_Some (data ds !! k);
  wf_id id l : leases ds !! id = Some l -> ID l = id ∧ 1 <= id <= leaseIDSeq ds;
  wf_seq : 0 <= leaseIDSeq ds <= int64_max }.

Lemma wf_owner_unique ds id1 id2 l1 l2 k :
  wf ds -> leases ds !! id1 = Some l1 -> leases ds !! id2 = Some l2 ->
  k ∈ Keys l1 -> k ∈ Keys l2 -> id1 = id2.
Proof.
  intros Hwf H1 H2 Hk1 Hk2.
  assert (keyLease ds !! k = Some id1) by (apply (wf_assoc _ Hwf); eauto).
  assert (keyLease ds !! k = Some id2) by (apply (wf_assoc _ Hwf); eauto).
  congruence.
Qed.

Lemma wf_NewDataStore : wf NewDataStore.
Proof.
  split; simpl.
  - intros k id. rewrite lookup_empty. split; [done|]. intros (l & H & _). by rewrite lookup_empty in H.
  - intros k id. by rewrite lookup_empty.
  - intros id l. by rewrite lookup_empty.
  - unfold int64_max. lia.
Qed.

(** *** Detaching and attaching a key *)

(** In a well-formed store detaching removes the key from every key set. *)
Lemma detach_eq k ds :
  wf ds ->
  detachKeyFromLease k ds =
    mkDataStore (data ds) ((λ l, set_Keys l (Keys l ∖ {[k]})) <$> leases ds)
      (delete k (keyLease ds)) (leaseIDSeq ds).
Proof.
  intros Hwf. unfold detachKeyFromLease.
  assert (Hother: ∀ id l, keyLease ds !! k ≠ Some id -> leases ds !! id = Some l ->
    set_Keys l (Keys l ∖ {[k]}) = l).
  { intros id l Hne Hl. destruct l as [i t e ks]. unfold set_Keys; simpl. f_equal.
    assert (k ∉ ks); [|set_solver]. intros Hk. apply Hne, (wf_assoc _ Hwf). eauto. }
  destruct (keyLease ds !! k) as [old|] eqn:Hk.
  - destruct (proj1 (wf_assoc _ Hwf _ _) Hk) as (l & Hl & _). simpl. rewrite Hl.
    unfold set_leases, set_keyLease; simpl. f_equal. apply map_eq. intros id.
    rewrite lookup_fmap. destruct (decide (old = id)) as [->|Hne].
    + by rewrite lookup_insert_eq, Hl.
    + rewrite lookup_insert_ne by done.
      destruct (leases ds !! id) eqn:E; [|done]. simpl. f_equal. symmetry.
      apply (Hother id); [congruence|done].
  - destruct ds as [d ls kl sq]; simpl in *. f_equal.
    + apply map_eq. intros id. rewrite lookup_fmap.
      destruct (ls !! id) eqn:E; [|done]. simpl. f_equal. symmetry. by apply (Hother id).
    + by rewrite delete_id.
Qed.

Lemma wf_detach k ds : wf ds -> wf (detachKeyFromLease k ds).
Proof.
  intros Hwf. rewrite detach_eq by done. split; simpl; [|..|by apply wf_seq].
  - intros k' id. rewrite lookup_delete_Some, (wf_assoc _ Hwf). split.
    + intros (Hne & l & Hl & Hk). exists (set_Keys l (Keys l ∖ {[k]})).
      rewrite lookup_fmap, Hl. set_solver.
    + intros (l' & Hl' & Hk). rewrite lookup_fmap in Hl'.
      destruct (leases ds !! id) as [l|]; simplify_eq/=. set_solver.
  - intros k' id. rewrite lookup_delete_Some. intros [_ H]. by eapply wf_data.
  - intros id l'. rewrite lookup_fmap. destruct (leases ds !! id) as [l|] eqn:E; [|done].
    intros; simplify_eq/=. by apply (wf_id _ Hwf).
Qed.

(** Writing a key keeps well-formedness whatever the value. *)
Lemma wf_insert k v ds : wf ds -> wf (set_data ds (<[k := v]> (data ds))).
Proof.
  intros Hwf. split; simpl; try apply Hwf.
  intros k' id H%(wf_data _ Hwf). rewrite lookup_insert. by case_decide.
Qed.

Lemma wf_attach k id ds :
  wf ds -> is_Some (data ds !! k) -> wf (attachKeyToLease k id ds).
Proof.
  intros Hwf Hd. unfold attachKeyToLease.
  assert (Hwf1 := wf_detach k ds Hwf).
  assert (Hd1: is_Some (data (detachKeyFromLease k ds) !! k)) by (by rewrite detach_eq).
  assert (Hk1: keyLease (detachKeyFromLease k ds) !! k = None)
    by (rewrite detach_eq by done; apply lookup_delete_eq).
  set (ds1 := detachKeyFromLease k ds) in *. clearbody ds1. clear ds Hwf Hd.
  destruct (leases ds1 !! id) as [l|] eqn:Hl; [|done].
  split; simpl; [|..|by apply wf_seq].
  - intros k' id'. destruct (decide (k = k')) as [<-|Hk].
    + rewrite lookup_insert_eq. split.
      * intros; simplify_eq. exists (set_Keys l ({[k]} ∪ Keys l)).
        rewrite lookup_insert_eq. set_solver.
      * intros (l' & Hl' & Hin). apply lookup_insert_Some in Hl' as [[-> _]|[Hne Hl']]; [done|].
        exfalso. assert (keyLease ds1 !! k = Some id') by (apply (wf_assoc _ Hwf1); eauto).
        congruence.
    + rewrite lookup_insert_ne, (wf_assoc _ Hwf1) by done. split.
      * intros (l' & Hl' & Hin). rewrite lookup_insert.
        case_decide; subst; simplify_eq; eexists; (split; [done|set_solver]).
      * intros (l' & Hl' & Hin). apply lookup_insert_Some in Hl' as [[-> <-]|[Hne Hl']].
        -- exists l. set_solver.
        -- by exists l'.
  - intros k' id'. rewrite lookup_insert_Some. intros [[<- _]|[_ H]]; [done|].
    by eapply wf_data.
  - intros id' l'. rewrite lookup_insert_Some. intros [[<- <-]|[_ H]].
    + exact (wf_id _ Hwf1 _ _ Hl).
    + by apply (wf_id _ Hwf1).
Qed.

#[export] Hint Resolve wf_NewDataStore wf_detach wf_insert : zodiac.

(** *** Writes *)

Lemma wf_putLocked k v id ds : wf ds -> wf (putLocked k v id ds).2.
Proof.
  intros Hwf. unfold putLocked; simpl. case_bool_decide; [|auto with zodiac].
  apply wf_attach; [auto with zodiac|]. simpl. rewrite lookup_insert_eq. eauto.
Qed.

Lemma wf_appendLocked k v ds : wf ds -> wf (appendLocked k v ds).2.
Proof. intros. unfold appendLocked. destruct (comma_ok _). simpl. auto with zodiac. Qed.

Lemma wf_casLocked k c v ds : wf ds -> wf (casLocked k c v ds).2.
Proof. intros. unfold casLocked. destruct (comma_ok _). simpl. case_match; auto with zodiac. Qed.

Lemma wf_deleteLocked k ds : wf ds -> wf (deleteLocked k ds).2.
Proof.
  intros Hwf. unfold deleteLocked; simpl. assert (Hwf1 := wf_detach k ds Hwf).
  assert (Hk1: keyLease (detachKeyFromLease k ds) !! k = None)
    by (rewrite detach_eq by done; apply lookup_delete_eq).
  split; simpl; try apply Hwf1.
  intros k' id' H. rewrite lookup_delete_ne by congruence. by eapply wf_data.
Qed.

#[export] Hint Resolve wf_putLocked wf_appendLocked wf_casLocked wf_deleteLocked : zodiac.

(** A transaction operation is the plain operation it names, or nothing. *)
Definition txnOpEffect (op : TxnOp) (ds : DataStore) : (string * bool) * DataStore :=
  match Op_Op op with
  | TxnOpPut => putLocked (Op_Key op) (Op_Value op) (Op_LeaseID op) ds
  | TxnOpDelete => deleteLocked (Op_Key op) ds
  | TxnOpCAS => casLocked (Op_Key op) (Op_CompareValue op) (Op_Value op) ds
  | TxnOpAppend => appendLocked (Op_Key op) (Op_Value op) ds
  | TxnOpOther _ => (("", false), ds)
  end.

Lemma execTxnOp_effect op ds :
  execTxnOp op ds =
    (mkTxnOpResult (Op_Key op) (txnOpEffect op ds).1.1 (txnOpEffect op ds).1.2,
     (txnOpEffect op ds).2).
Proof.
  unfold execTxnOp, txnOpEffect. destruct (Op_Op op); [..|done].
  - by destruct (putLocked _ _ _ _) as [[??]?].
  - by destruct (deleteLocked _ _) as [[??]?].
  - by destruct (casLocked _ _ _ _) as [[??]?].
  - by destruct (appendLocked _ _ _) as [[??]?].
Qed.

Lemma wf_execTxnOp op ds : wf ds -> wf (execTxnOp op ds).2.
Proof.
  intros Hwf. rewrite execTxnOp_effect. simpl. unfold txnOpEffect.
  destruct (Op_Op op); auto with zodiac.
Qed.

Lemma execTxnOps_cons op rest ds :
  execTxnOps (op :: rest) ds =
    ((execTxnOp op ds).1 :: (execTxnOps rest (execTxnOp op ds).2).1,
     (execTxnOps rest (execTxnOp op ds).2).2).
Proof. simpl. destruct (execTxnOp op ds) as [r ds1]. simpl. by destruct (execTxnOps rest ds1). Qed.

Lemma wf_execTxnOps ops ds : wf ds -> wf (execTxnOps ops ds).2.
Proof.
  revert ds. induction ops as [|op ops IH]; intros ds Hwf; [done|].
  rewrite execTxnOps_cons. simpl. apply IH, wf_execTxnOp, Hwf.
Qed.

Lemma Txn_eq conds success failure ds :
  Txn conds success failure ds =
    (let branch := if evalConditions conds ds then success else failure in
     ((evalConditions conds ds, (execTxnOps branch ds).1), (execTxnOps branch ds).2)).
Proof. unfold Txn. by destruct (execTxnOps _ _). Qed.

Lemma wf_Txn conds success failure ds : wf ds -> wf (Txn conds success failure ds).2.
Proof. rewrite Txn_eq. apply wf_execTxnOps. Qed.

(** *** Leases *)

Lemma wf_GrantLease now ttl ds :
  wf ds -> leaseIDSeq ds < int64_max -> wf (GrantLease now ttl ds).2.
Proof.
  intros Hwf Hlt. pose proof (wf_seq _ Hwf). unfold GrantLease; simpl.
  rewrite wrap64_id by (unfold in_int64, int64_min; lia).
  assert (Hfresh: leases ds !! (leaseIDSeq ds + 1) = None).
  { destruct (leases ds !! _) eqn:E; [|done]. apply (wf_id _ Hwf) in E. lia. }
  split; simpl; [|apply Hwf|..|lia].
  - intros k id. rewrite (wf_assoc _ Hwf). split; intros (l & Hl & Hk).
    + exists l. rewrite lookup_insert_ne by congruence. done.
    + apply lookup_insert_Some in Hl as [[_ <-]|[_ Hl]]; [set_solver|]. by exists l.
  - intros id l. rewrite lookup_insert_Some. intros [[<- <-]|[_ Hl]]; [simpl; lia|].
    apply (wf_id _ Hwf) in Hl. lia.
Qed.

Lemma wf_KeepAliveLease now id ds : wf ds -> wf (KeepAliveLease now id ds).2.
Proof.
  intros Hwf. unfold KeepAliveLease. destruct (leases ds !! id) as [l|] eqn:Hl; [|done]. simpl.
  split; simpl; try apply Hwf.
  - intros k id'. rewrite (wf_assoc _ Hwf). split; intros (l' & Hl' & Hk).
    + rewrite lookup_insert. case_decide; subst; simplify_eq; eauto.
    + apply lookup_insert_Some in Hl' as [[<- <-]|[_ Hl']]; eauto.
  - intros id' l'. rewrite lookup_insert_Some. intros [[<- <-]|[_ H]].
    + exact (wf_id _ Hwf _ _ Hl).
    + by apply (wf_id _ Hwf).
Qed.

(** The loop of a revocation deletes its keys and touches nothing else. *)
Lemma fold_revokeKey keys ds :
  leases (fold_left revokeKey keys ds) = leases ds ∧
  leaseIDSeq (fold_left revokeKey keys ds) = leaseIDSeq ds ∧
  (∀ k, data (fold_left revokeKey keys ds) !! k = if decide (k ∈ keys) then None else data ds !! k) ∧
  (∀ k, keyLease (fold_left revokeKey keys ds) !! k =
          if decide (k ∈ keys) then None else keyLease ds !! k).
Proof.
  revert ds. induction keys as [|x keys IH]; intros ds; simpl.
  { done. }
  destruct (IH (revokeKey ds x)) as (-> & -> & IHd & IHk).
  split_and!; [done..| |]; intros k; rewrite ?IHd, ?IHk; simpl;
    rewrite lookup_delete; repeat case_decide; set_solver.
Qed.

Lemma RevokeLease_lookup ord id l ds :
  leases ds !! id = Some l ->
  let ds' := (RevokeLease ord id ds).2 in
  leases ds' = delete id (leases ds) ∧ leaseIDSeq ds' = leaseIDSeq ds ∧
  (∀ k, data ds' !! k = if decide (k ∈ Keys l) then None else data ds !! k) ∧
  (∀ k, keyLease ds' !! k = if decide (k ∈ Keys l) then None else keyLease ds !! k).
Proof.
  intros Hl. unfold RevokeLease. rewrite Hl. simpl.
  destruct (fold_revokeKey (visit ord (elements (Keys l)))
    (set_leases ds (delete id (leases ds)))) as (-> & -> & Hd & Hk).
  split_and!; [done..| |]; intros k; rewrite ?Hd, ?Hk; simpl;
    (erewrite decide_ext; [done|]); by rewrite elem_of_visit, elem_of_elements.
Qed.

Lemma wf_RevokeLease ord id ds : wf ds -> wf (RevokeLease ord id ds).2.
Proof.
  intros Hwf. destruct (leases ds !! id) as [l|] eqn:Hl.
  2: { unfold RevokeLease. by rewrite Hl. }
  destruct (RevokeLease_lookup ord id l ds Hl) as (Hls & Hsq & Hd & Hk).
  assert (Hown: ∀ k, k ∈ Keys l <-> keyLease ds !! k = Some id).
  { intros k. rewrite (wf_assoc _ Hwf). split; [eauto|].
    intros (l' & ? & ?). by simplify_eq. }
  split.
  - intros k id'. rewrite Hk, Hls. case_decide as Hin.
    + split; [done|]. intros (l' & [Hne Hl']%lookup_delete_Some & Hk').
      exfalso. apply Hne. by eapply wf_owner_unique.
    + rewrite (wf_assoc _ Hwf). split; intros (l' & Hl' & Hk'); exists l'.
      * rewrite lookup_delete_ne; [done|]. intros ->. by simplify_eq.
      * by apply lookup_delete_Some in Hl' as [_ ?].
  - intros k id'. rewrite Hk, Hd. case_decide; [done|]. apply (wf_data _ Hwf).
  - intros id' l'. rewrite Hls, Hsq, lookup_delete_Some. intros [_ ?]. by apply (wf_id _ Hwf).
  - rewrite Hsq. apply (wf_seq _ Hwf).
Qed.

#[export] Hint Resolve wf_execTxnOp wf_execTxnOps wf_Txn wf_GrantLease wf_KeepAliveLease
  wf_RevokeLease : zodiac.
