(* ===== verification/StoreSpec.v ===== *)
(** * What the store promises: an abstract specification and its refinement

    The specification keeps one map from a key to its value and the lease that
    owns it, and the set of live leases; it has no second index to keep in
    step.  [abs] maps a [DataStore] to it.  Both are instances of the
    [StoreOps] interface, and [abs] commutes with every operation on
    well-formed stores, so a run of the store returns exactly what the
    specification returns. *)

From S2P Require Import Prelude GoLib Api DataStore.

(** ** The interface *)

(** What a call takes from its surroundings. *)
Record Env := mkEnv { env_now : Z; env_ord : MapOrder }.

Inductive StoreOp :=
| OGet (key : string)
| OPut (key value : string) (leaseID : Z)
| OAppend (key value : string)
| OCAS (key compare value : string)
| ODelete (key : string)
| OList (prefix : string)
| OTxn (conds : list TxnCondition) (success failure : list TxnOp)
| OGrant (ttl : Z)
| OKeepAlive (id : Z)
| ORevoke (id : Z).

Inductive StoreResult :=
| RValue (value : string) (found : bool)
| RPairs (pairs : gmap string string)
| RTxn (succeeded : bool) (results : list TxnOpResult)
| RLease (id : Z)
| RFound (found : bool)
| RKeys (keys : list string).

Class StoreOps (S : Type) := store_step : Env -> StoreOp -> S -> StoreResult * S.

Fixpoint run_store {S} `{StoreOps S} (ops : list (Env * StoreOp)) (s : S)
    : list StoreResult * S :=
  match ops with
  | [] => ([], s)
  | (env, o) :: rest =>
      let '(r, s1) := store_step env o s in
      let '(rs, s2) := run_store rest s1 in
      (r :: rs, s2)
  end.

(** ** The store as an instance *)

Definition of_pair {S} (p : (string * bool) * S) : StoreResult * S :=
  (RValue p.1.1 p.1.2, p.2).

#[export] Instance DataStore_ops : StoreOps DataStore := λ env o ds,
  match o with
  | OGet k => (RValue (Get k ds).1 (Get k ds).2, ds)
  | OPut k v id => of_pair (Put k v id ds)
  | OAppend k v => of_pair (Append k v ds)
  | OCAS k c v => of_pair (CAS k c v ds)
  | ODelete k => of_pair (Delete k ds)
  | OList p => (RPairs (ListPrefix p ds), ds)
  | OTxn c s f => let r := Txn c s f ds in (RTxn r.1.1 r.1.2, r.2)
  | OGrant ttl => let r := GrantLease (env_now env) ttl ds in (RLease r.1, r.2)
  | OKeepAlive id => let r := KeepAliveLease (env_now env) id ds in (RFound r.1, r.2)
  | ORevoke id => let r := RevokeLease (env_ord env) id ds in (RKeys r.1, r.2)
  end.

(** ** The specification as an instance *)

Module Spec.

Record store := mkStore {
  kv : gmap string (string * option Z);
  live : gmap Z (Z * Z);
  issued : Z }.

Definition set_kv (s : store) m : store := mkStore m (live s) (issued s).

Definition get (k : string) (s : store) : string * bool := comma_ok (fst <$> kv s !! k).

(** A key written with a live lease is owned by it; otherwise it has no owner. *)
Definition owner_for (id : Z) (s : store) : option Z :=
  if decide (id ≠ 0 ∧ is_Some (live s !! id)) then Some id else None.

Definition put (k v : string) (id : Z) (s : store) : (string * bool) * store :=
  (get k s, set_kv s (<[k := (v, owner_for id s)]> (kv s))).

(** Appending and swapping keep the owner. *)
Definition append (k v : string) (s : store) : (string * bool) * store :=
  (get k s, set_kv s (<[k := ((get k s).1 +:+ v, kv s !! k ≫= snd)]> (kv s))).

Definition cas (k c v : string) (s : store) : (string * bool) * store :=
  (get k s, if decide (fst <$> kv s !! k = Some c)
            then set_kv s (<[k := (v, kv s !! k ≫= snd)]> (kv s)) else s).

Definition del (k : string) (s : store) : (string * bool) * store :=
  (get k s, set_kv s (delete k (kv s))).

Definition list_prefix (p : string) (s : store) : gmap string string :=
  filter (λ q, HasPrefix q.1 p = true) (fst <$> kv s).

(** The number a value stands for, if it is one that fits int64. *)
Definition as_int (v : string) : option Z :=
  match Strconv.ParseInt v with (n, None) => Some n | (_, Some _) => None end.

(** Two values compare as numbers when both are numbers, as strings otherwise. *)
Definition value_le (v w : string) : bool :=
  match as_int v, as_int w with
  | Some n, Some m => n <=? m
  | _, _ => string_le v w
  end.

Definition holds (c : TxnCondition) (s : store) : bool :=
  let current := fst <$> kv s !! Cond_Key c in
  match Cond_Compare c, current with
  | CompareEQ, _ => bool_decide (current = Some (Cond_Value c))
  | CompareNEQ, _ => bool_decide (current ≠ Some (Cond_Value c))
  | CompareGTE, Some v => value_le (Cond_Value c) v
  | CompareLTE, Some v => value_le v (Cond_Value c)
  | CompareExists, Some _ => true
  | CompareNotExists, None => true
  | _, _ => false
  end.

Definition txn_op (o : TxnOp) (s : store) : (string * bool) * store :=
  match Op_Op o with
  | TxnOpPut => put (Op_Key o) (Op_Value o) (Op_LeaseID o) s
  | TxnOpDelete => del (Op_Key o) s
  | TxnOpCAS => cas (Op_Key o) (Op_CompareValue o) (Op_Value o) s
  | TxnOpAppend => append (Op_Key o) (Op_Value o) s
  | TxnOpOther _ => (("", false), s)
  end.

Fixpoint txn_ops (ops : list TxnOp) (s : store) : list TxnOpResult * store :=
  match ops with
  | [] => ([], s)
  | o :: rest =>
      (mkTxnOpResult (Op_Key o) (txn_op o s).1.1 (txn_op o s).1.2
         :: (txn_ops rest (txn_op o s).2).1, (txn_ops rest (txn_op o s).2).2)
  end.

Definition txn (conds : list TxnCondition) (success failure : list TxnOp) (s : store)
    : (bool * list TxnOpResult) * store :=
  let b := forallb (λ c, holds c s) conds in
  let r := txn_ops (if b then success else failure) s in
  ((b, r.1), r.2).

Definition grant (now ttl : Z) (s : store) : Z * store :=
  let id := wrap64 (issued s + 1) in
  (id, mkStore (kv s) (<[id := (ttl, now + ttlDuration ttl)]> (live s)) id).

Definition keepalive (now id : Z) (s : store) : bool * store :=
  match live s !! id with
  | None => (false, s)
  | Some (ttl, _) =>
      (true, mkStore (kv s) (<[id := (ttl, now + ttlDuration ttl)]> (live s)) (issued s))
  end.

Definition owned (id : Z) (s : store) : gset string :=
  dom (filter (λ q, q.2.2 = Some id) (kv s)).

(** Revoking a lease removes exactly the keys it owns. *)
Definition revoke (ord : MapOrder) (id : Z) (s : store) : list string * store :=
  match live s !! id with
  | None => ([], s)
  | Some _ =>
      (visit ord (elements (owned id s)),
       mkStore (filter (λ q, q.2.2 ≠ Some id) (kv s)) (delete id (live s)) (issued s))
  end.

End Spec.

#[export] Instance Spec_ops : StoreOps Spec.store := λ env o s,
  match o with
  | OGet k => (RValue (Spec.get k s).1 (Spec.get k s).2, s)
  | OPut k v id => of_pair (Spec.put k v id s)
  | OAppend k v => of_pair (Spec.append k v s)
  | OCAS k c v => of_pair (Spec.cas k c v s)
  | ODelete k => of_pair (Spec.del k s)
  | OList p => (RPairs (Spec.list_prefix p s), s)
  | OTxn c su fa => let r := Spec.txn c su fa s in (RTxn r.1.1 r.1.2, r.2)
  | OGrant ttl => let r := Spec.grant (env_now env) ttl s in (RLease r.1, r.2)
  | OKeepAlive id => let r := Spec.keepalive (env_now env) id s in (RFound r.1, r.2)
  | ORevoke id => let r := Spec.revoke (env_ord env) id s in (RKeys r.1, r.2)
  end.

(** ** The abstraction function *)

Definition abs_kv (ds : DataStore) : gmap string (string * option Z) :=
  map_imap (λ k v, Some (v, keyLease ds !! k)) (data ds).
Definition abs_live (ds : DataStore) : gmap Z (Z * Z) :=
  (λ l, (TTL l, ExpiresAt l)) <$> leases ds.
Definition abs (ds : DataStore) : Spec.store :=
  Spec.mkStore (abs_kv ds) (abs_live ds) (leaseIDSeq ds).

Lemma lookup_abs_kv ds k :
  abs_kv ds !! k = (λ v, (v, keyLease ds !! k)) <$> data ds !! k.
Proof. unfold abs_kv. rewrite map_lookup_imap. by destruct (data ds !! k). Qed.

Lemma fst_abs_kv ds : fst <$> abs_kv ds = data ds.
Proof.
  apply map_eq. intros k. rewrite lookup_fmap, lookup_abs_kv. by destruct (data ds !! k).
Qed.

Lemma abs_get k ds : Spec.get k (abs ds) = comma_ok (data ds !! k).
Proof. unfold Spec.get. simpl. by rewrite <-lookup_fmap, fst_abs_kv. Qed.

(** In a well-formed store an absent key has no owner. *)
Lemma abs_owner ds k : wf ds -> abs_kv ds !! k ≫= snd = keyLease ds !! k.
Proof.
  intros Hwf. rewrite lookup_abs_kv. destruct (data ds !! k) eqn:E; [done|]. simpl.
  destruct (keyLease ds !! k) eqn:Hk; [|done]. apply (wf_data _ Hwf) in Hk as [??]. congruence.
Qed.

(** *** Each operation commutes with the abstraction *)

Lemma abs_detach k ds :
  wf ds ->
  abs_live (detachKeyFromLease k ds) = abs_live ds ∧
  data (detachKeyFromLease k ds) = data ds ∧
  keyLease (detachKeyFromLease k ds) = delete k (keyLease ds) ∧
  leaseIDSeq (detachKeyFromLease k ds) = leaseIDSeq ds.
Proof.
  intros Hwf. rewrite detach_eq by done. split; [|done].
  unfold abs_live; simpl. by rewrite <-map_fmap_compose.
Qed.

Lemma abs_attach k id ds :
  wf ds ->
  abs_live (attachKeyToLease k id ds) = abs_live ds ∧
  data (attachKeyToLease k id ds) = data ds ∧
  leaseIDSeq (attachKeyToLease k id ds) = leaseIDSeq ds ∧
  keyLease (attachKeyToLease k id ds) =
    if decide (is_Some (leases ds !! id)) then <[k := id]> (keyLease ds)
    else delete k (keyLease ds).
Proof.
  intros Hwf. unfold attachKeyToLease. rewrite detach_eq by done. simpl. rewrite lookup_fmap.
  destruct (leases ds !! id) as [l|] eqn:E; simpl.
  - unfold abs_live; simpl.
    rewrite fmap_insert; simpl. rewrite <-map_fmap_compose. split_and!; [|done..|].
    + apply insert_id. by rewrite lookup_fmap, E.
    + by rewrite insert_delete_eq.
  - unfold abs_live; simpl. by rewrite <-map_fmap_compose.
Qed.

(** A store that differs from [ds] in one key abstracts to an update of that key. *)
Lemma abs_update ds ds' k v o :
  abs_live ds' = abs_live ds -> data ds' = <[k := v]> (data ds) ->
  leaseIDSeq ds' = leaseIDSeq ds ->
  (∀ k', keyLease ds' !! k' = if decide (k' = k) then o else keyLease ds !! k') ->
  abs ds' = Spec.set_kv (abs ds) (<[k := (v, o)]> (abs_kv ds)).
Proof.
  intros Hl Hd Hs Hk. unfold abs, Spec.set_kv; simpl. f_equal; [|done..].
  apply map_eq. intros k'. rewrite lookup_abs_kv, Hd, Hk.
  destruct (decide (k' = k)) as [->|Hne].
  - by rewrite !lookup_insert_eq.
  - by rewrite !lookup_insert_ne, lookup_abs_kv.
Qed.

Lemma abs_put k v id ds :
  wf ds -> (abs (putLocked k v id ds).2) = (Spec.put k v id (abs ds)).2 ∧
           (putLocked k v id ds).1 = (Spec.put k v id (abs ds)).1.
Proof.
  intros Hwf. destruct (abs_detach k ds Hwf) as (Hl & Hd & Hk & Hs).
  unfold putLocked, Spec.put; simpl. rewrite abs_get, Hd. split; [|done].
  assert (Hwf2: wf (set_data (detachKeyFromLease k ds) (<[k:=v]> (data ds))))
    by (rewrite <-Hd; auto with zodiac).
  assert (Howner: Spec.owner_for id (abs ds) =
    if decide (id ≠ 0 ∧ is_Some (leases (detachKeyFromLease k ds) !! id)) then Some id else None).
  { unfold Spec.owner_for. erewrite decide_ext; [done|]. simpl.
    rewrite <-Hl. unfold abs_live. by rewrite lookup_fmap, fmap_is_Some. }
  set (ds2 := set_data _ _) in *.
  case_bool_decide as Hid.
  - destruct (abs_attach k id ds2 Hwf2) as (Hl' & Hd' & Hs' & Hk').
    apply abs_update; [rewrite Hl'; exact Hl|by rewrite Hd'|rewrite Hs'; exact Hs|].
    intros k'. rewrite Hk', Howner. simpl. rewrite Hk.
    destruct (decide (is_Some _)) as [HS|HS].
    + rewrite (decide_True (P:=_ ∧ _)) by done. rewrite insert_delete_eq, lookup_insert.
      repeat case_decide; congruence.
    + rewrite (decide_False (P:=_ ∧ _)) by tauto. rewrite delete_delete_eq, lookup_delete.
      repeat case_decide; congruence.
  - apply abs_update; [exact Hl|done|exact Hs|]. intros k'. simpl. rewrite Hk, Howner.
    rewrite (decide_False (P:=_ ∧ _)) by tauto. rewrite lookup_delete.
    repeat case_decide; congruence.
Qed.

(** Rewriting the value of a key keeps its owner. *)
Lemma abs_set_value k v ds :
  wf ds ->
  abs (set_data ds (<[k := v]> (data ds))) =
    Spec.set_kv (abs ds) (<[k := (v, abs_kv ds !! k ≫= snd)]> (abs_kv ds)).
Proof.
  intros Hwf. rewrite abs_owner by done. apply abs_update; [done..|].
  intros k'. simpl. case_decide; congruence.
Qed.

Lemma abs_append k v ds :
  wf ds -> (abs (appendLocked k v ds).2) = (Spec.append k v (abs ds)).2 ∧
           (appendLocked k v ds).1 = (Spec.append k v (abs ds)).1.
Proof.
  intros Hwf. unfold appendLocked, Spec.append. rewrite abs_get.
  destruct (comma_ok _) as [pv ok]; simpl. by rewrite abs_set_value.
Qed.

Lemma abs_cas k c v ds :
  wf ds -> (abs (casLocked k c v ds).2) = (Spec.cas k c v (abs ds)).2 ∧
           (casLocked k c v ds).1 = (Spec.cas k c v (abs ds)).1.
Proof.
  intros Hwf. unfold casLocked, Spec.cas. rewrite abs_get.
  rewrite <-lookup_fmap. simpl. rewrite fst_abs_kv.
  destruct (data ds !! k) as [pv|] eqn:E; simpl; (split; [|done]).
  - case_bool_decide; case_decide; try congruence. by rewrite abs_set_value.
  - done.
Qed.

Lemma abs_del k ds :
  wf ds -> (abs (deleteLocked k ds).2) = (Spec.del k (abs ds)).2 ∧
           (deleteLocked k ds).1 = (Spec.del k (abs ds)).1.
Proof.
  intros Hwf. destruct (abs_detach k ds Hwf) as (Hl & Hd & Hk & Hs).
  unfold deleteLocked, Spec.del; simpl. rewrite abs_get, Hd. split; [|done].
  unfold abs, Spec.set_kv; simpl. f_equal; [|done..].
  apply map_eq. intros k'. rewrite lookup_abs_kv; simpl. rewrite Hk, !lookup_delete.
  case_decide; subst; [done|]. by rewrite lookup_abs_kv.
Qed.

Lemma abs_holds c ds : Spec.holds c (abs ds) = evalCondition c ds.
Proof.
  unfold Spec.holds, evalCondition, Spec.value_le, Spec.as_int.
  rewrite <-lookup_fmap; simpl. rewrite fst_abs_kv.
  destruct (Cond_Compare c), (data ds !! Cond_Key c) as [v|]; simpl; try done;
    try (apply bool_decide_ext; naive_solver);
    destruct (Strconv.ParseInt v) as [? []], (Strconv.ParseInt (Cond_Value c)) as [? []]; done.
Qed.

Lemma abs_txn_op o ds :
  wf ds -> (abs (txnOpEffect o ds).2) = (Spec.txn_op o (abs ds)).2 ∧
           (txnOpEffect o ds).1 = (Spec.txn_op o (abs ds)).1.
Proof.
  intros Hwf. unfold txnOpEffect, Spec.txn_op.
  destruct (Op_Op o); auto using abs_put, abs_del, abs_cas, abs_append.
Qed.

Lemma abs_txn_ops ops ds :
  wf ds -> (abs (execTxnOps ops ds).2) = (Spec.txn_ops ops (abs ds)).2 ∧
           (execTxnOps ops ds).1 = (Spec.txn_ops ops (abs ds)).1.
Proof.
  revert ds. induction ops as [|o ops IH]; intros ds Hwf; [done|].
  rewrite execTxnOps_cons, execTxnOp_effect. simpl.
  destruct (abs_txn_op o ds Hwf) as [Hs Hr].
  pose proof (wf_execTxnOp o ds Hwf) as Hwf1. rewrite execTxnOp_effect in Hwf1; simpl in Hwf1.
  destruct (IH _ Hwf1) as [Hs' Hr']. by rewrite Hs', Hr', Hs, Hr.
Qed.

Lemma evalConditions_forallb conds ds :
  evalConditions conds ds = forallb (λ c, evalCondition c ds) conds.
Proof. induction conds as [|c conds IH]; simpl; [done|]. rewrite IH. by destruct (evalCondition _ _). Qed.

Lemma abs_txn conds success failure ds :
  wf ds -> (abs (Txn conds success failure ds).2) = (Spec.txn conds success failure (abs ds)).2 ∧
           (Txn conds success failure ds).1 = (Spec.txn conds success failure (abs ds)).1.
Proof.
  intros Hwf. rewrite Txn_eq. unfold Spec.txn; simpl.
  assert (forallb (λ c, Spec.holds c (abs ds)) conds = evalConditions conds ds) as ->.
  { rewrite evalConditions_forallb. induction conds as [|c conds IH]; simpl; [done|].
    by rewrite abs_holds, IH. }
  destruct (abs_txn_ops (if evalConditions conds ds then success else failure) ds Hwf) as [-> ->].
  done.
Qed.

Lemma abs_grant now ttl ds :
  (GrantLease now ttl ds).1 = (Spec.grant now ttl (abs ds)).1 ∧
  abs (GrantLease now ttl ds).2 = (Spec.grant now ttl (abs ds)).2.
Proof.
  split; [done|]. unfold abs, Spec.grant, GrantLease; simpl. f_equal.
  unfold abs_live; simpl. by rewrite fmap_insert.
Qed.

Lemma abs_keepalive now id ds :
  (KeepAliveLease now id ds).1 = (Spec.keepalive now id (abs ds)).1 ∧
  abs (KeepAliveLease now id ds).2 = (Spec.keepalive now id (abs ds)).2.
Proof.
  unfold KeepAliveLease, Spec.keepalive; simpl. unfold abs_live. rewrite lookup_fmap.
  destruct (leases ds !! id) as [l|] eqn:E; simpl; [|done]. split; [done|].
  unfold abs; simpl. f_equal. unfold abs_live; simpl. by rewrite fmap_insert.
Qed.

Lemma abs_owned id l ds :
  wf ds -> leases ds !! id = Some l -> Spec.owned id (abs ds) = Keys l.
Proof.
  intros Hwf Hl. unfold Spec.owned. apply set_eq. intros k. rewrite elem_of_dom.
  assert (k ∈ Keys l <-> keyLease ds !! k = Some id) as ->.
  { rewrite (wf_assoc _ Hwf). split; [eauto|]. intros (l' & ? & ?). by simplify_eq. }
  split.
  - intros [[v o] H]. apply map_lookup_filter_Some in H as [H Ho]. simpl in *.
    rewrite lookup_abs_kv in H. destruct (data ds !! k); by simplify_eq/=.
  - intros Hk. destruct (wf_data _ Hwf _ _ Hk) as [v Hv]. exists (v, Some id).
    apply map_lookup_filter_Some. simpl. by rewrite lookup_abs_kv, Hv, Hk.
Qed.

Lemma abs_revoke ord id ds :
  wf ds -> abs (RevokeLease ord id ds).2 = (Spec.revoke ord id (abs ds)).2 ∧
           (RevokeLease ord id ds).1 = (Spec.revoke ord id (abs ds)).1.
Proof.
  intros Hwf. unfold Spec.revoke. simpl. unfold abs_live at 1 3. rewrite lookup_fmap.
  destruct (leases ds !! id) as [l|] eqn:Hl; simpl.
  2: { unfold RevokeLease. by rewrite Hl. }
  rewrite (abs_owned id l) by done. split; [|by unfold RevokeLease; rewrite Hl].
  destruct (RevokeLease_lookup ord id l ds Hl) as (Hls & Hsq & Hd & Hk).
  unfold abs. f_equal; [|by unfold abs_live; rewrite Hls, fmap_delete|done].
  assert (Hown: ∀ k, k ∈ Keys l <-> keyLease ds !! k = Some id).
  { intros k. rewrite (wf_assoc _ Hwf). split; [eauto|]. intros (l' & ? & ?). by simplify_eq. }
  apply map_eq. intros k. rewrite lookup_abs_kv, Hd, Hk, map_lookup_filter, lookup_abs_kv.
  destruct (decide (k ∈ Keys l)) as [Hin|Hin]; rewrite Hown in Hin;
    destruct (data ds !! k); simpl; try done.
  - by rewrite option_guard_False by (simpl; tauto).
  - by rewrite option_guard_True.
Qed.

(** ** Refinement *)

Lemma wf_step env o ds :
  wf ds -> (match o with OGrant _ => leaseIDSeq ds < int64_max | _ => True end) ->
  wf (store_step env o ds).2.
Proof.
  intros Hwf Hfit. unfold store_step, DataStore_ops, of_pair, Put, Append, CAS, Delete.
  destruct o; cbn [fst snd]; auto with zodiac.
Qed.

Lemma step_refines env o ds :
  wf ds ->
  store_step env o (abs ds) = ((store_step env o ds).1, abs (store_step env o ds).2).
Proof.
  intros Hwf. unfold store_step, DataStore_ops, Spec_ops, of_pair, Put, Append, CAS, Delete.
  destruct o; cbn [fst snd].
  - by rewrite abs_get.
  - by destruct (abs_put key value leaseID ds Hwf) as [-> ->].
  - by destruct (abs_append key value ds Hwf) as [-> ->].
  - by destruct (abs_cas key compare value ds Hwf) as [-> ->].
  - by destruct (abs_del key ds Hwf) as [-> ->].
  - unfold Spec.list_prefix. simpl. by rewrite fst_abs_kv.
  - by destruct (abs_txn conds success failure ds Hwf) as [-> ->].
  - by destruct (abs_grant (env_now env) ttl ds) as [-> ->].
  - by destruct (abs_keepalive (env_now env) id ds) as [-> ->].
  - by destruct (abs_revoke (env_ord env) id ds Hwf) as [-> ->].
Qed.

(** The number of leases a run grants. *)
Fixpoint grants (ops : list (Env * StoreOp)) : Z :=
  match ops with
  | [] => 0
  | (_, OGrant _) :: rest => 1 + grants rest
  | _ :: rest => grants rest
  end.

Lemma grants_nonneg ops : 0 <= grants ops.
Proof. induction ops as [|[env []] ops IH]; simpl; lia. Qed.

Lemma step_issued env o ds :
  wf ds -> (match o with OGrant _ => leaseIDSeq ds < int64_max | _ => True end) ->
  leaseIDSeq (store_step env o ds).2 =
    leaseIDSeq ds + (match o with OGrant _ => 1 | _ => 0 end).
Proof.
  intros Hwf Hfit. pose proof (wf_seq _ Hwf) as Hsq.
  pose proof (f_equal (λ p, Spec.issued p.2) (step_refines env o ds Hwf)) as H.
  simpl in H. rewrite <-H. destruct o; simpl; try lia.
  - unfold Spec.cas. case_decide; simpl; lia.
  - unfold Spec.txn; simpl. generalize (if forallb (λ c, Spec.holds c (abs ds)) conds
      then success else failure) as ops. intros ops.
    assert (Hone: ∀ o s, Spec.issued (Spec.txn_op o s).2 = Spec.issued s).
    { intros o s. unfold Spec.txn_op, Spec.cas. by repeat case_match. }
    assert (Hall: ∀ ops s, Spec.issued (Spec.txn_ops ops s).2 = Spec.issued s).
    { intros ops'. induction ops' as [|o ops' IH]; intros s; [done|]. simpl. by rewrite IH, Hone. }
    rewrite Hall. simpl. lia.
  - rewrite wrap64_id by (unfold in_int64, int64_min; lia). lia.
  - unfold Spec.keepalive. simpl. repeat case_match; simplify_eq/=; lia.
  - unfold Spec.revoke. simpl. repeat case_match; simplify_eq/=; lia.
Qed.

Lemma run_store_cons {S} `{StoreOps S} env o rest s :
  run_store ((env, o) :: rest) s =
    ((store_step env o s).1 :: (run_store rest (store_step env o s).2).1,
     (run_store rest (store_step env o s).2).2).
Proof. simpl. destruct (store_step env o s) as [r s1]. simpl. by destruct (run_store rest s1). Qed.

Lemma run_store_correct ops ds :
  wf ds -> leaseIDSeq ds + grants ops <= int64_max ->
  run_store ops (abs ds) = ((run_store ops ds).1, abs (run_store ops ds).2) ∧
  wf (run_store ops ds).2.
Proof.
  revert ds. induction ops as [|[env o] ops IH]; intros ds Hwf Hfit; [done|].
  rewrite !run_store_cons. rewrite step_refines by done. simpl.
  pose proof (grants_nonneg ops).
  assert (Hg: match o with OGrant _ => leaseIDSeq ds < int64_max | _ => True end)
    by (destruct o; simpl in *; lia || done).
  destruct (IH (store_step env o ds).2) as [IH1 IH2].
  - by apply wf_step.
  - rewrite step_issued by done. destruct o; simpl in *; lia.
  - by rewrite IH1.
Qed.

(** ** Properties *)

Definition env0 : Env := mkEnv 0 in_order.
Definition sample_ops : list (Env * StoreOp) :=
  [(env0, OGrant 60); (env0, OPut "a" "1" 1); (env0, OPut "b" "2" 0);
   (env0, OAppend "a" "2"); (env0, ORevoke 1); (env0, OGet "a"); (env0, OGet "b")].

(** C2 (refinement).  Whatever sequence of operations runs on a well-formed
    store, as long as the lease counter does not reach the end of int64, every
    result is the one the abstract specification returns, the final stores
    correspond, and the store is well formed again. *)
Theorem store_refines_spec ops ds :
  wf ds -> leaseIDSeq ds + grants ops <= int64_max ->
  run_store ops (abs ds) = ((run_store ops ds).1, abs (run_store ops ds).2) ∧
  wf (run_store ops ds).2.
Proof. apply run_store_correct. Qed.

Lemma store_refines_spec_witness :
  (run_store sample_ops (abs NewDataStore)).1 =
    [RLease 1; RValue "" false; RValue "" false; RValue "1" true; RKeys ["a"];
     RValue "" false; RValue "2" true].
Proof.
  destruct (store_refines_spec sample_ops NewDataStore wf_NewDataStore) as [H _].
  - vm_compute. discriminate.
  - rewrite H. vm_compute. reflexivity.
Defined.

(** C21 (safety).  Revoking a live lease of a well-formed store deletes the keys
    that were last written with it and no other key, reports exactly the
    deleted keys, each once, and leaves no key attached to the lease. *)
Theorem revoke_exact ord id l ds :
  wf ds -> leases ds !! id = Some l ->
  let '(keys, ds') := RevokeLease ord id ds in
  (∀ k, k ∈ keys <-> keyLease ds !! k = Some id) ∧ NoDup keys ∧
  (∀ k, data ds' !! k = if decide (keyLease ds !! k = Some id) then None else data ds !! k) ∧
  (∀ k, keyLease ds' !! k ≠ Some id) ∧ leases ds' !! id = None.
Proof.
  intros Hwf Hl. assert (Hown: ∀ k, k ∈ Keys l <-> keyLease ds !! k = Some id).
  { intros k. rewrite (wf_assoc _ Hwf). split; [eauto|]. intros (l' & ? & ?). by simplify_eq. }
  destruct (RevokeLease_lookup ord id l ds Hl) as (Hls & _ & Hd & Hk).
  assert (H1: (RevokeLease ord id ds).1 = visit ord (elements (Keys l)))
    by (unfold RevokeLease; by rewrite Hl).
  destruct (RevokeLease ord id ds) as [keys ds']; simpl in *; subst keys. split_and!.
  - intros k. by rewrite elem_of_visit, elem_of_elements.
  - rewrite NoDup_visit. apply NoDup_elements.
  - intros k. rewrite Hd. apply decide_ext, Hown.
  - intros k. rewrite Hk. case_decide as Hin; [done|]. by rewrite <-Hown.
  - rewrite Hls. apply lookup_delete_eq.
Qed.

Lemma revoke_exact_witness :
  let ds := (run_store (take 4 sample_ops) NewDataStore).2 in
  (RevokeLease in_order 1 ds).1 = ["a"] ∧ data (RevokeLease in_order 1 ds).2 !! "a" = None.
Proof.
  intros ds.
  assert (Hwf: wf ds) by (apply run_store_correct; [apply wf_NewDataStore|vm_compute; discriminate]).
  pose proof (revoke_exact in_order 1 (mkLease 1 60 60000000000 {["a"]}) ds Hwf eq_refl) as H.
  split; [vm_compute; reflexivity|].
  destruct (RevokeLease in_order 1 ds) as [keys ds'].
  destruct H as (_ & _ & Hd & _). simpl. rewrite Hd. vm_compute. reflexivity.
Defined.
