(* ===== verification/Paging.v ===== *)
(** * Cursor pagination: [DataStore.ListPaged]

    A caller reads a prefix page by page, passing the [NextKey] of one answer
    as the [KeyAfter] of the next request until [NextKey] is empty.  The file
    characterises one page and proves that the iteration returns, and that its
    pages are a partition of what the unpaged [List] returns. *)

From S2P Require Import Prelude GoLib Api DataStore.

(** The entries a page is cut from: the prefix matches and the key is not
    before the cursor. *)
Definition ListFrom (prefix keyAfter : string) (ds : DataStore) : gmap string string :=
  filter (λ kv, HasPrefix kv.1 prefix = true ∧ string_le keyAfter kv.1 = true) (data ds).

(** The caller's loop.  [None]: out of fuel. *)
Fixpoint pages (fuel : nat) (prefix : string) (limit : Z) (keyAfter : string) (ds : DataStore)
    : option (list (gmap string string)) :=
  match fuel with
  | O => None
  | S fuel' =>
      let '(page, nextKey) := ListPaged prefix limit keyAfter ds in
      if bool_decide (nextKey = "") then Some [page]
      else rest ← pages fuel' prefix limit nextKey ds; Some (page :: rest)
  end.

(** ** The loop of one page *)

Lemma listPagedLoop_spec m limit i keys res :
  0 < limit -> 0 <= i <= limit ->
  let n := Z.to_nat (limit - i) in
  (∀ k, (listPagedLoop m limit i keys res).1 !! k =
     if decide (k ∈ take n keys) then Some (default "" (m !! k)) else res !! k) ∧
  (listPagedLoop m limit i keys res).2 = default "" (keys !! n).
Proof.
  intros Hlim. revert i res. induction keys as [|x keys IH]; intros i res Hi.
  { cbn [listPagedLoop fst snd]. rewrite take_nil. by split; [intros k; case_decide; set_solver|]. }
  cbn [listPagedLoop]. rewrite (proj2 (Z.ltb_lt 0 limit)) by done. simpl.
  destruct (Z.leb_spec limit i).
  - replace (Z.to_nat (limit - i)) with 0%nat by lia. split; [|done].
    intros k. rewrite take_0. case_decide; set_solver.
  - destruct (IH (i + 1) (<[x := default "" (m !! x)]> res)) as [IH1 IH2]; [lia|].
    replace (Z.to_nat (limit - i)) with (S (Z.to_nat (limit - (i + 1)))) by lia.
    split; [|done]. intros k. rewrite IH1, lookup_insert. simpl.
    repeat case_decide; subst; set_solver.
Qed.

(** ** The sorted keys *)

Lemma elem_of_pagedKeys prefix after ds k :
  k ∈ pagedKeys prefix after ds <-> is_Some (ListFrom prefix after ds !! k).
Proof. unfold pagedKeys, ListFrom. by rewrite sort_Strings_perm, elem_of_elements, elem_of_dom. Qed.

Lemma NoDup_pagedKeys prefix after ds : NoDup (pagedKeys prefix after ds).
Proof. unfold pagedKeys. rewrite sort_Strings_perm. apply NoDup_elements. Qed.

Lemma pagedKeys_sorted prefix after ds :
  StronglySorted String.le (pagedKeys prefix after ds).
Proof. apply sort_Strings_sorted. Qed.

Lemma length_pagedKeys prefix after ds :
  length (pagedKeys prefix after ds) = size (ListFrom prefix after ds).
Proof.
  unfold pagedKeys. rewrite (Permutation_length (sort_Strings_perm _)).
  change (length (elements ?X)) with (size X). by rewrite size_dom.
Qed.

Lemma lookup_ListFrom prefix after ds k :
  ListFrom prefix after ds !! k =
    if decide (HasPrefix k prefix = true ∧ string_le after k = true) then data ds !! k else None.
Proof.
  unfold ListFrom. rewrite map_lookup_filter.
  destruct (data ds !! k) as [v|]; simpl; [|by case_decide].
  case_decide; [by rewrite option_guard_True|by rewrite option_guard_False].
Qed.

(** The keys from the [n]-th one on are the keys of the next page's list. *)
Lemma pagedKeys_drop prefix after ds n next :
  pagedKeys prefix after ds !! n = Some next ->
  pagedKeys prefix next ds = drop n (pagedKeys prefix after ds).
Proof.
  intros Hn. set (ks := pagedKeys prefix after ds) in *.
  assert (Hs: StronglySorted String.le ks) by apply pagedKeys_sorted.
  assert (Hnd: NoDup ks) by apply NoDup_pagedKeys.
  rewrite <-(take_drop n ks) in Hs, Hnd.
  apply StronglySorted_app in Hs as (Hlt & _ & Hs2).
  apply NoDup_app in Hnd as (_ & Hdis & Hnd2).
  assert (Hhead: next ∈ drop n ks) by (apply list_elem_of_lookup; exists 0%nat; by rewrite lookup_drop, Nat.add_0_r).
  assert (Hall: ∀ k, k ∈ drop n ks -> String.le next k).
  { intros k Hk. rewrite (drop_S _ next) in Hs2, Hk by done.
    apply StronglySorted_cons in Hs2 as [Hf _]. apply elem_of_cons in Hk as [->|Hk]; [done|].
    rewrite Forall_forall in Hf. auto. }
  apply sort_Strings_unique; [done|].
  apply NoDup_Permutation; [done|apply NoDup_elements|]. intros k.
  rewrite elem_of_elements, elem_of_dom. fold (ListFrom prefix next ds).
  assert (Hks: k ∈ ks <-> is_Some (ListFrom prefix after ds !! k)) by apply elem_of_pagedKeys.
  rewrite lookup_ListFrom in *. split.
  - intros Hk. assert (k ∈ ks) as Hin by (rewrite <-(take_drop n ks); set_solver).
    apply Hks in Hin as [v Hv]. case_decide as Hc; [|done].
    rewrite decide_True; [eauto|]. split; [tauto|]. apply string_le_iff. auto.
  - intros [v Hv]. case_decide as Hc; [|done]. destruct Hc as [Hp Hle%string_le_iff].
    assert (Hafter: String.le after next).
    { assert (next ∈ ks) as Hin by (rewrite <-(take_drop n ks); set_solver).
      apply elem_of_pagedKeys in Hin as [w Hw]. rewrite lookup_ListFrom in Hw.
      case_decide as Hc; [|done]. apply string_le_iff, Hc. }
    assert (Hin: k ∈ ks).
    { apply Hks. rewrite decide_True; [eauto|]. split; [done|]. apply string_le_iff. by etrans. }
    rewrite <-(take_drop n ks) in Hin. apply elem_of_app in Hin as [Hin|]; [|done].
    exfalso. assert (k = next) as -> by (apply (anti_symm String.le); auto).
    by eapply Hdis.
Qed.

(** The empty string is the least key, so it is never a cursor. *)
Lemma empty_le s : String.le "" s.
Proof. by destruct s. Qed.

Lemma next_nonempty prefix after ds n :
  n ≠ 0%nat -> pagedKeys prefix after ds !! n ≠ Some "".
Proof.
  intros Hn Hlk. destruct n as [|n]; [done|].
  assert (Hlt := lookup_lt_Some _ _ _ Hlk).
  destruct (lookup_lt_is_Some_2 (pagedKeys prefix after ds) 0) as [x Hx]; [lia|].
  assert (Hle: String.le x "").
  { pose proof (pagedKeys_sorted prefix after ds) as Hs.
    rewrite <-(take_drop 1 (pagedKeys prefix after ds)) in Hs.
    eapply (StronglySorted_app_1_elem_of String.le); [exact Hs|..].
    - apply list_elem_of_lookup. exists 0%nat. by rewrite lookup_take_lt by lia.
    - apply list_elem_of_lookup. exists n. by rewrite lookup_drop. }
  assert (x = "") as -> by (apply (anti_symm String.le); [done|apply empty_le]).
  pose proof (NoDup_lookup _ 0 (S n) "" (NoDup_pagedKeys prefix after ds) Hx Hlk). lia.
Qed.

(** ** One page *)

Lemma page_lookup prefix limit after ds k :
  0 < limit ->
  (ListPaged prefix limit after ds).1 !! k =
    if decide (k ∈ take (Z.to_nat limit) (pagedKeys prefix after ds)) then data ds !! k else None.
Proof.
  intros Hlim. unfold ListPaged.
  destruct (listPagedLoop_spec (data ds) limit 0 (pagedKeys prefix after ds) ∅) as [H _]; [lia..|].
  rewrite H, Z.sub_0_r, lookup_empty. case_decide as Hin; [|done].
  assert (Hk: k ∈ pagedKeys prefix after ds)
    by (rewrite <-(take_drop (Z.to_nat limit) (pagedKeys _ _ _)); set_solver).
  apply elem_of_pagedKeys in Hk as [v Hv]. rewrite lookup_ListFrom in Hv.
  case_decide; [|done]. by rewrite Hv.
Qed.

Lemma page_next prefix limit after ds :
  0 < limit ->
  (ListPaged prefix limit after ds).2 =
    default "" (pagedKeys prefix after ds !! Z.to_nat limit).
Proof.
  intros Hlim. unfold ListPaged.
  destruct (listPagedLoop_spec (data ds) limit 0 (pagedKeys prefix after ds) ∅) as [_ H]; [lia..|].
  by rewrite H, Z.sub_0_r.
Qed.

Lemma page_dom prefix limit after ds :
  0 < limit ->
  dom (ListPaged prefix limit after ds).1 =
    list_to_set (take (Z.to_nat limit) (pagedKeys prefix after ds)).
Proof.
  intros Hlim. apply set_eq. intros k. rewrite elem_of_dom, elem_of_list_to_set, page_lookup by done.
  case_decide as Hin; [|by split; [intros [??]|]]. split; [done|]. intros _.
  assert (Hk: k ∈ pagedKeys prefix after ds)
    by (rewrite <-(take_drop (Z.to_nat limit) (pagedKeys _ _ _)); set_solver).
  apply elem_of_pagedKeys in Hk as [v Hv]. rewrite lookup_ListFrom in Hv.
  case_decide; [eauto|done].
Qed.

Lemma page_size prefix limit after ds :
  0 < limit ->
  size (ListPaged prefix limit after ds).1 =
    Nat.min (Z.to_nat limit) (size (ListFrom prefix after ds)).
Proof.
  intros Hlim. rewrite <-size_dom, page_dom by done.
  rewrite size_list_to_set.
  - by rewrite length_take, length_pagedKeys.
  - pose proof (NoDup_pagedKeys prefix after ds) as Hnd.
    rewrite <-(take_drop (Z.to_nat limit) (pagedKeys _ _ _)) in Hnd.
    by apply NoDup_app in Hnd as [? _].
Qed.

(** A page without a cursor is all that is left. *)
Lemma page_last prefix limit after ds :
  0 < limit -> (ListPaged prefix limit after ds).2 = "" ->
  (ListPaged prefix limit after ds).1 = ListFrom prefix after ds.
Proof.
  intros Hlim Hn. rewrite page_next in Hn by done.
  destruct (pagedKeys prefix after ds !! Z.to_nat limit) as [x|] eqn:E.
  { simpl in Hn. subst. by apply next_nonempty in E; [|lia]. }
  apply map_eq. intros k. rewrite page_lookup by done.
  rewrite take_ge by (by apply lookup_ge_None).
  assert (Hk := elem_of_pagedKeys prefix after ds k). rewrite lookup_ListFrom in *.
  destruct (decide (k ∈ _)) as [Hin|Hin].
  - apply Hk in Hin as [v Hv]. by case_decide.
  - destruct (decide (_ ∧ _)); [|done]. destruct (data ds !! k); [|done].
    exfalso. apply Hin, Hk. eauto.
Qed.

(** A page with a cursor is the part before the cursor, and is full. *)
Lemma page_more prefix limit after ds next :
  0 < limit -> (ListPaged prefix limit after ds).2 = next -> next ≠ "" ->
  let page := (ListPaged prefix limit after ds).1 in
  page ##ₘ ListFrom prefix next ds ∧
  page ∪ ListFrom prefix next ds = ListFrom prefix after ds ∧
  size page = Z.to_nat limit.
Proof.
  intros Hlim Hn Hne page. rewrite page_next in Hn by done.
  destruct (pagedKeys prefix after ds !! Z.to_nat limit) as [x|] eqn:E; [|done].
  simpl in Hn; subst x.
  assert (Hdrop := pagedKeys_drop _ _ _ _ _ E).
  assert (Hrest: ∀ k, is_Some (ListFrom prefix next ds !! k) <->
                      k ∈ drop (Z.to_nat limit) (pagedKeys prefix after ds))
    by (intros k; by rewrite <-Hdrop, elem_of_pagedKeys).
  assert (Hdis: ∀ k, k ∈ take (Z.to_nat limit) (pagedKeys prefix after ds) ->
                     k ∉ drop (Z.to_nat limit) (pagedKeys prefix after ds)).
  { intros k Hk1 Hk2. pose proof (NoDup_pagedKeys prefix after ds) as Hnd.
    rewrite <-(take_drop (Z.to_nat limit) (pagedKeys _ _ _)) in Hnd.
    apply NoDup_app in Hnd as (_ & Hnd & _). by eapply Hnd. }
  assert (Hpd: page ##ₘ ListFrom prefix next ds).
  { apply map_disjoint_spec. intros k v w Hv Hw. unfold page in Hv.
    rewrite page_lookup in Hv by done. case_decide as Hin; [|done].
    apply (Hdis k Hin), Hrest. eauto. }
  split_and!; [done|..].
  - apply map_eq. intros k.
    assert (Hks := elem_of_pagedKeys prefix after ds k).
    rewrite <-(take_drop (Z.to_nat limit) (pagedKeys prefix after ds)), elem_of_app in Hks.
    specialize (Hrest k). specialize (Hdis k).
    rewrite lookup_union. unfold page. rewrite page_lookup by done.
    rewrite !lookup_ListFrom in *.
    destruct (data ds !! k) as [v|]; repeat case_decide; simpl; try done;
      exfalso; naive_solver eauto.
  - unfold page. rewrite page_size by done. rewrite <-length_pagedKeys.
    apply lookup_lt_Some in E. lia.
Qed.

(** ** The iteration *)

Lemma pages_correct fuel prefix limit after ds :
  0 < limit -> (size (ListFrom prefix after ds) < fuel)%nat ->
  ∃ ps, pages fuel prefix limit after ds = Some ps ∧
    ⋃ ps = ListFrom prefix after ds ∧
    maps_disjoint ps ∧
    Forall (λ p, (size p <= Z.to_nat limit)%nat) ps.
Proof.
  intros Hlim. revert after. induction fuel as [|fuel IH]; intros after Hfuel; [lia|].
  cbn [pages]. destruct (ListPaged prefix limit after ds) as [page next] eqn:E.
  assert (Hsz: (size page <= Z.to_nat limit)%nat).
  { pose proof (page_size prefix limit after ds Hlim) as H. rewrite E in H. simpl in H. lia. }
  case_bool_decide as Hnext.
  - exists [page]. split; [done|].
    pose proof (page_last prefix limit after ds Hlim) as Hl. rewrite E in Hl.
    simpl in *. rewrite Hl, (right_id_L ∅ (∪)) in * by done. split_and!; [done|..|by constructor].
    intros [|i] [|j] p q Hp Hq; by simplify_eq/=.
  - pose proof (page_more prefix limit after ds next Hlim) as Hm. rewrite E in Hm.
    destruct Hm as (Hdis & Hun & Hfull); [done..|]. simpl in *.
    destruct (IH next) as (ps & Hps & Hu & Hd & Hf).
    { apply (f_equal size) in Hun. rewrite map_size_disj_union in Hun by done. lia. }
    rewrite Hps. simpl. eexists; split; [done|]. simpl. rewrite Hu. split_and!; [done|..|by constructor].
    assert (Hsub: ∀ j q, ps !! j = Some q -> page ##ₘ q).
    { intros j q Hq. eapply map_disjoint_weaken_r; [exact Hdis|]. rewrite <-Hu.
      by eapply union_list_subseteq. }
    intros [|i] [|j] p q Hp Hq Hij; simplify_eq/=; eauto.
    symmetry. eauto.
Qed.

Lemma ListFrom_empty prefix ds : ListFrom prefix "" ds = ListPrefix prefix ds.
Proof.
  unfold ListFrom, ListPrefix. apply map_filter_ext. intros k v _. simpl.
  split; [tauto|]. split; [done|]. apply string_le_iff, empty_le.
Qed.

(** ** Properties *)

(** C19 (termination, equivalence).  With a positive limit, reading page after
    page returns after at most one request more than there are matching keys;
    the pages have no key in common, none holds more than [limit] entries, and
    together they are exactly what the unpaged list returns. *)
Theorem paging_partitions_list fuel prefix limit ds :
  0 < limit -> (size (ListPrefix prefix ds) < fuel)%nat ->
  ∃ ps, pages fuel prefix limit "" ds = Some ps ∧
    ⋃ ps = ListPrefix prefix ds ∧ maps_disjoint ps ∧
    Forall (λ p, (size p <= Z.to_nat limit)%nat) ps.
Proof. rewrite <-ListFrom_empty. apply pages_correct. Qed.

Definition paging_store : DataStore :=
  mkDataStore (list_to_map [("/a/1", "x"); ("/a/2", "y"); ("/a/3", "z"); ("/b/1", "w"); ("", "e")])
    ∅ ∅ 0.

Lemma paging_partitions_list_witness :
  ∃ ps, pages 6 "/a/" 2 "" paging_store = Some ps ∧
    ⋃ ps = ListPrefix "/a/" paging_store ∧ length ps = 2%nat.
Proof.
  destruct (paging_partitions_list 6 "/a/" 2 paging_store) as (ps & H & Hu & _).
  - lia.
  - vm_compute. lia.
  - exists ps. split; [done|]. split; [done|].
    assert (Hl: length <$> pages 6 "/a/" 2 "" paging_store = Some 2%nat)
      by (vm_compute; reflexivity).
    rewrite H in Hl. by injection Hl.
Defined.

(** One page: it holds the first [limit] matching keys from the
    cursor on, in byte order, with their stored values; the returned cursor is
    empty exactly when nothing is left, and otherwise is the first key left out. *)
Theorem page_exact prefix limit after ds :
  0 < limit ->
  let '(page, next) := ListPaged prefix limit after ds in
  let keys := pagedKeys prefix after ds in
  StronglySorted String.le keys ∧ NoDup keys ∧
  (∀ k, k ∈ keys <-> is_Some (data ds !! k) ∧ HasPrefix k prefix = true ∧ String.le after k) ∧
  (∀ k, page !! k = if decide (k ∈ take (Z.to_nat limit) keys) then data ds !! k else None) ∧
  (next = "" <-> (length keys <= Z.to_nat limit)%nat) ∧
  (next ≠ "" -> keys !! Z.to_nat limit = Some next).
Proof.
  intros Hlim. pose proof (page_next prefix limit after ds Hlim) as Hn.
  pose proof (λ k, page_lookup prefix limit after ds k Hlim) as Hp.
  destruct (ListPaged prefix limit after ds) as [page next]; simpl in Hn, Hp.
  pose proof (next_nonempty prefix after ds (Z.to_nat limit) ltac:(lia)) as Hne.
  split_and!; [apply pagedKeys_sorted|apply NoDup_pagedKeys| |done|..].
  - intros k. rewrite elem_of_pagedKeys, lookup_ListFrom, <-string_le_iff.
    destruct (decide (_ ∧ _)); [tauto|]. split; [by intros []|]. tauto.
  - rewrite Hn. destruct (pagedKeys prefix after ds !! Z.to_nat limit) eqn:E; simpl.
    + split; [congruence|]. apply lookup_lt_Some in E. lia.
    + split; [|done]. by apply lookup_ge_None in E.
  - rewrite Hn. by destruct (pagedKeys prefix after ds !! Z.to_nat limit).
Qed.

Lemma page_exact_witness :
  pagedKeys "/a/" "" paging_store !! 2%nat = Some (ListPaged "/a/" 2 "" paging_store).2.
Proof.
  pose proof (page_exact "/a/" 2 "" paging_store ltac:(lia)) as H.
  assert (Hne: (ListPaged "/a/" 2 "" paging_store).2 ≠ "") by (vm_compute; discriminate).
  destruct (ListPaged "/a/" 2 "" paging_store) as [page next].
  destruct H as (_ & _ & _ & _ & _ & H). exact (H Hne).
Defined.
