(* ===== verification/Watch.v ===== *)
(** * The watch subsystem: [src/kvservice/watch.go]

    - [EventBuffer]: the ring buffer of recent events.  Its abstract content is
      the list of the last [size] events pushed, and [Push] and [Replay] are
      proved to implement exactly that.
    - [WatchSubs]: the subscription table and the non-blocking delivery of an
      event to the subscribers whose prefix matches.  A subscription's channel is
      referenced by its table entry and by the one handler that created it, so it
      is kept in the entry. *)

From S2P Require Import Prelude GoLib Api.

Module EventBuffer.

Definition eventBufferSize : Z := 1000.

Record eventBuffer := mkEventBuffer {
  events : list WatchEvent;
  start : Z;
  count : Z;
  size : Z }.

Definition newEventBuffer (sz : Z) : eventBuffer := mkEventBuffer [] 0 0 sz.

Definition Push (e : WatchEvent) (eb : eventBuffer) : go eventBuffer :=
  if count eb =? size eb then
    let! evs := slice_set (events eb) (start eb) e in
    let! st := go_rem (start eb + 1) (size eb) in
    Ret (mkEventBuffer evs st (count eb) (size eb))
  else
    let! idx := go_rem (start eb + count eb) (size eb) in
    let! evs :=
      if Z.of_nat (length (events eb)) <=? idx then Ret (events eb ++ [e])
      else slice_set (events eb) idx e in
    Ret (mkEventBuffer evs (start eb) (count eb + 1) (size eb)).

(** The loop [for i := 0; i < eb.count; i++], [n] iterations from [i] on. *)
Fixpoint replayLoop (eb : eventBuffer) (since i : Z) (n : nat) (result : list WatchEvent)
    : go (list WatchEvent) :=
  match n with
  | O => Ret result
  | S n' =>
      let! idx := go_rem (start eb + i) (size eb) in
      let! e := slice_get (events eb) idx in
      replayLoop eb since (i + 1) n'
        (if since <? Ev_Revision e then result ++ [e] else result)
  end.

Definition Replay (since : Z) (eb : eventBuffer) : go (list WatchEvent) :=
  replayLoop eb since 0 (Z.to_nat (count eb)) [].

(** An event that a watcher that has seen revision [since] still needs. *)
Definition newer (since : Z) (e : WatchEvent) : Prop := since < Ev_Revision e.
#[export] Instance newer_dec since e : Decision (newer since e).
Proof. unfold newer. apply _. Defined.

(** ** Abstract content and invariant *)

(** The stored events from the oldest to the newest. *)
Definition contents (eb : eventBuffer) : list WatchEvent :=
  drop (Z.to_nat (start eb)) (events eb) ++ take (Z.to_nat (start eb)) (events eb).

(** A buffer that is not full has never wrapped around. *)
Record wfb (eb : eventBuffer) : Prop := {
  wfb_size : 0 < size eb;
  wfb_count : 0 <= count eb <= size eb;
  wfb_start : 0 <= start eb < size eb;
  wfb_events : Z.of_nat (length (events eb)) = count eb;
  wfb_partial : count eb < size eb -> start eb = 0 }.

Lemma wfb_new sz : 0 < sz -> wfb (newEventBuffer sz).
Proof. intros. split; simpl; lia. Qed.

Lemma length_contents eb : length (contents eb) = length (events eb).
Proof. unfold contents. rewrite length_app, length_drop, length_take. lia. Qed.

Lemma contents_lookup eb i :
  wfb eb -> 0 <= i < count eb ->
  contents eb !! Z.to_nat i = events eb !! Z.to_nat ((start eb + i) `mod` size eb).
Proof.
  intros [Hsz Hc Hst Hev Hp] Hi. unfold contents.
  destruct (decide (Z.to_nat i < length (events eb) - Z.to_nat (start eb))%nat) as [Hlt|Hge].
  - rewrite lookup_app_l by (rewrite length_drop; lia). rewrite lookup_drop.
    rewrite Z.mod_small by lia. f_equal. lia.
  - rewrite lookup_app_r by (rewrite length_drop; lia). rewrite length_drop.
    assert (count eb = size eb) by lia.
    rewrite lookup_take_lt by lia.
    assert ((start eb + i) `mod` size eb = start eb + i - size eb) as ->.
    { rewrite <-(Z.mod_add _ (-1)), Z.mod_small by lia. lia. }
    f_equal. lia.
Qed.

Lemma Push_correct e eb :
  wfb eb ->
  ∃ eb', Push e eb = Ret eb' ∧ wfb eb' ∧ size eb' = size eb ∧
    contents eb' = lastn (Z.to_nat (size eb)) (contents eb ++ [e]).
Proof.
  intros Hwf. destruct Hwf as [Hsz Hc Hst Hev Hp]. unfold Push.
  destruct (Z.eqb_spec (count eb) (size eb)) as [Hfull|Hpart].
  - rewrite slice_set_in by lia. cbn [go_bind]. rewrite go_rem_mod by lia. cbn [go_bind].
    eexists; split; [done|]. set (st := (start eb + 1) `mod` size eb).
    assert (Hst': 0 <= st < size eb) by (apply Z.mod_pos_bound; lia).
    split; [split; simpl; rewrite ?length_insert; lia|]. split; [done|].
    unfold contents; simpl.
    set (s := Z.to_nat (start eb)). set (l := events eb) in *.
    assert (Hs: (s < length l)%nat) by lia.
    destruct (lookup_lt_is_Some_2 l s Hs) as [x Hx].
    rewrite <-(take_drop_middle l s x Hx) at 1 2.
    rewrite insert_app_r_alt by (rewrite length_take; lia).
    rewrite length_take, Nat.min_l, Nat.sub_diag by lia. simpl.
    rewrite (drop_S l x s Hx). simpl.
    replace (Z.to_nat (size eb)) with (length l) by lia.
    assert (Hlen: length (drop (S s) l ++ take s l ++ [e]) = length l)
      by (rewrite !length_app, length_drop, length_take; simpl; lia).
    rewrite <-(app_assoc (drop (S s) l)). unfold lastn. simpl. rewrite Hlen.
    replace (S (length l) - length l)%nat with 1%nat by lia. simpl.
    subst st. destruct (decide (start eb + 1 = size eb)) as [Heq|Hne].
    + rewrite Heq, Z_mod_same_full. simpl.
      assert (drop (S s) l = []) as -> by (apply drop_ge; lia).
      by rewrite app_nil_r.
    + rewrite Z.mod_small by lia. replace (Z.to_nat (start eb + 1)) with (S s) by lia.
      rewrite drop_app_ge, take_app_ge by (rewrite length_take; lia).
      rewrite length_take, Nat.min_l by lia. replace (S s - s)%nat with 1%nat by lia.
      simpl. by rewrite drop_0, take_0.
  - assert (Hst0: start eb = 0) by (apply Hp; lia).
    rewrite go_rem_mod by lia. cbn [go_bind]. rewrite Z.mod_small by lia.
    rewrite (proj2 (Z.leb_le _ _)) by lia. cbn [go_bind].
    eexists; split; [done|]. split; [split; simpl; rewrite ?length_app; simpl; lia|].
    split; [done|]. unfold contents; simpl. rewrite Hst0. simpl. rewrite !drop_0, !app_nil_r.
    rewrite lastn_all; [done|]. rewrite length_app. simpl. lia.
Qed.

Lemma replayLoop_correct eb since i n acc :
  wfb eb -> 0 <= i -> i + Z.of_nat n = count eb ->
  replayLoop eb since i n acc =
    Ret (acc ++ filter (newer since) (drop (Z.to_nat i) (contents eb))).
Proof.
  intros Hwf. revert i acc. induction n as [|n IH]; intros i acc Hi Hn.
  - simpl. rewrite drop_ge; [by rewrite app_nil_r|].
    rewrite length_contents. destruct Hwf. lia.
  - cbn [replayLoop]. destruct Hwf as [Hsz Hc Hst Hev Hp] eqn:Hwf'.
    rewrite go_rem_mod by lia. cbn [go_bind].
    pose proof (contents_lookup eb i Hwf ltac:(lia)) as Hlk.
    destruct (lookup_lt_is_Some_2 (contents eb) (Z.to_nat i)) as [e He];
      [rewrite length_contents; lia|].
    erewrite slice_get_Some; [|apply Z.mod_pos_bound; lia|by rewrite <-Hlk].
    cbn [go_bind]. rewrite IH by lia. rewrite (drop_S _ e (Z.to_nat i)) by done.
    rewrite filter_cons. replace (Z.to_nat (i + 1)) with (S (Z.to_nat i)) by lia.
    destruct (Z.ltb_spec since (Ev_Revision e)); case_decide; unfold newer in *; try lia; [|done].
    by rewrite <-app_assoc.
Qed.

Lemma Replay_correct since eb :
  wfb eb -> Replay since eb = Ret (filter (newer since) (contents eb)).
Proof.
  intros Hwf. unfold Replay. rewrite replayLoop_correct; [done..|lia|].
  destruct Hwf. lia.
Qed.

(** Pushing a sequence of events. *)
Fixpoint pushAll (es : list WatchEvent) (eb : eventBuffer) : go eventBuffer :=
  match es with
  | [] => Ret eb
  | e :: rest => let! eb1 := Push e eb in pushAll rest eb1
  end.

Lemma pushAll_correct es eb :
  wfb eb ->
  ∃ eb', pushAll es eb = Ret eb' ∧ wfb eb' ∧ size eb' = size eb ∧
    contents eb' = lastn (Z.to_nat (size eb)) (contents eb ++ es).
Proof.
  revert eb. induction es as [|e es IH]; intros eb Hwf; simpl.
  - exists eb. rewrite app_nil_r, lastn_all; [done|].
    rewrite length_contents. destruct Hwf. lia.
  - destruct (Push_correct e eb Hwf) as (eb1 & -> & Hwf1 & Hs1 & Hc1). simpl.
    destruct (IH eb1 Hwf1) as (eb2 & -> & Hwf2 & Hs2 & Hc2).
    exists eb2. split_and!; [done|done|congruence|].
    rewrite Hc2, Hs1, Hc1. by rewrite lastn_lastn_app, <-app_assoc.
Qed.

End EventBuffer.

(** ** Subscriptions *)

Module WatchSubs.
Import EventBuffer.

Record watchSub := mkWatchSub { prefix : string; ch : Chan.chan WatchEvent }.

Definition newWatchSub (p : string) (bufsize : nat) : watchSub := mkWatchSub p (Chan.make bufsize).

(** The fields of [KVService] that [watchMu] and the buffer's mutex protect. *)
Record watchState := mkWatchState {
  eventBuf : eventBuffer;
  watchSubs : gmap Z watchSub;
  watchSeq : Z }.

Definition subscribeWatch (p : string) (ws : watchState) : Z * watchState :=
  let id := wrap64 (watchSeq ws + 1) in
  (id, mkWatchState (eventBuf ws) (<[id := newWatchSub p 64]> (watchSubs ws)) id).

Definition unsubscribeWatch (id : Z) (ws : watchState) : go watchState :=
  match watchSubs ws !! id with
  | Some sub =>
      let! _ := Chan.close (ch sub) in
      Ret (mkWatchState (eventBuf ws) (delete id (watchSubs ws)) (watchSeq ws))
  | None => Ret ws
  end.

(** The channel a handler reads: a fresh closed one when the id is unknown. *)
Definition getWatchChan (id : Z) (ws : watchState) : Chan.chan WatchEvent :=
  match watchSubs ws !! id with
  | Some sub => ch sub
  | None => Chan.mkChan 0 [] true
  end.

Definition matches (e : WatchEvent) (sub : watchSub) : bool :=
  bool_decide (prefix sub = "") || HasPrefix (Ev_Key e) (prefix sub).

(** The body of the loop over the subscriptions. *)
Definition deliver (e : WatchEvent) (sub : watchSub) : go watchSub :=
  if matches e sub then
    let! ch1 := Chan.try_send e (ch sub) in Ret (mkWatchSub (prefix sub) ch1)
  else Ret sub.

Fixpoint deliverAll (e : WatchEvent) (todo : list (Z * watchSub)) (subs : gmap Z watchSub)
    : go (gmap Z watchSub) :=
  match todo with
  | [] => Ret subs
  | (id, sub) :: rest =>
      let! sub1 := deliver e sub in deliverAll e rest (<[id := sub1]> subs)
  end.

(** The two parts of [pushWatchEvent]: the buffer has a lock of its own, so other
    goroutines may run in between. *)
Definition bufferEvent (e : WatchEvent) (ws : watchState) : go watchState :=
  let! eb := Push e (eventBuf ws) in Ret (mkWatchState eb (watchSubs ws) (watchSeq ws)).

Definition deliverEvent (ord : MapOrder) (e : WatchEvent) (ws : watchState) : go watchState :=
  let! subs := deliverAll e (visit ord (map_to_list (watchSubs ws))) (watchSubs ws) in
  Ret (mkWatchState (eventBuf ws) subs (watchSeq ws)).

Definition pushWatchEvent (ord : MapOrder) (e : WatchEvent) (ws : watchState) : go watchState :=
  let! ws1 := bufferEvent e ws in deliverEvent ord e ws1.

(** *** Invariant: the buffer is well formed, every table entry has an open channel *)

Record wfw (ws : watchState) : Prop := {
  wfw_buf : wfb (eventBuf ws);
  wfw_open id sub : watchSubs ws !! id = Some sub -> Chan.closed (ch sub) = false }.

(** Delivery to an open channel: appended when there is room, dropped otherwise. *)
Definition delivered (e : WatchEvent) (sub : watchSub) : watchSub :=
  if matches e sub && Nat.ltb (length (Chan.buf (ch sub))) (Chan.cap (ch sub))
  then mkWatchSub (prefix sub) (Chan.mkChan (Chan.cap (ch sub)) (Chan.buf (ch sub) ++ [e]) false)
  else sub.

Lemma deliver_open e sub :
  Chan.closed (ch sub) = false -> deliver e sub = Ret (delivered e sub).
Proof.
  intros Ho. unfold deliver, delivered. destruct (matches e sub); [|done].
  rewrite Chan.try_send_open by done. destruct sub as [p [c b cl]]; simpl in *; subst.
  by destruct (Nat.ltb _ _).
Qed.

Lemma delivered_open e sub :
  Chan.closed (ch sub) = false -> Chan.closed (ch (delivered e sub)) = false.
Proof. unfold delivered. by case_match. Qed.

Lemma deliverAll_open e todo subs :
  (∀ id sub, (id, sub) ∈ todo -> Chan.closed (ch sub) = false) -> NoDup todo.*1 ->
  ∃ subs', deliverAll e todo subs = Ret subs' ∧
    ∀ id, subs' !! id =
      match list_to_map (M := gmap Z watchSub) todo !! id with
      | Some sub => Some (delivered e sub)
      | None => subs !! id
      end.
Proof.
  revert subs. induction todo as [|[id sub] todo IH]; intros subs Ho Hnd; simpl.
  - exists subs. split; [done|]. intros id. by rewrite lookup_empty.
  - rewrite deliver_open by (eapply Ho; left). cbn [go_bind]. inversion Hnd as [|??? Hnd']; subst.
    destruct (IH (<[id := delivered e sub]> subs)) as (subs' & -> & IH'); [|done|].
    { intros id' sub' ?. eapply Ho. by right. }
    exists subs'. split; [done|]. intros id'. rewrite IH', !lookup_insert.
    case_decide as Heq; [|done]. subst.
    by rewrite (proj1 (not_elem_of_list_to_map _ _)).
Qed.

Lemma deliverEvent_correct ord e ws :
  wfw ws ->
  let ws' := mkWatchState (eventBuf ws) (delivered e <$> watchSubs ws) (watchSeq ws) in
  deliverEvent ord e ws = Ret ws' ∧ wfw ws'.
Proof.
  intros [Hb Ho]. unfold deliverEvent.
  set (todo := visit ord (map_to_list (watchSubs ws))).
  assert (Hperm: todo ≡ₚ map_to_list (watchSubs ws)) by apply visit_perm.
  assert (Hnd: NoDup todo.*1) by (rewrite Hperm; apply NoDup_fst_map_to_list).
  destruct (deliverAll_open e todo (watchSubs ws)) as (subs' & -> & Hs); [|done|].
  { intros id sub Hin. apply (Ho id). rewrite Hperm in Hin. by apply elem_of_map_to_list in Hin. }
  assert (subs' = delivered e <$> watchSubs ws) as ->.
  { apply map_eq. intros id. rewrite Hs, lookup_fmap.
    rewrite (list_to_map_proper todo (map_to_list (watchSubs ws))), list_to_map_to_list by done.
    by destruct (watchSubs ws !! id). }
  split; [done|]. split; simpl; [done|]. intros id sub. rewrite lookup_fmap.
  destruct (watchSubs ws !! id) eqn:E; [|done]. intros; simplify_eq/=.
  apply delivered_open. eauto.
Qed.

Lemma bufferEvent_correct e ws :
  wfw ws ->
  ∃ eb', Push e (eventBuf ws) = Ret eb' ∧
    bufferEvent e ws = Ret (mkWatchState eb' (watchSubs ws) (watchSeq ws)) ∧
    wfw (mkWatchState eb' (watchSubs ws) (watchSeq ws)).
Proof.
  intros [Hb Ho]. destruct (Push_correct e _ Hb) as (eb' & Hp & Hb' & _). exists eb'.
  unfold bufferEvent. rewrite Hp. by split_and!; [|..|split].
Qed.

Lemma pushWatchEvent_correct ord e ws :
  wfw ws ->
  ∃ eb', Push e (eventBuf ws) = Ret eb' ∧
    pushWatchEvent ord e ws = Ret (mkWatchState eb' (delivered e <$> watchSubs ws) (watchSeq ws)) ∧
    wfw (mkWatchState eb' (delivered e <$> watchSubs ws) (watchSeq ws)).
Proof.
  intros Hwf. destruct (bufferEvent_correct e ws Hwf) as (eb' & Hp & Hb & Hwf').
  exists eb'. split; [done|]. unfold pushWatchEvent. rewrite Hb. cbn [go_bind].
  by apply (deliverEvent_correct ord e (mkWatchState eb' (watchSubs ws) (watchSeq ws))).
Qed.

Lemma wfw_subscribe p ws : wfw ws -> wfw (subscribeWatch p ws).2.
Proof.
  intros [Hb Ho]. split; simpl; [done|]. intros id sub. rewrite lookup_insert_Some.
  intros [[_ <-]|[_ H]]; eauto.
Qed.

Lemma unsubscribe_correct id ws :
  wfw ws ->
  unsubscribeWatch id ws = Ret (mkWatchState (eventBuf ws) (delete id (watchSubs ws)) (watchSeq ws)).
Proof.
  intros [Hb Ho]. unfold unsubscribeWatch. destruct (watchSubs ws !! id) as [sub|] eqn:E.
  - unfold Chan.close. by rewrite (Ho _ _ E).
  - rewrite delete_id by done. by destruct ws.
Qed.

Lemma wfw_unsubscribe id ws :
  wfw ws -> wfw (mkWatchState (eventBuf ws) (delete id (watchSubs ws)) (watchSeq ws)).
Proof.
  intros [Hb Ho]. split; simpl; [done|]. intros id' sub. rewrite lookup_delete_Some. intros [_ ?]. eauto.
Qed.

(** Pushing the events of a command, one after the other. *)
Fixpoint pushWatchEvents (ord : MapOrder) (es : list WatchEvent) (ws : watchState)
    : go watchState :=
  match es with
  | [] => Ret ws
  | e :: rest => let! ws1 := pushWatchEvent ord e ws in pushWatchEvents ord rest ws1
  end.

(** A subscription after a sequence of events: those that match and fit. *)
Lemma delivered_fold es sub :
  let sub' := fold_left (λ s e, delivered e s) es sub in
  prefix sub' = prefix sub ∧
  Chan.buf (ch sub') =
    Chan.buf (ch sub) ++ take (Chan.cap (ch sub) - length (Chan.buf (ch sub)))
                              (filter (λ e, matches e sub = true) es).
Proof.
  revert sub. induction es as [|e es IH]; intros sub; simpl.
  { split; [done|]. by rewrite filter_nil, take_nil, app_nil_r. }
  destruct (IH (delivered e sub)) as [-> ->]. unfold delivered.
  rewrite filter_cons. destruct (matches e sub) eqn:Hm; simpl; [|done].
  destruct (Nat.ltb_spec (length (Chan.buf (ch sub))) (Chan.cap (ch sub))).
  - simpl. split; [done|]. rewrite length_app. simpl.
    replace (Chan.cap (ch sub) - length (Chan.buf (ch sub)))%nat
      with (S (Chan.cap (ch sub) - (length (Chan.buf (ch sub)) + 1)))%nat by lia.
    rewrite <-app_assoc. done.
  - split; [done|]. by replace (Chan.cap (ch sub) - length (Chan.buf (ch sub)))%nat with 0%nat by lia.
Qed.

Lemma delivered_cap es sub :
  Chan.cap (ch (fold_left (λ s e, delivered e s) es sub)) = Chan.cap (ch sub).
Proof.
  revert sub. induction es as [|e es IH]; intros sub; simpl; [done|].
  rewrite IH. unfold delivered. by case_match.
Qed.

Lemma pushWatchEvents_correct ord es ws :
  wfw ws ->
  ∃ ws', pushWatchEvents ord es ws = Ret ws' ∧ wfw ws' ∧
    pushAll es (eventBuf ws) = Ret (eventBuf ws') ∧
    watchSubs ws' = (λ sub, fold_left (λ s e, delivered e s) es sub) <$> watchSubs ws ∧
    watchSeq ws' = watchSeq ws.
Proof.
  revert ws. induction es as [|e es IH]; intros ws Hwf; simpl.
  - exists ws. rewrite map_fmap_id. done.
  - destruct (pushWatchEvent_correct ord e ws Hwf) as (eb' & -> & -> & Hwf1). cbn [go_bind].
    destruct (IH _ Hwf1) as (ws' & -> & Hwf' & Hpa & Hsubs & Hseq). simpl in *.
    exists ws'. split_and!; [done|done|done| |done]. rewrite Hsubs.
    by rewrite <-map_fmap_compose.
Qed.

End WatchSubs.

(** ** Properties *)

Module WatchProps.
Import EventBuffer WatchSubs.

(** The ring buffer implements "the last [size] events":
    pushing any sequence of events into a fresh buffer never panics, and
    replaying from [since] returns, oldest first, exactly those of the last
    [size] events whose revision is greater than [since]. *)
Theorem replay_last_events sz es since :
  0 < sz ->
  ∃ eb, pushAll es (newEventBuffer sz) = Ret eb ∧
    Replay since eb = Ret (filter (newer since) (lastn (Z.to_nat sz) es)).
Proof.
  intros Hsz. destruct (pushAll_correct es (newEventBuffer sz) (wfb_new sz Hsz))
    as (eb & -> & Hwf & _ & Hc).
  exists eb. split; [done|]. rewrite Replay_correct by done. by rewrite Hc.
Qed.

Definition ev (r : Z) : WatchEvent := mkWatchEvent "k" "v" r EventPut.

Lemma replay_last_events_witness :
  ∃ eb, pushAll (ev <$> [1; 2; 3; 4; 5]) (newEventBuffer 3) = Ret eb ∧
    Replay 3 eb = Ret [ev 4; ev 5].
Proof.
  destruct (replay_last_events 3 (ev <$> [1; 2; 3; 4; 5]) 3) as (eb & H1 & H2); [lia|].
  exists eb. split; [done|]. rewrite H2. reflexivity.
Defined.

(** Resuming a watch loses nothing while at most [size] events are
    newer than the cursor: if revisions do not decrease in the order of the
    pushes and at most [size] events have a revision greater than [since],
    the replay returns every event newer than [since]. *)
Theorem replay_complete sz es since :
  0 < sz -> StronglySorted Z.le (Ev_Revision <$> es) ->
  (length (filter (newer since) es) <= Z.to_nat sz)%nat ->
  ∃ eb, pushAll es (newEventBuffer sz) = Ret eb ∧
    Replay since eb = Ret (filter (newer since) es).
Proof.
  intros Hsz Hs Hlen.
  destruct (pushAll_correct es (newEventBuffer sz) (wfb_new sz Hsz)) as (eb & -> & Hwf & _ & Hc).
  exists eb. split; [done|]. rewrite Replay_correct by done. f_equal. rewrite Hc. simpl.
  unfold lastn. set (n := (length es - Z.to_nat sz)%nat).
  rewrite <-(take_drop n es) at 2. rewrite filter_app.
  rewrite (filter_none _ (take n es)); [done|].
  destruct (decide (n = 0%nat)) as [->|Hn]; [by rewrite take_0|].
  apply Forall_forall. intros e He Hlt.
  assert (Hall: Forall (newer since) (drop n es)).
  { apply Forall_forall. intros e' He'. rewrite <-(take_drop n es) in Hs.
    rewrite fmap_app in Hs. apply StronglySorted_app in Hs as [Hs _].
    specialize (Hs (Ev_Revision e) (Ev_Revision e')
      (list_elem_of_fmap_2 _ _ _ He) (list_elem_of_fmap_2 _ _ _ He')).
    unfold newer in *. lia. }
  rewrite <-(take_drop n es), filter_app, length_app in Hlen.
  rewrite (filter_true _ (drop n es)) in Hlen by done. rewrite length_drop in Hlen.
  assert (e ∈ filter (newer since) (take n es)) as Hin
    by (by apply list_elem_of_filter).
  destruct (filter _ (take n es)); [by apply elem_of_nil in Hin|]. simpl in Hlen. lia.
Qed.

Lemma replay_complete_witness :
  ∃ eb, pushAll (ev <$> [1; 2; 3; 4; 5]) (newEventBuffer 3) = Ret eb ∧
    Replay 2 eb = Ret [ev 3; ev 4; ev 5].
Proof.
  destruct (replay_complete 3 (ev <$> [1; 2; 3; 4; 5]) 2) as (eb & H1 & H2).
  - lia.
  - repeat constructor; simpl; lia.
  - vm_compute. lia.
  - exists eb. split; [done|]. rewrite H2. reflexivity.
Defined.

(** Delivering events never panics and never blocks the goroutine
    that applies commands, whatever the subscribers do: every subscriber whose
    prefix matches gets the event appended to its channel when the channel has
    room, and loses it otherwise; the others are untouched, and the invariant
    of the watch state is kept. *)
Theorem delivery_never_blocks ord es ws :
  wfw ws ->
  ∃ ws', pushWatchEvents ord es ws = Ret ws' ∧ wfw ws' ∧
    ∀ id sub, watchSubs ws !! id = Some sub ->
      ∃ sub', watchSubs ws' !! id = Some sub' ∧ prefix sub' = prefix sub ∧
        Chan.buf (ch sub') =
          Chan.buf (ch sub) ++
            take (Chan.cap (ch sub) - length (Chan.buf (ch sub)))
                 (filter (λ e, matches e sub = true) es).
Proof.
  intros Hwf. destruct (pushWatchEvents_correct ord es ws Hwf) as (ws' & -> & Hwf' & _ & Hs & _).
  exists ws'. split_and!; [done|done|]. intros id sub Hsub. rewrite Hs, lookup_fmap, Hsub.
  eexists; split; [done|]. apply delivered_fold.
Qed.

Lemma delivery_never_blocks_witness :
  let ws0 := mkWatchState (newEventBuffer 10) ∅ 0 in
  let ws := (subscribeWatch "/a" (subscribeWatch "" ws0).2).2 in
  ∃ ws', pushWatchEvents in_order [ev 1; ev 2] ws = Ret ws' ∧ wfw ws'.
Proof.
  intros ws0 ws.
  assert (Hwf: wfw ws).
  { apply wfw_subscribe, wfw_subscribe. split; simpl; [by apply wfb_new|]. intros id sub. by rewrite lookup_empty. }
  destruct (delivery_never_blocks in_order [ev 1; ev 2] ws Hwf) as (ws' & H1 & H2 & _). eauto.
Defined.

End WatchProps.
