(* ===== verification/Command.v ===== *)
(** * The commands of the replicated log: [src/kvservice/command.go]

    A [Command] carries its inputs and, once applied, its results; pointers and
    maps that may be nil are options. *)

From S2P Require Import Prelude GoLib Api.

Inductive CommandKind :=
| CommandInvalid
| CommandGet
| CommandPut
| CommandAppend
| CommandCAS
| CommandList
| CommandTxn
| CommandLeaseGrant
| CommandLeaseKeepAlive
| CommandLeaseRevoke
| CommandLeaseExpiry.
#[export] Instance CommandKind_eq_dec : EqDecision CommandKind.
Proof. solve_decision. Defined.

Definition commandName (ck : CommandKind) : string :=
  match ck with
  | CommandInvalid => "invalid"
  | CommandGet => "get"
  | CommandPut => "put"
  | CommandAppend => "append"
  | CommandCAS => "cas"
  | CommandList => "list"
  | CommandTxn => "txn"
  | CommandLeaseGrant => "lease-grant"
  | CommandLeaseKeepAlive => "lease-keepalive"
  | CommandLeaseRevoke => "lease-revoke"
  | CommandLeaseExpiry => "lease-expiry"
  end.

Record TxnData := mkTxnData {
  Conditions : list TxnCondition; Success : list TxnOp; Failure : list TxnOp }.

Record TxnApplyResult := mkTxnApplyResult { Succeeded : bool; Results : list TxnOpResult }.

Record Command := mkCommand {
  Kind : CommandKind;
  Key : string;
  Value : string;
  CompareValue : string;
  ResultValue : string;
  ResultFound : bool;
  ResultPairs : option (gmap string string);
  Revision : Z;
  TxnIn : option TxnData;
  TxnResult : option TxnApplyResult;
  LeaseID : Z;
  LeaseTTL : Z;
  LeaseIDs : list Z;
  Limit : Z;
  KeyAfter : string;
  ServiceID : Z;
  ClientID : Z;
  RequestID : Z;
  IsDuplicate : bool }.

(** The zero value of the struct. *)
Definition zeroCommand : Command :=
  mkCommand CommandInvalid "" "" "" "" false None 0 None None 0 0 [] 0 "" 0 0 0 false.

(** Field updates the handlers of the state machine perform. *)
Definition with_value (cmd : Command) (r : string * bool) : Command :=
  mkCommand (Kind cmd) (Key cmd) (Value cmd) (CompareValue cmd) r.1 r.2 (ResultPairs cmd)
    (Revision cmd) (TxnIn cmd) (TxnResult cmd) (LeaseID cmd) (LeaseTTL cmd) (LeaseIDs cmd)
    (Limit cmd) (KeyAfter cmd) (ServiceID cmd) (ClientID cmd) (RequestID cmd) (IsDuplicate cmd).
Definition with_pairs (cmd : Command) (p : option (gmap string string)) : Command :=
  mkCommand (Kind cmd) (Key cmd) (Value cmd) (CompareValue cmd) (ResultValue cmd)
    (ResultFound cmd) p (Revision cmd) (TxnIn cmd) (TxnResult cmd) (LeaseID cmd) (LeaseTTL cmd)
    (LeaseIDs cmd) (Limit cmd) (KeyAfter cmd) (ServiceID cmd) (ClientID cmd) (RequestID cmd)
    (IsDuplicate cmd).
Definition with_txnResult (cmd : Command) (r : TxnApplyResult) : Command :=
  mkCommand (Kind cmd) (Key cmd) (Value cmd) (CompareValue cmd) (ResultValue cmd)
    (ResultFound cmd) (ResultPairs cmd) (Revision cmd) (TxnIn cmd) (Some r) (LeaseID cmd)
    (LeaseTTL cmd) (LeaseIDs cmd) (Limit cmd) (KeyAfter cmd) (ServiceID cmd) (ClientID cmd)
    (RequestID cmd) (IsDuplicate cmd).
Definition with_revision (cmd : Command) (r : Z) : Command :=
  mkCommand (Kind cmd) (Key cmd) (Value cmd) (CompareValue cmd) (ResultValue cmd)
    (ResultFound cmd) (ResultPairs cmd) r (TxnIn cmd) (TxnResult cmd) (LeaseID cmd)
    (LeaseTTL cmd) (LeaseIDs cmd) (Limit cmd) (KeyAfter cmd) (ServiceID cmd) (ClientID cmd)
    (RequestID cmd) (IsDuplicate cmd).
Definition with_duplicate (cmd : Command) : Command :=
  mkCommand (Kind cmd) (Key cmd) (Value cmd) (CompareValue cmd) (ResultValue cmd)
    (ResultFound cmd) (ResultPairs cmd) (Revision cmd) (TxnIn cmd) (TxnResult cmd) (LeaseID cmd)
    (LeaseTTL cmd) (LeaseIDs cmd) (Limit cmd) (KeyAfter cmd) (ServiceID cmd) (ClientID cmd)
    (RequestID cmd) true.
