(* ===== verification/StateMachine.v ===== *)
(** * Applying a committed command: [KVService.handleCommand], under the lock

    The replicated part of a [KVService] is the store, the table of the last
    request per client and the revision counter ([replicated]).  [applyCommand]
    is the part of [handleCommand] (src/kvservice/kvservice.go) between
    [kvs.Lock()] and [kvs.Unlock()] that works on it: duplicate detection,
    execution, revision.  [commandEvents] lists the watch events the rest of
    [handleCommand] pushes. *)

From S2P Require Import Prelude GoLib Api DataStore StoreSpec Command.

Record replicated := mkReplicated {
  ds : DataStore;
  lastRequestIDPerClient : gmap Z Z;
  currentRevision : Z }.

Definition newReplicated : replicated := mkReplicated NewDataStore ∅ 0.

Definition set_ds (r : replicated) (d : DataStore) : replicated :=
  mkReplicated d (lastRequestIDPerClient r) (currentRevision r).

(** ** Duplicate detection *)

Definition isDuplicate (cmd : Command) (r : replicated) : bool :=
  bool_decide (ClientID cmd ≠ 0) &&
  match lastRequestIDPerClient r !! ClientID cmd with
  | Some lastReqID => RequestID cmd <=? lastReqID
  | None => false
  end.

(** ** Execution *)

(** A [List] command is paged when it has a positive limit. *)
Definition listCommand (cmd : Command) (d : DataStore) : Command :=
  if 0 <? Limit cmd then
    let '(pairs, next) := ListPaged (Key cmd) (Limit cmd) (KeyAfter cmd) d in
    with_value (with_pairs cmd (Some pairs)) (next, ResultFound cmd)
  else with_pairs cmd (Some (ListPrefix (Key cmd) d)).

(** A duplicate is not executed, but a read still returns the current value. *)
Definition duplicateResult (cmd : Command) (d : DataStore) : Command :=
  with_duplicate
    match Kind cmd with
    | CommandGet => with_value cmd (Get (Key cmd) d)
    | CommandList => listCommand cmd d
    | _ => cmd
    end.

(** [cmd.ResultPairs[k] = ""] for every deleted key. *)
Definition addDeleted (keys : list string) (m : gmap string string) : gmap string string :=
  fold_left (λ m k, <[k := ""]> m) keys m.

(** The loop over the leases of an expiry command. *)
Fixpoint expireLeases (ord : MapOrder) (ids : list Z) (pairs : option (gmap string string))
    (d : DataStore) : option (gmap string string) * DataStore :=
  match ids with
  | [] => (pairs, d)
  | id :: rest =>
      let '(deletedKeys, d1) := RevokeLease ord id d in
      expireLeases ord rest (Some (addDeleted deletedKeys (default ∅ pairs))) d1
  end.

(** The [switch cmd.Kind] of the branch that is not a duplicate. *)
Definition execCommand (env : Env) (cmd : Command) (d : DataStore) : go (Command * DataStore) :=
  match Kind cmd with
  | CommandGet => Ret (with_value cmd (Get (Key cmd) d), d)
  | CommandPut =>
      let '(res, d1) := Put (Key cmd) (Value cmd) (LeaseID cmd) d in Ret (with_value cmd res, d1)
  | CommandAppend =>
      let '(res, d1) := Append (Key cmd) (Value cmd) d in Ret (with_value cmd res, d1)
  | CommandCAS =>
      let '(res, d1) := CAS (Key cmd) (CompareValue cmd) (Value cmd) d in
      Ret (with_value cmd res, d1)
  | CommandTxn =>
      match TxnIn cmd with
      | None => Panic "nil pointer dereference"
      | Some t =>
          let '((succeeded, results), d1) := Txn (Conditions t) (Success t) (Failure t) d in
          Ret (with_txnResult cmd (mkTxnApplyResult succeeded results), d1)
      end
  | CommandList => Ret (listCommand cmd d, d)
  | CommandLeaseGrant =>
      let '(id, d1) := GrantLease (env_now env) (LeaseTTL cmd) d in
      Ret (with_value cmd (Strconv.FormatInt id, ResultFound cmd), d1)
  | CommandLeaseKeepAlive =>
      let '(found, d1) := KeepAliveLease (env_now env) (LeaseID cmd) d in
      Ret (with_value cmd (ResultValue cmd, found), d1)
  | CommandLeaseRevoke =>
      let '(deletedKeys, d1) := RevokeLease (env_ord env) (LeaseID cmd) d in
      Ret (with_pairs cmd (Some (addDeleted deletedKeys ∅)), d1)
  | CommandLeaseExpiry =>
      let '(pairs, d1) := expireLeases (env_ord env) (LeaseIDs cmd) (ResultPairs cmd) d in
      Ret (with_pairs cmd pairs, d1)
  | CommandInvalid => Panic "unexpected command"
  end.

(** ** Revision *)

Definition isMutation (k : CommandKind) : bool :=
  match k with
  | CommandPut | CommandAppend | CommandCAS | CommandTxn | CommandLeaseRevoke
  | CommandLeaseExpiry => true
  | _ => false
  end.

Definition assignRevision (cmd : Command) (r : replicated) : Command * replicated :=
  if isMutation (Kind cmd) && negb (IsDuplicate cmd) then
    let rev := wrap64 (currentRevision r + 1) in
    (with_revision cmd rev, mkReplicated (ds r) (lastRequestIDPerClient r) rev)
  else (with_revision cmd (currentRevision r), r).

(** ** The locked section *)

Definition applyCommand (env : Env) (cmd : Command) (r : replicated)
    : go (Command * replicated) :=
  if isDuplicate cmd r then Ret (assignRevision (duplicateResult cmd (ds r)) r)
  else
    let lastReq :=
      if bool_decide (ClientID cmd ≠ 0)
      then <[ClientID cmd := RequestID cmd]> (lastRequestIDPerClient r)
      else lastRequestIDPerClient r in
    let! p := execCommand env cmd (ds r) in
    Ret (assignRevision p.1 (mkReplicated p.2 lastReq (currentRevision r))).

(** ** Watch events of an applied command *)

Definition deleteEvent (rev : Z) (key : string) : WatchEvent := mkWatchEvent key "" rev EventDelete.

(** The [i]-th result of a transaction against the [i]-th operation of the branch. *)
Definition txnOpEvent (rev : Z) (d : DataStore) (op : TxnOp) (res : TxnOpResult)
    : list WatchEvent :=
  match Op_Op op with
  | TxnOpDelete => [mkWatchEvent (Res_Key res) (Res_PrevValue res) rev EventDelete]
  | TxnOpCAS =>
      if Res_KeyFound res && bool_decide (Res_PrevValue res = Op_CompareValue op)
      then [mkWatchEvent (Op_Key op) (Get (Op_Key op) d).1 rev EventPut] else []
  | TxnOpAppend => [mkWatchEvent (Op_Key op) (Get (Op_Key op) d).1 rev EventPut]
  | _ => [mkWatchEvent (Op_Key op) (Op_Value op) rev EventPut]
  end.

Fixpoint txnEvents (rev : Z) (d : DataStore) (branch : list TxnOp) (i : Z)
    (results : list TxnOpResult) : go (list WatchEvent) :=
  match results with
  | [] => Ret []
  | res :: rest =>
      let! op := slice_get branch i in
      let! es := txnEvents rev d branch (i + 1) rest in
      Ret (txnOpEvent rev d op res ++ es)
  end.

Definition commandEvents (ord : MapOrder) (cmd : Command) (d : DataStore)
    : go (list WatchEvent) :=
  if IsDuplicate cmd then Ret []
  else match Kind cmd with
  | CommandPut => Ret [mkWatchEvent (Key cmd) (Value cmd) (Revision cmd) EventPut]
  | CommandAppend => Ret [mkWatchEvent (Key cmd) (Get (Key cmd) d).1 (Revision cmd) EventPut]
  | CommandCAS =>
      if ResultFound cmd && bool_decide (ResultValue cmd = CompareValue cmd)
      then Ret [mkWatchEvent (Key cmd) (Get (Key cmd) d).1 (Revision cmd) EventPut] else Ret []
  | CommandLeaseRevoke | CommandLeaseExpiry =>
      Ret (deleteEvent (Revision cmd) <$>
             (visit ord (map_to_list (default ∅ (ResultPairs cmd)))).*1)
  | CommandTxn =>
      match TxnResult cmd with
      | None => Ret []
      | Some res =>
          match TxnIn cmd with
          | None => Panic "nil pointer dereference"
          | Some t => txnEvents (Revision cmd) d (if Succeeded res then Success t else Failure t)
                        0 (Results res)
          end
      end
  | _ => Ret []
  end.
