(* ===== verification/Replication.v ===== *)
(** * The replicated state machine

    Theorems on [applyCommand] and on runs of it over a committed log.

    - Replicas: a lease's expiry time is read from the local clock when the
      command is applied, and the order of [range] over a map is arbitrary, so
      two replicas are not equal but equivalent ([≡]: equal up to the expiry
      times).  Every operation respects the equivalence whatever the clocks and
      the orders, so replicas that apply the same log return the same results.
    - Requests: a request that was applied, or that is older than an applied
      request of the same client, has no effect.
    - Revisions count the mutations. *)

From S2P Require Import Prelude GoLib Api DataStore StoreSpec Command StateMachine.

(** ** Equivalence of replicas *)

Definition forgetLease (l : Lease) : Lease := set_ExpiresAt l 0.

Definition forget (d : DataStore) : DataStore :=
  mkDataStore (data d) (forgetLease <$> leases d) (keyLease d) (leaseIDSeq d).

#[export] Instance DataStore_equiv : Equiv DataStore := λ d1 d2, forget d1 = forget d2.
#[export] Instance DataStore_equivalence : Equivalence (≡@{DataStore}).
Proof. unfold equiv, DataStore_equiv. split; red; congruence. Qed.

#[export] Instance replicated_equiv : Equiv replicated := λ r1 r2,
  ds r1 ≡ ds r2 ∧ lastRequestIDPerClient r1 = lastRequestIDPerClient r2 ∧
  currentRevision r1 = currentRevision r2.
#[export] Instance replicated_equivalence : Equivalence (≡@{replicated}).
Proof.
  split.
  - intros r. by split.
  - intros r1 r2 (? & ? & ?). by split_and!.
  - intros r1 r2 r3 (H1 & ? & ?) (H2 & ? & ?). split_and!; [by rewrite H1|congruence..].
Qed.

(** Two outcomes agree: the same command results and equivalent stores. *)
Definition same_outcome {A S} `{Equiv S} (x y : go (A * S)) : Prop :=
  match x, y with
  | Ret (a, s), Ret (b, t) => a = b ∧ s ≡ t
  | Panic m, Panic n => m = n
  | Block, Block => True
  | _, _ => False
  end.

(** *** Operations that do not look at the clock commute with [forget] *)

Lemma lookup_forget d id : leases (forget d) !! id = forgetLease <$> leases d !! id.
Proof. apply lookup_fmap. Qed.

Lemma forget_detach k d : forget (detachKeyFromLease k d) = detachKeyFromLease k (forget d).
Proof.
  unfold detachKeyFromLease. simpl. destruct (keyLease d !! k) as [id|]; [|done].
  rewrite lookup_fmap. destruct (leases d !! id) as [l|]; simpl; [|done].
  unfold forget; simpl. f_equal. by rewrite fmap_insert.
Qed.

Lemma forget_attach k id d : forget (attachKeyToLease k id d) = attachKeyToLease k id (forget d).
Proof.
  unfold attachKeyToLease. rewrite <-forget_detach. set (d1 := detachKeyFromLease k d).
  rewrite lookup_forget. destruct (leases d1 !! id) as [l|]; simpl; [|done].
  unfold forget; simpl. f_equal. by rewrite fmap_insert.
Qed.

Lemma forget_put k v id d :
  (Put k v id (forget d)).1 = (Put k v id d).1 ∧
  (Put k v id (forget d)).2 = forget (Put k v id d).2.
Proof.
  unfold Put, putLocked. simpl. rewrite <-forget_detach. simpl. split; [done|].
  case_bool_decide; [|done]. by rewrite forget_attach.
Qed.

Lemma forget_append k v d :
  (Append k v (forget d)).1 = (Append k v d).1 ∧
  (Append k v (forget d)).2 = forget (Append k v d).2.
Proof. unfold Append, appendLocked. simpl. by destruct (comma_ok _). Qed.

Lemma forget_cas k c v d :
  (CAS k c v (forget d)).1 = (CAS k c v d).1 ∧
  (CAS k c v (forget d)).2 = forget (CAS k c v d).2.
Proof. unfold CAS, casLocked. simpl. destruct (comma_ok _); simpl. by case_match. Qed.

Lemma forget_delete k d :
  (Delete k (forget d)).1 = (Delete k d).1 ∧
  (Delete k (forget d)).2 = forget (Delete k d).2.
Proof. unfold Delete, deleteLocked. simpl. by rewrite <-forget_detach. Qed.

Lemma forget_txnOp op d :
  (txnOpEffect op (forget d)).1 = (txnOpEffect op d).1 ∧
  (txnOpEffect op (forget d)).2 = forget (txnOpEffect op d).2.
Proof.
  unfold txnOpEffect. destruct (Op_Op op); try done.
  - apply forget_put.
  - apply forget_delete.
  - apply forget_cas.
  - apply forget_append.
Qed.

Lemma forget_txnOps ops d :
  (execTxnOps ops (forget d)).1 = (execTxnOps ops d).1 ∧
  (execTxnOps ops (forget d)).2 = forget (execTxnOps ops d).2.
Proof.
  revert d. induction ops as [|op ops IH]; intros d; [done|].
  rewrite !execTxnOps_cons, !execTxnOp_effect. simpl.
  destruct (forget_txnOp op d) as [-> ->]. destruct (IH (txnOpEffect op d).2) as [-> ->]. done.
Qed.

Lemma forget_evalConditions conds d :
  evalConditions conds (forget d) = evalConditions conds d.
Proof. induction conds as [|c conds IH]; simpl; [done|]. by rewrite IH. Qed.

Lemma forget_txn conds success failure d :
  (Txn conds success failure (forget d)).1 = (Txn conds success failure d).1 ∧
  (Txn conds success failure (forget d)).2 = forget (Txn conds success failure d).2.
Proof.
  rewrite !Txn_eq, forget_evalConditions; simpl.
  by destruct (forget_txnOps (if evalConditions conds d then success else failure) d) as [-> ->].
Qed.

(** *** Operations that read the clock or range over a map *)

Lemma equiv_leases d1 d2 id :
  d1 ≡ d2 -> forgetLease <$> leases d1 !! id = forgetLease <$> leases d2 !! id.
Proof. intros H. by rewrite <-!lookup_forget, H. Qed.

Lemma equiv_fields d1 d2 :
  d1 ≡ d2 -> data d1 = data d2 ∧ keyLease d1 = keyLease d2 ∧ leaseIDSeq d1 = leaseIDSeq d2.
Proof. unfold equiv, DataStore_equiv, forget. intros; simplify_eq/=. done. Qed.

Lemma equiv_intro d1 d2 :
  data d1 = data d2 -> keyLease d1 = keyLease d2 -> leaseIDSeq d1 = leaseIDSeq d2 ->
  (∀ id, forgetLease <$> leases d1 !! id = forgetLease <$> leases d2 !! id) -> d1 ≡ d2.
Proof.
  intros Hd Hk Hs Hl. unfold equiv, DataStore_equiv, forget. rewrite Hd, Hk, Hs. f_equal.
  apply map_eq. intros id. rewrite !lookup_fmap. apply Hl.
Qed.

Lemma grant_equiv now1 now2 ttl d1 d2 :
  d1 ≡ d2 ->
  (GrantLease now1 ttl d1).1 = (GrantLease now2 ttl d2).1 ∧
  (GrantLease now1 ttl d1).2 ≡ (GrantLease now2 ttl d2).2.
Proof.
  intros H. destruct (equiv_fields _ _ H) as (Hd & Hk & Hs). unfold GrantLease; simpl.
  rewrite Hs. split; [done|]. apply equiv_intro; simpl; [done..|].
  intros id. rewrite !lookup_insert. case_decide; [done|]. by apply equiv_leases.
Qed.

Lemma keepalive_equiv now1 now2 id d1 d2 :
  d1 ≡ d2 ->
  (KeepAliveLease now1 id d1).1 = (KeepAliveLease now2 id d2).1 ∧
  (KeepAliveLease now1 id d1).2 ≡ (KeepAliveLease now2 id d2).2.
Proof.
  intros H. destruct (equiv_fields _ _ H) as (Hd & Hk & Hs). unfold KeepAliveLease.
  pose proof (equiv_leases _ _ id H) as Hl.
  destruct (leases d1 !! id) as [l1|] eqn:E1, (leases d2 !! id) as [l2|] eqn:E2; try done.
  simpl. split; [done|]. apply equiv_intro; simpl; [done..|].
  intros id'. rewrite !lookup_insert. case_decide; [|by apply equiv_leases].
  simpl in *. destruct l1, l2; simplify_eq/=. unfold forgetLease, set_ExpiresAt in *; simpl in *.
  congruence.
Qed.

Lemma revoke_equiv ord1 ord2 id d1 d2 :
  d1 ≡ d2 ->
  (RevokeLease ord1 id d1).1 ≡ₚ (RevokeLease ord2 id d2).1 ∧
  (RevokeLease ord1 id d1).2 ≡ (RevokeLease ord2 id d2).2.
Proof.
  intros H. destruct (equiv_fields _ _ H) as (Hd & Hk & Hs).
  pose proof (equiv_leases _ _ id H) as Hl.
  destruct (leases d1 !! id) as [l1|] eqn:E1, (leases d2 !! id) as [l2|] eqn:E2; try done.
  2: { unfold RevokeLease. rewrite E1, E2. done. }
  assert (HK: Keys l1 = Keys l2) by (destruct l1, l2; by simplify_eq/=).
  destruct (RevokeLease_lookup ord1 id l1 d1 E1) as (A1 & A2 & A3 & A4).
  destruct (RevokeLease_lookup ord2 id l2 d2 E2) as (B1 & B2 & B3 & B4).
  split.
  - unfold RevokeLease. rewrite E1, E2, HK. simpl. by rewrite !visit_perm.
  - apply equiv_intro.
    + apply map_eq. intros k. by rewrite A3, B3, HK, Hd.
    + apply map_eq. intros k. by rewrite A4, B4, HK, Hk.
    + congruence.
    + intros id'. rewrite A1, B1, !lookup_delete. case_decide; [done|]. by apply equiv_leases.
Qed.

Lemma lookup_addDeleted keys m k :
  addDeleted keys m !! k = if decide (k ∈ keys) then Some "" else m !! k.
Proof.
  unfold addDeleted. revert m. induction keys as [|x keys IH]; intros m; [done|].
  cbn [fold_left]. rewrite IH, lookup_insert. repeat case_decide; set_solver.
Qed.

Lemma addDeleted_perm keys1 keys2 m : keys1 ≡ₚ keys2 -> addDeleted keys1 m = addDeleted keys2 m.
Proof.
  intros Hp. apply map_eq. intros k. rewrite !lookup_addDeleted.
  apply decide_ext. by rewrite Hp.
Qed.

Lemma expire_equiv ord1 ord2 ids pairs d1 d2 :
  d1 ≡ d2 ->
  (expireLeases ord1 ids pairs d1).1 = (expireLeases ord2 ids pairs d2).1 ∧
  (expireLeases ord1 ids pairs d1).2 ≡ (expireLeases ord2 ids pairs d2).2.
Proof.
  revert pairs d1 d2. induction ids as [|id ids IH]; intros pairs d1 d2 H; [done|]. simpl.
  destruct (revoke_equiv ord1 ord2 id d1 d2 H) as [Hp He].
  destruct (RevokeLease ord1 id d1) as [ks1 e1], (RevokeLease ord2 id d2) as [ks2 e2].
  simpl in *. rewrite (addDeleted_perm _ _ _ Hp). by apply IH.
Qed.

(** An operation that commutes with [forget] respects the equivalence. *)
Lemma equiv_of_forget {A} (op : DataStore -> A * DataStore) d1 d2 :
  (∀ d, (op (forget d)).1 = (op d).1 ∧ (op (forget d)).2 = forget (op d).2) ->
  d1 ≡ d2 -> (op d1).1 = (op d2).1 ∧ (op d1).2 ≡ (op d2).2.
Proof.
  intros Hop H. unfold equiv, DataStore_equiv.
  destruct (Hop d1) as [<- <-], (Hop d2) as [<- <-]. by rewrite H.
Qed.

(** ** Applying a command respects the equivalence *)

Lemma exec_equiv env1 env2 cmd d1 d2 :
  d1 ≡ d2 -> same_outcome (execCommand env1 cmd d1) (execCommand env2 cmd d2).
Proof.
  intros H. pose proof (equiv_fields _ _ H) as (Hd & _).
  assert (Hpair: ∀ (op : DataStore -> (string * bool) * DataStore),
    (∀ d, (op (forget d)).1 = (op d).1 ∧ (op (forget d)).2 = forget (op d).2) ->
    same_outcome (let '(res, d') := op d1 in Ret (with_value cmd res, d'))
                 (let '(res, d') := op d2 in Ret (with_value cmd res, d'))).
  { intros op Hop. destruct (equiv_of_forget op d1 d2 Hop H) as [Hr He].
    destruct (op d1), (op d2). simpl in *. by rewrite Hr. }
  assert (Hlist: listCommand cmd d1 = listCommand cmd d2).
  { unfold listCommand, ListPaged, ListPrefix, pagedKeys. by rewrite Hd. }
  unfold execCommand. destruct (Kind cmd).
  - done.
  - simpl. unfold Get. by rewrite Hd.
  - apply Hpair. apply forget_put.
  - apply Hpair. apply forget_append.
  - apply Hpair. apply forget_cas.
  - simpl. by rewrite Hlist.
  - destruct (TxnIn cmd) as [t|]; [|done].
    destruct (equiv_of_forget (Txn (Conditions t) (Success t) (Failure t)) d1 d2) as [Hr He];
      [apply forget_txn|done|].
    destruct (Txn _ _ _ d1) as [[??]?], (Txn _ _ _ d2) as [[??]?]. by simplify_eq/=.
  - destruct (grant_equiv (env_now env1) (env_now env2) (LeaseTTL cmd) d1 d2 H) as [Hr He].
    destruct (GrantLease _ _ d1), (GrantLease _ _ d2). by simplify_eq/=.
  - destruct (keepalive_equiv (env_now env1) (env_now env2) (LeaseID cmd) d1 d2 H) as [Hr He].
    destruct (KeepAliveLease _ _ d1), (KeepAliveLease _ _ d2). by simplify_eq/=.
  - destruct (revoke_equiv (env_ord env1) (env_ord env2) (LeaseID cmd) d1 d2 H) as [Hr He].
    destruct (RevokeLease _ _ d1), (RevokeLease _ _ d2). simpl in *.
    by rewrite (addDeleted_perm _ _ _ Hr).
  - destruct (expire_equiv (env_ord env1) (env_ord env2) (LeaseIDs cmd) (ResultPairs cmd) d1 d2 H)
      as [Hr He].
    destruct (expireLeases _ _ _ d1), (expireLeases _ _ _ d2). by simplify_eq/=.
Qed.

Lemma revision_equiv cmd r1 r2 :
  r1 ≡ r2 -> same_outcome (Ret (assignRevision cmd r1)) (Ret (assignRevision cmd r2)).
Proof.
  intros (Hd & Hl & Hc). unfold assignRevision. rewrite Hl, Hc.
  case_match; (split; [done|]); by split.
Qed.

Lemma apply_equiv env1 env2 cmd r1 r2 :
  r1 ≡ r2 -> same_outcome (applyCommand env1 cmd r1) (applyCommand env2 cmd r2).
Proof.
  intros Hr. pose proof Hr as (Hd & Hl & Hc). destruct (equiv_fields _ _ Hd) as (Hdata & _).
  unfold applyCommand, isDuplicate. rewrite Hl. case_match.
  - assert (duplicateResult cmd (ds r1) = duplicateResult cmd (ds r2)) as ->.
    { unfold duplicateResult, listCommand, ListPaged, ListPrefix, pagedKeys, Get. by rewrite Hdata. }
    by apply revision_equiv.
  - pose proof (exec_equiv env1 env2 cmd _ _ Hd) as He.
    destruct (execCommand env1 cmd (ds r1)) as [[c1 e1]|m1|],
             (execCommand env2 cmd (ds r2)) as [[c2 e2]|m2|]; simpl in He; try done.
    destruct He as [-> He]. cbn [go_bind fst snd]. apply revision_equiv. by split.
Qed.

(** ** Runs over a log *)

(** An entry of the committed log with the surroundings of its application on
    one node. *)
Fixpoint applyLog (log : list (Env * Command)) (r : replicated)
    : go (list Command * replicated) :=
  match log with
  | [] => Ret ([], r)
  | (env, cmd) :: rest =>
      let! p := applyCommand env cmd r in
      let! q := applyLog rest p.2 in
      Ret (p.1 :: q.1, q.2)
  end.

Lemma applyLog_equiv log1 log2 r1 r2 :
  log1.*2 = log2.*2 -> r1 ≡ r2 -> same_outcome (applyLog log1 r1) (applyLog log2 r2).
Proof.
  revert log2 r1 r2. induction log1 as [|[env1 cmd] log1 IH];
    intros [|[env2 cmd2] log2] r1 r2 Hlog Hr; simplify_eq/=; [done|].
  pose proof (apply_equiv env1 env2 cmd2 r1 r2 Hr) as Hs.
  destruct (applyCommand env1 cmd2 r1) as [[c1 s1]| |],
           (applyCommand env2 cmd2 r2) as [[c2 s2]| |]; simpl in Hs; try done.
  destruct Hs as [-> Hs]. cbn [go_bind fst snd].
  specialize (IH log2 s1 s2 ltac:(done) Hs).
  destruct (applyLog log1 s1) as [[l1 t1]| |], (applyLog log2 s2) as [[l2 t2]| |];
    simpl in *; try done.
  by destruct IH as [-> IH].
Qed.

Lemma applyLog_app log1 log2 r :
  applyLog (log1 ++ log2) r =
    let! p := applyLog log1 r in
    let! q := applyLog log2 p.2 in
    Ret (p.1 ++ q.1, q.2).
Proof.
  revert r. induction log1 as [|[env cmd] log1 IH]; intros r; simpl.
  - by destruct (applyLog log2 r) as [[]| |].
  - destruct (applyCommand env cmd r) as [[c s]| |]; simpl; [|done..]. rewrite IH.
    destruct (applyLog log1 s) as [[l1 t1]| |]; simpl; [|done..].
    by destruct (applyLog log2 t1) as [[]| |].
Qed.

(** ** Inputs of a command *)

(** The fields a handler sets: everything but the results. *)
Definition sameInputs (c c' : Command) : Prop :=
  Kind c' = Kind c ∧ Key c' = Key c ∧ Value c' = Value c ∧ CompareValue c' = CompareValue c ∧
  TxnIn c' = TxnIn c ∧ LeaseID c' = LeaseID c ∧ LeaseTTL c' = LeaseTTL c ∧
  LeaseIDs c' = LeaseIDs c ∧ Limit c' = Limit c ∧ KeyAfter c' = KeyAfter c ∧
  ServiceID c' = ServiceID c ∧ ClientID c' = ClientID c ∧ RequestID c' = RequestID c.

(** Commands the handlers and the expiry loop submit. *)
Definition submitted (cmd : Command) : Prop :=
  Kind cmd ≠ CommandInvalid ∧ (Kind cmd = CommandTxn -> is_Some (TxnIn cmd)) ∧
  IsDuplicate cmd = false.

Lemma exec_inputs env cmd d cmd' d' :
  execCommand env cmd d = Ret (cmd', d') ->
  sameInputs cmd cmd' ∧ IsDuplicate cmd' = IsDuplicate cmd.
Proof.
  unfold execCommand, listCommand. intros H.
  repeat case_match; simplify_eq/=; by split_and!.
Qed.

Lemma exec_total env cmd d :
  submitted cmd -> ∃ cmd' d', execCommand env cmd d = Ret (cmd', d').
Proof.
  intros (Hk & Ht & _). unfold execCommand.
  destruct (Kind cmd); try (repeat case_match; eauto; done).
  destruct (Ht eq_refl) as [t ->]. repeat case_match. eauto.
Qed.

Lemma duplicateResult_inputs cmd d :
  sameInputs cmd (duplicateResult cmd d) ∧ IsDuplicate (duplicateResult cmd d) = true.
Proof. unfold duplicateResult, listCommand. repeat case_match; by split_and!. Qed.

(** *** The two cases of an application *)

Lemma apply_duplicate env cmd r :
  isDuplicate cmd r = true ->
  applyCommand env cmd r =
    Ret (with_revision (duplicateResult cmd (ds r)) (currentRevision r), r).
Proof.
  intros Hd. unfold applyCommand, assignRevision. rewrite Hd.
  destruct (duplicateResult_inputs cmd (ds r)) as [_ ->]. by rewrite andb_false_r.
Qed.

Lemma apply_fresh env cmd r cmd' r' :
  IsDuplicate cmd = false -> isDuplicate cmd r = false ->
  applyCommand env cmd r = Ret (cmd', r') ->
  ∃ c d, execCommand env cmd (ds r) = Ret (c, d) ∧ ds r' = d ∧
    currentRevision r' = (if isMutation (Kind cmd) then wrap64 (currentRevision r + 1)
                          else currentRevision r) ∧
    lastRequestIDPerClient r' =
      (if bool_decide (ClientID cmd ≠ 0)
       then <[ClientID cmd := RequestID cmd]> (lastRequestIDPerClient r)
       else lastRequestIDPerClient r) ∧
    cmd' = with_revision c (currentRevision r').
Proof.
  intros Hf Hd H. unfold applyCommand in H. rewrite Hd in H.
  destruct (execCommand env cmd (ds r)) as [[c d]| |] eqn:E; simpl in H; [|done..].
  apply exec_inputs in E as [(HK & _) Hdup]. exists c, d. split; [done|].
  unfold assignRevision in H. rewrite HK, Hdup, Hf, andb_true_r in H.
  destruct (isMutation (Kind cmd)); by simplify_eq/=.
Qed.

Lemma apply_total env cmd r :
  submitted cmd -> ∃ cmd' r', applyCommand env cmd r = Ret (cmd', r').
Proof.
  intros Hs. unfold applyCommand. destruct (isDuplicate cmd r).
  - destruct (assignRevision _ _). eauto.
  - destruct (exec_total env cmd (ds r) Hs) as (c & d & ->). simpl.
    destruct (assignRevision _ _). eauto.
Qed.

Lemma applyLog_total log r :
  Forall (λ p, submitted p.2) log -> ∃ cmds r', applyLog log r = Ret (cmds, r').
Proof.
  intros Hlog. revert r. induction Hlog as [|[env cmd] log Hs Hlog IH]; intros r; simpl; [eauto|].
  destruct (apply_total env cmd r Hs) as (c & r1 & ->). simpl.
  destruct (IH r1) as (cmds & r' & ->). simpl. eauto.
Qed.

(** ** Invariants along a log *)

Lemma seq_detach k d : leaseIDSeq (detachKeyFromLease k d) = leaseIDSeq d.
Proof. unfold detachKeyFromLease. by repeat case_match. Qed.

Lemma seq_attach k id d : leaseIDSeq (attachKeyToLease k id d) = leaseIDSeq d.
Proof. unfold attachKeyToLease. case_match; simpl; by rewrite seq_detach. Qed.

Lemma seq_txnOp op d : leaseIDSeq (txnOpEffect op d).2 = leaseIDSeq d.
Proof.
  unfold txnOpEffect, putLocked, deleteLocked, casLocked, appendLocked.
  repeat case_match; simplify_eq/=; rewrite ?seq_attach; simpl; by rewrite ?seq_detach.
Qed.

Lemma seq_txnOps ops d : leaseIDSeq (execTxnOps ops d).2 = leaseIDSeq d.
Proof.
  revert d. induction ops as [|op ops IH]; intros d; [done|].
  rewrite execTxnOps_cons, execTxnOp_effect. simpl. by rewrite IH, seq_txnOp.
Qed.

Lemma seq_revoke ord id d : leaseIDSeq (RevokeLease ord id d).2 = leaseIDSeq d.
Proof.
  destruct (leases d !! id) as [l|] eqn:E.
  - by destruct (RevokeLease_lookup ord id l d E) as (_ & -> & _).
  - unfold RevokeLease. by rewrite E.
Qed.

Lemma expire_invariant ord ids pairs d :
  leaseIDSeq (expireLeases ord ids pairs d).2 = leaseIDSeq d ∧
  (wf d -> wf (expireLeases ord ids pairs d).2).
Proof.
  revert pairs d. induction ids as [|id ids IH]; intros pairs d; [done|]. simpl.
  pose proof (seq_revoke ord id d) as Hs. pose proof (wf_RevokeLease ord id d) as Hw.
  destruct (RevokeLease ord id d) as [ks e]; simpl in *.
  destruct (IH (Some (addDeleted ks (default ∅ pairs))) e) as [-> IHw]. auto.
Qed.

Lemma exec_wf env cmd d cmd' d' :
  wf d -> leaseIDSeq d < int64_max -> execCommand env cmd d = Ret (cmd', d') ->
  wf d' ∧ leaseIDSeq d <= leaseIDSeq d' <= leaseIDSeq d + 1.
Proof.
  intros Hwf Hlt. pose proof (wf_seq _ Hwf). unfold execCommand, Put, Append, CAS.
  destruct (Kind cmd); intros E; simplify_eq/=.
  - split; [done|lia].
  - split; [apply wf_putLocked, Hwf|]. case_match; rewrite ?seq_attach; simpl; rewrite seq_detach; lia.
  - pose proof (wf_appendLocked (Key cmd) (Value cmd) d Hwf). unfold appendLocked in *.
    case_match; simplify_eq/=. split; [done|lia].
  - pose proof (wf_casLocked (Key cmd) (CompareValue cmd) (Value cmd) d Hwf). unfold casLocked in *.
    case_match; simplify_eq/=. split; [done|]. case_match; simpl; lia.
  - split; [done|lia].
  - case_match; [|done]. pose proof (wf_Txn (Conditions t) (Success t) (Failure t) d Hwf).
    rewrite Txn_eq in *; simplify_eq/=. split; [done|]. rewrite seq_txnOps. lia.
  - split; [by apply (wf_GrantLease (env_now env) (LeaseTTL cmd))|].
    rewrite wrap64_id by (unfold in_int64, int64_min; lia). lia.
  - pose proof (wf_KeepAliveLease (env_now env) (LeaseID cmd) d Hwf). unfold KeepAliveLease in *.
    case_match; simplify_eq/=; (split; [done|lia]).
  - pose proof (wf_RevokeLease (env_ord env) (LeaseID cmd) d Hwf).
    pose proof (seq_revoke (env_ord env) (LeaseID cmd) d).
    destruct (RevokeLease _ _ _); simplify_eq/=. split; [done|lia].
  - destruct (expire_invariant (env_ord env) (LeaseIDs cmd) (ResultPairs cmd) d).
    destruct (expireLeases _ _ _ _); simplify_eq/=. split; [auto|lia].
Qed.

Lemma apply_wf env cmd r cmd' r' :
  IsDuplicate cmd = false -> wf (ds r) -> leaseIDSeq (ds r) < int64_max ->
  applyCommand env cmd r = Ret (cmd', r') ->
  wf (ds r') ∧ leaseIDSeq (ds r) <= leaseIDSeq (ds r') <= leaseIDSeq (ds r) + 1.
Proof.
  intros Hf Hwf Hlt H. destruct (isDuplicate cmd r) eqn:Hd.
  - rewrite apply_duplicate in H by done. simplify_eq. split; [done|lia].
  - destruct (apply_fresh _ _ _ _ _ Hf Hd H) as (c & d & He & -> & _). by eapply exec_wf.
Qed.

Lemma applyLog_wf log r cmds r' :
  Forall (λ p, submitted p.2) log -> wf (ds r) ->
  leaseIDSeq (ds r) + Z.of_nat (length log) <= int64_max ->
  applyLog log r = Ret (cmds, r') -> wf (ds r').
Proof.
  intros Hlog. revert r cmds. induction Hlog as [|[env cmd] log Hs Hlog IH];
    intros r cmds Hwf Hfit H; simpl in *; [by simplify_eq|].
  destruct (applyCommand env cmd r) as [[c r1]| |] eqn:E; simpl in H; [|done..].
  destruct (applyLog log r1) as [[cs r2]| |] eqn:E2; simpl in H; [|done..]. simplify_eq.
  destruct (apply_wf env cmd r c r1) as [Hwf1 Hseq]; [apply Hs|done|lia|done|].
  eapply IH; [exact Hwf1|lia|exact E2].
Qed.

(** ** The table of requests *)

(** The table holds, per client, the highest request id of the log. *)
Record tableOf (log : list Command) (m : gmap Z Z) : Prop := {
  table_bound c : c ∈ log -> ClientID c ≠ 0 ->
    ∃ v, m !! ClientID c = Some v ∧ RequestID c <= v;
  table_source client v : m !! client = Some v ->
    ∃ c, c ∈ log ∧ ClientID c = client ∧ RequestID c = v }.

Lemma tableOf_dup log cmd r :
  tableOf log (lastRequestIDPerClient r) ->
  isDuplicate cmd r = true <->
    ClientID cmd ≠ 0 ∧ ∃ c, c ∈ log ∧ ClientID c = ClientID cmd ∧ RequestID cmd <= RequestID c.
Proof.
  intros [Hb Hs]. unfold isDuplicate. rewrite andb_true_iff, bool_decide_eq_true. split.
  - intros [Hc H]. split; [done|].
    destruct (lastRequestIDPerClient r !! ClientID cmd) as [v|] eqn:E; [|done].
    apply Hs in E as (c & Hin & Hcl & <-). exists c. split_and!; [done|done|lia].
  - intros [Hc (c & Hin & Hcl & Hle)]. split; [done|].
    destruct (Hb c Hin) as (v & Hv & Hle'); [congruence|].
    rewrite Hcl in Hv. rewrite Hv. lia.
Qed.

Lemma tableOf_apply env log cmd r cmd' r' :
  submitted cmd -> tableOf log (lastRequestIDPerClient r) ->
  applyCommand env cmd r = Ret (cmd', r') -> tableOf (log ++ [cmd]) (lastRequestIDPerClient r').
Proof.
  intros (_ & _ & Hf) Ht H. pose proof (tableOf_dup log cmd r Ht) as Hdup.
  destruct Ht as [Hb Hs]. destruct (isDuplicate cmd r) eqn:Hd.
  - rewrite apply_duplicate in H by done. simplify_eq.
    destruct (proj1 Hdup eq_refl) as (Hc & c0 & Hin0 & Hcl0 & Hle0). split.
    + intros c [Hin|Heq%list_elem_of_singleton]%elem_of_app Hnz; [auto|]. subst c.
      destruct (Hb c0 Hin0) as (v & Hv & Hle); [congruence|].
      exists v. rewrite <-Hcl0. split; [done|lia].
    + intros client v Hv. destruct (Hs client v Hv) as (c & Hin & ?).
      exists c. split; [apply elem_of_app; by left|done].
  - destruct (apply_fresh _ _ _ _ _ Hf Hd H) as (_ & _ & _ & _ & _ & -> & _).
    case_bool_decide as Hc; split.
    + intros c [Hin|Heq%list_elem_of_singleton]%elem_of_app Hnz; [|subst c].
      * rewrite lookup_insert. case_decide as Heq; [|auto].
        exists (RequestID cmd). split; [done|].
        destruct (Z.le_gt_cases (RequestID c) (RequestID cmd)); [done|].
        assert (false = true); [|done]. apply Hdup. split; [done|].
        exists c. split_and!; [done|done|lia].
      * exists (RequestID cmd). by rewrite lookup_insert_eq.
    + intros client v. rewrite lookup_insert_Some. intros [[<- <-]|[_ Hv]].
      * exists cmd. split; [apply elem_of_app; right; by left|done].
      * destruct (Hs client v Hv) as (c & Hin & ?).
        exists c. split; [apply elem_of_app; by left|done].
    + intros c [Hin|Heq%list_elem_of_singleton]%elem_of_app Hnz; [auto|by subst c].
    + intros client v Hv. destruct (Hs client v Hv) as (c & Hin & ?).
      exists c. split; [apply elem_of_app; by left|done].
Qed.

Lemma tableOf_log pre log r cmds r' :
  Forall (λ p, submitted p.2) log -> tableOf pre (lastRequestIDPerClient r) ->
  applyLog log r = Ret (cmds, r') -> tableOf (pre ++ log.*2) (lastRequestIDPerClient r').
Proof.
  intros Hlog. revert pre r cmds. induction Hlog as [|[env cmd] log Hs Hlog IH];
    intros pre r cmds Ht H; simpl in *; [simplify_eq; by rewrite app_nil_r|].
  destruct (applyCommand env cmd r) as [[c r1]| |] eqn:E; simpl in H; [|done..].
  destruct (applyLog log r1) as [[cs r2]| |] eqn:E2; simpl in H; [|done..]. simplify_eq.
  rewrite cons_middle, app_assoc. eapply IH; [|exact E2]. by eapply tableOf_apply.
Qed.

Lemma tableOf_new : tableOf [] (lastRequestIDPerClient newReplicated).
Proof.
  split; [intros c Hc; by apply elem_of_nil in Hc|].
  intros client v Hv. simpl in Hv. by rewrite lookup_empty in Hv.
Qed.

(** ** Revisions *)

(** The kinds that write: puts, appends, compare-and-swaps, transactions, and the two ways
    to end a lease. *)
Definition mutationKinds : list CommandKind :=
  [CommandPut; CommandAppend; CommandCAS; CommandTxn; CommandLeaseRevoke; CommandLeaseExpiry].

Lemma isMutation_kinds k : isMutation k = true <-> k ∈ mutationKinds.
Proof.
  rewrite <-(bool_decide_eq_true (k ∈ mutationKinds)). by destruct k.
Qed.

(** A command that was executed and counts as a mutation. *)
Definition effectiveMutation (c : Command) : Prop :=
  Kind c ∈ mutationKinds ∧ IsDuplicate c = false.
#[export] Instance effectiveMutation_dec c : Decision (effectiveMutation c).
Proof. unfold effectiveMutation. apply _. Defined.

Definition mutations (cs : list Command) : Z := Z.of_nat (length (filter effectiveMutation cs)).

Lemma mutations_cons c cs :
  mutations (c :: cs) = (if decide (effectiveMutation c) then 1 else 0) + mutations cs.
Proof. unfold mutations. rewrite filter_cons. case_decide; simpl; lia. Qed.

Lemma mutations_le cs : 0 <= mutations cs <= Z.of_nat (length cs).
Proof. unfold mutations. pose proof (length_filter effectiveMutation cs). lia. Qed.

Lemma apply_revision env cmd r cmd' r' :
  submitted cmd -> 0 <= currentRevision r < int64_max ->
  applyCommand env cmd r = Ret (cmd', r') ->
  Revision cmd' = currentRevision r' ∧
  currentRevision r' = currentRevision r + (if decide (effectiveMutation cmd') then 1 else 0) ∧
  sameInputs cmd cmd' ∧ IsDuplicate cmd' = isDuplicate cmd r.
Proof.
  intros (_ & _ & Hf) Hr H. destruct (isDuplicate cmd r) eqn:Hd.
  - rewrite apply_duplicate in H by done. simplify_eq/=.
    destruct (duplicateResult_inputs cmd (ds r')) as [Hin Hdup].
    rewrite decide_False by (intros [_ ?]; simpl in *; congruence).
    split_and!; [done|lia|exact Hin|exact Hdup].
  - destruct (apply_fresh _ _ _ _ _ Hf Hd H) as (c & d & He & _ & Hrev & _ & ->).
    apply exec_inputs in He as [Hin Hdup]. rewrite Hrev.
    split_and!; [done| |exact Hin|by simpl; rewrite Hdup].
    assert (Heff: effectiveMutation (with_revision c (currentRevision r')) <->
      isMutation (Kind cmd) = true).
    { unfold effectiveMutation. rewrite isMutation_kinds. simpl. destruct Hin as [-> _].
      rewrite Hdup, Hf. tauto. }
    rewrite <-Hrev. destruct (isMutation (Kind cmd)); case_decide as Hdec; rewrite Heff in Hdec;
      try done; rewrite Hrev; [|lia].
    apply wrap64_id. unfold in_int64, int64_min. lia.
Qed.

(** Along a log: the results carry the inputs, and the revision of the [i]-th
    result is the number of effective mutations up to it. *)
Lemma applyLog_revision log r cmds r' :
  Forall (λ p, submitted p.2) log -> 0 <= currentRevision r ->
  currentRevision r + Z.of_nat (length log) <= int64_max ->
  applyLog log r = Ret (cmds, r') ->
  currentRevision r' = currentRevision r + mutations cmds ∧
  Forall2 sameInputs log.*2 cmds ∧
  (∀ i c, cmds !! i = Some c -> Revision c = currentRevision r + mutations (take (S i) cmds)).
Proof.
  intros Hlog. revert r cmds. induction Hlog as [|[env cmd] log Hs Hlog IH];
    intros r cmds H0 Hfit H; simpl in *.
  { simplify_eq. split_and!; [by rewrite Z.add_0_r|constructor|done]. }
  destruct (applyCommand env cmd r) as [[c r1]| |] eqn:E; simpl in H; [|done..].
  destruct (applyLog log r1) as [[cs r2]| |] eqn:E2; simpl in H; [|done..]. simplify_eq.
  destruct (apply_revision env cmd r c r1) as (Hrev & Hcur & Hin & _); [done|lia|done|].
  assert (0 <= (if decide (effectiveMutation c) then 1 else 0) <= 1) by (case_decide; lia).
  destruct (IH r1 cs) as (IH1 & IH2 & IH3); [lia|lia|done|].
  rewrite mutations_cons. split_and!; [lia|by constructor|].
  intros [|i] x Hx; simplify_eq/=; rewrite mutations_cons.
  - rewrite Hrev, Hcur. unfold mutations. simpl. lia.
  - rewrite (IH3 i x Hx). lia.
Qed.

(** ** Duplicates along a log *)

Lemma dup_along pre log r cmds r' :
  Forall (λ p, submitted p.2) log -> tableOf pre (lastRequestIDPerClient r) ->
  applyLog log r = Ret (cmds, r') ->
  ∀ j cmd c', log.*2 !! j = Some cmd -> cmds !! j = Some c' ->
    IsDuplicate c' = true <->
      ClientID cmd ≠ 0 ∧ ∃ c, c ∈ pre ++ take j log.*2 ∧ ClientID c = ClientID cmd ∧
                              RequestID cmd <= RequestID c.
Proof.
  intros Hlog. revert pre r cmds. induction Hlog as [|[env cmd] log Hs Hlog IH];
    intros pre r cmds Ht H j cmd0 c' Hj Hc'; simpl in *; [done|].
  destruct (applyCommand env cmd r) as [[c r1]| |] eqn:E; simpl in H; [|done..].
  destruct (applyLog log r1) as [[cs r2]| |] eqn:E2; simpl in H; [|done..]. simplify_eq.
  destruct j as [|j]; simplify_eq/=.
  - rewrite app_nil_r. rewrite <-(tableOf_dup pre cmd0 r) by done.
    destruct (isDuplicate cmd0 r) eqn:Hd.
    + rewrite apply_duplicate in E by done. by simplify_eq/=.
    + pose proof Hs as (_ & _ & Hf).
      destruct (apply_fresh _ _ _ _ _ Hf Hd E) as (c & d & He & _ & _ & _ & ->).
      apply exec_inputs in He as [_ Hdup]. simpl. by rewrite Hdup, Hf.
  - rewrite (IH (pre ++ [cmd]) r1 cs) by (done || by eapply tableOf_apply).
    by rewrite <-app_assoc.
Qed.

(** A retry, by the ids alone: its client is identified and has sent a request with
    an id at least as large before. *)
Definition retryOf (seen : list Command) (c : Command) : Prop :=
  ClientID c ≠ 0 ∧ Exists (λ c0, ClientID c0 = ClientID c ∧ RequestID c <= RequestID c0) seen.
#[export] Instance retryOf_dec seen c : Decision (retryOf seen c).
Proof. unfold retryOf. apply _. Defined.

(** A log without its retries, after the commands [seen]. *)
Fixpoint withoutRetries (seen : list Command) (log : list (Env * Command)) : list (Env * Command) :=
  match log with
  | [] => []
  | (env, c) :: rest =>
      let rest' := withoutRetries (seen ++ [c]) rest in
      if decide (retryOf seen c) then rest' else (env, c) :: rest'
  end.

Lemma retryOf_dup seen cmd r :
  tableOf seen (lastRequestIDPerClient r) -> isDuplicate cmd r = true <-> retryOf seen cmd.
Proof.
  intros Ht. rewrite (tableOf_dup seen cmd r Ht). unfold retryOf. rewrite Exists_exists. naive_solver.
Qed.

Lemma withoutRetries_same log : ∀ seen r cmds r',
  Forall (λ p, submitted p.2) log -> tableOf seen (lastRequestIDPerClient r) ->
  applyLog log r = Ret (cmds, r') ->
  applyLog (withoutRetries seen log) r = Ret (filter (λ c, IsDuplicate c = false) cmds, r').
Proof.
  induction log as [|[env cmd] log IH]; intros seen r cmds r' Hlog Ht H; simpl in *; [by simplify_eq|].
  apply Forall_cons in Hlog as [Hs Hlog]. simpl in Hs.
  destruct (applyCommand env cmd r) as [[c r1]| |] eqn:E; simpl in H; [|done..].
  destruct (applyLog log r1) as [[cs r2]| |] eqn:E2; simpl in H; [|done..]. simplify_eq.
  specialize (IH (seen ++ [cmd]) r1 cs r' Hlog (tableOf_apply _ _ _ _ _ _ Hs Ht E) E2).
  pose proof (retryOf_dup seen cmd r Ht) as Hdup. rewrite filter_cons.
  destruct (isDuplicate cmd r) eqn:Hd.
  - rewrite decide_True by (by apply Hdup). rewrite apply_duplicate in E by done. by simplify_eq/=.
  - rewrite decide_False by (intros Hr; by apply Hdup in Hr). pose proof Hs as (_ & _ & Hf).
    destruct (apply_fresh _ _ _ _ _ Hf Hd E) as (c0 & d & He & _ & _ & _ & Hc).
    apply exec_inputs in He as [_ Hdup0]. subst c. simpl in *. rewrite Hdup0, Hf. simpl.
    rewrite E. cbn [go_bind fst snd]. by rewrite IH.
Qed.

(** ** Properties *)

(** A put of client 7, its retry, a get, and a put of another client with a lease. *)
Definition putCommand (client request : Z) (key value : string) (lease : Z) : Command :=
  mkCommand CommandPut key value "" "" false None 0 None None lease 0 [] 0 "" 1 client request false.
Definition grantCommand (client request ttl : Z) : Command :=
  mkCommand CommandLeaseGrant "" "" "" "" false None 0 None None 0 ttl [] 0 "" 1 client request false.
Definition revokeCommand (client request id : Z) : Command :=
  mkCommand CommandLeaseRevoke "" "" "" "" false None 0 None None id 0 [] 0 "" 1 client request false.
Definition sample_cmds : list Command :=
  [grantCommand 9 1 60; putCommand 7 1 "k" "v" 1; putCommand 7 1 "k" "v" 1;
   putCommand 9 2 "l" "w" 1; revokeCommand 9 3 1; putCommand 7 2 "k" "u" 0].
Definition sample_log (env : Env) : list (Env * Command) := (λ c, (env, c)) <$> sample_cmds.

Lemma sample_submitted env : Forall (λ p, submitted p.2) (sample_log env).
Proof. repeat constructor; simpl; done. Qed.

(** C3 (equivalence).  Replicas converge: two nodes that start fresh and apply
    the same committed commands, with any clocks and any map iteration orders,
    both succeed, return exactly the same results for every command, and end in
    equivalent states (equal but for the expiry times of leases). *)
Theorem replicas_converge log1 log2 :
  log1.*2 = log2.*2 -> Forall (λ p, submitted p.2) log1 ->
  ∃ cmds r1 r2, applyLog log1 newReplicated = Ret (cmds, r1) ∧
    applyLog log2 newReplicated = Ret (cmds, r2) ∧ r1 ≡ r2.
Proof.
  intros Hlog Hs. destruct (applyLog_total log1 newReplicated Hs) as (cmds & r1 & H1).
  pose proof (applyLog_equiv log1 log2 newReplicated newReplicated Hlog (reflexivity _)) as He.
  rewrite H1 in He. destruct (applyLog log2 newReplicated) as [[cmds2 r2]| |]; simpl in He; [|done..].
  destruct He as [-> He]. eauto 10.
Qed.

Lemma replicas_converge_witness :
  ∃ cmds r1 r2, applyLog (sample_log (mkEnv 0 in_order)) newReplicated = Ret (cmds, r1) ∧
    applyLog (sample_log (mkEnv 1700000000 reversed)) newReplicated = Ret (cmds, r2) ∧ r1 ≡ r2.
Proof.
  apply (replicas_converge (sample_log (mkEnv 0 in_order)) (sample_log (mkEnv 1700000000 reversed))).
  - reflexivity.
  - apply sample_submitted.
Defined.

(** Along every log of submitted commands shorter than 2^63 the
    state machine never panics or blocks, and the store stays well formed. *)
Theorem state_machine_safe log :
  Forall (λ p, submitted p.2) log -> Z.of_nat (length log) <= int64_max ->
  ∃ cmds r, applyLog log newReplicated = Ret (cmds, r) ∧ wf (ds r) ∧
    Forall2 sameInputs log.*2 cmds.
Proof.
  intros Hs Hlen. destruct (applyLog_total log newReplicated Hs) as (cmds & r & H).
  exists cmds, r. split; [done|]. split.
  - eapply (applyLog_wf log newReplicated); [done|apply wf_NewDataStore|simpl; lia|done].
  - by destruct (applyLog_revision log newReplicated cmds r) as (_ & ? & _).
Qed.

Lemma state_machine_safe_witness :
  ∃ cmds r, applyLog (sample_log env0) newReplicated = Ret (cmds, r) ∧ wf (ds r) ∧
    Forall2 sameInputs (sample_log env0).*2 cmds.
Proof.
  apply (state_machine_safe (sample_log env0)).
  - apply sample_submitted.
  - vm_compute. discriminate.
Defined.

(** C26 (functional).  Which commands are treated as duplicates, exactly: the
    command at position [j] is one if and only if it comes from an identified
    client and some earlier command of that client has a request id at least as
    large. *)
Theorem duplicates_exact log cmds r j cmd c' :
  Forall (λ p, submitted p.2) log -> applyLog log newReplicated = Ret (cmds, r) ->
  log.*2 !! j = Some cmd -> cmds !! j = Some c' ->
  IsDuplicate c' = true <->
    ClientID cmd ≠ 0 ∧ ∃ c, c ∈ take j log.*2 ∧ ClientID c = ClientID cmd ∧
                            RequestID cmd <= RequestID c.
Proof. intros Hs H. by apply (dup_along [] log newReplicated cmds r Hs tableOf_new H). Qed.

Lemma duplicates_exact_witness :
  ∃ cmds r c', applyLog (sample_log env0) newReplicated = Ret (cmds, r) ∧
    cmds !! 2%nat = Some c' ∧ IsDuplicate c' = true.
Proof.
  destruct (applyLog_total (sample_log env0) newReplicated (sample_submitted env0)) as (cmds & r & H).
  assert (Hl: length cmds = 6%nat).
  { assert ((λ g, match g with Ret p => length p.1 | _ => 0%nat end)
      (applyLog (sample_log env0) newReplicated) = 6%nat) as Hv by (vm_compute; reflexivity).
    by rewrite H in Hv. }
  destruct (lookup_lt_is_Some_2 cmds 2) as [c' Hc']; [lia|].
  exists cmds, r, c'. split; [done|]. split; [done|].
  apply (duplicates_exact (sample_log env0) cmds r 2 (putCommand 7 1 "k" "v" 1) c'
    (sample_submitted env0) H eq_refl Hc').
  split; [done|]. exists (putCommand 7 1 "k" "v" 1). split; [|done].
  apply list_elem_of_lookup. by exists 1%nat.
Defined.

(** C8 (equivalence).  Retries have no effect: removing from a log every command whose
    client has sent a request with the same or a higher id before leaves the
    final state as it is, and the results of the commands that stay are
    exactly the results in the full log that are not marked as duplicates. *)
Theorem retries_have_no_effect log cmds r :
  Forall (λ p, submitted p.2) log -> applyLog log newReplicated = Ret (cmds, r) ->
  applyLog (withoutRetries [] log) newReplicated =
    Ret (filter (λ c, IsDuplicate c = false) cmds, r).
Proof. intros Hs. by apply withoutRetries_same, tableOf_new. Qed.

(** The retry of client 7 is left out. *)
Lemma retries_have_no_effect_witness :
  (withoutRetries [] (sample_log env0)).*2 =
    [grantCommand 9 1 60; putCommand 7 1 "k" "v" 1; putCommand 9 2 "l" "w" 1; revokeCommand 9 3 1;
     putCommand 7 2 "k" "u" 0] ∧
  ∃ cmds r, applyLog (sample_log env0) newReplicated = Ret (cmds, r) ∧
    applyLog (withoutRetries [] (sample_log env0)) newReplicated =
      Ret (filter (λ c, IsDuplicate c = false) cmds, r).
Proof.
  split; [reflexivity|].
  destruct (applyLog_total (sample_log env0) newReplicated (sample_submitted env0)) as (cmds & r & H).
  exists cmds, r. split; [done|].
  exact (retries_have_no_effect (sample_log env0) cmds r (sample_submitted env0) H).
Defined.

(** C27 (bounds).  Revisions: in a log shorter than 2^63 the result of every command
    carries the number of effective mutations up to and including it, so
    mutations get consecutive revisions and reads see the latest one. *)
Theorem revisions_count_mutations log cmds r i c :
  Forall (λ p, submitted p.2) log -> Z.of_nat (length log) <= int64_max ->
  applyLog log newReplicated = Ret (cmds, r) -> cmds !! i = Some c ->
  Revision c = mutations (take (S i) cmds) ∧ currentRevision r = mutations cmds.
Proof.
  intros Hs Hlen H Hc.
  destruct (applyLog_revision log newReplicated cmds r) as (H1 & _ & H2);
    [done|done|simpl; lia|done|].
  by rewrite (H2 i c Hc), H1.
Qed.

Lemma revisions_count_mutations_witness :
  ∃ cmds r c, applyLog (sample_log env0) newReplicated = Ret (cmds, r) ∧
    cmds !! 5%nat = Some c ∧ Revision c = mutations (take 6 cmds).
Proof.
  destruct (applyLog_total (sample_log env0) newReplicated (sample_submitted env0)) as (cmds & r & H).
  assert (Hl: length cmds = 6%nat).
  { assert ((λ g, match g with Ret p => length p.1 | _ => 0%nat end)
      (applyLog (sample_log env0) newReplicated) = 6%nat) as Hv by (vm_compute; reflexivity).
    by rewrite H in Hv. }
  destruct (lookup_lt_is_Some_2 cmds 5) as [c Hc]; [lia|].
  exists cmds, r, c. split; [done|]. split; [done|].
  apply (revisions_count_mutations (sample_log env0) cmds r 5 c (sample_submitted env0)).
  - vm_compute. discriminate.
  - exact H.
  - exact Hc.
Defined.
