(* ===== verification/WatchLog.v ===== *)
(** * Watch events and the state they describe

    A watcher sees the events of the applied commands.  The file relates that
    stream to the store: applying the events of a command to the data before it
    gives the data after it, revisions do not decrease along the stream, and a
    watcher that reconnects with a revision gets, from the ring buffer, exactly
    the later events.

    A transaction may name an operation type the code does not know.  It changes
    nothing in the store but pushes a put event, so what the stream says about
    its key is wrong from there on; the statements say it for all other keys. *)

From S2P Require Import Prelude GoLib Api DataStore StoreSpec Watch Command StateMachine Replication.
Import EventBuffer.

(** ** A watcher's view *)

Definition applyEvent (m : gmap string string) (e : WatchEvent) : gmap string string :=
  match Ev_Type e with
  | EventPut => <[Ev_Key e := Ev_Value e]> m
  | EventDelete => delete (Ev_Key e) m
  | EventInvalid => m
  end.

Definition applyEvents (es : list WatchEvent) (m : gmap string string) : gmap string string :=
  fold_left applyEvent es m.

(** Two maps agree but for some keys. *)
Definition agreeOff (ks : list string) (m1 m2 : gmap string string) : Prop :=
  ∀ k, k ∉ ks -> m1 !! k = m2 !! k.

Lemma applyEvents_agree ks es : ∀ m1 m2,
  agreeOff ks m1 m2 -> agreeOff ks (applyEvents es m1) (applyEvents es m2).
Proof.
  induction es as [|e es IH]; intros m1 m2 H; [done|]. apply IH. intros k Hk. unfold applyEvent.
  destruct (Ev_Type e); [by apply H|..]; rewrite ?lookup_insert, ?lookup_delete; case_decide; auto.
Qed.

Lemma agreeOff_trans ks m1 m2 m3 : agreeOff ks m1 m2 -> agreeOff ks m2 m3 -> agreeOff ks m1 m3.
Proof. intros H1 H2 k Hk. by rewrite H1, H2. Qed.
Lemma agreeOff_sub ks ks' m1 m2 : ks ⊆ ks' -> agreeOff ks m1 m2 -> agreeOff ks' m1 m2.
Proof. intros Hs H k Hk. apply H. set_solver. Qed.
Lemma agreeOff_nil m1 m2 : agreeOff [] m1 m2 <-> m1 = m2.
Proof. split; [|by intros -> ? ?]. intros H. apply map_eq. intros k. apply H, not_elem_of_nil. Qed.

(** An operation type other than the four of the API. *)
Definition unknownOp (op : TxnOp) : Prop :=
  match Op_Op op with TxnOpOther _ => True | _ => False end.
#[export] Instance unknownOp_dec op : Decision (unknownOp op).
Proof. unfold unknownOp. destruct (Op_Op op); apply _. Defined.

(** The keys of a command's operations of unknown type, and of a log's. *)
Definition unknownKeys (cmd : Command) : list string :=
  match TxnIn cmd with
  | Some t => Op_Key <$> filter unknownOp (Success t ++ Failure t)
  | None => []
  end.
Definition strayKeys (cmds : list Command) : list string := cmds ≫= unknownKeys.

(** A command as the HTTP handlers and the expiry loop build it. *)
Record built (cmd : Command) : Prop := {
  built_submitted : submitted cmd;
  built_pairs : ResultPairs cmd = None }.

(** ** Transactions *)

Lemma txnEvents_zip rev d branch i results :
  length results = length (drop i branch) ->
  txnEvents rev d branch (Z.of_nat i) results =
    Ret (mjoin (zip_with (txnOpEvent rev d) (drop i branch) results)).
Proof.
  revert i. induction results as [|res results IH]; intros i Hlen; simpl.
  { by destruct (drop i branch). }
  destruct (branch !! i) as [op|] eqn:Hop.
  2: { apply lookup_ge_None in Hop. rewrite drop_ge in Hlen by done. done. }
  erewrite slice_get_Some; [|lia|by rewrite Nat2Z.id]. cbn [go_bind].
  rewrite (drop_S _ _ _ Hop) in *. simpl in Hlen.
  replace (Z.of_nat i + 1) with (Z.of_nat (S i)) by lia. rewrite IH by lia. done.
Qed.

Lemma length_execTxnOps ops d : length (execTxnOps ops d).1 = length ops.
Proof.
  revert d. induction ops as [|op ops IH]; intros d; [done|].
  rewrite execTxnOps_cons. simpl. by rewrite IH.
Qed.

(** An operation touches its own key only. *)
Lemma data_detach k d : data (detachKeyFromLease k d) = data d.
Proof. unfold detachKeyFromLease. by repeat case_match. Qed.
Lemma data_attach k id d : data (attachKeyToLease k id d) = data d.
Proof. unfold attachKeyToLease. case_match; simpl; by rewrite data_detach. Qed.

Lemma data_put k v id d : data (putLocked k v id d).2 = <[k := v]> (data d).
Proof.
  unfold putLocked; simpl. case_bool_decide; rewrite ?data_attach; simpl; by rewrite data_detach.
Qed.
Lemma data_deleteLocked k d : data (deleteLocked k d).2 = delete k (data d).
Proof. unfold deleteLocked; simpl. by rewrite data_detach. Qed.
Lemma data_append k v d :
  data (appendLocked k v d).2 = <[k := (Get k d).1 +:+ v]> (data d).
Proof. unfold appendLocked, Get. by destruct (comma_ok _). Qed.
Lemma data_cas k c v d :
  data (casLocked k c v d).2 =
    if decide (data d !! k = Some c) then <[k := v]> (data d) else data d.
Proof.
  unfold casLocked. destruct (data d !! k) as [pv|]; simpl; [|done].
  case_bool_decide; case_decide; done || congruence.
Qed.

(** The map [m] of a watcher in the middle of a transaction: right for every key
    outside [ks], or already holding the value the key ends up with. *)
Definition ahead (ks : list string) (d final : DataStore) (m : gmap string string) : Prop :=
  ∀ k, k ∉ ks -> m !! k = data d !! k ∨ (m !! k = Some (Get k final).1 ∧ is_Some (data d !! k)).

Lemma ahead_done ks d m : ahead ks d d m -> agreeOff ks m (data d).
Proof.
  intros H k Hk. destruct (H k Hk) as [?|[Hm [v Hv]]]; [done|].
  rewrite Hm. unfold Get. by rewrite Hv.
Qed.

Lemma ahead_op ks rev op d final m :
  (unknownOp op -> Op_Key op ∈ ks) -> ahead ks d final m ->
  ahead ks (txnOpEffect op d).2 final
    (applyEvents (txnOpEvent rev final op (execTxnOp op d).1) m).
Proof.
  intros Hop H. rewrite execTxnOp_effect. unfold txnOpEffect, txnOpEvent, unknownOp, ahead in *.
  destruct (Op_Op op) eqn:Eop; intros k Hks; specialize (H k Hks).
  - rewrite data_put. simpl. unfold applyEvents, applyEvent; simpl.
    rewrite !lookup_insert. case_decide; [by left|done].
  - rewrite data_deleteLocked. simpl. unfold applyEvents, applyEvent; simpl.
    rewrite !lookup_delete. case_decide; [by left|done].
  - rewrite data_cas. unfold casLocked. simpl.
    destruct (data d !! Op_Key op) as [pv|] eqn:E; simpl; [|done].
    case_bool_decide as Hpv; case_decide as Hc; try congruence; [|done].
    unfold applyEvents, applyEvent; simpl. rewrite !lookup_insert.
    case_decide as Hk; [|done]. subst. right. eauto.
  - rewrite data_append. unfold applyEvents, applyEvent; simpl. rewrite !lookup_insert.
    case_decide; [|done]. subst. right. eauto.
  - simpl. unfold applyEvents, applyEvent; simpl. rewrite lookup_insert.
    case_decide as Hk; [|done]. subst. by destruct Hks; apply Hop.
Qed.

Lemma ahead_ops ks rev ops d final m :
  (∀ op, op ∈ ops -> unknownOp op -> Op_Key op ∈ ks) -> ahead ks d final m ->
  ahead ks (execTxnOps ops d).2 final
    (applyEvents (mjoin (zip_with (txnOpEvent rev final) ops (execTxnOps ops d).1)) m).
Proof.
  intros Hops. revert d m. induction ops as [|op ops IH]; intros d m H; [done|].
  rewrite execTxnOps_cons. cbn [fst snd zip_with mjoin list_join].
  unfold applyEvents. rewrite fold_left_app. apply IH; [intros ? ?; apply Hops; by right|].
  rewrite (execTxnOp_effect op d) at 1. apply ahead_op; [|done]. apply Hops. by left.
Qed.

(** ** Leases *)

Lemma applyEvents_delete rev keys m k :
  applyEvents (deleteEvent rev <$> keys) m !! k = if decide (k ∈ keys) then None else m !! k.
Proof.
  unfold applyEvents. revert m. induction keys as [|x keys IH]; intros m; [done|].
  cbn [fmap list_fmap fold_left]. rewrite IH. unfold applyEvent; simpl. rewrite lookup_delete.
  repeat case_decide; set_solver.
Qed.

Lemma data_revoke ord id d k :
  data (RevokeLease ord id d).2 !! k =
    if decide (k ∈ (RevokeLease ord id d).1) then None else data d !! k.
Proof.
  destruct (leases d !! id) as [l|] eqn:E.
  - destruct (RevokeLease_lookup ord id l d E) as (_ & _ & -> & _).
    unfold RevokeLease. rewrite E. cbn [fst]. apply decide_ext.
    by rewrite elem_of_visit, elem_of_elements.
  - unfold RevokeLease. by rewrite E.
Qed.

(** [d] is [d0] without the keys of [pairs]. *)
Definition without (d0 : DataStore) (pairs : gmap string string) (d : DataStore) : Prop :=
  ∀ k, data d !! k = if decide (is_Some (pairs !! k)) then None else data d0 !! k.

Lemma without_revoke ord id d0 pairs d :
  without d0 pairs d ->
  without d0 (addDeleted (RevokeLease ord id d).1 pairs) (RevokeLease ord id d).2.
Proof.
  intros H k. rewrite data_revoke, lookup_addDeleted, H.
  repeat case_decide; try done; exfalso; eauto.
Qed.

Lemma without_expire ord ids d0 pairs d :
  without d0 (default ∅ pairs) d ->
  without d0 (default ∅ (expireLeases ord ids pairs d).1) (expireLeases ord ids pairs d).2.
Proof.
  revert pairs d. induction ids as [|id ids IH]; intros pairs d H; [done|].
  cbn [expireLeases]. pose proof (without_revoke ord id _ _ _ H) as Hr.
  destruct (RevokeLease ord id d) as [ks d1]. by apply IH.
Qed.

Lemma without_start d : without d ∅ d.
Proof. intros k. by rewrite lookup_empty. Qed.

(** Deleting the keys of [pairs], in whatever order they are visited. *)
Lemma without_events ord rev d0 pairs d :
  without d0 pairs d ->
  applyEvents (deleteEvent rev <$> (visit ord (map_to_list pairs)).*1) (data d0) = data d.
Proof.
  intros H. apply map_eq. intros k. rewrite applyEvents_delete, H. apply decide_ext.
  rewrite list_elem_of_fmap. split.
  - intros ([k' v] & -> & Hin). rewrite elem_of_visit in Hin.
    apply elem_of_map_to_list in Hin. eauto.
  - intros [v Hv]. exists (k, v). split; [done|]. by rewrite elem_of_visit, elem_of_map_to_list.
Qed.

(** ** One command *)

(** What the events of a fresh command are computed from. *)
Ltac fresh_events Hs Hd H He :=
  let Hf := fresh "Hf" in
  destruct Hs as (_ & _ & Hf);
  destruct (apply_fresh _ _ _ _ _ Hf Hd H) as (? & ? & He & -> & _ & _ & ->); clear H;
  unfold commandEvents; simpl;
  destruct (exec_inputs _ _ _ _ _ He) as [(-> & -> & -> & -> & -> & _) ->]; rewrite Hf;
  unfold execCommand, Put, Append, CAS in He.

Lemma events_other env cmd r cmd' r' :
  built cmd -> Kind cmd ≠ CommandTxn -> isDuplicate cmd r = false ->
  applyCommand env cmd r = Ret (cmd', r') ->
  ∃ es, commandEvents (env_ord env) cmd' (ds r') = Ret es ∧
    applyEvents es (data (ds r)) = data (ds r').
Proof.
  intros [Hs Hpairs] Hk Hd H. fresh_events Hs Hd H He.
  destruct (Kind cmd); simplify_eq; try by eexists.
  - pose proof (data_put (Key cmd) (Value cmd) (LeaseID cmd) (ds r)) as Hd'.
    destruct (putLocked _ _ _ _) as [res d']; simplify_eq/=. by eexists.
  - pose proof (data_append (Key cmd) (Value cmd) (ds r)) as Hd'.
    destruct (appendLocked _ _ _) as [res d']; simplify_eq/=.
    eexists. split; [done|]. unfold Get. by rewrite Hd', lookup_insert_eq.
  - pose proof (data_cas (Key cmd) (CompareValue cmd) (Value cmd) (ds r)) as Hd'.
    assert (Hres: (casLocked (Key cmd) (CompareValue cmd) (Value cmd) (ds r)).1 =
                  comma_ok (data (ds r) !! Key cmd))
      by (unfold casLocked; by destruct (comma_ok _)).
    destruct (casLocked _ _ _ _) as [res d']; simplify_eq/=.
    destruct (data (ds r) !! Key cmd) as [pv|] eqn:E; simpl in *; [|by eexists].
    case_bool_decide; case_decide; try congruence; eexists; (split; [done|]); [|done].
    simpl. unfold applyEvent, Get; simpl. by rewrite Hd', lookup_insert_eq.
  - unfold GrantLease in He. simplify_eq/=. by eexists.
  - unfold KeepAliveLease in He. destruct (leases (ds r) !! LeaseID cmd); simplify_eq/=; by eexists.
  - pose proof (without_revoke (env_ord env) (LeaseID cmd) _ _ _ (without_start (ds r))) as Hw.
    destruct (RevokeLease _ _ _); simplify_eq/=. eexists. split; [done|]. by apply without_events.
  - rewrite Hpairs in He.
    pose proof (without_expire (env_ord env) (LeaseIDs cmd) _ None _ (without_start (ds r))) as Hw.
    destruct (expireLeases _ _ _ _); simplify_eq/=. eexists. split; [done|]. by apply without_events.
Qed.

Lemma events_txn env cmd r cmd' r' :
  built cmd -> Kind cmd = CommandTxn -> isDuplicate cmd r = false ->
  applyCommand env cmd r = Ret (cmd', r') ->
  ∃ es, commandEvents (env_ord env) cmd' (ds r') = Ret es ∧
    agreeOff (unknownKeys cmd) (applyEvents es (data (ds r))) (data (ds r')).
Proof.
  intros [Hs Hpairs] Hk Hd H. unfold unknownKeys. fresh_events Hs Hd H He. rewrite Hk in *.
  destruct (TxnIn cmd) as [t|]; [|done]. rewrite Txn_eq in He. simplify_eq/=.
  set (branch := if evalConditions (Conditions t) (ds r) then Success t else Failure t).
  set (final := (execTxnOps branch (ds r)).2).
  pose proof (txnEvents_zip (currentRevision r') final branch 0 (execTxnOps branch (ds r)).1) as Hz.
  rewrite length_execTxnOps, drop_0 in Hz. change (Z.of_nat 0) with 0 in Hz.
  rewrite Hz by done. eexists. split; [done|].
  apply (ahead_done _ final), ahead_ops; [|by intros k; left].
  intros op Hin Hu. apply list_elem_of_fmap. exists op. split; [done|]. apply list_elem_of_filter. split; [done|].
  apply elem_of_app. unfold branch in Hin. destruct (evalConditions _ _); auto.
Qed.

Lemma events_describe env cmd r cmd' r' :
  built cmd -> isDuplicate cmd r = false -> applyCommand env cmd r = Ret (cmd', r') ->
  ∃ es, commandEvents (env_ord env) cmd' (ds r') = Ret es ∧
    agreeOff (unknownKeys cmd) (applyEvents es (data (ds r))) (data (ds r')).
Proof.
  intros Hb Hd H. destruct (decide (Kind cmd = CommandTxn)); [by eapply events_txn|].
  destruct (events_other env cmd r cmd' r') as (es & Hes & <-); [done..|]. exists es. by split; [|intros ? ?].
Qed.

(** Every event of a command carries the command's revision. *)
Lemma events_revision ord cmd d es :
  commandEvents ord cmd d = Ret es -> Forall (λ e, Ev_Revision e = Revision cmd) es.
Proof.
  assert (Htxn: ∀ branch results i es, txnEvents (Revision cmd) d branch i results = Ret es ->
    Forall (λ e, Ev_Revision e = Revision cmd) es).
  { intros branch results. induction results as [|res results IH]; intros i es' H; simpl in H.
    { simplify_eq. constructor. }
    destruct (slice_get branch i) as [op| |]; simpl in H; [|done..].
    destruct (txnEvents (Revision cmd) d branch (i + 1) results) as [es1| |] eqn:E;
      simpl in H; [|done..]. simplify_eq.
    apply Forall_app. split; [|by eapply IH]. unfold txnOpEvent.
    repeat case_match; by repeat constructor. }
  unfold commandEvents. intros H. repeat case_match; simplify_eq; try (by repeat constructor);
    try (by eapply Htxn); apply Forall_fmap, Forall_true; done.
Qed.

(** Only mutations have events. *)
Lemma events_mutation ord cmd d e es :
  commandEvents ord cmd d = Ret es -> e ∈ es -> effectiveMutation cmd.
Proof.
  unfold commandEvents, effectiveMutation. intros H He.
  destruct (IsDuplicate cmd); [simplify_eq; by apply elem_of_nil in He|].
  split; [|done]. destruct (Kind cmd); simplify_eq; try (by apply elem_of_nil in He);
    by apply isMutation_kinds.
Qed.

(** ** Along a log *)

Fixpoint eventLog (log : list (Env * Command)) (r : replicated)
    : go (list WatchEvent * replicated) :=
  match log with
  | [] => Ret ([], r)
  | (env, cmd) :: rest =>
      let! p := applyCommand env cmd r in
      let! es := commandEvents (env_ord env) p.1 (ds p.2) in
      let! q := eventLog rest p.2 in
      Ret (es ++ q.1, q.2)
  end.

Lemma command_events env cmd r :
  built cmd -> 0 <= currentRevision r < int64_max ->
  ∃ cmd' r' es, applyCommand env cmd r = Ret (cmd', r') ∧
    commandEvents (env_ord env) cmd' (ds r') = Ret es ∧
    agreeOff (unknownKeys cmd) (applyEvents es (data (ds r))) (data (ds r')) ∧
    currentRevision r <= currentRevision r' <= currentRevision r + 1 ∧
    Forall (λ e, currentRevision r < Ev_Revision e ∧ Ev_Revision e = currentRevision r') es.
Proof.
  intros Hb Hr. pose proof (built_submitted _ Hb) as Hs.
  destruct (apply_total env cmd r Hs) as (cmd' & r' & H).
  destruct (apply_revision env cmd r cmd' r' Hs Hr H) as (Hrev & Hcur & _ & Hdup).
  assert (∃ es, commandEvents (env_ord env) cmd' (ds r') = Ret es ∧
    agreeOff (unknownKeys cmd) (applyEvents es (data (ds r))) (data (ds r'))) as (es & Hes & Happ).
  { destruct (isDuplicate cmd r) eqn:Hd; [|by eapply events_describe].
    rewrite apply_duplicate in H by done. simplify_eq. exists []. split; [|done].
    unfold commandEvents. by rewrite Hdup. }
  exists cmd', r', es. split_and!; [done|done|done|case_decide; lia|case_decide; lia|].
  pose proof (events_revision _ _ _ _ Hes) as Hall. rewrite Forall_forall in *. intros e He.
  specialize (Hall e He). pose proof (events_mutation _ _ _ _ _ Hes He).
  rewrite decide_True in Hcur by done. lia.
Qed.

Lemma eventLog_correct log r :
  Forall (λ p, built p.2) log -> 0 <= currentRevision r ->
  currentRevision r + Z.of_nat (length log) <= int64_max ->
  ∃ es r', eventLog log r = Ret (es, r') ∧
    agreeOff (strayKeys log.*2) (applyEvents es (data (ds r))) (data (ds r')) ∧
    currentRevision r <= currentRevision r' <= currentRevision r + Z.of_nat (length log) ∧
    Forall (λ e, currentRevision r < Ev_Revision e <= currentRevision r') es ∧
    StronglySorted Z.le (Ev_Revision <$> es).
Proof.
  intros Hlog. revert r. induction Hlog as [|[env cmd] log Hdoc Hlog IH]; intros r H0 Hfit.
  { exists [], r. simpl. split_and!; try done; try lia; constructor. }
  cbn [length] in Hfit. simpl in Hdoc.
  destruct (command_events env cmd r Hdoc) as (cmd' & r1 & es1 & H1 & H2 & H3 & H4 & H5); [lia|].
  destruct (IH r1) as (es2 & r2 & G1 & G2 & G3 & G4 & G5); [lia|lia|].
  exists (es1 ++ es2), r2. cbn [eventLog]. rewrite H1. cbn [go_bind fst snd].
  rewrite H2. cbn [go_bind]. rewrite G1. cbn [go_bind fst snd length].
  split_and!; [done| |lia|lia|..].
  - unfold applyEvents. rewrite fold_left_app. fold (applyEvents es1 (data (ds r))).
    cbn [strayKeys mbind list_bind fmap list_fmap snd]. eapply agreeOff_trans.
    + apply applyEvents_agree. eapply agreeOff_sub; [|exact H3]. intros k Hk. apply elem_of_app. by left.
    + eapply agreeOff_sub; [|exact G2]. intros k Hk. apply elem_of_app. by right.
  - apply Forall_app. split; eapply Forall_impl; [exact H5| |exact G4|]; simpl; lia.
  - rewrite fmap_app. apply StronglySorted_app. split_and!; [|..|done].
    + intros x y (e1 & -> & He1)%list_elem_of_fmap (e2 & -> & He2)%list_elem_of_fmap.
      rewrite Forall_forall in H5, G4. specialize (H5 _ He1). specialize (G4 _ He2). lia.
    + clear -H5. induction H5 as [|e es [_ He] Hes IH]; simpl; constructor; [done|].
      apply Forall_fmap. eapply Forall_impl; [exact Hes|]. simpl. lia.
Qed.

Lemma eventLog_app l1 l2 r :
  eventLog (l1 ++ l2) r =
    let! p := eventLog l1 r in let! q := eventLog l2 p.2 in Ret (p.1 ++ q.1, q.2).
Proof.
  revert r. induction l1 as [|[env cmd] l1 IH]; intros r; simpl.
  - by destruct (eventLog l2 r) as [[]| |].
  - destruct (applyCommand env cmd r) as [[c s]| |]; simpl; [|done..].
    destruct (commandEvents _ _ _); simpl; [|done..]. rewrite IH.
    destruct (eventLog l1 s) as [[? t]| |]; simpl; [|done..].
    destruct (eventLog l2 t) as [[]| |]; simpl; [|done..]. by rewrite app_assoc.
Qed.

(** ** Properties *)

(** C4 (refinement).  The watch stream describes the store: for every log of commands as the
    handlers and the expiry loop build them, applying the events of all
    commands in order to the empty map gives the data of the store at every key
    but those that a transaction of the log names in an operation of unknown type,
    and so the whole data when there is none; revisions do not decrease along
    the stream. *)
Theorem watch_stream_describes_store log :
  Forall (λ p, built p.2) log -> Z.of_nat (length log) <= int64_max ->
  ∃ es r, eventLog log newReplicated = Ret (es, r) ∧
    (∀ k, k ∉ strayKeys log.*2 -> applyEvents es ∅ !! k = data (ds r) !! k) ∧
    (strayKeys log.*2 = [] -> applyEvents es ∅ = data (ds r)) ∧
    StronglySorted Z.le (Ev_Revision <$> es).
Proof.
  intros Hlog Hlen. destruct (eventLog_correct log newReplicated Hlog) as (es & r & H1 & H2 & _ & _ & H3);
    [done|simpl; lia|]. exists es, r. split_and!; [done|exact H2| |done].
  intros Hk. rewrite Hk in H2. by apply agreeOff_nil.
Qed.

Lemma sample_built env : Forall (λ p, built p.2) (sample_log env).
Proof. repeat constructor; simpl; done. Qed.

(** A transaction with an operation of type 9 on a key that does not exist. *)
Definition stray_txn : Command :=
  mkCommand CommandTxn "" "" "" "" false None 0
    (Some (mkTxnData [] [mkTxnOp (TxnOpOther 9) "s" "x" "" 0; mkTxnOp TxnOpPut "t" "y" "" 0] [])) None
    0 0 [] 0 "" 1 7 3 false.
Definition stray_log : list (Env * Command) := sample_log env0 ++ [(env0, stray_txn)].

Lemma stray_built : Forall (λ p, built p.2) stray_log.
Proof. apply Forall_app. split; [apply sample_built|]. by repeat constructor. Qed.

Lemma watch_stream_describes_store_witness :
  ∃ es r, eventLog stray_log newReplicated = Ret (es, r) ∧
    applyEvents es ∅ !! "t" = data (ds r) !! "t" ∧
    applyEvents es ∅ !! "s" = Some "x" ∧ data (ds r) !! "s" = None.
Proof.
  destruct (watch_stream_describes_store stray_log stray_built) as (es & r & He & Hk & _);
    [vm_compute; discriminate|].
  exists es, r. split; [done|]. split.
  - apply Hk. change (strayKeys stray_log.*2) with ["s"]. by intros ?%list_elem_of_singleton.
  - assert (Hv: (λ g, match g with Ret p => (applyEvents p.1 ∅ !! "s", data (ds p.2) !! "s")
      | _ => (None, None) end) (eventLog stray_log newReplicated) = (Some "x", None)) by (vm_compute; reflexivity).
    rewrite He in Hv. cbv beta iota in Hv. cbn [fst snd] in Hv. clear He Hk.
    split; [exact (f_equal fst Hv)|exact (f_equal snd Hv)].
Defined.


