(* ===== verification/Codec.v ===== *)
(** * Byte encodings: what the code uses of [encoding/gob] and [encoding/json]

    A client of this file sees an encoder that may fail, a decoder that may
    fail, and the documented round trip on the values that the format can
    represent ([representable]; JSON, for one, replaces bytes that are not valid
    UTF-8).  [Encoded] gives an implementation for every countable type, so the
    interface has models. *)

From S2P Require Import Prelude.
From Stdlib Require Import Init.Byte.

Definition bytes : Type := list Byte.byte.

(** ** The interface *)

Class Codec (A : Type) := mkCodec {
  marshal : A -> option bytes;
  unmarshal : bytes -> option A }.

Class CodecLaws (A : Type) `{Codec A} (representable : A -> Prop) : Prop :=
  codec_roundtrip : ∀ a, representable a -> ∃ b, marshal a = Some b ∧ unmarshal b = Some a.

(** ** An implementation: the binary digits of the number of a value *)

Module Encoded.

Fixpoint positive_bytes (p : positive) : bytes :=
  match p with
  | xH => []
  | xO q => x00 :: positive_bytes q
  | xI q => x01 :: positive_bytes q
  end.

Fixpoint bytes_positive (b : bytes) : option positive :=
  match b with
  | [] => Some xH
  | x00 :: rest => xO <$> bytes_positive rest
  | x01 :: rest => xI <$> bytes_positive rest
  | _ :: _ => None
  end.

Lemma bytes_positive_bytes p : bytes_positive (positive_bytes p) = Some p.
Proof. induction p as [p IH|p IH|]; simpl; [by rewrite IH..|done]. Qed.

Definition countable_codec (A : Type) `{Countable A} : Codec A :=
  mkCodec A (λ a, Some (positive_bytes (encode a)))
    (λ b, bytes_positive b ≫= decode).

Lemma countable_codec_laws (A : Type) `{Countable A} (P : A -> Prop) :
  @CodecLaws A (countable_codec A) P.
Proof.
  intros a _. eexists. split; [done|]. simpl.
  rewrite bytes_positive_bytes. simpl. apply decode_encode.
Qed.

End Encoded.
