(* ===== verification/Snapshot.v ===== *)
(** * Snapshots of the replicated state

    [kvSnapshot], [encodeSnapshot], [decodeSnapshot] and the part of
    [handleSnapshot] that restores the state (src/kvservice/kvservice.go), over
    any encoding that satisfies [CodecLaws].  Restoring a snapshot gives back the
    replicated state it was taken from, so a log may be cut at a snapshot. *)

From S2P Require Import Prelude GoLib Api DataStore StoreSpec Command StateMachine Replication Codec.

Record kvSnapshot := mkKvSnapshot {
  Store : gmap string string;
  LastRequestIDPerClient : gmap Z Z;
  CurrentRevision : Z;
  Leases : gmap Z leaseSnapshot;
  KeyLease : gmap string Z;
  NextLeaseID : Z }.

(** The value that [encodeSnapshot] encodes. *)
Definition takeSnapshot (ord : MapOrder) (r : replicated) : kvSnapshot :=
  let '(ls, kl, nextLeaseID) := GetLeaseSnapshot ord (ds r) in
  mkKvSnapshot (CopyAll (ds r)) (lastRequestIDPerClient r) (currentRevision r) ls kl nextLeaseID.

Definition encodeSnapshot `{Codec kvSnapshot} (ord : MapOrder) (r : replicated) : option bytes :=
  marshal (takeSnapshot ord r).

Definition decodeSnapshot `{Codec kvSnapshot} (data : bytes) : option kvSnapshot :=
  unmarshal data.

(** The assignments of [handleSnapshot] to the replicated state. *)
Definition restoreSnapshot (snap : kvSnapshot) (r : replicated) : replicated :=
  let d1 := RestoreAll (Store snap) (ds r) in
  let d2 := RestoreFromLeaseSnapshot (Leases snap) (KeyLease snap) (NextLeaseID snap) d1 in
  mkReplicated d2 (LastRequestIDPerClient snap) (CurrentRevision snap).

(** ** Restoring is the inverse of taking *)

Lemma unsnap_snap ord l : unsnapLease (snapLease ord l) = l.
Proof.
  destruct l as [i t e ks]. unfold unsnapLease, snapLease. simpl. f_equal.
  apply leibniz_equiv. intros x. rewrite elem_of_list_to_set, elem_of_visit. apply elem_of_elements.
Qed.

Lemma restore_take ord r r' : restoreSnapshot (takeSnapshot ord r) r' = r.
Proof.
  destruct r as [[m ls kl n] reqs rev]. unfold restoreSnapshot, takeSnapshot. simpl.
  unfold RestoreFromLeaseSnapshot, RestoreAll, CopyAll. simpl. do 2 f_equal.
  rewrite <-map_fmap_compose. rewrite <-(map_fmap_id ls) at 2.
  apply map_fmap_ext. intros. apply unsnap_snap.
Qed.

(** ** A concrete encoding *)

#[export] Instance leaseSnapshot_eq_dec : EqDecision leaseSnapshot.
Proof. solve_decision. Defined.
#[export] Instance leaseSnapshot_countable : Countable leaseSnapshot.
Proof.
  apply (inj_countable' (λ s, (snap_ID s, snap_TTL s, snap_ExpiresAt s, snap_Keys s))
    (λ p, let '(i, t, e, ks) := p in mkLeaseSnapshot i t e ks)).
  by intros [].
Defined.
#[export] Instance kvSnapshot_eq_dec : EqDecision kvSnapshot.
Proof. solve_decision. Defined.
#[export] Instance kvSnapshot_countable : Countable kvSnapshot.
Proof.
  apply (inj_countable'
    (λ s, (Store s, LastRequestIDPerClient s, CurrentRevision s, Leases s, KeyLease s, NextLeaseID s))
    (λ p, let '(m, l, c, ls, kl, n) := p in mkKvSnapshot m l c ls kl n)).
  by intros [].
Defined.

Definition sample_codec : Codec kvSnapshot := Encoded.countable_codec kvSnapshot.

(** ** Properties *)

Section snapshots.
Context `{Codec kvSnapshot} {representable : kvSnapshot -> Prop} `{!CodecLaws kvSnapshot representable}.

(** Encoding the state of one node and restoring it on another,
    whatever state that node was in, gives exactly the state of the first:
    data, leases with their key sets, request table, revision and lease
    counter. *)
Theorem snapshot_roundtrip ord r r' :
  representable (takeSnapshot ord r) ->
  ∃ data snap, encodeSnapshot ord r = Some data ∧ decodeSnapshot data = Some snap ∧
    restoreSnapshot snap r' = r.
Proof.
  intros Hr. destruct (codec_roundtrip _ Hr) as (b & Hm & Hu).
  exists b, (takeSnapshot ord r). split_and!; [done..|apply restore_take].
Qed.

(** C13 (equivalence).  The log may be compacted: a node that restores a snapshot
    taken by another node after the commands of [log1] and then applies [log2]
    returns the results, and ends in a state equivalent to that, of a third
    node that applied the whole log itself with its own clock. *)
Theorem compaction_sound ord log1 log2 log cmds1 r1 r0 :
  log.*2 = log1.*2 ++ log2.*2 ->
  applyLog log1 newReplicated = Ret (cmds1, r1) ->
  representable (takeSnapshot ord r1) ->
  ∃ data snap, encodeSnapshot ord r1 = Some data ∧ decodeSnapshot data = Some snap ∧
    same_outcome (let! q := applyLog log2 (restoreSnapshot snap r0) in Ret (cmds1 ++ q.1, q.2))
      (applyLog log newReplicated).
Proof.
  intros Hlog H1 Hr. destruct (codec_roundtrip _ Hr) as (b & Hm & Hu).
  exists b, (takeSnapshot ord r1). split_and!; [done..|]. rewrite restore_take.
  assert ((let! q := applyLog log2 r1 in Ret (cmds1 ++ q.1, q.2)) =
    applyLog (log1 ++ log2) newReplicated) as -> by (by rewrite applyLog_app, H1).
  apply applyLog_equiv; [|done]. by rewrite fmap_app.
Qed.

End snapshots.

Lemma snapshot_roundtrip_witness :
  ∃ data snap, encodeSnapshot (H := sample_codec) reversed
      (mkReplicated (mkDataStore {["a" := "1"]} {[7 := mkLease 7 5 99 {["a"]}]} {["a" := 7]} 7)
         {[1 := 3]} 4) = Some data ∧
    decodeSnapshot (H := sample_codec) data = Some snap ∧
    restoreSnapshot snap newReplicated =
      mkReplicated (mkDataStore {["a" := "1"]} {[7 := mkLease 7 5 99 {["a"]}]} {["a" := 7]} 7)
         {[1 := 3]} 4.
Proof.
  apply (@snapshot_roundtrip sample_codec (λ _, True)
    (Encoded.countable_codec_laws kvSnapshot (λ _, True))). done.
Defined.

Lemma compaction_sound_witness :
  ∃ r1 data snap, encodeSnapshot (H := sample_codec) in_order r1 = Some data ∧
    decodeSnapshot (H := sample_codec) data = Some snap ∧
    ∃ cmds, same_outcome
      (let! q := applyLog (drop 3 (sample_log env0)) (restoreSnapshot snap newReplicated) in
       Ret (cmds ++ q.1, q.2))
      (applyLog (sample_log env0) newReplicated).
Proof.
  assert (Hs: Forall (λ p, submitted p.2) (take 3 (sample_log env0)))
    by (apply Forall_take, sample_submitted).
  destruct (applyLog_total _ newReplicated Hs) as (cmds & r1 & H1).
  destruct (@compaction_sound sample_codec (λ _, True)
    (Encoded.countable_codec_laws kvSnapshot (λ _, True)) in_order
    (take 3 (sample_log env0)) (drop 3 (sample_log env0)) (sample_log env0) cmds r1 newReplicated)
    as (data & snap & ? & ? & ?); [|done|done|].
  - by rewrite <-fmap_app, take_drop.
  - exists r1, data, snap. eauto.
Defined.
