(* ===== verification/Peers.v ===== *)
(** * The peer address book

    The fields [peers], [peerIDs] and [pendingJoinAddrs] of [KVService] and the
    methods that work on them (src/kvservice/kvservice.go): [loadPeers],
    [savePeers], [KnownPeers], [SetLocalHTTPAddr], [handleCommittedConfigChange],
    [PeerIDs].  The durable store is an interface of the Raft library: it is a
    class here, with the law the code relies on. *)

From S2P Require Import Prelude GoLib Codec.

(** ** The interface of the durable store *)

Class RaftStorage (S : Type) := mkRaftStorage {
  storage_Get : string -> S -> option bytes;
  storage_Set : string -> bytes -> S -> S }.

Class RaftStorageLaws (S : Type) `{RaftStorage S} : Prop := {
  get_set k v s : storage_Get k (storage_Set k v s) = Some v;
  get_set_ne k k' v s : k ≠ k' -> storage_Get k (storage_Set k' v s) = storage_Get k s }.

(** A map from keys to byte strings is a durable store. *)
#[export] Instance gmap_storage : RaftStorage (gmap string bytes) :=
  mkRaftStorage _ (λ k m, m !! k) (λ k v m, <[k := v]> m).
#[export] Instance gmap_storage_laws : RaftStorageLaws (gmap string bytes).
Proof. split; intros; simpl; [apply lookup_insert_eq|by apply lookup_insert_ne]. Qed.

(** ** State *)

Definition peerStoreKey : string := "kvpeers".

Record peerInfo := mkPeerAddrs { RaftAddr : string; HTTPAddr : string }.
#[export] Instance peerInfo_eq_dec : EqDecision peerInfo.
Proof. solve_decision. Defined.

Record persistedPeer := mkPersistedPeer {
  pp_ID : Z; pp_RaftAddr : string; pp_HTTPAddr : string }.
#[export] Instance persistedPeer_eq_dec : EqDecision persistedPeer.
Proof. solve_decision. Defined.
#[export] Instance persistedPeer_countable : Countable persistedPeer.
Proof.
  apply (inj_countable' (λ p, (pp_ID p, pp_RaftAddr p, pp_HTTPAddr p))
    (λ t, let '(i, r, h) := t in mkPersistedPeer i r h)). by intros [].
Defined.

Record peerBook := mkPeerBook {
  peers : gmap Z peerInfo;
  peerIDs : list Z;
  pendingJoinAddrs : gmap Z peerInfo }.

Definition newPeerBook (peerIds : list Z) : peerBook := mkPeerBook ∅ peerIds ∅.

Definition set_peers (b : peerBook) (m : gmap Z peerInfo) : peerBook :=
  mkPeerBook m (peerIDs b) (pendingJoinAddrs b).
Definition set_pending (b : peerBook) (m : gmap Z peerInfo) : peerBook :=
  mkPeerBook (peers b) (peerIDs b) m.

(** ** Operations *)

Inductive ConfigChangeType := AddNode | RemoveNode.
Record ConfigChangeEntry := mkConfigChange { cc_Type : ConfigChangeType; cc_NodeId : Z }.

Definition handleCommittedConfigChange (self : Z) (cc : ConfigChangeEntry) (b : peerBook)
    : peerBook :=
  let node := cc_NodeId cc in
  match cc_Type cc with
  | AddNode =>
      let b1 := match pendingJoinAddrs b !! node with
                | Some pi => mkPeerBook (<[node := pi]> (peers b)) (peerIDs b)
                               (delete node (pendingJoinAddrs b))
                | None => b
                end in
      if bool_decide (node ≠ self)
      then mkPeerBook (peers b1) (peerIDs b1 ++ [node]) (pendingJoinAddrs b1) else b1
  | RemoveNode =>
      mkPeerBook (delete node (peers b)) (filter (λ id, id ≠ node) (peerIDs b))
        (pendingJoinAddrs b)
  end.

Definition httpAddrOf (self : Z) (b : peerBook) : string :=
  match peers b !! self with Some pi => HTTPAddr pi | None => "" end.

Definition KnownPeers (b : peerBook) : gmap Z peerInfo := peers b.

Definition PeerIDs (b : peerBook) : list Z := peerIDs b.

Section storage.
Context {S : Type} `{RaftStorage S} `{Codec (list persistedPeer)}.

Definition persist (p : Z * peerInfo) : persistedPeer :=
  mkPersistedPeer p.1 (RaftAddr p.2) (HTTPAddr p.2).

(** The slice that [savePeers] encodes. *)
Definition storedPeers (ord : MapOrder) (b : peerBook) : list persistedPeer :=
  persist <$> visit ord (map_to_list (peers b)).

Definition savePeers (ord : MapOrder) (b : peerBook) (st : S) : S :=
  match marshal (storedPeers ord b) with
  | None => st
  | Some data => storage_Set peerStoreKey data st
  end.

Fixpoint loadStored (self : Z) (stored : list persistedPeer) (m : gmap Z peerInfo)
    : gmap Z peerInfo :=
  match stored with
  | [] => m
  | p :: rest =>
      loadStored self rest
        (if bool_decide (pp_ID p ≠ self)
         then <[pp_ID p := mkPeerAddrs (pp_RaftAddr p) (pp_HTTPAddr p)]> m else m)
  end.

Definition loadPeers (self : Z) (st : S) (b : peerBook) : peerBook :=
  match storage_Get peerStoreKey st with
  | None => b
  | Some data =>
      match unmarshal data with
      | None => b
      | Some stored => set_peers b (loadStored self stored (peers b))
      end
  end.

Definition SetLocalHTTPAddr (ord : MapOrder) (self : Z) (addr : string) (p : peerBook * S)
    : peerBook * S :=
  let b := set_peers p.1 (<[self := mkPeerAddrs "" addr]> (peers p.1)) in
  (b, savePeers ord b p.2).

(** A committed change and the [savePeers] it starts, when that goroutine has run. *)
Definition commitConfigChange (ord : MapOrder) (self : Z) (p : peerBook * S)
    (cc : ConfigChangeEntry) : peerBook * S :=
  let b := handleCommittedConfigChange self cc p.1 in (b, savePeers ord b p.2).

(** The peer book of a restarted process: [New], up to [loadPeers]. *)
Definition restart (self : Z) (peerIds : list Z) (st : S) : peerBook :=
  loadPeers self st (newPeerBook peerIds).

End storage.

(** ** Loading what was saved *)

Lemma lookup_loadStored self (l : list (Z * peerInfo)) m i :
  NoDup l.*1 ->
  loadStored self (persist <$> l) m !! i =
    if bool_decide (i = self) then m !! i
    else match list_to_map (M := gmap Z peerInfo) l !! i with Some pi => Some pi | None => m !! i end.
Proof.
  revert m. induction l as [|[j [ra ha]] l IH]; intros m Hnd; simpl.
  - rewrite lookup_empty. by case_match.
  - inversion Hnd as [|?? Hj Hnd']; subst. rewrite IH by done. clear IH.
    destruct (decide (i = self)) as [->|Hi].
    + rewrite !(bool_decide_eq_true_2 (self = self)) by done. case_bool_decide; [|done]. by rewrite lookup_insert_ne.
    + rewrite !(bool_decide_eq_false_2 (i = self)) by done. destruct (decide (i = j)) as [->|Hij].
      * rewrite lookup_insert_eq, (proj1 (not_elem_of_list_to_map _ _)) by done.
        rewrite bool_decide_eq_true_2 by done. by rewrite lookup_insert_eq.
      * rewrite (lookup_insert_ne (list_to_map l)) by done. case_match; [done|].
        case_bool_decide; [|done]. by rewrite lookup_insert_ne.
Qed.

Lemma loadStored_stored self ord b m :
  loadStored self (storedPeers ord b) m = delete self (peers b) ∪ m.
Proof.
  unfold storedPeers.
  assert (Hnd: NoDup (visit ord (map_to_list (peers b))).*1)
    by (rewrite visit_perm; apply NoDup_fst_map_to_list).
  apply map_eq. intros i. rewrite lookup_loadStored by done.
  rewrite (list_to_map_proper _ (map_to_list (peers b))), list_to_map_to_list
    by (done || apply visit_perm).
  rewrite lookup_union, lookup_delete.
  case_bool_decide; case_decide; simplify_eq; [by rewrite (left_id None _)|].
  destruct (peers b !! i), (m !! i); done.
Qed.

(** ** Config changes *)

(** What a sequence of committed changes says about a node: the last change
    that names it, if there is one. *)
Fixpoint lastChange (node : Z) (ccs : list ConfigChangeEntry) (acc : option ConfigChangeType)
    : option ConfigChangeType :=
  match ccs with
  | [] => acc
  | cc :: rest =>
      lastChange node rest (if bool_decide (cc_NodeId cc = node) then Some (cc_Type cc) else acc)
  end.

Definition applyChanges (self : Z) (ccs : list ConfigChangeEntry) (b : peerBook) : peerBook :=
  fold_left (λ b cc, handleCommittedConfigChange self cc b) ccs b.

(** Membership as the last change says, and as [P] says without one. *)
Definition memberBy (o : option ConfigChangeType) (P : Prop) : Prop :=
  match o with Some AddNode => True | Some RemoveNode => False | None => P end.

Lemma change_members self cc b node :
  node ≠ self ->
  node ∈ peerIDs (handleCommittedConfigChange self cc b) <->
  memberBy (if bool_decide (cc_NodeId cc = node) then Some (cc_Type cc) else None)
    (node ∈ peerIDs b).
Proof.
  intros Hself. destruct cc as [[] n]; unfold handleCommittedConfigChange; simpl.
  - repeat case_bool_decide; simplify_eq; simpl; case_match; simpl; set_solver.
  - case_bool_decide; simplify_eq; simpl; rewrite list_elem_of_filter; set_solver.
Qed.

Lemma lastChange_acc node ccs acc :
  lastChange node ccs acc = match lastChange node ccs None with Some c => Some c | None => acc end.
Proof.
  revert acc. induction ccs as [|cc ccs IH]; intros acc; simpl; [done|].
  rewrite IH. rewrite (IH (if bool_decide _ then Some _ else None)). repeat case_match; congruence.
Qed.

Lemma applyChanges_members self ccs b node :
  node ≠ self ->
  node ∈ peerIDs (applyChanges self ccs b) <->
  memberBy (lastChange node ccs None) (node ∈ peerIDs b).
Proof.
  intros Hself. revert b. induction ccs as [|cc ccs IH]; intros b; simpl; [done|].
  rewrite IH, (lastChange_acc _ _ (if bool_decide _ then _ else _)).
  destruct (lastChange node ccs None) as [[]|]; simpl; [done..|]. by apply change_members.
Qed.

Lemma applyChanges_self self ccs b :
  self ∉ peerIDs b -> self ∉ peerIDs (applyChanges self ccs b).
Proof.
  revert b. induction ccs as [|[[] n] ccs IH]; intros b Hb; simpl; [done|..]; apply IH;
    unfold handleCommittedConfigChange; simpl.
  - case_bool_decide; case_match; simpl; set_solver.
  - rewrite list_elem_of_filter. set_solver.
Qed.

(** The address book of a node that received no join request. *)
Lemma follower_peers self ccs b :
  pendingJoinAddrs b = ∅ ->
  peers (applyChanges self ccs b) ⊆ peers b ∧ pendingJoinAddrs (applyChanges self ccs b) = ∅.
Proof.
  revert b. induction ccs as [|[[] n] ccs IH]; intros b Hb; simpl; [done|..].
  - assert (Heq: peers (handleCommittedConfigChange self (mkConfigChange AddNode n) b) = peers b ∧
      pendingJoinAddrs (handleCommittedConfigChange self (mkConfigChange AddNode n) b) = ∅).
    { unfold handleCommittedConfigChange. simpl. rewrite Hb, lookup_empty. by case_bool_decide. }
    destruct Heq as [Hp Hq]. destruct (IH _ Hq) as [H1 H2]. rewrite Hp in H1. done.
  - destruct (IH (handleCommittedConfigChange self (mkConfigChange RemoveNode n) b)) as [H1 H2];
      [done|]. split; [|done]. etrans; [exact H1|]. simpl. apply delete_subseteq.
Qed.

(** ** Properties *)

Section peer_properties.
Context {S : Type} `{RaftStorage S} `{!RaftStorageLaws S} `{Codec (list persistedPeer)}.
Context {representable : list persistedPeer -> Prop}
  `{!CodecLaws (list persistedPeer) representable}.

Lemma restart_saved ord self ids b st :
  representable (storedPeers ord b) ->
  KnownPeers (restart self ids (savePeers ord b st)) = delete self (peers b).
Proof.
  intros Hr. destruct (codec_roundtrip _ Hr) as (data & Hm & Hu).
  unfold KnownPeers, restart, loadPeers, savePeers. rewrite Hm, get_set, Hu. simpl.
  by rewrite loadStored_stored, (right_id_L ∅ _).
Qed.

(** C38 (roundtrip).  The address book survives a restart, except for the node's own
    entry: after [savePeers], a new process with the same id and storage knows
    exactly the other peers, with their addresses; its own address is
    unknown, also when [SetLocalHTTPAddr] registered it. *)
Theorem address_book_survives_restart ord self ids b st :
  representable (storedPeers ord b) ->
  KnownPeers (restart self ids (savePeers ord b st)) = delete self (KnownPeers b) ∧
  httpAddrOf self (restart self ids (savePeers ord b st)) = "".
Proof.
  intros Hr. pose proof (restart_saved ord self ids b st Hr) as Hk. split; [done|]. unfold httpAddrOf. change (peers ?p) with (KnownPeers p).
  by rewrite Hk, lookup_delete_eq.
Qed.

(** After any sequence of committed changes, each saved before the next, a restarted
    process knows the peers that the changes left, except itself. *)
Theorem changes_survive_restart ord self ids ccs cc b st :
  (∀ l, representable l) ->
  let '(b', st') := fold_left (commitConfigChange ord self) (ccs ++ [cc]) (b, st) in
  b' = applyChanges self (ccs ++ [cc]) b ∧
  KnownPeers (restart self ids st') = delete self (KnownPeers b').
Proof.
  intros Hrep. rewrite fold_left_app. simpl.
  assert (Hb: ∀ ccs p, (fold_left (commitConfigChange ord self) ccs p).1 = applyChanges self ccs p.1).
  { clear. intros ccs. induction ccs as [|cc ccs IH]; intros p; [done|]. simpl. by rewrite IH. }
  split.
  - rewrite Hb. unfold applyChanges. by rewrite fold_left_app.
  - by apply restart_saved.
Qed.

End peer_properties.

Definition sample_book : peerBook :=
  mkPeerBook {[1 := mkPeerAddrs "" "h1"; 2 := mkPeerAddrs "r2" "h2"]} [2; 3] ∅.

Lemma address_book_survives_restart_witness :
  KnownPeers (restart (H0 := Encoded.countable_codec (list persistedPeer)) 1 [2; 3]
    (savePeers (H0 := Encoded.countable_codec (list persistedPeer)) reversed sample_book
       (∅ : gmap string bytes))) = {[2 := mkPeerAddrs "r2" "h2"]}.
Proof.
  destruct (@address_book_survives_restart _ _ gmap_storage_laws
    (Encoded.countable_codec (list persistedPeer)) (λ _, True)
    (Encoded.countable_codec_laws _ _) reversed 1 [2; 3] sample_book ∅) as [-> _]; [done|].
  by vm_compute.
Defined.

(** The Raft peer list after any sequence of committed config changes:
    another node is in it exactly when the last change that names it added it,
    or it was there and no change names it; the node itself is never added. *)
Theorem peer_list_follows_changes self ccs b :
  self ∉ PeerIDs b ->
  (self ∉ PeerIDs (applyChanges self ccs b)) ∧
  (∀ node, node ≠ self ->
    (node ∈ PeerIDs (applyChanges self ccs b) <->
     memberBy (lastChange node ccs None) (node ∈ PeerIDs b))).
Proof.
  intros Hs. split; [by apply applyChanges_self|]. intros. by apply applyChanges_members.
Qed.

Lemma peer_list_follows_changes_witness :
  4 ∈ PeerIDs (applyChanges 1 [mkConfigChange AddNode 4; mkConfigChange RemoveNode 2] sample_book) ∧
  2 ∉ PeerIDs (applyChanges 1 [mkConfigChange AddNode 4; mkConfigChange RemoveNode 2] sample_book).
Proof.
  destruct (peer_list_follows_changes 1 [mkConfigChange AddNode 4; mkConfigChange RemoveNode 2]
    sample_book) as [_ H]; [by vm_compute; set_solver|].
  rewrite !H by done. split; vm_compute; auto.
Defined.

(** A node that took no join request itself (a follower, or any node
    after a restart) never learns an address from a committed change: its
    address book only shrinks, while its Raft peer list gains the added
    nodes. *)
Theorem follower_learns_no_address self ccs b :
  pendingJoinAddrs b = ∅ -> KnownPeers (applyChanges self ccs b) ⊆ KnownPeers b.
Proof. intros Hb. by apply follower_peers. Qed.

Lemma follower_learns_no_address_witness :
  KnownPeers (applyChanges 2 [mkConfigChange AddNode 4] (newPeerBook [1; 3])) ⊆
    KnownPeers (newPeerBook [1; 3]).
Proof. by apply (follower_learns_no_address 2 [mkConfigChange AddNode 4] (newPeerBook [1; 3])). Defined.
