(* ===== verification/Messages.v ===== *)
(** * The JSON form of the program's messages

    The schema of every request and response of [src/api/api.go] and of the stored
    peer list, one member per field with the name and the [omitempty] of its tag.
    Each is lawful, so that the round trip of [Schema] applies to it.  [encode] and
    [decode] are the message as the bytes of an HTTP body. *)

From S2P Require Import Prelude GoLib Utf8 Json Schema Api Codec Peers.
From Stdlib Require Import Init.Byte.
From Stdlib Require String.

(** ** Enumerations: integers in JSON *)

Definition intValue {A : Type} (toInt : A -> Z) (ofInt : Z -> A) : JSONValue A := {|
  zero := ofInt 0;
  okJSON a := in_int64 (toInt a) ∧ ofInt (toInt a) = a;
  blank _ := True;
  levels := 0;
  isEmpty a := toInt a =? 0;
  toJSON _ _ a := JNumber (intLiteral (toInt a));
  fromJSON strict j a := let q := fromJSON strict j (toInt a) in (ofInt q.1, q.2) |}.

Lemma intValue_laws {A : Type} (toInt : A -> Z) (ofInt : Z -> A) :
  (∀ n, toInt (ofInt n) = n) -> @JSONLaws A (intValue toInt ofInt).
Proof.
  intros Hinv. split; cbn [okJSON toJSON fromJSON zero levels blank intValue].
  - intros _ _ a [Ha _]. by apply intText_literal.
  - done.
  - done.
  - by rewrite Hinv.
  - intros strict j a Hj [Ha _]. cbn [fst]. rewrite Hinv. split; [|done].
    by apply (@json_typed Z int_json int_laws).
  - intros nils name strict a a0 [Ha E] _.
    pose proof (@json_roundtrip Z int_json int_laws nils name strict (toInt a) (toInt a0) Ha I) as Hr.
    cbn [toJSON int_json] in Hr. rewrite Hr. simpl. by rewrite E.
Qed.

Ltac int_cases n :=
  repeat match goal with |- context [n =? ?k] => destruct (Z.eqb_spec n k) as [->|]; [done|] end; done.

Lemma statusInt_of n : statusInt (statusOfInt n) = n.
Proof. unfold statusOfInt. int_cases n. Qed.
Lemma compareInt_of n : compareInt (compareOfInt n) = n.
Proof. unfold compareOfInt. int_cases n. Qed.
Lemma txnOpInt_of n : txnOpInt (txnOpOfInt n) = n.
Proof. unfold txnOpOfInt. int_cases n. Qed.

#[export] Instance ResponseStatus_json : JSONValue ResponseStatus := intValue statusInt statusOfInt.
#[export] Instance ResponseStatus_laws : JSONLaws ResponseStatus := intValue_laws _ _ statusInt_of.
#[export] Instance CompareOp_json : JSONValue CompareOp := intValue compareInt compareOfInt.
#[export] Instance CompareOp_laws : JSONLaws CompareOp := intValue_laws _ _ compareInt_of.
#[export] Instance TxnOpType_json : JSONValue TxnOpType := intValue txnOpInt txnOpOfInt.
#[export] Instance TxnOpType_laws : JSONLaws TxnOpType := intValue_laws _ _ txnOpInt_of.

(** ** Structs *)

#[local] Abbreviation fld n A := (@Member A _ _ n false).
#[local] Abbreviation opt n A := (@Member A _ _ n true).

Lemma string_empty (s : string) : isEmpty s = true -> s = zero.
Proof. apply bool_decide_eq_true. Qed.
Lemma int_empty (z : Z) : isEmpty z = true -> z = zero.
Proof. apply Z.eqb_eq. Qed.

Ltac struct_laws :=
  split;
  [ by intros []
  | intros t; simpl in t; repeat match goal with x : _ * _ |- _ => destruct x | x : unit |- _ => destruct x end;
    reflexivity
  | simpl; split_and!; first [typeclasses eauto | discriminate | intros _; apply string_empty
    | intros _; apply int_empty | exact I]
  | by vm_compute
  | by vm_compute ].

#[export] Instance PutRequest_struct : Struct PutRequest := {|
  schemaOf := fld "Key" string $ fld "Value" string $ fld "ClientID" Z $ fld "RequestID" Z $
    fld "LeaseID" Z $ End;
  unpack r := (PutReq_Key r, (PutReq_Value r, (PutReq_ClientID r, (PutReq_RequestID r,
    (PutReq_LeaseID r, tt)))));
  pack '(x1, (x2, (x3, (x4, (x5, _))))) := mkPutRequest x1 x2 x3 x4 x5 |}.
#[export] Instance PutRequest_laws : StructLaws PutRequest.
Proof. struct_laws. Qed.

#[export] Instance PutResponse_struct : Struct PutResponse := {|
  schemaOf := fld "RespStatus" ResponseStatus $ fld "KeyFound" bool $ fld "PrevValue" string $
    fld "Revision" Z $ End;
  unpack r := (PutResp_RespStatus r, (PutResp_KeyFound r, (PutResp_PrevValue r,
    (PutResp_Revision r, tt))));
  pack '(x1, (x2, (x3, (x4, _)))) := mkPutResponse x1 x2 x3 x4 |}.
#[export] Instance PutResponse_laws : StructLaws PutResponse.
Proof. struct_laws. Qed.

#[export] Instance AppendRequest_struct : Struct AppendRequest := {|
  schemaOf := fld "Key" string $ fld "Value" string $ fld "ClientID" Z $ fld "RequestID" Z $ End;
  unpack r := (AppendReq_Key r, (AppendReq_Value r, (AppendReq_ClientID r, (AppendReq_RequestID
    r, tt))));
  pack '(x1, (x2, (x3, (x4, _)))) := mkAppendRequest x1 x2 x3 x4 |}.
#[export] Instance AppendRequest_laws : StructLaws AppendRequest.
Proof. struct_laws. Qed.

#[export] Instance AppendResponse_struct : Struct AppendResponse := {|
  schemaOf := fld "RespStatus" ResponseStatus $ fld "KeyFound" bool $ fld "PrevValue" string $
    fld "Revision" Z $ End;
  unpack r := (AppendResp_RespStatus r, (AppendResp_KeyFound r, (AppendResp_PrevValue r,
    (AppendResp_Revision r, tt))));
  pack '(x1, (x2, (x3, (x4, _)))) := mkAppendResponse x1 x2 x3 x4 |}.
#[export] Instance AppendResponse_laws : StructLaws AppendResponse.
Proof. struct_laws. Qed.

#[export] Instance GetRequest_struct : Struct GetRequest := {|
  schemaOf := fld "Key" string $ fld "ClientID" Z $ fld "RequestID" Z $ End;
  unpack r := (GetReq_Key r, (GetReq_ClientID r, (GetReq_RequestID r, tt)));
  pack '(x1, (x2, (x3, _))) := mkGetRequest x1 x2 x3 |}.
#[export] Instance GetRequest_laws : StructLaws GetRequest.
Proof. struct_laws. Qed.

#[export] Instance GetResponse_struct : Struct GetResponse := {|
  schemaOf := fld "RespStatus" ResponseStatus $ fld "KeyFound" bool $ fld "Value" string $
    fld "Revision" Z $ End;
  unpack r := (GetResp_RespStatus r, (GetResp_KeyFound r, (GetResp_Value r, (GetResp_Revision r,
    tt))));
  pack '(x1, (x2, (x3, (x4, _)))) := mkGetResponse x1 x2 x3 x4 |}.
#[export] Instance GetResponse_laws : StructLaws GetResponse.
Proof. struct_laws. Qed.

#[export] Instance CASRequest_struct : Struct CASRequest := {|
  schemaOf := fld "Key" string $ fld "CompareValue" string $ fld "Value" string $ fld "ClientID"
    Z $ fld "RequestID" Z $ End;
  unpack r := (CASReq_Key r, (CASReq_CompareValue r, (CASReq_Value r, (CASReq_ClientID r,
    (CASReq_RequestID r, tt)))));
  pack '(x1, (x2, (x3, (x4, (x5, _))))) := mkCASRequest x1 x2 x3 x4 x5 |}.
#[export] Instance CASRequest_laws : StructLaws CASRequest.
Proof. struct_laws. Qed.

#[export] Instance CASResponse_struct : Struct CASResponse := {|
  schemaOf := fld "RespStatus" ResponseStatus $ fld "KeyFound" bool $ fld "PrevValue" string $
    fld "Revision" Z $ End;
  unpack r := (CASResp_RespStatus r, (CASResp_KeyFound r, (CASResp_PrevValue r,
    (CASResp_Revision r, tt))));
  pack '(x1, (x2, (x3, (x4, _)))) := mkCASResponse x1 x2 x3 x4 |}.
#[export] Instance CASResponse_laws : StructLaws CASResponse.
Proof. struct_laws. Qed.

#[export] Instance ListRequest_struct : Struct ListRequest := {|
  schemaOf := fld "Prefix" string $ fld "Limit" Z $ fld "KeyAfter" string $ fld "ClientID" Z $
    fld "RequestID" Z $ End;
  unpack r := (ListReq_Prefix r, (ListReq_Limit r, (ListReq_KeyAfter r, (ListReq_ClientID r,
    (ListReq_RequestID r, tt)))));
  pack '(x1, (x2, (x3, (x4, (x5, _))))) := mkListRequest x1 x2 x3 x4 x5 |}.
#[export] Instance ListRequest_laws : StructLaws ListRequest.
Proof. struct_laws. Qed.

#[export] Instance ListResponse_struct : Struct ListResponse := {|
  schemaOf := fld "RespStatus" ResponseStatus $ fld "Pairs" (option (gmap string string)) $
    fld "NextKey" string $ fld "Revision" Z $ End;
  unpack r := (ListResp_RespStatus r, (ListResp_Pairs r, (ListResp_NextKey r, (ListResp_Revision
    r, tt))));
  pack '(x1, (x2, (x3, (x4, _)))) := mkListResponse x1 x2 x3 x4 |}.
#[export] Instance ListResponse_laws : StructLaws ListResponse.
Proof. struct_laws. Qed.

#[export] Instance JoinRequest_struct : Struct JoinRequest := {|
  schemaOf := fld "id" Z $ fld "raft_addr" string $ fld "http_addr" string $ End;
  unpack r := (JoinReq_ID r, (JoinReq_RaftAddr r, (JoinReq_HTTPAddr r, tt)));
  pack '(x1, (x2, (x3, _))) := mkJoinRequest x1 x2 x3 |}.
#[export] Instance JoinRequest_laws : StructLaws JoinRequest.
Proof. struct_laws. Qed.

#[export] Instance JoinResponse_struct : Struct JoinResponse := {|
  schemaOf := fld "resp_status" ResponseStatus $ End;
  unpack r := (JoinResp_RespStatus r, tt);
  pack '(x1, _) := mkJoinResponse x1 |}.
#[export] Instance JoinResponse_laws : StructLaws JoinResponse.
Proof. struct_laws. Qed.

#[export] Instance LeaveRequest_struct : Struct LeaveRequest := {|
  schemaOf := fld "id" Z $ End;
  unpack r := (LeaveReq_ID r, tt);
  pack '(x1, _) := mkLeaveRequest x1 |}.
#[export] Instance LeaveRequest_laws : StructLaws LeaveRequest.
Proof. struct_laws. Qed.

#[export] Instance LeaveResponse_struct : Struct LeaveResponse := {|
  schemaOf := fld "resp_status" ResponseStatus $ End;
  unpack r := (LeaveResp_RespStatus r, tt);
  pack '(x1, _) := mkLeaveResponse x1 |}.
#[export] Instance LeaveResponse_laws : StructLaws LeaveResponse.
Proof. struct_laws. Qed.

#[export] Instance PeerInfo_struct : Struct PeerInfo := {|
  schemaOf := fld "id" Z $ fld "http_addr" string $ End;
  unpack r := (Peer_ID r, (Peer_HTTPAddr r, tt));
  pack '(x1, (x2, _)) := mkPeerInfo x1 x2 |}.
#[export] Instance PeerInfo_laws : StructLaws PeerInfo.
Proof. struct_laws. Qed.

#[export] Instance StatusResponse_struct : Struct StatusResponse := {|
  schemaOf := fld "resp_status" ResponseStatus $ fld "id" Z $ fld "is_leader" bool $
    fld "peer_count" Z $ End;
  unpack r := (StatusResp_RespStatus r, (StatusResp_ID r, (StatusResp_IsLeader r,
    (StatusResp_PeerCount r, tt))));
  pack '(x1, (x2, (x3, (x4, _)))) := mkStatusResponse x1 x2 x3 x4 |}.
#[export] Instance StatusResponse_laws : StructLaws StatusResponse.
Proof. struct_laws. Qed.

#[export] Instance MembersResponse_struct : Struct MembersResponse := {|
  schemaOf := fld "resp_status" ResponseStatus $ fld "members" (list PeerInfo) $ End;
  unpack r := (MembersResp_RespStatus r, (MembersResp_Members r, tt));
  pack '(x1, (x2, _)) := mkMembersResponse x1 x2 |}.
#[export] Instance MembersResponse_laws : StructLaws MembersResponse.
Proof. struct_laws. Qed.

#[export] Instance TxnCondition_struct : Struct TxnCondition := {|
  schemaOf := fld "key" string $ fld "compare" CompareOp $ fld "value" string $ End;
  unpack r := (Cond_Key r, (Cond_Compare r, (Cond_Value r, tt)));
  pack '(x1, (x2, (x3, _))) := mkTxnCondition x1 x2 x3 |}.
#[export] Instance TxnCondition_laws : StructLaws TxnCondition.
Proof. struct_laws. Qed.

#[export] Instance TxnOp_struct : Struct TxnOp := {|
  schemaOf := fld "op" TxnOpType $ fld "key" string $ opt "value" string $ opt "compare_value"
    string $ opt "lease_id" Z $ End;
  unpack r := (Op_Op r, (Op_Key r, (Op_Value r, (Op_CompareValue r, (Op_LeaseID r, tt)))));
  pack '(x1, (x2, (x3, (x4, (x5, _))))) := mkTxnOp x1 x2 x3 x4 x5 |}.
#[export] Instance TxnOp_laws : StructLaws TxnOp.
Proof. struct_laws. Qed.

#[export] Instance TxnRequest_struct : Struct TxnRequest := {|
  schemaOf := fld "conditions" (list TxnCondition) $ fld "success" (list TxnOp) $ fld "failure"
    (list TxnOp) $ fld "clientID" Z $ fld "requestID" Z $ End;
  unpack r := (TxnReq_Conditions r, (TxnReq_Success r, (TxnReq_Failure r, (TxnReq_ClientID r,
    (TxnReq_RequestID r, tt)))));
  pack '(x1, (x2, (x3, (x4, (x5, _))))) := mkTxnRequest x1 x2 x3 x4 x5 |}.
#[export] Instance TxnRequest_laws : StructLaws TxnRequest.
Proof. struct_laws. Qed.

#[export] Instance TxnOpResult_struct : Struct TxnOpResult := {|
  schemaOf := fld "key" string $ opt "prev_value" string $ fld "key_found" bool $ End;
  unpack r := (Res_Key r, (Res_PrevValue r, (Res_KeyFound r, tt)));
  pack '(x1, (x2, (x3, _))) := mkTxnOpResult x1 x2 x3 |}.
#[export] Instance TxnOpResult_laws : StructLaws TxnOpResult.
Proof. struct_laws. Qed.

#[export] Instance TxnResponse_struct : Struct TxnResponse := {|
  schemaOf := fld "resp_status" ResponseStatus $ fld "succeeded" bool $ fld "results" (list
    TxnOpResult) $ fld "revision" Z $ End;
  unpack r := (TxnResp_RespStatus r, (TxnResp_Succeeded r, (TxnResp_Results r, (TxnResp_Revision
    r, tt))));
  pack '(x1, (x2, (x3, (x4, _)))) := mkTxnResponse x1 x2 x3 x4 |}.
#[export] Instance TxnResponse_laws : StructLaws TxnResponse.
Proof. struct_laws. Qed.

#[export] Instance LeaseGrantRequest_struct : Struct LeaseGrantRequest := {|
  schemaOf := fld "ttl" Z $ fld "clientID" Z $ fld "requestID" Z $ End;
  unpack r := (GrantReq_TTL r, (GrantReq_ClientID r, (GrantReq_RequestID r, tt)));
  pack '(x1, (x2, (x3, _))) := mkLeaseGrantRequest x1 x2 x3 |}.
#[export] Instance LeaseGrantRequest_laws : StructLaws LeaseGrantRequest.
Proof. struct_laws. Qed.

#[export] Instance LeaseGrantResponse_struct : Struct LeaseGrantResponse := {|
  schemaOf := fld "resp_status" ResponseStatus $ fld "id" Z $ fld "ttl" Z $ End;
  unpack r := (GrantResp_RespStatus r, (GrantResp_ID r, (GrantResp_TTL r, tt)));
  pack '(x1, (x2, (x3, _))) := mkLeaseGrantResponse x1 x2 x3 |}.
#[export] Instance LeaseGrantResponse_laws : StructLaws LeaseGrantResponse.
Proof. struct_laws. Qed.

#[export] Instance LeaseKeepAliveRequest_struct : Struct LeaseKeepAliveRequest := {|
  schemaOf := fld "id" Z $ fld "clientID" Z $ fld "requestID" Z $ End;
  unpack r := (KeepAliveReq_ID r, (KeepAliveReq_ClientID r, (KeepAliveReq_RequestID r, tt)));
  pack '(x1, (x2, (x3, _))) := mkLeaseKeepAliveRequest x1 x2 x3 |}.
#[export] Instance LeaseKeepAliveRequest_laws : StructLaws LeaseKeepAliveRequest.
Proof. struct_laws. Qed.

#[export] Instance LeaseKeepAliveResponse_struct : Struct LeaseKeepAliveResponse := {|
  schemaOf := fld "resp_status" ResponseStatus $ fld "id" Z $ End;
  unpack r := (KeepAliveResp_RespStatus r, (KeepAliveResp_ID r, tt));
  pack '(x1, (x2, _)) := mkLeaseKeepAliveResponse x1 x2 |}.
#[export] Instance LeaseKeepAliveResponse_laws : StructLaws LeaseKeepAliveResponse.
Proof. struct_laws. Qed.

#[export] Instance LeaseRevokeRequest_struct : Struct LeaseRevokeRequest := {|
  schemaOf := fld "id" Z $ fld "clientID" Z $ fld "requestID" Z $ End;
  unpack r := (RevokeReq_ID r, (RevokeReq_ClientID r, (RevokeReq_RequestID r, tt)));
  pack '(x1, (x2, (x3, _))) := mkLeaseRevokeRequest x1 x2 x3 |}.
#[export] Instance LeaseRevokeRequest_laws : StructLaws LeaseRevokeRequest.
Proof. struct_laws. Qed.

#[export] Instance LeaseRevokeResponse_struct : Struct LeaseRevokeResponse := {|
  schemaOf := fld "resp_status" ResponseStatus $ End;
  unpack r := (RevokeResp_RespStatus r, tt);
  pack '(x1, _) := mkLeaseRevokeResponse x1 |}.
#[export] Instance LeaseRevokeResponse_laws : StructLaws LeaseRevokeResponse.
Proof. struct_laws. Qed.

#[export] Instance persistedPeer_struct : Struct persistedPeer := {|
  schemaOf := fld "id" Z $ fld "raft_addr" string $ fld "http_addr" string $ End;
  unpack r := (pp_ID r, (pp_RaftAddr r, (pp_HTTPAddr r, tt)));
  pack '(x1, (x2, (x3, _))) := mkPersistedPeer x1 x2 x3 |}.
#[export] Instance persistedPeer_laws : StructLaws persistedPeer.
Proof. struct_laws. Qed.

(** ** Bodies *)

Definition toBytes (s : string) : bytes := String.list_byte_of_string s.
Definition ofBytes (b : bytes) : string := String.string_of_list_byte b.

Lemma ofBytes_toBytes s : ofBytes (toBytes s) = s.
Proof. apply String.string_of_list_byte_of_string. Qed.

Section bodies.
Context {A : Type} `{JSONValue A}.

(** [json.Encoder.Encode] and [json.Marshal]. *)
Definition encodeBody (nils : nilness) (a : A) : bytes := toBytes (encodeDoc (toJSON nils "" a)).
Definition marshalBody (nils : nilness) (a : A) : bytes := toBytes (marshalDoc (toJSON nils "" a)).

(** [json.Decoder.Decode] and [json.Unmarshal] into [a]. *)
Definition decodeInto (strict : bool) (doc : option json) (a : A) : A * option jsonError :=
  match doc with
  | None => (a, Some SyntaxError)
  | Some j => fromJSON strict j a
  end.
Definition decodeBody (strict : bool) (b : bytes) : A -> A * option jsonError :=
  decodeInto strict (decodeDoc (ofBytes b)).
Definition unmarshalBody (b : bytes) : A -> A * option jsonError :=
  decodeInto false (unmarshalDoc (ofBytes b)).

Context `{!JSONLaws A} (Hlevels : @levels A _ <= maxNestingDepth).

Lemma decode_encode nils strict (a a0 : A) :
  okJSON a -> blank a0 -> decodeBody strict (encodeBody nils a) a0 = (a, None).
Proof.
  intros Ha H0. unfold decodeBody, encodeBody. pose proof (json_depth nils "" a).
  rewrite ofBytes_toBytes, decodeDoc_encodeDoc by (by apply json_int || lia). by apply json_roundtrip.
Qed.

Lemma decode_marshal nils strict (a a0 : A) :
  okJSON a -> blank a0 -> decodeBody strict (marshalBody nils a) a0 = (a, None).
Proof.
  intros Ha H0. unfold decodeBody, marshalBody. pose proof (json_depth nils "" a).
  rewrite ofBytes_toBytes, decodeDoc_marshalDoc by (by apply json_int || lia). by apply json_roundtrip.
Qed.

Lemma unmarshal_marshal nils (a a0 : A) :
  okJSON a -> blank a0 -> unmarshalBody (marshalBody nils a) a0 = (a, None).
Proof.
  intros Ha H0. unfold unmarshalBody, marshalBody. pose proof (json_depth nils "" a).
  rewrite ofBytes_toBytes, unmarshalDoc_marshalDoc by (by apply json_int || lia). by apply json_roundtrip.
Qed.
End bodies.

(** ** The stored peer list *)

(** [stored] is made with [make], so it is never nil. *)
#[export] Instance peers_json_codec : Codec (list persistedPeer) :=
  mkCodec _ (λ l, Some (marshalBody (λ _, false) l))
    (λ b, match unmarshalBody b zero with
          | (l, None) => Some l
          | (_, Some _) => None
          end).

#[export] Instance peers_json_laws : CodecLaws (list persistedPeer) (Forall okJSON).
Proof.
  intros l Hl. eexists. split; [done|]. cbn [unmarshal peers_json_codec].
  by rewrite unmarshal_marshal.
Qed.
