(* ===== verification/Saves.v ===== *)
(** * Concurrent saves of the address book

    Every committed config change starts a goroutine [go kvs.savePeers()], and
    [SetLocalHTTPAddr] saves too (src/kvservice/kvservice.go).  A save reads the
    book under the mutex and writes the encoded list to the storage after it has
    released it, so the saves of two changes may be written in either order.
    [sstep] is the step relation of the book, the saves in flight and the
    storage, and of the pending addresses [handleJoin] writes, which are not saved;
    the codec is the JSON of [Messages].  The save of [SetLocalHTTPAddr] is a call
    and not a goroutine, but the others run beside it all the same, and what its
    caller does next is not part of the state. *)

From S2P Require Import Prelude GoLib Utf8 Json Schema Api Codec Peers Messages.

(** ** State and steps *)

Inductive saver :=
| Waiting
| Holding (stored : list persistedPeer).

Section saves.
Context {S : Type} `{RaftStorage S} `{!RaftStorageLaws S} (self : Z).

Record saveState := mkSaveState { sv_book : peerBook; sv_savers : list saver; sv_store : S }.

(** The write of [savePeers], for the list it has read. *)
Definition writeStored (stored : list persistedPeer) (st : S) : S :=
  match marshal stored with
  | None => st
  | Some data => storage_Set peerStoreKey data st
  end.

(** A change that is saved, and any change: [handleJoin] sets and clears pending addresses. *)
Inductive savedChange :=
| Committed (cc : ConfigChangeEntry)
| LocalAddr (addr : string).
Inductive bookChange :=
| Saved (ch : savedChange)
| SetPending (node : Z) (pi : peerInfo)
| ClearPending (node : Z).

Definition changeBook (b : peerBook) (ch : bookChange) : peerBook :=
  match ch with
  | Saved (Committed cc) => handleCommittedConfigChange self cc b
  | Saved (LocalAddr addr) => set_peers b (<[self := mkPeerAddrs "" addr]> (peers b))
  | SetPending node pi => set_pending b (<[node := pi]> (pendingJoinAddrs b))
  | ClearPending node => set_pending b (delete node (pendingJoinAddrs b))
  end.

(** The save a change starts. *)
Definition startedBy (ch : bookChange) : list saver :=
  match ch with Saved _ => [Waiting] | _ => [] end.

Inductive sstep : saveState -> option bookChange -> saveState -> Prop :=
| s_change ch b l st :
    sstep (mkSaveState b l st) (Some ch) (mkSaveState (changeBook b ch) (l ++ startedBy ch) st)
| s_read ord i b l st :
    l !! i = Some Waiting ->
    sstep (mkSaveState b l st) None (mkSaveState b (<[i := Holding (storedPeers ord b)]> l) st)
| s_write i stored b l st :
    l !! i = Some (Holding stored) ->
    sstep (mkSaveState b l st) None (mkSaveState b (delete i l) (writeStored stored st)).

(** Runs from a book without saves in flight, with the changes made so far. *)
Inductive srun (b0 : peerBook) (st0 : S) : list bookChange -> saveState -> Prop :=
| srun_start : srun b0 st0 [] (mkSaveState b0 [] st0)
| srun_change chs s ch s' : srun b0 st0 chs s -> sstep s (Some ch) s' -> srun b0 st0 (chs ++ [ch]) s'
| srun_save chs s s' : srun b0 st0 chs s -> sstep s None s' -> srun b0 st0 chs s'.

(** The book after some of the changes. *)
Definition bookAfter (b0 : peerBook) (chs : list bookChange) : peerBook := fold_left changeBook chs b0.

(** A list that was the book's content after a prefix of the changes. *)
Definition pastList (b0 : peerBook) (chs : list bookChange) (stored : list persistedPeer) : Prop :=
  ∃ pre ord, pre `prefix_of` chs ∧ stored = storedPeers ord (bookAfter b0 pre).

Record consistentSaves (b0 : peerBook) (st0 : S) (chs : list bookChange) (s : saveState) : Prop := {
  cs_book : sv_book s = bookAfter b0 chs;
  cs_held stored : Holding stored ∈ sv_savers s -> pastList b0 chs stored;
  cs_store : storage_Get peerStoreKey (sv_store s) = storage_Get peerStoreKey st0 ∨
    ∃ stored, pastList b0 chs stored ∧ storage_Get peerStoreKey (sv_store s) = marshal stored }.

Lemma pastList_more b0 chs ch stored : pastList b0 chs stored -> pastList b0 (chs ++ [ch]) stored.
Proof. intros (pre & ord & Hp & E). exists pre, ord. split; [by apply prefix_app_r|done]. Qed.

Lemma bookAfter_snoc b0 chs ch : bookAfter b0 (chs ++ [ch]) = changeBook (bookAfter b0 chs) ch.
Proof. unfold bookAfter. by rewrite fold_left_app. Qed.

Lemma srun_consistent b0 st0 chs s : srun b0 st0 chs s -> consistentSaves b0 st0 chs s.
Proof.
  induction 1 as [|chs s ch s' _ [Hb Hh Hst] Hstep|chs s s' _ [Hb Hh Hst] Hstep].
  - split; [done|by intros ? ?%elem_of_nil|by left].
  - inversion Hstep; subst. cbn [sv_book sv_savers sv_store] in *. split; cbn.
    + by rewrite bookAfter_snoc, <-Hb.
    + intros stored [Hin|Hin]%elem_of_app; [by apply pastList_more, Hh|].
      destruct ch; [by apply list_elem_of_singleton in Hin|by apply elem_of_nil in Hin..].
    + destruct Hst as [Hst|(stored & Hp & Hst)]; [by left|right]. eauto using pastList_more.
  - inversion Hstep as [|ord i b l st Hi|i stored b l st Hi]; subst; cbn [sv_book sv_savers sv_store] in *.
    + split; [done| |done]. intros stored Hin. cbn in Hin. apply list_elem_of_lookup in Hin as [j Hj].
      destruct (decide (j = i)) as [->|Hne].
      * rewrite list_lookup_insert_eq in Hj by (by eapply lookup_lt_Some). injection Hj as <-.
        exists chs, ord. by rewrite <-Hb.
      * rewrite list_lookup_insert_ne in Hj by done. apply Hh. by eapply list_elem_of_lookup_2.
    + split; [done| |].
      * intros stored' Hin. cbn in Hin. apply Hh. rewrite delete_take_drop in Hin.
        apply elem_of_app in Hin as [(j & Hj & _)%elem_of_take|[j Hj]%list_elem_of_lookup];
          [|rewrite lookup_drop in Hj]; by eapply list_elem_of_lookup_2.
      * right. exists stored. split; [by apply Hh; eapply list_elem_of_lookup_2|].
        unfold writeStored. cbn. by rewrite get_set.
Qed.

(** C18 (invariant).  What is stored is a whole book of the past: however the saves of any number
    of changes interleave, the stored list is the one found at the start or
    the complete list of the book as it was after some of the changes, and
    so is every list a save holds. *)
Theorem stored_book_is_past b0 st0 chs s :
  srun b0 st0 chs s ->
  (∀ stored, Holding stored ∈ sv_savers s -> pastList b0 chs stored) ∧
  (storage_Get peerStoreKey (sv_store s) = storage_Get peerStoreKey st0 ∨
   ∃ stored, pastList b0 chs stored ∧ storage_Get peerStoreKey (sv_store s) = marshal stored).
Proof. intros [_ Hh Hst]%srun_consistent. done. Qed.

(** Two changes whose saves are written in the other order. *)
Lemma overtaken_run ord b st ch1 ch2 :
  let b1 := changeBook b (Saved ch1) in
  let b2 := changeBook b1 (Saved ch2) in
  srun b st [Saved ch1; Saved ch2]
    (mkSaveState b2 [] (writeStored (storedPeers ord b1) (writeStored (storedPeers ord b2) st))).
Proof.
  intros b1 b2.
  eapply srun_save; [|by apply (s_write 0 (storedPeers ord b1) b2 [Holding (storedPeers ord b1)])].
  eapply srun_save.
  2: { apply (s_write 1 (storedPeers ord b2) b2 [Holding (storedPeers ord b1); Holding (storedPeers ord b2)]).
       done. }
  eapply srun_save; [|by apply (s_read ord 1 b2 [Holding (storedPeers ord b1); Waiting])].
  change [Saved ch1; Saved ch2] with ([Saved ch1] ++ [Saved ch2]).
  eapply srun_change; [|apply (s_change (Saved ch2) b1 [Holding (storedPeers ord b1)])].
  eapply srun_save; [|by apply (s_read ord 0 b1 [Waiting])].
  apply (srun_change _ _ [] (mkSaveState b [] st)); [constructor|apply (s_change (Saved ch1) b [])].
Qed.

(** C31 (error).  A later change can be lost: for any two saved changes there is a run in which both are
    made and all their saves have finished, and a restarted process finds the
    book as it was before the second one; a peer whose removal was committed
    is known again. *)
Theorem later_change_lost ord ids b st ch1 ch2 :
  Forall okJSON (storedPeers ord (changeBook b (Saved ch1))) ->
  ∃ s, srun b st [Saved ch1; Saved ch2] s ∧ sv_savers s = [] ∧
    sv_book s = bookAfter b [Saved ch1; Saved ch2] ∧
    KnownPeers (restart self ids (sv_store s)) = delete self (KnownPeers (changeBook b (Saved ch1))).
Proof.
  intros Hok. eexists. split_and!; [apply (overtaken_run ord)|done|done|]. cbn [sv_store].
  by apply (restart_saved ord self ids (changeBook b (Saved ch1))
    (writeStored (storedPeers ord (changeBook (changeBook b (Saved ch1)) (Saved ch2))) st)).
Qed.
End saves.

(** ** Witnesses *)

Definition local1 : savedChange := LocalAddr "h1".
Definition leave2 : savedChange := Committed (mkConfigChange RemoveNode 2).

Lemma sample_stored :
  storedPeers in_order (changeBook 1 sample_book (Saved local1)) =
    [mkPersistedPeer 2 "r2" "h2"; mkPersistedPeer 1 "" "h1"].
Proof. by vm_compute. Qed.

Lemma sample_stored_ok : Forall okJSON (storedPeers in_order (changeBook 1 sample_book (Saved local1))).
Proof. rewrite sample_stored. repeat constructor; by vm_compute. Qed.

Lemma stored_book_is_past_witness :
  ∃ s, srun 1 sample_book (∅ : gmap string bytes) [Saved local1; Saved leave2] s ∧
    (storage_Get peerStoreKey (sv_store s) = storage_Get peerStoreKey (∅ : gmap string bytes) ∨
     ∃ stored, pastList 1 sample_book [Saved local1; Saved leave2] stored ∧
       storage_Get peerStoreKey (sv_store s) = marshal stored).
Proof.
  eexists. split; [apply (overtaken_run 1 in_order)|].
  eapply (stored_book_is_past 1 sample_book (∅ : gmap string bytes) [Saved local1; Saved leave2]).
  apply (overtaken_run 1 in_order).
Defined.

(** Peer 2 was removed, and is back after the restart. *)
Lemma later_change_lost_witness :
  ∃ s, srun 1 sample_book (∅ : gmap string bytes) [Saved local1; Saved leave2] s ∧
    KnownPeers (sv_book s) !! 2 = None ∧
    KnownPeers (restart 1 [2; 3] (sv_store s)) !! 2 = Some (mkPeerAddrs "r2" "h2").
Proof.
  destruct (later_change_lost 1 in_order [2; 3] sample_book (∅ : gmap string bytes) local1 leave2 sample_stored_ok)
    as (s & Hrun & _ & Hb & Hk).
  exists s. rewrite Hb, Hk. split_and!; [done|by vm_compute|by vm_compute].
Defined.
