(* ===== verification/KVService.v ===== *)
(** * The service of one node: [KVService] and its apply loop

    The state of a [KVService] (src/kvservice/kvservice.go), its mutex, the
    commit subscriptions that connect the apply loop to the HTTP handlers, and
    the three things the loop of [runUpdater] does: apply a committed command
    ([handleCommand]), restore a snapshot ([handleSnapshot]), apply a config
    change.  Channels live in a heap ([chans]) because a handler keeps its
    channel after the loop has removed it from the table.

    A method is a computation [M A]: it reads and writes the service, may panic,
    and blocks when it locks a mutex that is held (Go mutexes are not
    re-entrant). *)

From S2P Require Import Prelude GoLib Api DataStore StoreSpec Command StateMachine Replication Watch WatchLog Codec Snapshot Peers.
Import EventBuffer WatchSubs.

(** ** State *)

Definition snapshotThreshold : Z := 100.

Record KVService := mkKVService {
  id : Z;
  mu : bool;
  commitSubs : gmap Z nat;
  chans : list (Chan.chan Command);
  rep : replicated;
  lastSnapshotIndex : Z;
  book : peerBook;
  watch : watchState;
  delayNextHTTPResponse : bool }.

(** [New], before the goroutines start. *)
Definition NewKVService {S} `{RaftStorage S} `{Codec (list persistedPeer)}
    (self : Z) (peerIds : list Z) (st : S) : KVService :=
  mkKVService self false ∅ [] newReplicated (-1) (loadPeers self st (newPeerBook peerIds))
    (mkWatchState (newEventBuffer eventBufferSize) ∅ 0) false.

Definition set_mu (m : bool) (s : KVService) : KVService :=
  mkKVService (id s) m (commitSubs s) (chans s) (rep s) (lastSnapshotIndex s) (book s) (watch s)
    (delayNextHTTPResponse s).
Definition set_subs (t : gmap Z nat) (s : KVService) : KVService :=
  mkKVService (id s) (mu s) t (chans s) (rep s) (lastSnapshotIndex s) (book s) (watch s)
    (delayNextHTTPResponse s).
Definition set_chans (h : list (Chan.chan Command)) (s : KVService) : KVService :=
  mkKVService (id s) (mu s) (commitSubs s) h (rep s) (lastSnapshotIndex s) (book s) (watch s)
    (delayNextHTTPResponse s).
Definition set_rep (r : replicated) (s : KVService) : KVService :=
  mkKVService (id s) (mu s) (commitSubs s) (chans s) r (lastSnapshotIndex s) (book s) (watch s)
    (delayNextHTTPResponse s).
Definition set_lastSnapshotIndex (i : Z) (s : KVService) : KVService :=
  mkKVService (id s) (mu s) (commitSubs s) (chans s) (rep s) i (book s) (watch s)
    (delayNextHTTPResponse s).
Definition set_book (b : peerBook) (s : KVService) : KVService :=
  mkKVService (id s) (mu s) (commitSubs s) (chans s) (rep s) (lastSnapshotIndex s) b (watch s)
    (delayNextHTTPResponse s).
Definition set_watch (w : watchState) (s : KVService) : KVService :=
  mkKVService (id s) (mu s) (commitSubs s) (chans s) (rep s) (lastSnapshotIndex s) (book s) w
    (delayNextHTTPResponse s).
Definition set_delay (b : bool) (s : KVService) : KVService :=
  mkKVService (id s) (mu s) (commitSubs s) (chans s) (rep s) (lastSnapshotIndex s) (book s)
    (watch s) b.

(** ** Computations on the service *)

Definition M (A : Type) : Type := KVService -> go (A * KVService).

Definition retM {A} (a : A) : M A := λ s, Ret (a, s).
Definition bindM {A B} (m : M A) (k : A -> M B) : M B := λ s, let! p := m s in k p.1 p.2.
Definition gets {A} (f : KVService -> A) : M A := λ s, Ret (f s, s).
Definition modify (f : KVService -> KVService) : M unit := λ s, Ret (tt, f s).
Definition lift {A} (m : go A) : M A := λ s, let! a := m in Ret (a, s).
Definition panic {A} (msg : string) : M A := λ _, Panic msg.

Notation "'let*' x := m 'in' k" := (bindM m (fun x => k))
  (at level 10, x pattern, m at level 100, k at level 200) : go_scope.

Lemma bindM_ret {A B} (m : M A) (k : A -> M B) s a s' :
  m s = Ret (a, s') -> bindM m k s = k a s'.
Proof. intros H. unfold bindM. by rewrite H. Qed.

(** Run the first step of a computation, its outcome shown by [tac]. *)
Tactic Notation "mstep" "by" tactic3(tac) := erewrite bindM_ret; [|tac].

(** *** The mutex *)

Definition Lock : M unit := λ s, if mu s then Block else Ret (tt, set_mu true s).
Definition Unlock : M unit := λ s,
  if mu s then Ret (tt, set_mu false s) else Panic "sync: unlock of unlocked mutex".

(** *** Channels *)

Definition newChan (n : nat) : M nat := λ s,
  Ret (length (chans s), set_chans (chans s ++ [Chan.make n]) s).

(** An operation on the channel that a reference denotes; every reference comes
    from [newChan], so it is in range. *)
Definition onChan {A} (f : Chan.chan Command -> go (A * Chan.chan Command)) (ref : nat) : M A :=
  λ s, match chans s !! ref with
       | None => Panic "invalid channel reference"
       | Some ch => let! p := f ch in Ret (p.1, set_chans (<[ref := p.2]> (chans s)) s)
       end.

Definition sendTo (ref : nat) (cmd : Command) : M unit :=
  onChan (λ ch, let! ch' := Chan.send cmd ch in Ret (tt, ch')) ref.
Definition closeChan (ref : nat) : M unit :=
  onChan (λ ch, let! ch' := Chan.close ch in Ret (tt, ch')) ref.
Definition recvFrom (ref : nat) : M (option Command) := onChan Chan.recv ref.

(** ** Commit subscriptions *)

(** The panic leaves the mutex free: the unlock is deferred. *)
Definition createCommitSubscription (logIndex : Z) : M nat :=
  let* _ := Lock in
  let* subs := gets commitSubs in
  match subs !! logIndex with
  | Some _ => panic "duplicate commit subscription"
  | None =>
      let* ref := newChan 1 in
      let* _ := modify (set_subs (<[logIndex := ref]> subs)) in
      let* _ := Unlock in
      retM ref
  end.

Definition popCommitSubscriptionLocked (logIndex : Z) : M (option nat) :=
  let* subs := gets commitSubs in
  let* _ := modify (set_subs (delete logIndex subs)) in
  retM (subs !! logIndex).

(** ** Snapshots *)

(** A call of [rs.InstallSnapshot]. *)
Record InstallSnapshot := mkInstallSnapshot {
  inst_index : Z; inst_term : Z; inst_data : bytes }.

Section updater.
Context `{Codec kvSnapshot}.

Definition maybeSnapshot (ord : MapOrder) (index term : Z) : M (option InstallSnapshot) :=
  let* _ := Lock in
  let* last := gets lastSnapshotIndex in
  if wrap64 (index - last) <? snapshotThreshold then let* _ := Unlock in retM None
  else
    let* r := gets rep in
    match encodeSnapshot ord r with
    | None => let* _ := Unlock in retM None
    | Some data =>
        let* _ := modify (set_lastSnapshotIndex index) in
        let* _ := Unlock in
        retM (Some (mkInstallSnapshot index term data))
    end.

(** The loop that cancels the subscriptions a snapshot covers. *)
Fixpoint cancelSubs (snapIndex : Z) (todo : list (Z * nat)) : M unit :=
  match todo with
  | [] => retM tt
  | (idx, ref) :: rest =>
      let* _ := (if idx <=? snapIndex then
                   let* _ := closeChan ref in
                   let* subs := gets commitSubs in
                   modify (set_subs (delete idx subs))
                 else retM tt) in
      cancelSubs snapIndex rest
  end.

Definition handleSnapshot (ord : MapOrder) (snapIndex : Z) (data : bytes) : M unit :=
  match decodeSnapshot data with
  | None => retM tt
  | Some decoded =>
      let* _ := Lock in
      let* r := gets rep in
      let* _ := modify (set_rep (restoreSnapshot decoded r)) in
      let* _ := modify (set_lastSnapshotIndex snapIndex) in
      let* subs := gets commitSubs in
      let* _ := cancelSubs snapIndex (visit ord (map_to_list subs)) in
      Unlock
  end.

(** ** A committed command *)

Definition notify (sub : option nat) (cmd : Command) : M unit :=
  match sub with
  | None => retM tt
  | Some ref => let* _ := sendTo ref cmd in closeChan ref
  end.

Definition pushEvents (ord : MapOrder) (es : list WatchEvent) : M unit := λ s,
  let! w := pushWatchEvents ord es (watch s) in Ret (tt, set_watch w s).

Definition handleCommand (env : Env) (cmd : Command) (index term : Z)
    : M (option InstallSnapshot) :=
  let* _ := Lock in
  let* r := gets rep in
  let* p := lift (applyCommand env cmd r) in
  let* _ := modify (set_rep p.2) in
  let* sub := popCommitSubscriptionLocked index in
  let* _ := Unlock in
  let* _ := notify sub p.1 in
  let* es := lift (commandEvents (env_ord env) p.1 (ds p.2)) in
  let* _ := pushEvents (env_ord env) es in
  let* last := gets lastSnapshotIndex in
  if 0 <=? last then maybeSnapshot (env_ord env) index term else retM None.

(** ** A committed config change *)

Definition handleConfigChange (cc : ConfigChangeEntry) : M unit :=
  let* _ := Lock in
  let* _ := modify (λ s, set_book (handleCommittedConfigChange (id s) cc (book s)) s) in
  Unlock.

(** ** The loop of [runUpdater] *)

Inductive LogEntry :=
| EntryCommand (cmd : Command)
| EntryConfigChange (cc : ConfigChangeEntry).

(** What the updater takes from its channels: a snapshot of the Raft layer, or a
    committed entry. *)
Inductive UpdaterInput :=
| InSnapshot (index : Z) (data : bytes)
| InCommit (entry : LogEntry) (index term : Z).

Definition updaterStep (env : Env) (i : UpdaterInput) : M (option InstallSnapshot) :=
  match i with
  | InSnapshot index data =>
      let* _ := handleSnapshot (env_ord env) index data in retM None
  | InCommit (EntryCommand cmd) index term => handleCommand env cmd index term
  | InCommit (EntryConfigChange cc) _ _ => let* _ := handleConfigChange cc in retM None
  end.

End updater.

(** ** The lease expiry loop *)

(** One tick: the command that is submitted, if a lease has expired. *)
Definition expiryTick (env : Env) (s : KVService) : option Command :=
  match CheckExpiredLeases (env_ord env) (env_now env) (ds (rep s)) with
  | [] => None
  | ids => Some (mkCommand CommandLeaseExpiry "" "" "" "" false None 0 None None 0 0 ids 0 "" 0 0 0
                   false)
  end.

(** ** The invariant

    A subscription in the table has an open, empty channel of its own with room
    for one command. *)

Record wfs (s : KVService) : Prop := {
  wfs_mu : mu s = false;
  wfs_store : wf (ds (rep s));
  wfs_watch : wfw (watch s);
  wfs_sub i ref : commitSubs s !! i = Some ref -> chans s !! ref = Some (Chan.mkChan 1 [] false);
  wfs_inj i j ref : commitSubs s !! i = Some ref -> commitSubs s !! j = Some ref -> i = j }.

Lemma wfs_new {S} `{RaftStorage S} `{Codec (list persistedPeer)} self peerIds (st : S) :
  wfs (NewKVService self peerIds st).
Proof.
  split; simpl; [done|apply wf_NewDataStore| |intros ??; by rewrite lookup_empty..].
  split; simpl; [apply wfb_new; unfold eventBufferSize; lia|]. intros ??. by rewrite lookup_empty.
Qed.

(** *** Subscriptions *)

Definition subscribed (i : Z) (s : KVService) : KVService :=
  set_chans (chans s ++ [Chan.make 1]) (set_subs (<[i := length (chans s)]> (commitSubs s)) s).

Lemma create_eq i s :
  wfs s ->
  createCommitSubscription i s =
    match commitSubs s !! i with
    | Some _ => Panic "duplicate commit subscription"
    | None => Ret (length (chans s), subscribed i s)
    end.
Proof.
  intros Hs. pose proof (wfs_mu _ Hs) as Hm. destruct s as [? ? ? ? ? ? ? ? ?]; simpl in *. subst.
  unfold createCommitSubscription, bindM, Lock, gets. simpl. by case_match.
Qed.

Lemma wfs_subscribed i s : wfs s -> commitSubs s !! i = None -> wfs (subscribed i s).
Proof.
  intros Hs Hi.
  assert (Hlt: ∀ j ref, commitSubs s !! j = Some ref -> (ref < length (chans s))%nat).
  { intros j ref Hj. by eapply lookup_lt_Some, (wfs_sub _ Hs). }
  split; simpl; try apply Hs.
  - intros j ref. rewrite lookup_insert. case_decide; intros; simplify_eq.
    + by rewrite list_lookup_middle.
    + rewrite lookup_app_l by eauto. by eapply (wfs_sub _ Hs).
  - intros j k ref [[<- <-]|[_ H1]]%lookup_insert_Some [[<- Hk]|[_ H2]]%lookup_insert_Some.
    + done.
    + apply Hlt in H2. lia.
    + apply Hlt in H1. lia.
    + by eapply (wfs_inj _ Hs).
Qed.

(** *** Notification *)

(** The channel of a handler after its command was applied. *)
Definition notified (cmd : Command) : Chan.chan Command := Chan.mkChan 1 [cmd] true.

Definition notifiedChans (sub : option nat) (cmd : Command) (h : list (Chan.chan Command))
    : list (Chan.chan Command) :=
  match sub with Some ref => <[ref := notified cmd]> h | None => h end.

Lemma notify_eq sub cmd s :
  (∀ ref, sub = Some ref -> chans s !! ref = Some (Chan.mkChan 1 [] false)) ->
  notify sub cmd s = Ret (tt, set_chans (notifiedChans sub cmd (chans s)) s).
Proof.
  intros Hsub. destruct sub as [ref|]; simpl; [|by destruct s].
  specialize (Hsub ref eq_refl). unfold notify, sendTo, closeChan, onChan, bindM.
  rewrite Hsub. simpl. rewrite list_lookup_insert_eq by (by eapply lookup_lt_Some).
  simpl. by rewrite list_insert_insert_eq.
Qed.

(** *** Events of a submitted command can always be computed *)

Lemma events_total env cmd r cmd' r' :
  submitted cmd -> applyCommand env cmd r = Ret (cmd', r') ->
  ∃ es, commandEvents (env_ord env) cmd' (ds r') = Ret es.
Proof.
  intros Hs H. unfold commandEvents. destruct (IsDuplicate cmd') eqn:Hdup; [eauto|].
  destruct (isDuplicate cmd r) eqn:Hd.
  { rewrite apply_duplicate in H by done. by simplify_eq/=. }
  destruct Hs as (_ & Ht & Hf). destruct (apply_fresh _ _ _ _ _ Hf Hd H) as (c & d & He & _ & _ & _ & ->).
  simpl. destruct (exec_inputs _ _ _ _ _ He) as [(HK & _ & _ & _ & HT & _) _]. rewrite HK, HT.
  destruct (Kind cmd) eqn:K; eauto; [by case_match; eauto|].
  destruct (Ht eq_refl) as [t Htt]. unfold execCommand in He. rewrite K, Htt in He.
  rewrite Txn_eq in He. simplify_eq/=. rewrite Htt.
  eexists. apply (txnEvents_zip _ _ _ 0). rewrite drop_0, length_execTxnOps. by case_match.
Qed.

(** *** The three steps of the updater *)

Section steps.
Context `{Codec kvSnapshot}.

(** The outcome of [maybeSnapshot]. *)
Definition snapshotted (ord : MapOrder) (index term : Z) (s : KVService)
    : option InstallSnapshot * KVService :=
  if wrap64 (index - lastSnapshotIndex s) <? snapshotThreshold then (None, s)
  else match encodeSnapshot ord (rep s) with
       | None => (None, s)
       | Some data =>
           (Some (mkInstallSnapshot index term data), set_lastSnapshotIndex index s)
       end.

Lemma maybeSnapshot_eq ord index term s :
  mu s = false -> maybeSnapshot ord index term s = Ret (snapshotted ord index term s).
Proof.
  intros Hm. unfold maybeSnapshot, snapshotted, bindM, Lock, gets, Unlock, modify, retM.
  destruct s as [? m ? ? ? ? ? ? ?]; simpl in *; subst; simpl.
  case_match; [done|]. cbn [rep set_mu]. by destruct (encodeSnapshot ord _).
Qed.

(** The state after a command was applied, before a snapshot is considered. *)
Definition applied (index : Z) (cmd' : Command) (r' : replicated) (w' : watchState)
    (s : KVService) : KVService :=
  set_watch w' (set_chans (notifiedChans (commitSubs s !! index) cmd' (chans s))
    (set_subs (delete index (commitSubs s)) (set_rep r' s))).

Lemma handleCommand_eq env cmd index term s :
  wfs s -> submitted cmd ->
  ∃ cmd' r' es w', applyCommand env cmd (rep s) = Ret (cmd', r') ∧
    commandEvents (env_ord env) cmd' (ds r') = Ret es ∧
    pushWatchEvents (env_ord env) es (watch s) = Ret w' ∧
    handleCommand env cmd index term s =
      Ret (if 0 <=? lastSnapshotIndex s
           then snapshotted (env_ord env) index term (applied index cmd' r' w' s)
           else (None, applied index cmd' r' w' s)).
Proof.
  intros Hs Hsub. destruct (apply_total env cmd (rep s) Hsub) as (cmd' & r' & Ha).
  destruct (events_total _ _ _ _ _ Hsub Ha) as (es & He).
  destruct (pushWatchEvents_correct (env_ord env) es (watch s) (wfs_watch _ Hs)) as (w' & Hw & _).
  exists cmd', r', es, w'. split_and!; [done..|].
  pose proof (wfs_sub _ Hs index) as Hch. pose proof (wfs_mu _ Hs) as Hm. clear Hs.
  unfold handleCommand. mstep by (unfold Lock; by rewrite Hm).
  mstep by reflexivity. mstep by (unfold lift; simpl; by rewrite Ha).
  mstep by reflexivity. mstep by reflexivity. mstep by reflexivity.
  mstep by (apply notify_eq; exact Hch).
  mstep by (unfold lift; simpl; by rewrite He).
  mstep by (unfold pushEvents; simpl; by rewrite Hw).
  mstep by reflexivity. simpl.
  replace (set_watch w' _) with (applied index cmd' r' w' s) by (by destruct s; simpl in *; subst).
  case_match; [|done]. by apply maybeSnapshot_eq.
Qed.

Lemma wfs_applied env index cmd cmd' r' w' s :
  wfs s -> submitted cmd -> leaseIDSeq (ds (rep s)) < int64_max ->
  applyCommand env cmd (rep s) = Ret (cmd', r') -> wfw w' -> wfs (applied index cmd' r' w' s).
Proof.
  intros Hs Hsub Hlt Ha Hw. split; simpl; [apply Hs| |done|..].
  - eapply apply_wf; [apply Hsub|apply Hs|done..].
  - intros j ref [Hj Hr]%lookup_delete_Some. rewrite <-(wfs_sub _ Hs j ref Hr).
    unfold notifiedChans. case_match eqn:Hi; [|done]. apply list_lookup_insert_ne.
    intros ->. by eapply Hj, (wfs_inj _ Hs).
  - intros j k ref [_ ?]%lookup_delete_Some [_ ?]%lookup_delete_Some. by eapply (wfs_inj _ Hs).
Qed.

Lemma wfs_snapshotted ord index term s : wfs s -> wfs (snapshotted ord index term s).2.
Proof. intros Hs. unfold snapshotted. repeat case_match; simpl; try done. split; apply Hs. Qed.

Lemma wfs_handleCommand env cmd index term s :
  wfs s -> submitted cmd -> leaseIDSeq (ds (rep s)) < int64_max ->
  ∃ call s', handleCommand env cmd index term s = Ret (call, s') ∧ wfs s' ∧
    leaseIDSeq (ds (rep s')) <= leaseIDSeq (ds (rep s)) + 1.
Proof.
  intros Hs Hsub Hlt.
  destruct (handleCommand_eq env cmd index term s Hs Hsub) as (cmd' & r' & es & w' & Ha & _ & Hw & ->).
  destruct (pushWatchEvents_correct (env_ord env) es (watch s) (wfs_watch _ Hs))
    as (w'' & Hw' & Hwf & _). rewrite Hw in Hw'. simplify_eq.
  pose proof (wfs_applied env index cmd cmd' r' w'' s Hs Hsub Hlt Ha Hwf) as Happ.
  destruct (apply_wf env cmd (rep s) cmd' r') as [_ Hseq]; [apply Hsub|apply Hs|done..|].
  pose proof (wfs_snapshotted (env_ord env) index term _ Happ).
  case_match; [|eexists _, _; split_and!; [done..|simpl; lia]].
  destruct (snapshotted _ _ _ _) as [call s'] eqn:E. eexists _, _. split_and!; [done..|].
  unfold snapshotted in E. repeat case_match; simplify_eq/=; lia.
Qed.

(** A snapshot at index [i] closes the channels of the subscriptions up to [i]. *)
Definition covered (i : Z) (ref : nat) (todo : list (Z * nat)) : Prop :=
  Exists (λ p, p.2 = ref ∧ p.1 <= i) todo.
#[local] Instance covered_dec i ref todo : Decision (covered i ref todo).
Proof. unfold covered. apply _. Defined.

Definition closedEmpty : Chan.chan Command := Chan.mkChan 1 [] true.

Lemma cancelSubs_eq i todo s :
  NoDup todo.*2 ->
  (∀ p, p ∈ todo -> chans s !! p.2 = Some (Chan.mkChan 1 [] false)) ->
  ∃ h t, cancelSubs i todo s = Ret (tt, set_chans h (set_subs t s)) ∧
    (∀ j, t !! j = if decide (j ∈ todo.*1 ∧ j <= i) then None else commitSubs s !! j) ∧
    (∀ ref, h !! ref = if decide (covered i ref todo) then Some closedEmpty else chans s !! ref).
Proof.
  revert s. induction todo as [|[idx ref] todo IH]; intros s Hnd Hch.
  { exists (chans s), (commitSubs s). split_and!; [by destruct s|..]; intros.
    - rewrite decide_False; [done|]. intros [Hj _]. by apply elem_of_nil in Hj.
    - rewrite decide_False; [done|]. unfold covered. intros Hex. inversion Hex. }
  inversion Hnd as [|?? Hr Hnd']; subst.
  pose proof (Hch (idx, ref) ltac:(left)) as Hc. simpl in Hc.
  assert (Hin: ∀ p, p ∈ todo -> p.2 ≠ ref).
  { intros p Hp <-. apply Hr. by apply list_elem_of_fmap_2. }
  cbn [cancelSubs]. destruct (Z.leb_spec idx i) as [Hle|Hgt].
  - set (s1 := set_subs (delete idx (commitSubs s)) (set_chans (<[ref := closedEmpty]> (chans s)) s)).
    assert (Hstep: (let* _ := closeChan ref in let* subs := gets commitSubs in
      modify (set_subs (delete idx subs))) s = Ret (tt, s1)).
    { unfold closeChan, onChan, bindM. by rewrite Hc. }
    mstep by (exact Hstep).
    destruct (IH s1 Hnd') as (h & t & He & Ht & Hh).
    { intros p Hp. simpl. rewrite list_lookup_insert_ne by (symmetry; auto). apply Hch. by right. }
    exists h, t. split_and!; [by rewrite He; destruct s|..].
    + intros j. rewrite Ht. simpl. rewrite lookup_delete.
      repeat case_decide; set_unfold; naive_solver.
    + intros r'. rewrite Hh. case_decide as Hcov.
      { rewrite decide_True; [done|]. by right. }
      destruct (decide (ref = r')) as [->|Hne].
      * rewrite decide_True by (by left). apply list_lookup_insert_eq. by eapply lookup_lt_Some.
      * rewrite decide_False by (intros [[]|]%Exists_cons; auto). by apply list_lookup_insert_ne.
  - mstep by reflexivity. destruct (IH s Hnd') as (h & t & He & Ht & Hh).
    { intros p Hp. apply Hch. by right. }
    exists h, t. split_and!; [done|..].
    + intros j. rewrite Ht. simpl. repeat case_decide; set_unfold; naive_solver lia.
    + intros r'. rewrite Hh. unfold covered. repeat case_decide; try done; exfalso.
      * eauto using Exists_cons_tl.
      * match goal with E : Exists _ (_ :: _) |- _ => apply Exists_cons in E as [[_ ?]|?] end;
          [simpl in *; lia|done].
Qed.

Lemma subs_todo ord (s : KVService) :
  wfs s ->
  NoDup (visit ord (map_to_list (commitSubs s))).*2 ∧
  ∀ p, p ∈ visit ord (map_to_list (commitSubs s)) <-> commitSubs s !! p.1 = Some p.2.
Proof.
  intros Hs. assert (Hin: ∀ p, p ∈ visit ord (map_to_list (commitSubs s)) <->
    commitSubs s !! p.1 = Some p.2).
  { intros [i ref]. rewrite elem_of_visit. apply elem_of_map_to_list. }
  split; [|done]. apply NoDup_fmap_2_strong; [|apply NoDup_visit, NoDup_map_to_list].
  intros [i r] [j r'] Hi%Hin Hj%Hin ?. simplify_eq/=. f_equal. by eapply (wfs_inj _ Hs).
Qed.

(** The state after a snapshot, but for the channels and the table. *)
Definition restored (i : Z) (snap : kvSnapshot) (s : KVService) : KVService :=
  set_lastSnapshotIndex i (set_rep (restoreSnapshot snap (rep s)) s).

Lemma handleSnapshot_eq ord i data snap s :
  wfs s -> decodeSnapshot data = Some snap ->
  ∃ h t, handleSnapshot ord i data s = Ret (tt, set_chans h (set_subs t (restored i snap s))) ∧
    (∀ j, t !! j = if decide (j <= i) then None else commitSubs s !! j) ∧
    (∀ j ref, commitSubs s !! j = Some ref ->
       h !! ref = if decide (j <= i) then Some closedEmpty else chans s !! ref) ∧
    (∀ ref, (∀ j, commitSubs s !! j ≠ Some ref) -> h !! ref = chans s !! ref).
Proof.
  intros Hs Hd. destruct (subs_todo ord s Hs) as [Hnd Hin].
  destruct (cancelSubs_eq i (visit ord (map_to_list (commitSubs s))) (set_mu true (restored i snap s)))
    as (h & t & He & Ht & Hh); [done|intros p Hp%Hin; by eapply (wfs_sub _ Hs)|].
  exists h, t. split_and!.
  - unfold handleSnapshot. rewrite Hd. pose proof (wfs_mu _ Hs) as Hm.
    mstep by (unfold Lock; by rewrite Hm). do 4 (mstep by reflexivity).
    mstep by (exact He). destruct s; simpl in *. by subst.
  - intros j. rewrite Ht. simpl. destruct (decide (j <= i)) as [Hle|Hgt].
    + case_decide as Hn; [done|]. destruct (commitSubs s !! j) as [ref|] eqn:E; [|done].
      destruct Hn. split; [|done]. apply (list_elem_of_fmap_2 fst _ (j, ref)). by apply Hin.
    + by rewrite decide_False by (by intros []).
  - intros j ref Hj. rewrite Hh. simpl.
    destruct (decide (covered _ _ _)) as [Hc|Hc], (decide (j <= i)) as [Hj'|Hj']; try done; exfalso.
    + apply Exists_exists in Hc as ([j' r'] & Hp%Hin & Hr & Hle). simplify_eq/=.
      pose proof (wfs_inj _ Hs _ _ _ Hj Hp). lia.
    + apply Hc, Exists_exists. exists (j, ref). split; [by apply Hin|done].
  - intros ref Hn. rewrite Hh. simpl. rewrite decide_False; [done|].
    intros ([j' r'] & Hp%Hin & Hr & Hle)%Exists_exists. simplify_eq/=. by eapply Hn.
Qed.

Lemma wfs_handleSnapshot ord i data s :
  wfs s -> (∀ snap, decodeSnapshot data = Some snap -> wf (ds (restoreSnapshot snap (rep s)))) ->
  ∃ s', handleSnapshot ord i data s = Ret (tt, s') ∧ wfs s'.
Proof.
  intros Hs Hwf. destruct (decodeSnapshot data) as [snap|] eqn:Hd.
  2: { exists s. unfold handleSnapshot. by rewrite Hd. }
  destruct (handleSnapshot_eq ord i data snap s Hs Hd) as (h & t & -> & Ht & Hh & _).
  eexists. split; [done|]. split; simpl; [apply Hs|by apply Hwf|apply Hs|..].
  - intros j ref. rewrite Ht. case_decide; [done|]. intros Hj. rewrite (Hh j ref Hj).
    rewrite decide_False by done. by apply (wfs_sub _ Hs j).
  - intros j k ref. rewrite !Ht. repeat case_decide; [done..|]. apply (wfs_inj _ Hs).
Qed.

End steps.

(** ** Properties *)

Section properties.
Context `{Codec kvSnapshot}.

Lemma snapshotted_fields ord index term s :
  rep (snapshotted ord index term s).2 = rep s ∧
  chans (snapshotted ord index term s).2 = chans s ∧
  commitSubs (snapshotted ord index term s).2 = commitSubs s ∧
  watch (snapshotted ord index term s).2 = watch s.
Proof. unfold snapshotted. by repeat case_match. Qed.

Lemma handleCommand_effect env cmd index term s :
  wfs s -> submitted cmd ->
  ∃ cmd' es call s', handleCommand env cmd index term s = Ret (call, s') ∧
    applyCommand env cmd (rep s) = Ret (cmd', rep s') ∧
    (∀ ref, commitSubs s !! index = Some ref -> chans s' !! ref = Some (notified cmd')) ∧
    (∀ ref, commitSubs s !! index ≠ Some ref -> chans s' !! ref = chans s !! ref) ∧
    commitSubs s' = delete index (commitSubs s) ∧
    commandEvents (env_ord env) cmd' (ds (rep s')) = Ret es ∧
    pushWatchEvents (env_ord env) es (watch s) = Ret (watch s').
Proof.
  intros Hs Hsub.
  destruct (handleCommand_eq env cmd index term s Hs Hsub) as (cmd' & r' & es & w' & Ha & He & Hw & Hc).
  set (s1 := applied index cmd' r' w' s) in *.
  destruct (snapshotted_fields (env_ord env) index term s1) as (F1 & F2 & F3 & F4).
  assert (∃ call s', handleCommand env cmd index term s = Ret (call, s') ∧ rep s' = rep s1 ∧
    chans s' = chans s1 ∧ commitSubs s' = commitSubs s1 ∧ watch s' = watch s1)
    as (call & s' & Hcall & G1 & G2 & G3 & G4).
  { rewrite Hc. case_match; [|eauto 10]. destruct (snapshotted _ _ _ _); simpl in *; eauto 10. }
  exists cmd', es, call, s'. rewrite G1, G2, G3, G4. split_and!; try done.
  - intros ref Hr. simpl. rewrite Hr. simpl. apply list_lookup_insert_eq.
    by eapply lookup_lt_Some, (wfs_sub _ Hs).
  - intros ref Hr. simpl. destruct (commitSubs s !! index) as [r|]; simpl; [|done].
    apply list_lookup_insert_ne. congruence.
Qed.

(** C5 (functional).  Applying a committed command never panics or blocks, and
    has exactly this effect: the replicated state advances by the command; the
    handler subscribed to its index, if there is one, finds the result in its
    channel, which is then closed, and its subscription is gone; every other
    handler's channel and subscription is untouched; the watchers get the
    events of the command. *)
Theorem command_reaches_its_handler env cmd index term s :
  wfs s -> submitted cmd ->
  ∃ cmd' es call s', handleCommand env cmd index term s = Ret (call, s') ∧
    applyCommand env cmd (rep s) = Ret (cmd', rep s') ∧
    (∀ ref, commitSubs s !! index = Some ref -> chans s' !! ref = Some (notified cmd')) ∧
    (∀ ref, commitSubs s !! index ≠ Some ref -> chans s' !! ref = chans s !! ref) ∧
    commitSubs s' = delete index (commitSubs s) ∧
    commandEvents (env_ord env) cmd' (ds (rep s')) = Ret es ∧
    pushWatchEvents (env_ord env) es (watch s) = Ret (watch s').
Proof. apply handleCommand_effect. Qed.

(** Restoring a snapshot never panics or blocks: the
    replicated state becomes the one of the snapshot, every handler waiting for
    an index the snapshot covers finds its channel closed with nothing in it,
    and every other handler keeps its subscription and its channel. *)
Theorem snapshot_cancels_covered ord i data snap s :
  wfs s -> decodeSnapshot data = Some snap ->
  ∃ s', handleSnapshot ord i data s = Ret (tt, s') ∧
    rep s' = restoreSnapshot snap (rep s) ∧ lastSnapshotIndex s' = i ∧ watch s' = watch s ∧
    ∀ j ref, commitSubs s !! j = Some ref ->
      if decide (j <= i)
      then commitSubs s' !! j = None ∧ chans s' !! ref = Some closedEmpty
      else commitSubs s' !! j = Some ref ∧ chans s' !! ref = chans s !! ref.
Proof.
  intros Hs Hd. destruct (handleSnapshot_eq ord i data snap s Hs Hd) as (h & t & -> & Ht & Hh & _).
  eexists. split_and!; [done..|]. intros j ref Hj. simpl. rewrite Ht, (Hh j ref Hj).
  by case_decide.
Qed.

End properties.

(** *** Witnesses *)

Definition sample_service : KVService :=
  NewKVService (H0 := Encoded.countable_codec (list persistedPeer)) 1 [2; 3]
    (∅ : gmap string bytes).

Lemma sample_service_wfs : wfs sample_service.
Proof. apply wfs_new. Qed.

Lemma command_reaches_its_handler_witness :
  ∃ cmd' call s', handleCommand (H := sample_codec) env0 (putCommand 1 1 "k" "v" 0) 0 1
      (subscribed 0 sample_service) = Ret (call, s') ∧
    chans s' !! 0%nat = Some (notified cmd').
Proof.
  destruct (@command_reaches_its_handler sample_codec env0 (putCommand 1 1 "k" "v" 0) 0 1
    (subscribed 0 sample_service)) as (cmd' & es & call & s' & H1 & _ & H2 & _).
  - apply wfs_subscribed; [apply sample_service_wfs|done].
  - by repeat split.
  - exists cmd', call, s'. split; [done|]. by apply H2.
Defined.

Lemma snapshot_cancels_covered_witness :
  ∃ data s', encodeSnapshot (H := sample_codec) in_order newReplicated = Some data ∧
    handleSnapshot (H := sample_codec) in_order 5 data (subscribed 0 sample_service) = Ret (tt, s') ∧
    chans s' !! 0%nat = Some closedEmpty.
Proof.
  eexists. destruct (@snapshot_cancels_covered sample_codec in_order 5
    (Encoded.positive_bytes (encode (takeSnapshot in_order newReplicated)))
    (takeSnapshot in_order newReplicated) (subscribed 0 sample_service)) as (s' & H1 & _ & _ & _ & H2).
  - apply wfs_subscribed; [apply sample_service_wfs|done].
  - unfold decodeSnapshot. simpl. rewrite Encoded.bytes_positive_bytes. apply decode_encode.
  - exists s'. split_and!; [done|exact H1|]. by apply (H2 0 0%nat).
Defined.
