(* ===== verification/Leases.v ===== *)
(** * The life of a lease

    Deadlines ([GrantLease], [CheckExpiredLeases] of src/kvservice/datastore.go),
    the tick of the expiry loop ([startLeaseExpiryLoop] of
    src/kvservice/kvservice.go) and the command it submits, which is applied
    later, on a state that may have changed. *)

From S2P Require Import Prelude GoLib Api DataStore StoreSpec Command StateMachine Replication Watch WatchLog Codec Snapshot Peers KVService.

(** ** Revoking, on a well-formed store *)

(** What [ids] leave of an entry that belongs to lease [owner]. *)
Definition unlessOwned {A} (ids : list Z) (owner : option Z) (a : option A) : option A :=
  match owner with Some i => if decide (i ∈ ids) then None else a | None => a end.

Lemma unlessOwned_cons {A} i ids (owner : option Z) (a : option A) :
  unlessOwned (i :: ids) owner a =
    unlessOwned ids (unlessOwned [i] owner owner) (unlessOwned [i] owner a).
Proof.
  unfold unlessOwned. destruct owner as [j|]; [|done].
  repeat case_decide; set_solver.
Qed.

Lemma revoke_wf ord i d :
  wf d ->
  let d' := (RevokeLease ord i d).2 in
  (∀ j, leases d' !! j = if decide (j = i) then None else leases d !! j) ∧
  (∀ k, data d' !! k = unlessOwned [i] (keyLease d !! k) (data d !! k)) ∧
  (∀ k, keyLease d' !! k = unlessOwned [i] (keyLease d !! k) (keyLease d !! k)).
Proof.
  intros Hwf d'.
  assert (Hkey: ∀ k, keyLease d !! k = Some i <-> ∃ l, leases d !! i = Some l ∧ k ∈ Keys l)
    by (intros; apply (wf_assoc _ Hwf)).
  destruct (leases d !! i) as [l|] eqn:El.
  - destruct (RevokeLease_lookup ord i l d El) as (Hl & _ & Hd & Hk). fold d' in Hl, Hd, Hk.
    assert (Hin: ∀ k A (a : option A), (if decide (k ∈ Keys l) then None else a) =
      unlessOwned [i] (keyLease d !! k) a).
    { intros k A a. unfold unlessOwned. case_decide as Hk'.
      - rewrite (proj2 (Hkey k)) by eauto. by rewrite decide_True by (by left).
      - destruct (keyLease d !! k) as [j|] eqn:Ej; [|done]. rewrite decide_False; [done|].
        intros ->%list_elem_of_singleton. apply Hk'. apply Hkey in Ej as (? & ? & ?). by simplify_eq. }
    split_and!; intros; rewrite ?Hl, ?Hd, ?Hk, ?Hin; [|done..].
    rewrite lookup_delete. repeat case_decide; congruence.
  - assert (Hd: d' = d) by (unfold d', RevokeLease; by rewrite El). rewrite Hd.
    assert (Hno: ∀ k A (a : option A), a = unlessOwned [i] (keyLease d !! k) a).
    { intros k A a. unfold unlessOwned. destruct (keyLease d !! k) as [j|] eqn:Ej; [|done].
      rewrite decide_False; [done|]. intros ->%list_elem_of_singleton.
      apply Hkey in Ej as (? & ? & ?). congruence. }
    split_and!; intros; [|apply Hno..]. case_decide; congruence.
Qed.

Lemma expire_wf ord ids pairs d :
  wf d ->
  let d' := (expireLeases ord ids pairs d).2 in
  (∀ j, leases d' !! j = if decide (j ∈ ids) then None else leases d !! j) ∧
  (∀ k, data d' !! k = unlessOwned ids (keyLease d !! k) (data d !! k)).
Proof.
  revert pairs d. induction ids as [|i ids IH]; intros pairs d Hwf.
  { split; intros; simpl; [done|]. unfold unlessOwned. by case_match. }
  cbn [expireLeases]. pose proof (wf_RevokeLease ord i d Hwf) as Hwf1.
  destruct (revoke_wf ord i d Hwf) as (Hl & Hd & Hk).
  destruct (RevokeLease ord i d) as [ks d1]. simpl in *.
  destruct (IH (Some (addDeleted ks (default ∅ pairs))) d1 Hwf1) as [IHl IHd]. split.
  - intros j. rewrite IHl, Hl. repeat case_decide; set_solver.
  - intros k. by rewrite IHd, Hk, Hd, <-unlessOwned_cons.
Qed.

(** ** The tick *)

Definition expired (now : Z) (l : Lease) : Prop := ExpiresAt l < now.
#[export] Instance expired_dec now l : Decision (expired now l).
Proof. unfold expired. apply _. Defined.

Lemma elem_of_expired ord now d i :
  i ∈ CheckExpiredLeases ord now d <-> ∃ l, leases d !! i = Some l ∧ expired now l.
Proof.
  unfold CheckExpiredLeases. rewrite list_elem_of_fmap. split.
  - intros ([j l] & -> & [He Hin]%list_elem_of_filter). rewrite elem_of_visit in Hin.
    apply elem_of_map_to_list in Hin. eauto.
  - intros (l & Hl & He). exists (i, l). split; [done|]. apply list_elem_of_filter.
    split; [done|]. by rewrite elem_of_visit, elem_of_map_to_list.
Qed.

Lemma tick_command env s cmd :
  expiryTick env s = Some cmd ->
  Kind cmd = CommandLeaseExpiry ∧ ClientID cmd = 0 ∧ IsDuplicate cmd = false ∧
  LeaseIDs cmd = CheckExpiredLeases (env_ord env) (env_now env) (ds (rep s)).
Proof. unfold expiryTick. case_match; [done|]. by intros [= <-]. Qed.

(** An expiry command is never taken for a duplicate. *)
Lemma apply_expiry env cmd r c r' :
  Kind cmd = CommandLeaseExpiry -> ClientID cmd = 0 -> IsDuplicate cmd = false ->
  applyCommand env cmd r = Ret (c, r') ->
  ds r' = (expireLeases (env_ord env) (LeaseIDs cmd) (ResultPairs cmd) (ds r)).2.
Proof.
  intros Hk Hc Hf Ha.
  assert (Hd: isDuplicate cmd r = false) by (unfold isDuplicate; by rewrite Hc).
  destruct (apply_fresh env cmd r c r' Hf Hd Ha) as (c0 & d & He & -> & _).
  unfold execCommand in He. rewrite Hk in He. destruct (expireLeases _ _ _ _). by simplify_eq.
Qed.

(** ** Properties *)

(** C22 (functional).  A tick of the expiry loop, applied at once, removes exactly what has
    expired: afterwards the leases are those whose deadline has not passed,
    unchanged, and a key is gone exactly when the lease that owns it has
    expired; keys without a lease are untouched. *)
Theorem expiry_is_exact env env' s cmd c r' :
  wf (ds (rep s)) -> expiryTick env s = Some cmd -> applyCommand env' cmd (rep s) = Ret (c, r') ->
  (∀ i, leases (ds r') !! i =
     match leases (ds (rep s)) !! i with
     | Some l => if decide (expired (env_now env) l) then None else Some l
     | None => None
     end) ∧
  (∀ k, data (ds r') !! k =
     match keyLease (ds (rep s)) !! k ≫= (λ i, leases (ds (rep s)) !! i) with
     | Some l => if decide (expired (env_now env) l) then None else data (ds (rep s)) !! k
     | None => data (ds (rep s)) !! k
     end).
Proof.
  intros Hwf Ht Ha. destruct (tick_command _ _ _ Ht) as (Hk & Hc & Hf & Hids).
  rewrite (apply_expiry env' cmd (rep s) c r' Hk Hc Hf Ha).
  destruct (expire_wf (env_ord env') (LeaseIDs cmd) (ResultPairs cmd) (ds (rep s)) Hwf) as [Hl Hd].
  assert (Hin: ∀ i l, leases (ds (rep s)) !! i = Some l -> (i ∈ LeaseIDs cmd <-> expired (env_now env) l)).
  { intros i l Hi. rewrite Hids, elem_of_expired. rewrite Hi. split; [|eauto].
    by intros (? & [= <-] & ?). }
  split.
  - intros i. rewrite Hl. destruct (leases (ds (rep s)) !! i) as [l|] eqn:E; [|by case_decide].
    by apply decide_ext, Hin.
  - intros k. rewrite Hd. unfold unlessOwned. destruct (keyLease (ds (rep s)) !! k) as [i|] eqn:E; [|done].
    simpl. apply (wf_assoc _ Hwf) in E as (l & El & _). rewrite El. by apply decide_ext, Hin.
Qed.

(** C37 (error).  A renewal does not stop an expiry that is under way: when a lease is kept
    alive after the tick that found it expired and before the tick's command is
    applied, the command still removes it and all the keys attached to it,
    whatever its new deadline. *)
Theorem renewal_does_not_stop_expiry env env' s cmd i now r c r' :
  expiryTick env s = Some cmd -> i ∈ LeaseIDs cmd -> wf (ds r) ->
  let renewed := set_ds r (KeepAliveLease now i (ds r)).2 in
  applyCommand env' cmd renewed = Ret (c, r') ->
  leases (ds r') !! i = None ∧
  ∀ k, keyLease (ds renewed) !! k = Some i -> data (ds r') !! k = None.
Proof.
  intros Ht Hi Hwf renewed Ha. destruct (tick_command _ _ _ Ht) as (Hk & Hc & Hf & _).
  rewrite (apply_expiry env' cmd renewed c r' Hk Hc Hf Ha).
  assert (Hwf1: wf (ds renewed)) by (by apply (wf_KeepAliveLease now i)).
  destruct (expire_wf (env_ord env') (LeaseIDs cmd) (ResultPairs cmd) (ds renewed) Hwf1) as [Hl Hd].
  split; [by rewrite Hl, decide_True|]. intros k Hk'. rewrite Hd, Hk'. simpl. by rewrite decide_True.
Qed.

(** The lease a grant made, at a time. *)
Lemma granted_expired now ttl d ord t :
  (GrantLease now ttl d).1 ∈ CheckExpiredLeases ord t (GrantLease now ttl d).2 <->
    now + ttlDuration ttl < t.
Proof.
  rewrite elem_of_expired. unfold GrantLease. simpl. rewrite lookup_insert_eq. unfold expired. simpl.
  split; [by intros (? & [= <-] & ?)|]. intros. by eexists.
Qed.

(** C36 (bounds).  The deadline of a lease, for every TTL an int64 can hold.  Up to 9223372036
    seconds in either direction the lease is expired exactly after that many
    seconds, so at once when the TTL is negative.  Beyond that the product
    with the nanoseconds of a second wraps around: a lease with a larger
    TTL is expired at the latest 2^64 nanoseconds before the time it was
    asked for, and with a TTL of up to 18446744073 the moment it is
    granted; one with a smaller negative TTL is not expired before 2^64
    nanoseconds after it. *)
Theorem lease_deadline now ttl d :
  let '(i, d') := GrantLease now ttl d in
  (-9223372036 <= ttl <= 9223372036 ->
     ∀ ord t, i ∈ CheckExpiredLeases ord t d' <-> now + ttl * 1000000000 < t) ∧
  (9223372036 < ttl <= int64_max ->
     ∀ ord t, now + ttl * 1000000000 - 2 ^ 64 < t -> i ∈ CheckExpiredLeases ord t d') ∧
  (9223372036 < ttl <= 18446744073 -> ∀ ord, i ∈ CheckExpiredLeases ord now d') ∧
  (int64_min <= ttl < -9223372036 ->
     ∀ ord t, t <= now + ttl * 1000000000 + 2 ^ 64 -> i ∉ CheckExpiredLeases ord t d').
Proof.
  rewrite (surjective_pairing (GrantLease now ttl d)). cbv beta iota.
  unfold int64_min, int64_max. pose proof (wrap64_range (ttl * 1000000000)) as Hr.
  unfold in_int64, int64_min, int64_max in Hr.
  destruct (wrap64_shift (ttl * 1000000000)) as [k Hk].
  split_and!; intros Httl; intros; rewrite granted_expired; unfold ttlDuration; rewrite Hk in *; lia.
Qed.

(** *** Witnesses *)

(** A service with lease 1, which owns "a" and expires at 10, and a free key "b". *)
Definition lease_service : KVService :=
  set_rep (mkReplicated (mkDataStore {["a" := "1"; "b" := "2"]} {[1 := mkLease 1 5 10 {["a"]}]}
    {["a" := 1]} 1) ∅ 0) sample_service.

Lemma lease_service_wf : wf (ds (rep lease_service)).
Proof.
  split; simpl.
  - intros k i. rewrite lookup_singleton_Some. split.
    + intros [<- <-]. exists (mkLease 1 5 10 {["a"]}). split; [done|]. simpl. set_solver.
    + intros (l & [<- <-]%lookup_singleton_Some & Hk). simpl in Hk. set_solver.
  - intros k i [<- <-]%lookup_singleton_Some. by eexists.
  - intros i l [<- <-]%lookup_singleton_Some. split; [done|lia].
  - unfold int64_max. lia.
Qed.

Definition lease_tick : Command :=
  mkCommand CommandLeaseExpiry "" "" "" "" false None 0 None None 0 0 [1] 0 "" 0 0 0 false.

Lemma expiry_is_exact_witness :
  ∃ c r', applyCommand env0 lease_tick (rep lease_service) = Ret (c, r') ∧
    leases (ds r') !! 1 = None ∧ data (ds r') !! "a" = None ∧ data (ds r') !! "b" = Some "2".
Proof.
  destruct (applyCommand env0 lease_tick (rep lease_service)) as [[c r']| |] eqn:E;
    [|by vm_compute in E..]. exists c, r'. split; [done|].
  destruct (expiry_is_exact (mkEnv 11 in_order) env0 lease_service lease_tick c r' lease_service_wf
    ltac:(by vm_compute) E) as [Hl Hd].
  rewrite Hl, !Hd. by vm_compute.
Defined.

Lemma renewal_does_not_stop_expiry_witness :
  ∃ c r', applyCommand env0 lease_tick
      (set_ds (rep lease_service) (KeepAliveLease 11 1 (ds (rep lease_service))).2) = Ret (c, r') ∧
    leases (ds r') !! 1 = None.
Proof.
  destruct (applyCommand env0 lease_tick (set_ds (rep lease_service)
    (KeepAliveLease 11 1 (ds (rep lease_service))).2)) as [[c r']| |] eqn:E;
    [|by vm_compute in E..]. exists c, r'. split; [done|].
  apply (renewal_does_not_stop_expiry (mkEnv 11 in_order) env0 lease_service lease_tick 1 11
    (rep lease_service) c r' ltac:(by vm_compute) ltac:(left) lease_service_wf E).
Defined.
