(* ===== verification/Commits.v ===== *)
(** * What a waiting handler receives

    Runs of one node: the apply loop, the handlers that subscribe to an index
    and receive from their channel, and everything else, in any interleaving.
    A run carries the list of its events; the invariant ([accounted]) says, for
    every channel that was made, which index it was made for and what has
    happened at that index since. *)

From S2P Require Import Prelude GoLib Api DataStore StoreSpec Command StateMachine Replication Watch WatchLog Codec Snapshot Peers KVService.
Import EventBuffer WatchSubs.

(** ** Events and runs *)

Inductive nevent :=
| EvSubscribe (index : Z) (ref : nat)
| EvApply (index : Z) (cmd result : Command)
| EvSnapshot (index : Z)
| EvReceive (ref : nat) (o : option Command)
| EvSubmit (cmd : Command) (index : Z)
| EvOther.

Section runs.
Context `{Codec kvSnapshot}.

Inductive nstep : KVService -> nevent -> KVService -> Prop :=
| n_subscribe i ref s s' :
    createCommitSubscription i s = Ret (ref, s') -> nstep s (EvSubscribe i ref) s'
| n_apply env cmd i term call cmd' s s' :
    submitted cmd -> leaseIDSeq (ds (rep s)) < int64_max ->
    handleCommand env cmd i term s = Ret (call, s') ->
    applyCommand env cmd (rep s) = Ret (cmd', rep s') -> nstep s (EvApply i cmd cmd') s'
| n_snapshot ord i data snap s s' :
    decodeSnapshot data = Some snap -> wf (ds (restoreSnapshot snap (rep s))) ->
    handleSnapshot ord i data s = Ret (tt, s') -> nstep s (EvSnapshot i) s'
| n_receive ref o s s' : recvFrom ref s = Ret (o, s') -> nstep s (EvReceive ref o) s'
| n_idle s : nstep s EvOther s
| n_delay b s : nstep s EvOther (set_delay b s)
| n_book b s : nstep s EvOther (set_book b s)
| n_watch w s : wfw w -> nstep s EvOther (set_watch w s)
| n_submit cmd i s : nstep s (EvSubmit cmd i) s.

Inductive nrun (s0 : KVService) : list nevent -> KVService -> Prop :=
| nrun_nil : nrun s0 [] s0
| nrun_snoc es s e s' : nrun s0 es s -> nstep s e s' -> nrun s0 (es ++ [e]) s'.

(** ** The invariant *)

(** Nothing has happened at index [i]. *)
Definition untouched (i : Z) (e : nevent) : Prop :=
  match e with EvApply j _ _ => j ≠ i | EvSnapshot j => j < i | _ => True end.

(** What became of the channel [ref], made for index [i], in the events since. *)
Inductive fate (s : KVService) (i : Z) (ref : nat) : list nevent -> Chan.chan Command -> Prop :=
| fate_waiting post :
    commitSubs s !! i = Some ref -> Forall (untouched i) post ->
    fate s i ref post (Chan.mkChan 1 [] false)
| fate_answered mid cmd c post :
    Forall (untouched i) mid -> fate s i ref (mid ++ EvApply i cmd c :: post) (notified c)
| fate_received mid cmd c post :
    Forall (untouched i) mid -> fate s i ref (mid ++ EvApply i cmd c :: post) closedEmpty
| fate_cancelled mid j post :
    Forall (untouched i) mid -> i <= j -> fate s i ref (mid ++ EvSnapshot j :: post) closedEmpty.

Record accounted (es : list nevent) (s : KVService) : Prop := {
  acc_wfs : wfs s;
  acc_chan ref ch : chans s !! ref = Some ch ->
    ∃ i pre post, es = pre ++ EvSubscribe i ref :: post ∧ fate s i ref post ch }.

(** A closed channel keeps its fate whatever happens. *)
Lemma fate_more s s' i ref post ch e :
  fate s i ref post ch -> Chan.closed ch = true -> fate s' i ref (post ++ [e]) ch.
Proof.
  intros [post' ? ?|mid cmd c post' ?|mid cmd c post' ?|mid j post' ? ?] Hcl; [done|..];
    rewrite <-app_assoc; simpl; by econstructor.
Qed.

(** An open channel does too when the event does not touch its index. *)
Lemma fate_wait s s' i ref post ch e :
  fate s i ref post ch -> Chan.closed ch = false -> commitSubs s' !! i = commitSubs s !! i ->
  untouched i e -> fate s' i ref (post ++ [e]) ch.
Proof.
  intros [post' ? ?|mid cmd c post' ?|mid cmd c post' ?|mid j post' ? ?] Hcl Hs He; [|done..].
  constructor; [by rewrite Hs|]. apply Forall_app. split; [done|by constructor].
Qed.

Lemma fate_open s i ref post ch :
  fate s i ref post ch -> Chan.closed ch = false ->
  ch = Chan.mkChan 1 [] false ∧ commitSubs s !! i = Some ref ∧ Forall (untouched i) post.
Proof. by destruct 1. Qed.

(** *** Steps *)

Lemma recv_waiting s i ref : wfs s -> commitSubs s !! i = Some ref -> recvFrom ref s = Block.
Proof. intros Hs Hi. unfold recvFrom, onChan. by rewrite (wfs_sub _ Hs _ _ Hi). Qed.

Lemma receive_eq ref o s s' :
  recvFrom ref s = Ret (o, s') ->
  ∃ ch ch', chans s !! ref = Some ch ∧ Chan.recv ch = Ret (o, ch') ∧
    s' = set_chans (<[ref := ch']> (chans s)) s.
Proof.
  unfold recvFrom, onChan. intros Hr. destruct (chans s !! ref) as [ch|]; [|done].
  destruct (Chan.recv ch) as [[o' ch']| |] eqn:E; simpl in Hr; [|done..]. injection Hr as -> <-. eauto.
Qed.

Lemma nstep_wfs s e s' : nstep s e s' -> wfs s -> wfs s'.
Proof.
  intros Hn Hs. destruct Hn as [i ref s s' Hc|env cmd i term call cmd' s s' Hsub Hseq Hh Ha
    |ord i data snap s s' Hd Hwf Hh|ref o s s' Hr|s|b s|b s|w s Hw|cmd i s].
  - rewrite create_eq in Hc by done. case_match; simplify_eq. by apply wfs_subscribed.
  - destruct (wfs_handleCommand env cmd i term s Hs Hsub Hseq) as (c2 & s2 & Hh2 & Hs2 & _).
    rewrite Hh in Hh2. by injection Hh2 as <- <-.
  - destruct (wfs_handleSnapshot ord i data s Hs) as (s2 & Hh2 & Hs2); [by intros ? [= <-]%(eq_trans (eq_sym Hd))|].
    rewrite Hh in Hh2. by injection Hh2 as <-.
  - destruct (receive_eq _ _ _ _ Hr) as (ch & ch' & Hch & Hrecv & ->).
    split; simpl; try apply Hs. intros j ref' Hj. pose proof (wfs_sub _ Hs _ _ Hj).
    rewrite list_lookup_insert_ne; [done|]. intros ->. by simplify_eq.
  - done.
  - split; apply Hs.
  - split; apply Hs.
  - split; simpl; try apply Hs. done.
  - done.
Qed.

Lemma nstep_waiting s e s' i ref :
  nstep s e s' -> wfs s -> untouched i e -> commitSubs s !! i = Some ref ->
  commitSubs s' !! i = Some ref.
Proof.
  intros Hn Hs Hu Hi. destruct Hn as [j ref' s s' Hc|env cmd j term call cmd' s s' Hsub Hseq Hh Ha
    |ord j data snap s s' Hd Hwf Hh|ref' o s s' Hr|s|b s|b s|w s Hw|cmd j s]; simpl in Hu; try done.
  - rewrite create_eq in Hc by done. case_match; simplify_eq. simpl.
    rewrite lookup_insert_ne; [done|]. congruence.
  - destruct (handleCommand_effect env cmd j term s Hs Hsub)
      as (cmd2 & es & call2 & s2 & Hh2 & _ & _ & _ & Hsubs & _).
    rewrite Hh in Hh2. injection Hh2 as <- <-. rewrite Hsubs. by rewrite lookup_delete_ne.
  - destruct (handleSnapshot_eq ord j data snap s Hs Hd) as (h & t & Hh2 & Ht & _).
    rewrite Hh in Hh2. injection Hh2 as ->. simpl. by rewrite Ht, decide_False by lia.
  - by destruct (receive_eq _ _ _ _ Hr) as (ch & ch' & _ & _ & ->).
Qed.

(** A channel that a step leaves alone. *)
Lemma acc_keep es s s' e ref ch :
  accounted es s -> chans s !! ref = Some ch ->
  (∀ i, commitSubs s !! i = Some ref -> commitSubs s' !! i = Some ref ∧ untouched i e) ->
  ∃ i pre post, es ++ [e] = pre ++ EvSubscribe i ref :: post ∧ fate s' i ref post ch.
Proof.
  intros Hacc Hch Hkeep. destruct (acc_chan _ _ Hacc _ _ Hch) as (i & pre & post & -> & Hf).
  exists i, pre, (post ++ [e]). split; [by rewrite <-app_assoc|].
  destruct (Chan.closed ch) eqn:Hcl; [by eapply fate_more|].
  destruct (fate_open _ _ _ _ _ Hf Hcl) as (_ & Hi & _). destruct (Hkeep i Hi) as [Hi' Hu].
  eapply fate_wait; [done..| |done]. by rewrite Hi.
Qed.

(** The channel of a subscription, at a step that touches its index. *)
Lemma acc_touch es s s' e ref i ch' :
  accounted es s -> commitSubs s !! i = Some ref ->
  (∀ post, Forall (untouched i) post -> fate s' i ref (post ++ [e]) ch') ->
  ∃ j pre post, es ++ [e] = pre ++ EvSubscribe j ref :: post ∧ fate s' j ref post ch'.
Proof.
  intros Hacc Hi Hnew. pose proof (acc_wfs _ _ Hacc) as Hs. pose proof (wfs_sub _ Hs _ _ Hi) as Hch.
  destruct (acc_chan _ _ Hacc _ _ Hch) as (j & pre & post & -> & Hf).
  destruct (fate_open _ _ _ _ _ Hf eq_refl) as (_ & Hj & Hu).
  rewrite (wfs_inj _ Hs _ _ _ Hj Hi) in Hu.
  exists i, pre, (post ++ [e]). split; [|by apply Hnew].
  by rewrite (wfs_inj _ Hs _ _ _ Hj Hi), <-app_assoc.
Qed.

Lemma accounted_apply es s s' env cmd i term call cmd' :
  accounted es s -> submitted cmd -> handleCommand env cmd i term s = Ret (call, s') ->
  applyCommand env cmd (rep s) = Ret (cmd', rep s') ->
  ∀ ref ch, chans s' !! ref = Some ch ->
  ∃ j pre post, es ++ [EvApply i cmd cmd'] = pre ++ EvSubscribe j ref :: post ∧ fate s' j ref post ch.
Proof.
  intros Hacc Hsub Hh Ha ref ch Hch. pose proof (acc_wfs _ _ Hacc) as Hs.
  destruct (handleCommand_effect env cmd i term s Hs Hsub)
    as (cmd2 & evs & call2 & s2 & Hh2 & Ha2 & Hnot & Hoth & Hsubs & _).
  rewrite Hh in Hh2. injection Hh2 as <- <-. rewrite Ha in Ha2. injection Ha2 as <-.
  destruct (decide (commitSubs s !! i = Some ref)) as [Hi|Hi].
  - rewrite (Hnot ref Hi) in Hch. injection Hch as <-. eapply acc_touch; [done..|].
    intros post Hu. by apply (fate_answered _ _ _ post cmd cmd' []).
  - rewrite (Hoth ref Hi) in Hch. eapply acc_keep; [done..|]. intros j Hj. simpl.
    assert (i ≠ j) by congruence. by rewrite Hsubs, lookup_delete_ne.
Qed.

Lemma accounted_snapshot es s s' ord i data snap :
  accounted es s -> decodeSnapshot data = Some snap -> handleSnapshot ord i data s = Ret (tt, s') ->
  ∀ ref ch, chans s' !! ref = Some ch ->
  ∃ j pre post, es ++ [EvSnapshot i] = pre ++ EvSubscribe j ref :: post ∧ fate s' j ref post ch.
Proof.
  intros Hacc Hd Hh ref ch Hch. pose proof (acc_wfs _ _ Hacc) as Hs.
  destruct (handleSnapshot_eq ord i data snap s Hs Hd) as (h & t & Hh2 & Ht & Hin & Hout).
  rewrite Hh in Hh2. injection Hh2 as ->. simpl in Hch.
  destruct (decide (map_Exists (λ _ r, r = ref) (commitSubs s))) as [(j & r & Hj & ->)|Hno].
  - rewrite (Hin _ _ Hj) in Hch. case_decide as Hle.
    + injection Hch as <-. eapply acc_touch; [done..|]. intros post Hu.
      by apply (fate_cancelled _ _ _ post i []).
    + eapply acc_keep; [done..|]. intros j' Hj'. rewrite <-(wfs_inj _ Hs _ _ _ Hj Hj').
      simpl. rewrite Ht, decide_False by done. split; [done|lia].
  - assert (Hn: ∀ j, commitSubs s !! j ≠ Some ref).
    { intros j Hj. apply Hno. by exists j, ref. }
    rewrite (Hout ref Hn) in Hch. eapply acc_keep; [done..|]. intros j Hj. by destruct (Hn j).
Qed.

Lemma accounted_receive es s ref o ch ch' :
  accounted es s -> chans s !! ref = Some ch -> Chan.recv ch = Ret (o, ch') ->
  ∃ j pre post, es ++ [EvReceive ref o] = pre ++ EvSubscribe j ref :: post ∧
    fate (set_chans (<[ref := ch']> (chans s)) s) j ref post ch'.
Proof.
  intros Hacc Hch Hr. destruct (acc_chan _ _ Hacc _ _ Hch) as (i & pre & post & -> & Hf).
  exists i, pre, (post ++ [EvReceive ref o]). split; [by rewrite <-app_assoc|].
  destruct Hf as [post ? ?|mid cmd c post ?|mid cmd c post ?|mid j post ? ?];
    unfold Chan.recv in Hr; simpl in Hr; simplify_eq; rewrite <-app_assoc; simpl.
  - by apply fate_received.
  - by apply fate_received.
  - by apply fate_cancelled.
Qed.

Lemma accounted_step es s e s' : accounted es s -> nstep s e s' -> accounted (es ++ [e]) s'.
Proof.
  intros Hacc Hn. pose proof (acc_wfs _ _ Hacc) as Hs. split; [by eapply nstep_wfs|].
  destruct Hn as [i ref s s' Hc|env cmd i term call cmd' s s' Hsub Hseq Hh Ha
    |ord i data snap s s' Hd Hwf Hh|ref o s s' Hr|s|b s|b s|w s Hw|cmd i s]; intros ref' ch Hch.
  - rewrite create_eq in Hc by done. destruct (commitSubs s !! i) eqn:Hi; [done|].
    injection Hc as <- <-. simpl in Hch. apply lookup_snoc_Some in Hch as [[Hlt Hch]|[-> <-]].
    + eapply acc_keep; [done..|]. intros j Hj. simpl. split; [|done].
      rewrite lookup_insert_ne; [done|congruence].
    + exists i, es, []. split; [done|]. apply fate_waiting; [|constructor]. simpl. apply lookup_insert_eq.
  - by eapply accounted_apply.
  - by eapply accounted_snapshot.
  - destruct (receive_eq _ _ _ _ Hr) as (ch0 & ch' & Hch0 & Hrecv & ->). simpl in Hch.
    destruct (decide (ref = ref')) as [<-|Hne].
    + rewrite list_lookup_insert_eq in Hch by (by eapply lookup_lt_Some). injection Hch as <-.
      by eapply accounted_receive.
    + rewrite list_lookup_insert_ne in Hch by done. by eapply acc_keep.
  - by eapply acc_keep.
  - by eapply acc_keep.
  - by eapply acc_keep.
  - by eapply acc_keep.
  - by eapply acc_keep.
Qed.

Lemma accounted_run s0 es s :
  wfs s0 -> chans s0 = [] -> nrun s0 es s -> accounted es s.
Proof.
  intros Hs Hch Hr. induction Hr as [|es s e s' Hr IH Hn]; [|by eapply accounted_step].
  split; [done|]. intros ref ch. by rewrite Hch.
Qed.

Lemma run_waiting s i ref es s' :
  wfs s -> commitSubs s !! i = Some ref -> nrun s es s' -> Forall (untouched i) es ->
  wfs s' ∧ commitSubs s' !! i = Some ref.
Proof.
  intros Hs Hi. induction 1 as [|es s1 e s' Hr IH Hn]; [done|].
  intros [Hes [He _]%Forall_cons]%Forall_app.
  destruct (IH Hes) as [Hs1 Hi1]. split; [by eapply nstep_wfs|by eapply nstep_waiting].
Qed.

(** What a receive tells about the events before it: the channel was made for some index,
    and what came first at that index decides what is received. *)
Lemma receive_cause s0 es ref o s :
  wfs s0 -> chans s0 = [] -> nrun s0 (es ++ [EvReceive ref o]) s ->
  ∃ i e pre mid post,
    es = pre ++ EvSubscribe i ref :: mid ++ e :: post ∧ Forall (untouched i) mid ∧
    ¬ untouched i e ∧ ∀ c, o = Some c -> ∃ cmd, e = EvApply i cmd c.
Proof.
  intros Hs Hch Hr. inversion Hr as [Heq|es' s1 e s' Hr1 Hn Heq]; [by destruct es|].
  apply app_inj_tail in Heq as [-> ->]. pose proof (accounted_run _ _ _ Hs Hch Hr1) as Hacc.
  inversion Hn as [| | |ref' o' t t' Hrecv| | | | |]; subst.
  destruct (receive_eq _ _ _ _ Hrecv) as (ch & ch' & Hc & Hv & _).
  destruct (acc_chan _ _ Hacc _ _ Hc) as (i & pre & post & -> & Hf).
  destruct Hf as [? ? ?|mid cmd c' post ?|mid cmd c' post ?|mid j post ? ?]; unfold Chan.recv in Hv; simplify_eq/=.
  - exists i, (EvApply i cmd c'), pre, mid, post. split_and!; [done..|simpl; tauto|].
    intros c [= ->]. by exists cmd.
  - exists i, (EvApply i cmd c'), pre, mid, post. by split_and!; [..|simpl; tauto|].
  - exists i, (EvSnapshot j), pre, mid, post. split_and!; [done..|simpl; lia|done].
Qed.

(** *** Every subscription has a channel of its own *)

Definition subRef (e : nevent) : option nat :=
  match e with EvSubscribe _ ref => Some ref | _ => None end.

Lemma nstep_chans s e s' :
  wfs s -> nstep s e s' ->
  (length (chans s) <= length (chans s'))%nat ∧
  ∀ ref, subRef e = Some ref -> ref = length (chans s) ∧ (length (chans s) < length (chans s'))%nat.
Proof.
  intros Hs Hn.
  assert (Hle: ∀ h : list (Chan.chan Command), (∀ ref, is_Some (chans s !! ref) -> is_Some (h !! ref)) ->
    (length (chans s) <= length h)%nat).
  { intros h Hh. destruct (decide (length (chans s) <= length h)%nat); [done|].
    destruct (Hh (length h)) as [x Hx]; [apply lookup_lt_is_Some; lia|]. apply lookup_lt_Some in Hx. lia. }
  destruct Hn as [i ref s s' Hc|env cmd i term call cmd' s s' Hsub Hseq Hh Ha
    |ord i data snap s s' Hd Hwf Hh|ref o s s' Hr|s|b s|b s|w s Hw|cmd i s]; try by split.
  - rewrite create_eq in Hc by done. case_match; [done|]. injection Hc as <- <-. simpl.
    rewrite length_app. simpl. split; [lia|]. intros r [= <-]. lia.
  - split; [|done]. destruct (handleCommand_effect env cmd i term s Hs Hsub)
      as (cmd2 & evs & call2 & s2 & Hh2 & Ha2 & Hnot & Hoth & _).
    rewrite Hh in Hh2. injection Hh2 as <- <-. apply Hle. intros r Hr.
    destruct (decide (commitSubs s !! i = Some r)) as [Hi|Hi]; [by rewrite (Hnot r Hi)|by rewrite (Hoth r Hi)].
  - split; [|done]. destruct (handleSnapshot_eq ord i data snap s Hs Hd) as (h & t & Hh2 & _ & Hin & Hout).
    rewrite Hh in Hh2. injection Hh2 as ->. simpl. apply Hle. intros r Hr.
    destruct (decide (map_Exists (λ _ r', r' = r) (commitSubs s))) as [(j & r' & Hj & ->)|Hno].
    + rewrite (Hin _ _ Hj). case_decide; eauto.
    + rewrite Hout; [done|]. intros j Hj. apply Hno. by exists j, r.
  - destruct (receive_eq _ _ _ _ Hr) as (ch & ch' & _ & _ & ->). simpl. by rewrite length_insert.
Qed.

Lemma nrun_refs s0 es s :
  wfs s0 -> nrun s0 es s ->
  wfs s ∧ NoDup (omap subRef es) ∧ ∀ ref, ref ∈ omap subRef es -> (ref < length (chans s))%nat.
Proof.
  intros Hs0 Hr. induction Hr as [|es s e s' Hr (Hw & Hnd & Hlt) Hn].
  { split_and!; [done|constructor|]. by intros ref ?%elem_of_nil. }
  destruct (nstep_chans _ _ _ Hw Hn) as [Hlen Hnew]. split; [by eapply nstep_wfs|].
  rewrite omap_app. simpl. destruct (subRef e) as [ref|] eqn:E; simpl; rewrite ?app_nil_r.
  - destruct (Hnew ref eq_refl) as [-> Hlt']. split.
    + apply NoDup_app. split_and!; [done| |apply NoDup_singleton].
      intros r Hin ->%list_elem_of_singleton. apply Hlt in Hin. lia.
    + intros r [Hin|Hin]%elem_of_app; [apply Hlt in Hin; lia|]. by apply list_elem_of_singleton in Hin as ->.
  - split; [done|]. intros r Hin. apply Hlt in Hin. lia.
Qed.

(** So a run has one subscription per reference. *)
Lemma subscription_unique s0 es s i j ref pre post pre' post' :
  wfs s0 -> nrun s0 es s -> es = pre ++ EvSubscribe i ref :: post -> es = pre' ++ EvSubscribe j ref :: post' ->
  pre = pre' ∧ i = j ∧ post = post'.
Proof.
  intros Hs Hr -> Heq. destruct (nrun_refs _ _ _ Hs Hr) as (_ & Hnd & _). clear Hr.
  revert pre' Heq Hnd. induction pre as [|e pre IH]; intros [|e' pre'] Heq Hnd; simplify_eq/=.
  - done.
  - apply NoDup_cons in Hnd as [Hn _]. destruct Hn. rewrite omap_app, elem_of_app. right. simpl. by left.
  - apply NoDup_cons in Hnd as [Hn _]. destruct Hn. rewrite omap_app, elem_of_app. right. simpl. by left.
  - destruct (IH pre') as (-> & -> & ->); [done| |done].
    destruct (subRef e'); [by apply NoDup_cons in Hnd as [_ ?]|done].
Qed.

(** ** Properties *)

(** A handler never receives a wrong or invented result: in every
    interleaving, what a handler gets from its channel is the result of the
    first command that was applied at the index it subscribed to after it
    subscribed, with nothing in between that cancels the subscription. *)
Theorem received_is_applied s0 es ref c s :
  wfs s0 -> chans s0 = [] -> nrun s0 (es ++ [EvReceive ref (Some c)]) s ->
  ∃ i cmd pre mid post,
    es = pre ++ EvSubscribe i ref :: mid ++ EvApply i cmd c :: post ∧ Forall (untouched i) mid.
Proof.
  intros Hs Hch Hr. destruct (receive_cause _ _ _ _ _ Hs Hch Hr) as (i & e & pre & mid & post & -> & Hm & _ & Hc).
  destruct (Hc c eq_refl) as [cmd ->]. by exists i, cmd, pre, mid, post.
Qed.

(** A subscription waits until its index is touched: in every run in
    which no command is applied at the index and no snapshot covers it, a
    receive blocks and the subscription stays in the table.  In
    particular a handler that subscribes after its command was applied waits
    until its request ends. *)
Theorem waits_until_touched s i ref es s' :
  wfs s -> commitSubs s !! i = Some ref -> nrun s es s' -> Forall (untouched i) es ->
  commitSubs s' !! i = Some ref ∧ recvFrom ref s' = Block.
Proof.
  intros Hs Hi Hr Hes. destruct (run_waiting _ _ _ _ _ Hs Hi Hr Hes) as [Hs' Hi'].
  split; [done|by eapply recv_waiting].
Qed.

(** The subscription of a handler whose request ended stays in the
    table until its index is touched, and until then no other handler of this
    node can subscribe to the same index: the attempt panics. *)
Theorem resubscribing_panics s i ref es s' :
  wfs s -> commitSubs s !! i = Some ref -> nrun s es s' -> Forall (untouched i) es ->
  createCommitSubscription i s' = Panic "duplicate commit subscription".
Proof.
  intros Hs Hi Hr Hes. destruct (run_waiting _ _ _ _ _ Hs Hi Hr Hes) as [Hs' Hi'].
  by rewrite create_eq, Hi'.
Qed.
End runs.

(** *** Witnesses *)

Section commit_samples.
#[local] Instance sample_snapshot_codec : Codec kvSnapshot := sample_codec.

Definition sample_put : Command := putCommand 1 1 "k" "v" 0.
Definition waiting_service : KVService := subscribed 3 sample_service.

Lemma waiting_wfs : wfs waiting_service.
Proof. apply wfs_subscribed; [apply sample_service_wfs|done]. Qed.

(** Subscribe to index 3, apply a put there, receive. *)
Lemma sample_run :
  ∃ c s, nrun sample_service [EvSubscribe 3 0; EvApply 3 sample_put c; EvReceive 0 (Some c)] s.
Proof.
  destruct (handleCommand_effect env0 sample_put 3 1 waiting_service waiting_wfs)
    as (c & evs & call & s1 & Hh & Ha & Hn & _); [by repeat split|].
  eexists c, _. apply (nrun_snoc _ [EvSubscribe 3 0; EvApply 3 sample_put c] s1).
  - apply (nrun_snoc _ [EvSubscribe 3 0] waiting_service).
    + apply (nrun_snoc _ [] sample_service); [constructor|]. by apply n_subscribe.
    + by eapply n_apply; [by repeat split|..|done|done].
  - apply n_receive. unfold recvFrom, onChan. rewrite (Hn 0%nat eq_refl). simpl. reflexivity.
Qed.

Lemma received_is_applied_witness :
  ∃ c i cmd pre mid post,
    [EvSubscribe 3 0; EvApply 3 sample_put c] =
      pre ++ EvSubscribe i 0 :: mid ++ EvApply i cmd c :: post ∧ Forall (untouched i) mid.
Proof.
  destruct sample_run as (c & s & Hr). exists c.
  apply (received_is_applied sample_service [EvSubscribe 3 0; EvApply 3 sample_put c] 0 c s
    sample_service_wfs eq_refl Hr).
Defined.

(** A later command is applied at index 4; the handler for index 3 still waits. *)
Lemma sample_wait : ∃ c s, nrun waiting_service [EvApply 4 sample_put c] s.
Proof.
  destruct (handleCommand_effect env0 sample_put 4 1 waiting_service waiting_wfs)
    as (c & evs & call & s1 & Hh & Ha & _); [by repeat split|].
  exists c, s1. apply (nrun_snoc _ [] waiting_service); [constructor|].
  by eapply n_apply; [by repeat split|..|done|done].
Qed.

Lemma waits_until_touched_witness :
  ∃ s', commitSubs s' !! 3 = Some 0%nat ∧ recvFrom 0 s' = Block.
Proof.
  destruct sample_wait as (c & s' & Hr). exists s'.
  apply (waits_until_touched waiting_service 3 0 _ s' waiting_wfs eq_refl Hr). by repeat constructor.
Defined.

Lemma resubscribing_panics_witness :
  ∃ s', createCommitSubscription 3 s' = Panic "duplicate commit subscription".
Proof.
  destruct sample_wait as (c & s' & Hr). exists s'.
  apply (resubscribing_panics waiting_service 3 0 _ s' waiting_wfs eq_refl Hr). by repeat constructor.
Defined.
End commit_samples.
