(* ===== verification/Handlers.v ===== *)
(** * The HTTP handlers of [src/kvservice/kvservice.go] and [json.go]

    A handler runs concurrently with the apply loop and with other handlers, so
    it is a program ([prog]) whose steps interleave with theirs: an atomic
    action on the service, a call into the Raft library or the network, whose
    answer is not determined by the sources, or the [select] on its commit
    channel and the end of its request.  [pstep] is one step of a program; [hrun]
    interleaves it with the rest of the node.

    The file models the nine key-value and lease handlers and the four
    cluster handlers, and [routes], the table of [ServeHTTP]. *)

From S2P Require Import Prelude GoLib Api DataStore StoreSpec Command StateMachine Replication Watch WatchLog Codec Snapshot Peers KVService Commits.
Import EventBuffer WatchSubs.

(** ** Programs *)

(** Calls whose answers come from outside the sources. *)
Inductive external : Type -> Type :=
| Submit (cmd : Command) : external Z
| IsLeader : external bool
| ResolveTCPAddr (addr : string) : external (option string)
| ConnectToPeer (peer : Z) (addr : string) : external (option string)
| AddPeer (peer : Z) (addr : string) : external bool
| RemovePeer (peer : Z) : external bool.

Inductive prog (R : Type) : Type :=
| Done (r : R)
| Do {B : Type} (m : M B) (k : B -> prog R)
| Call {B : Type} (c : external B) (k : B -> prog R)
| Subscribe (index : Z) (k : nat -> prog R)
| Select (ref : nat) (k : option (option Command) -> prog R).
Arguments Done {R} r.
Arguments Do {R B} m k.
Arguments Call {R B} c k.
Arguments Subscribe {R} index k.
Arguments Select {R} ref k.

(** The answers of the external calls. *)
Definition oracle : Type := ∀ B, external B -> B.

(** The event of a call: the index [Submit] gave to a command is recorded. *)
Definition callEvent {B} (c : external B) : B -> nevent :=
  match c with Submit cmd => λ index, EvSubmit cmd index | _ => λ _, EvOther end.

(** One step of a program, with the event it causes; [ctxDone] when the request
    has ended, which a [select] may notice.  A finished program does not step. *)
Definition pstep {R} (answer : oracle) (ctxDone : bool) (s : KVService) (p : prog R)
    : go (nevent * KVService * prog R) :=
  match p with
  | Done _ => Block
  | Do m k => let! q := m s in Ret (EvOther, q.2, k q.1)
  | Call c k => Ret (callEvent c (answer _ c), s, k (answer _ c))
  | Subscribe index k =>
      let! q := createCommitSubscription index s in Ret (EvSubscribe index q.1, q.2, k q.1)
  | Select ref k =>
      if ctxDone then Ret (EvOther, s, k None)
      else let! q := recvFrom ref s in Ret (EvReceive ref q.1, q.2, k (Some q.1))
  end.

(** ** Requests and replies *)

Record httpRequest := mkHttpRequest { contentType : string; body : bytes }.

(** What the client gets: a JSON body, an error text with its status code, or
    nothing when its request ended first. *)
Inductive reply (R : Type) : Type :=
| ReplyJSON (r : R)
| ReplyError (msg : string) (code : Z)
| ReplyNone.
Arguments ReplyJSON {R} r.
Arguments ReplyError {R} msg code.
Arguments ReplyNone {R}.

Definition StatusBadRequest : Z := 400.
Definition StatusInternalServerError : Z := 500.

(** [json.Decoder] with [DisallowUnknownFields], for one target type. *)
Class JSONDecode (A : Type) := json_decode : bytes -> string + A.
(** [mime.ParseMediaType]: the media type in lower case, or an error. *)
Class MediaTypes := ParseMediaType : string -> string + string.

Section handlers.
Context `{MediaTypes}.

Definition readRequestJSON {A} `{JSONDecode A} (req : httpRequest) : string + A :=
  match ParseMediaType (contentType req) with
  | inl err => inl err
  | inr mediaType =>
      if bool_decide (mediaType = "application/json") then json_decode (body req)
      else inl ("expect application/json Content-Type, got " +:+ mediaType)
  end.

(** The prologue of a handler: a request that cannot be read is refused. *)
Definition withRequest {A R} `{JSONDecode A} (req : httpRequest) (k : A -> prog (reply R))
    : prog (reply R) :=
  match readRequestJSON req with
  | inl err => Done (ReplyError err StatusBadRequest)
  | inr a => k a
  end.

(** [sendHTTPResponse]: the delay flag is for tests and is reset. *)
Definition sendHTTPResponse {R} (r : R) : prog (reply R) :=
  Do (modify (set_delay false)) (λ _, Done (ReplyJSON r)).

(** A panic in a handler: its goroutine ends without a reply. *)
Definition crash {R} (msg : string) : prog (reply R) :=
  Do (panic msg : M Empty_set) (λ e, match e with end).

(** ** Key-value and lease handlers

    The part the nine handlers share: submit, subscribe to the index, wait.
    [status] builds the reply that only has a status; [onCommit] is the branch for
    a command of this service. *)
Definition onReceive {R} (self : Z) (status : ResponseStatus -> R)
    (onCommit : Command -> prog (reply R)) (r : option (option Command)) : prog (reply R) :=
  match r with
  | None => Done ReplyNone
  | Some None => sendHTTPResponse (status StatusFailedCommit)
  | Some (Some commitCmd) =>
      if bool_decide (ServiceID commitCmd = self) then onCommit commitCmd
      else sendHTTPResponse (status StatusFailedCommit)
  end.

Definition awaitCommit {R} (self : Z) (status : ResponseStatus -> R)
    (onCommit : Command -> prog (reply R)) (sub : nat) : prog (reply R) :=
  Select sub (onReceive self status onCommit).

Definition afterSubmit {R} (self : Z) (status : ResponseStatus -> R)
    (onCommit : Command -> prog (reply R)) (index : Z) : prog (reply R) :=
  if index <? 0 then sendHTTPResponse (status StatusNotLeader)
  else Subscribe index (awaitCommit self status onCommit).

Definition submitAndWait {R} (cmd : Z -> Command) (status : ResponseStatus -> R)
    (onCommit : Command -> prog (reply R)) : prog (reply R) :=
  Do (gets id) (λ self, Call (Submit (cmd self)) (afterSubmit self status onCommit)).

Definition putCmd (pr : PutRequest) (self : Z) : Command :=
  mkCommand CommandPut (PutReq_Key pr) (PutReq_Value pr) "" "" false None 0 None None
    (PutReq_LeaseID pr) 0 [] 0 "" self (PutReq_ClientID pr) (PutReq_RequestID pr) false.

Definition putReply (commitCmd : Command) : PutResponse :=
  if IsDuplicate commitCmd then mkPutResponse StatusDuplicateRequest false "" 0
  else mkPutResponse StatusOK (ResultFound commitCmd) (ResultValue commitCmd) (Revision commitCmd).

Definition handlePut `{JSONDecode PutRequest} (req : httpRequest) : prog (reply PutResponse) :=
  withRequest req (λ pr,
    submitAndWait (putCmd pr) (λ st, mkPutResponse st false "" 0)
      (λ commitCmd, sendHTTPResponse (putReply commitCmd))).

Definition appendCmd (ar : AppendRequest) (self : Z) : Command :=
  mkCommand CommandAppend (AppendReq_Key ar) (AppendReq_Value ar) "" "" false None 0 None None
    0 0 [] 0 "" self (AppendReq_ClientID ar) (AppendReq_RequestID ar) false.

Definition appendReply (commitCmd : Command) : AppendResponse :=
  if IsDuplicate commitCmd then mkAppendResponse StatusDuplicateRequest false "" 0
  else mkAppendResponse StatusOK (ResultFound commitCmd) (ResultValue commitCmd)
         (Revision commitCmd).

Definition handleAppend `{JSONDecode AppendRequest} (req : httpRequest)
    : prog (reply AppendResponse) :=
  withRequest req (λ ar,
    submitAndWait (appendCmd ar) (λ st, mkAppendResponse st false "" 0)
      (λ commitCmd, sendHTTPResponse (appendReply commitCmd))).

Definition getCmd (gr : GetRequest) (self : Z) : Command :=
  mkCommand CommandGet (GetReq_Key gr) "" "" "" false None 0 None None
    0 0 [] 0 "" self (GetReq_ClientID gr) (GetReq_RequestID gr) false.

Definition getReply (commitCmd : Command) : GetResponse :=
  if IsDuplicate commitCmd && bool_decide (Kind commitCmd ≠ CommandGet)
  then mkGetResponse StatusDuplicateRequest false "" 0
  else mkGetResponse StatusOK (ResultFound commitCmd) (ResultValue commitCmd) (Revision commitCmd).

Definition handleGet `{JSONDecode GetRequest} (req : httpRequest) : prog (reply GetResponse) :=
  withRequest req (λ gr,
    submitAndWait (getCmd gr) (λ st, mkGetResponse st false "" 0)
      (λ commitCmd, sendHTTPResponse (getReply commitCmd))).

Definition casCmd (cr : CASRequest) (self : Z) : Command :=
  mkCommand CommandCAS (CASReq_Key cr) (CASReq_Value cr) (CASReq_CompareValue cr) "" false None 0
    None None 0 0 [] 0 "" self (CASReq_ClientID cr) (CASReq_RequestID cr) false.

Definition casReply (commitCmd : Command) : CASResponse :=
  if IsDuplicate commitCmd then mkCASResponse StatusDuplicateRequest false "" 0
  else mkCASResponse StatusOK (ResultFound commitCmd) (ResultValue commitCmd) (Revision commitCmd).

Definition handleCAS `{JSONDecode CASRequest} (req : httpRequest) : prog (reply CASResponse) :=
  withRequest req (λ cr,
    submitAndWait (casCmd cr) (λ st, mkCASResponse st false "" 0)
      (λ commitCmd, sendHTTPResponse (casReply commitCmd))).

Definition listCmd (lr : ListRequest) (self : Z) : Command :=
  mkCommand CommandList (ListReq_Prefix lr) "" "" "" false None 0 None None
    0 0 [] (ListReq_Limit lr) (ListReq_KeyAfter lr) self (ListReq_ClientID lr)
    (ListReq_RequestID lr) false.

Definition listReply (commitCmd : Command) : ListResponse :=
  if IsDuplicate commitCmd && bool_decide (Kind commitCmd ≠ CommandList)
  then mkListResponse StatusDuplicateRequest None "" 0
  else mkListResponse StatusOK (ResultPairs commitCmd) (ResultValue commitCmd)
         (Revision commitCmd).

Definition handleList `{JSONDecode ListRequest} (req : httpRequest) : prog (reply ListResponse) :=
  withRequest req (λ lr,
    submitAndWait (listCmd lr) (λ st, mkListResponse st None "" 0)
      (λ commitCmd, sendHTTPResponse (listReply commitCmd))).

Definition txnCmd (tr : TxnRequest) (self : Z) : Command :=
  mkCommand CommandTxn "" "" "" "" false None 0
    (Some (mkTxnData (TxnReq_Conditions tr) (TxnReq_Success tr) (TxnReq_Failure tr))) None
    0 0 [] 0 "" self (TxnReq_ClientID tr) (TxnReq_RequestID tr) false.

(** The result pointer is dereferenced without a check. *)
Definition txnRespond (commitCmd : Command) : prog (reply TxnResponse) :=
  if IsDuplicate commitCmd then sendHTTPResponse (mkTxnResponse StatusDuplicateRequest false [] 0)
  else match TxnResult commitCmd with
       | None => crash "nil pointer dereference"
       | Some res =>
           sendHTTPResponse
             (mkTxnResponse StatusOK (Succeeded res) (Results res) (Revision commitCmd))
       end.

Definition handleTxn `{JSONDecode TxnRequest} (req : httpRequest) : prog (reply TxnResponse) :=
  withRequest req (λ tr,
    submitAndWait (txnCmd tr) (λ st, mkTxnResponse st false [] 0) txnRespond).

Definition grantCmd (lr : LeaseGrantRequest) (self : Z) : Command :=
  mkCommand CommandLeaseGrant "" "" "" "" false None 0 None None
    0 (GrantReq_TTL lr) [] 0 "" self (GrantReq_ClientID lr) (GrantReq_RequestID lr) false.

Definition grantReply (lr : LeaseGrantRequest) (commitCmd : Command) : LeaseGrantResponse :=
  if IsDuplicate commitCmd then mkLeaseGrantResponse StatusDuplicateRequest 0 0
  else mkLeaseGrantResponse StatusOK (Strconv.ParseInt (ResultValue commitCmd)).1 (GrantReq_TTL lr).

Definition handleLeaseGrant `{JSONDecode LeaseGrantRequest} (req : httpRequest)
    : prog (reply LeaseGrantResponse) :=
  withRequest req (λ lr,
    submitAndWait (grantCmd lr) (λ st, mkLeaseGrantResponse st 0 0)
      (λ commitCmd, sendHTTPResponse (grantReply lr commitCmd))).

Definition keepAliveCmd (lkr : LeaseKeepAliveRequest) (self : Z) : Command :=
  mkCommand CommandLeaseKeepAlive "" "" "" "" false None 0 None None
    (KeepAliveReq_ID lkr) 0 [] 0 "" self (KeepAliveReq_ClientID lkr) (KeepAliveReq_RequestID lkr)
    false.

(** Both branches of the test of [ResultFound] build the same reply. *)
Definition keepAliveReply (lkr : LeaseKeepAliveRequest) (commitCmd : Command)
    : LeaseKeepAliveResponse :=
  if IsDuplicate commitCmd then mkLeaseKeepAliveResponse StatusDuplicateRequest 0
  else if ResultFound commitCmd then mkLeaseKeepAliveResponse StatusOK (KeepAliveReq_ID lkr)
  else mkLeaseKeepAliveResponse StatusOK (KeepAliveReq_ID lkr).

Definition handleLeaseKeepAlive `{JSONDecode LeaseKeepAliveRequest} (req : httpRequest)
    : prog (reply LeaseKeepAliveResponse) :=
  withRequest req (λ lkr,
    submitAndWait (keepAliveCmd lkr) (λ st, mkLeaseKeepAliveResponse st 0)
      (λ commitCmd, sendHTTPResponse (keepAliveReply lkr commitCmd))).

Definition revokeCmd (lrr : LeaseRevokeRequest) (self : Z) : Command :=
  mkCommand CommandLeaseRevoke "" "" "" "" false None 0 None None
    (RevokeReq_ID lrr) 0 [] 0 "" self (RevokeReq_ClientID lrr) (RevokeReq_RequestID lrr) false.

Definition revokeReply (commitCmd : Command) : LeaseRevokeResponse :=
  if IsDuplicate commitCmd then mkLeaseRevokeResponse StatusDuplicateRequest
  else mkLeaseRevokeResponse StatusOK.

Definition handleLeaseRevoke `{JSONDecode LeaseRevokeRequest} (req : httpRequest)
    : prog (reply LeaseRevokeResponse) :=
  withRequest req (λ lrr,
    submitAndWait (revokeCmd lrr) mkLeaseRevokeResponse
      (λ commitCmd, sendHTTPResponse (revokeReply commitCmd))).

(** ** Cluster handlers *)

Definition setPending (node : Z) (pi : peerInfo) : M unit :=
  let* _ := Lock in
  let* _ := modify (λ s, set_book (set_pending (book s) (<[node := pi]> (pendingJoinAddrs (book s)))) s) in
  Unlock.

Definition clearPending (node : Z) : M unit :=
  let* _ := Lock in
  let* _ := modify (λ s, set_book (set_pending (book s) (delete node (pendingJoinAddrs (book s)))) s) in
  Unlock.

Definition handleJoin `{JSONDecode JoinRequest} (req : httpRequest) : prog (reply JoinResponse) :=
  withRequest req (λ jr,
  Call IsLeader (λ leader,
  if negb leader then sendHTTPResponse (mkJoinResponse StatusNotLeader)
  else
    Call (ResolveTCPAddr (JoinReq_RaftAddr jr)) (λ addr,
    match addr with
    | None => Done (ReplyError "invalid raft address" StatusBadRequest)
    | Some raftAddr =>
        Call (ConnectToPeer (JoinReq_ID jr) raftAddr) (λ err,
        match err with
        | Some msg => Done (ReplyError msg StatusInternalServerError)
        | None =>
            Do (setPending (JoinReq_ID jr) (mkPeerAddrs (JoinReq_RaftAddr jr) (JoinReq_HTTPAddr jr)))
              (λ _,
            Call (AddPeer (JoinReq_ID jr) raftAddr) (λ ok,
            if ok then sendHTTPResponse (mkJoinResponse StatusOK)
            else
              Do (clearPending (JoinReq_ID jr)) (λ _,
              sendHTTPResponse (mkJoinResponse StatusFailedCommit))))
        end)
    end))).

Definition handleLeave `{JSONDecode LeaveRequest} (req : httpRequest)
    : prog (reply LeaveResponse) :=
  withRequest req (λ lr,
  Call IsLeader (λ leader,
  if negb leader then sendHTTPResponse (mkLeaveResponse StatusNotLeader)
  else
    Call (RemovePeer (LeaveReq_ID lr)) (λ ok,
    sendHTTPResponse (mkLeaveResponse (if ok then StatusOK else StatusFailedCommit))))).

(** [IsLeader] is asked while the mutex is held. *)
Definition handleStatus : prog (reply StatusResponse) :=
  Do Lock (λ _,
  Do (gets (λ s, Z.of_nat (base.size (peers (book s))))) (λ peerCount,
  Call IsLeader (λ isLeader,
  Do (gets id) (λ self,
  Do Unlock (λ _,
  sendHTTPResponse (mkStatusResponse StatusOK self isLeader peerCount)))))).

Definition httpAddr : M string :=
  let* _ := Lock in
  let* addr := gets (λ s, httpAddrOf (id s) (book s)) in
  let* _ := Unlock in
  retM addr.

Definition handleMembers (ord : MapOrder) : prog (reply MembersResponse) :=
  Do Lock (λ _,
  Do (gets id) (λ self,
  Do httpAddr (λ addr,
  Do (gets (λ s, peers (book s))) (λ ps,
  let members := mkPeerInfo self addr ::
    ((λ p, mkPeerInfo p.1 (HTTPAddr p.2)) <$> visit ord (map_to_list ps)) in
  Do Unlock (λ _,
  sendHTTPResponse (mkMembersResponse StatusOK members)))))).

End handlers.

(** ** The table of [ServeHTTP] *)

Inductive route :=
| RouteGet | RoutePut | RouteAppend | RouteCAS | RouteList | RouteTxn
| RouteLeaseGrant | RouteLeaseKeepAlive | RouteLeaseRevoke
| RouteJoin | RouteLeave | RouteStatus | RouteMembers | RouteWatch.

(** Method and path of each handler; a path that ends in a slash serves every path
    below it, and the longest matching pattern wins. *)
Definition routes : list (string * string * route) :=
  [("POST", "/get/", RouteGet); ("POST", "/put/", RoutePut); ("POST", "/append/", RouteAppend);
   ("POST", "/cas/", RouteCAS); ("POST", "/list/", RouteList); ("POST", "/txn/", RouteTxn);
   ("POST", "/lease/grant/", RouteLeaseGrant); ("POST", "/lease/keepalive/", RouteLeaseKeepAlive);
   ("POST", "/lease/revoke/", RouteLeaseRevoke); ("POST", "/join/", RouteJoin);
   ("POST", "/leave/", RouteLeave); ("GET", "/status/", RouteStatus);
   ("GET", "/members/", RouteMembers); ("GET", "/watch/", RouteWatch)].

(** ** A handler among the rest of the node *)

Section interleaving.
Context `{Codec kvSnapshot}.

(** Whose step an event is: this handler's or that of anything else on the node. *)
Inductive actor := Own | Rest.
#[export] Instance actor_eq_dec : EqDecision actor.
Proof. solve_decision. Defined.

(** Runs in which a handler starts its program [p0] at some point of a run of the
    node from [s0], and its steps interleave with everything else.  (A handler that
    holds the mutex between its steps delays those that need it and writes nothing
    they read, so its critical section counts as one of the other steps.) *)
Inductive hrun {R} (s0 : KVService) (p0 : prog R)
    : list (actor * nevent) -> KVService -> prog R -> Prop :=
| hrun_start es s : nrun s0 es s -> hrun s0 p0 ((λ e, (Rest, e)) <$> es) s p0
| hrun_own es s p answer ctxDone e s' p' :
    hrun s0 p0 es s p -> pstep answer ctxDone s p = Ret (e, s', p') ->
    hrun s0 p0 (es ++ [(Own, e)]) s' p'
| hrun_other es s p e s' :
    hrun s0 p0 es s p -> nstep s e s' -> hrun s0 p0 (es ++ [(Rest, e)]) s' p.

(** The events of the handler itself. *)
Definition ownEvents (es : list (actor * nevent)) : list nevent :=
  (filter (λ p, p.1 = Own) es).*2.

Lemma ownEvents_own es e : ownEvents (es ++ [(Own, e)]) = ownEvents es ++ [e].
Proof. unfold ownEvents. by rewrite filter_app, fmap_app. Qed.
Lemma ownEvents_rest es e : ownEvents (es ++ [(Rest, e)]) = ownEvents es.
Proof. unfold ownEvents. rewrite filter_app, fmap_app. apply app_nil_r. Qed.
Lemma ownEvents_start es : ownEvents ((λ e, (Rest, e)) <$> es) = [].
Proof. unfold ownEvents. by induction es. Qed.
Lemma elem_of_ownEvents e es : e ∈ ownEvents es -> (Own, e) ∈ es.
Proof.
  unfold ownEvents. intros ([a x] & -> & Hin)%list_elem_of_fmap.
  apply list_elem_of_filter in Hin as [Ha Hin]. simpl in *. by subst.
Qed.

(** The node's id never changes. *)
Lemma nstep_id s e s' : nstep s e s' -> wfs s -> id s' = id s.
Proof.
  intros Hn Hs. destruct Hn as [i ref s s' Hc|env cmd i term call cmd' s s' Hsub Hseq Hh Ha
    |ord i data snap s s' Hd Hwf Hh|ref o s s' Hr|s|b s|b s|w s Hw|cmd i s]; try done.
  - rewrite create_eq in Hc by done. case_match; by simplify_eq.
  - destruct (handleCommand_eq env cmd i term s Hs Hsub) as (c2 & r2 & es & w2 & _ & _ & _ & Hh2).
    rewrite Hh in Hh2. injection Hh2 as Heq. unfold snapshotted in Heq.
    repeat case_match; by simplify_eq.
  - destruct (handleSnapshot_eq ord i data snap s Hs Hd) as (h & t & Hh2 & _).
    rewrite Hh in Hh2. by injection Hh2 as ->.
  - by destruct (receive_eq _ _ _ _ Hr) as (ch & ch' & _ & _ & ->).
Qed.

Lemma nrun_invariant s0 es s : wfs s0 -> nrun s0 es s -> wfs s ∧ id s = id s0.
Proof.
  intros Hs Hr. induction Hr as [|es s e s' Hr [IHw IHi] Hn]; [done|].
  split; [by eapply nstep_wfs|]. rewrite <-IHi. by eapply nstep_id.
Qed.

(** The branch for a committed command sends one reply, or panics. *)
Class Answers {R} (onCommit : Command -> prog (reply R)) : Prop :=
  answers c : (∃ r, onCommit c = sendHTTPResponse r) ∨ ∃ msg, onCommit c = crash msg.

#[export] Instance answers_send {R} (f : Command -> R) : Answers (λ c, sendHTTPResponse (f c)).
Proof. intros c. left. by eexists. Qed.
#[export] Instance answers_txn : Answers txnRespond.
Proof. intros c. unfold txnRespond. repeat case_match; eauto. Qed.

Section wait.
Context {R : Type} (s0 : KVService) (Hs0 : wfs s0) (Hch0 : chans s0 = []).
Context (cmd : Z -> Command) (status : ResponseStatus -> R).
Context (onCommit : Command -> prog (reply R)) `{!Answers onCommit}.

(** After the handler's own subscription to [i] on the channel [ref], [e] is the first event
    that touches the index. *)
Definition firstTouch (es : list (actor * nevent)) (i : Z) (ref : nat) (e : nevent) : Prop :=
  ∃ a pre mid post, es = pre ++ (Own, EvSubscribe i ref) :: mid ++ (a, e) :: post ∧
    Forall (λ p, untouched i p.2) mid ∧ ¬ untouched i e.

(** Why the reply is [r]: the handler's own events, which name the index Raft gave to its
    command, the subscription to that index and what was received on its channel, and
    what had happened there. *)
Inductive outcome (es : list (actor * nevent)) : list nevent -> R -> Prop :=
| out_notLeader i :
    i < 0 -> outcome es [EvOther; EvSubmit (cmd (id s0)) i] (status StatusNotLeader)
| out_cancelled i ref e :
    0 <= i -> firstTouch es i ref e ->
    outcome es [EvOther; EvSubmit (cmd (id s0)) i; EvSubscribe i ref; EvReceive ref None]
      (status StatusFailedCommit)
| out_foreign i ref ran c :
    0 <= i -> firstTouch es i ref (EvApply i ran c) -> ServiceID c ≠ id s0 ->
    outcome es [EvOther; EvSubmit (cmd (id s0)) i; EvSubscribe i ref; EvReceive ref (Some c)]
      (status StatusFailedCommit)
| out_applied i ref ran c r :
    0 <= i -> firstTouch es i ref (EvApply i ran c) -> ServiceID c = id s0 ->
    onCommit c = sendHTTPResponse r ->
    outcome es [EvOther; EvSubmit (cmd (id s0)) i; EvSubscribe i ref; EvReceive ref (Some c)] r.

Lemma firstTouch_more es x i ref e : firstTouch es i ref e -> firstTouch (es ++ [x]) i ref e.
Proof.
  intros (a & pre & mid & post & -> & Hm & He). exists a, pre, mid, (post ++ [x]).
  split; [|done]. rewrite <-app_assoc. simpl. by rewrite <-app_assoc.
Qed.

Lemma outcome_more es x own r : outcome es own r -> outcome (es ++ [x]) own r.
Proof. destruct 1; econstructor; eauto using firstTouch_more. Qed.

(** The points of the program, with the handler's events so far. *)
Inductive at_point (es : list (actor * nevent)) : list nevent -> prog (reply R) -> Prop :=
| at_start : at_point es [] (submitAndWait cmd status onCommit)
| at_call :
    at_point es [EvOther] (Call (Submit (cmd (id s0))) (afterSubmit (id s0) status onCommit))
| at_subscribe i : 0 <= i ->
    at_point es [EvOther; EvSubmit (cmd (id s0)) i] (Subscribe i (awaitCommit (id s0) status onCommit))
| at_await i ref : 0 <= i ->
    at_point es [EvOther; EvSubmit (cmd (id s0)) i; EvSubscribe i ref]
      (awaitCommit (id s0) status onCommit ref)
| at_send own r : outcome es own r -> at_point es own (sendHTTPResponse r)
| at_done own r : outcome es own r -> at_point es (own ++ [EvOther]) (Done (ReplyJSON r))
| at_gone own : at_point es own (Done ReplyNone)
| at_crash own msg : at_point es own (crash msg).

Lemma at_point_more es x own p : at_point es own p -> at_point (es ++ [x]) own p.
Proof. destruct 1; constructor; eauto using outcome_more. Qed.

(** The receive of the handler is about its own subscription. *)
Lemma own_receive es i ref o s :
  nrun s0 (es.*2 ++ [EvReceive ref o]) s -> (Own, EvSubscribe i ref) ∈ es ->
  ∃ e, firstTouch es i ref e ∧ ∀ c, o = Some c -> ∃ ran, e = EvApply i ran c.
Proof.
  intros Hr Hin. destruct (receive_cause _ _ _ _ _ Hs0 Hch0 Hr) as (j & e & pre & mid & post & E & Hm & He & Hc).
  apply list_elem_of_split in Hin as (preT & postT & ->).
  inversion Hr as [Heq|es' s1 e' s' Hr1 _ Heq]; [by destruct (_.*2)|].
  apply app_inj_tail in Heq as [-> _].
  destruct (subscription_unique s0 _ s1 i j ref preT.*2 postT.*2 pre (mid ++ e :: post) Hs0 Hr1)
    as (_ & <- & Hpost); [by rewrite fmap_app|done|].
  apply fmap_app_inv in Hpost as (midT & [|[a e1] postT'] & -> & Hrest & ->); [done|].
  injection Hrest as -> ->.
  exists e1. split; [|done]. exists a, preT, midT, postT'. split_and!; [done| |done].
  rewrite Forall_fmap in Hm. exact Hm.
Qed.

(** A step of the handler is a step of the node and reaches the next point. *)
Lemma at_point_step es s p answer ctxDone e s' p' :
  nrun s0 es.*2 s -> at_point es (ownEvents es) p -> pstep answer ctxDone s p = Ret (e, s', p') ->
  nstep s e s' ∧ at_point (es ++ [(Own, e)]) (ownEvents es ++ [e]) p'.
Proof.
  intros Hr Hp Hstep. destruct (nrun_invariant _ _ _ Hs0 Hr) as [Hw Hid].
  inversion Hp as [Ho Hq|Ho Hq|i Hi Ho Hq|i ref Hi Ho Hq|own r Hout Ho Hq|own r Hout Ho Hq|own Ho Hq|own msg Ho Hq];
    subst p; try discriminate Hstep; simpl in Hstep.
  - injection Hstep as <- <- <-. rewrite Hid. split; constructor.
  - injection Hstep as <- <- <-. split; [constructor|]. unfold afterSubmit.
    destruct (Z.ltb_spec (answer Z (Submit (cmd (id s0)))) 0).
    + by apply at_send, out_notLeader.
    + by apply at_subscribe.
  - destruct (createCommitSubscription i s) as [[ref s1]| |] eqn:Hc; [|done..].
    injection Hstep as <- <- <-. split; [by constructor|by apply at_await].
  - destruct ctxDone; [injection Hstep as <- <- <-; split; constructor|].
    destruct (recvFrom ref s) as [[o s1]| |] eqn:Hc; [|done..]. injection Hstep as <- <- <-.
    assert (Hn: nstep s (EvReceive ref o) s1) by (by constructor). split; [done|].
    destruct (own_receive es i ref o s1) as (e & Ht & He);
      [by eapply nrun_snoc|apply elem_of_ownEvents; rewrite <-Ho, !elem_of_cons; tauto|].
    apply (firstTouch_more _ (Own, EvReceive ref o)) in Ht. unfold onReceive.
    destruct o as [c|]; [|by eapply at_send, out_cancelled]. destruct (He c eq_refl) as [ran ->].
    case_bool_decide as Hsid; [|by eapply at_send, out_foreign].
    destruct (answers c) as [[r Hans]|[msg Hans]]; rewrite Hans; [|apply at_crash].
    by eapply at_send, out_applied.
  - injection Hstep as <- <- <-. split; [constructor|]. by apply at_done, outcome_more.
Qed.

Lemma hrun_point es s p :
  hrun s0 (submitAndWait cmd status onCommit) es s p ->
  nrun s0 es.*2 s ∧ at_point es (ownEvents es) p.
Proof.
  induction 1 as [es s Hr|es s p answer ctxDone e s' p' _ [IHr IHp] Hp|es s p e s' _ [IHr IHp] Hn].
  - rewrite ownEvents_start, <-list_fmap_compose, list_fmap_id. split; [done|constructor].
  - destruct (at_point_step _ _ _ _ _ _ _ _ IHr IHp Hp) as [Hn Hp'].
    rewrite ownEvents_own, fmap_app. split; [by eapply nrun_snoc|done].
  - rewrite ownEvents_rest, fmap_app. split; [by eapply nrun_snoc|by apply at_point_more].
Qed.

Lemma hrun_outcome es s r :
  hrun s0 (submitAndWait cmd status onCommit) es s (Done (ReplyJSON r)) ->
  ∃ own, ownEvents es = own ++ [EvOther] ∧ outcome es own r.
Proof.
  intros Hr. destruct (hrun_point _ _ _ Hr) as [_ Hp]. inversion Hp; subst. eauto.
Qed.
End wait.

(** ** Properties *)

End interleaving.

(** ** The result a handler replies with *)

(** A lease grant that is not a duplicate replies with the id of
    the lease it created: the decimal text in the command parses back to the
    new value of the counter, the lease did not exist before, exists now with
    the requested TTL, and owns no key. *)
Theorem grant_reply_is_new_lease env lr self r c r' :
  wf (ds r) -> leaseIDSeq (ds r) < int64_max ->
  applyCommand env (grantCmd lr self) r = Ret (c, r') -> IsDuplicate c = false ->
  let resp := grantReply lr c in
  GrantResp_RespStatus resp = StatusOK ∧
  leases (ds r) !! GrantResp_ID resp = None ∧
  ∃ l, leases (ds r') !! GrantResp_ID resp = Some l ∧ TTL l = GrantReq_TTL lr ∧ Keys l = ∅.
Proof.
  intros Hwf Hlt Ha Hdup. destruct (isDuplicate (grantCmd lr self) r) eqn:Hd.
  { rewrite apply_duplicate in Ha by done. simplify_eq/=. }
  destruct (apply_fresh env (grantCmd lr self) r c r' eq_refl Hd Ha) as (c0 & d & He & <- & _ & _ & ->).
  pose proof (wf_seq _ Hwf).
  unfold execCommand in He. simpl in He. injection He as <- He. unfold grantReply. simpl.
  rewrite (wrap64_id (leaseIDSeq (ds r) + 1)) in * by (unfold in_int64, int64_min; lia).
  rewrite Strconv.ParseInt_FormatInt by (unfold in_int64, int64_min; lia). simpl. split_and!; [done|..].
  - destruct (leases (ds r) !! _) eqn:El; [|done]. apply (wf_id _ Hwf) in El. lia.
  - rewrite <-He. simpl. eexists. split; [apply lookup_insert_eq|done].
Qed.

(** A keep-alive of a lease that does not exist is answered like a
    successful one: status OK and the requested id, with nothing changed. *)
Theorem keepalive_of_missing_lease_is_ok env lkr self r c r' :
  leases (ds r) !! KeepAliveReq_ID lkr = None ->
  applyCommand env (keepAliveCmd lkr self) r = Ret (c, r') -> IsDuplicate c = false ->
  keepAliveReply lkr c = mkLeaseKeepAliveResponse StatusOK (KeepAliveReq_ID lkr) ∧ ds r' = ds r.
Proof.
  intros Hno Ha Hdup. destruct (isDuplicate (keepAliveCmd lkr self) r) eqn:Hd.
  { rewrite apply_duplicate in Ha by done. simplify_eq/=. }
  destruct (apply_fresh env (keepAliveCmd lkr self) r c r' eq_refl Hd Ha) as (c0 & d & He & <- & _ & _ & ->).
  unfold execCommand, KeepAliveLease in He. simpl in He. rewrite Hno in He. injection He as <- <-. done.
Qed.

(** A transaction handler that receives the result of its own command
    never dereferences a nil result: it replies with a duplicate status or
    with one result per operation of the branch that was taken. *)
Theorem txn_reply_total env tr self r c r' :
  applyCommand env (txnCmd tr self) r = Ret (c, r') ->
  ∃ resp, txnRespond c = sendHTTPResponse resp ∧
    (TxnResp_RespStatus resp = StatusDuplicateRequest ∨
     TxnResp_RespStatus resp = StatusOK ∧
     length (TxnResp_Results resp) =
       length (if TxnResp_Succeeded resp then TxnReq_Success tr else TxnReq_Failure tr)).
Proof.
  intros Ha. destruct (isDuplicate (txnCmd tr self) r) eqn:Hd.
  { rewrite apply_duplicate in Ha by done. injection Ha as <- <-. eexists. split; [done|]. by left. }
  destruct (apply_fresh env (txnCmd tr self) r c r' eq_refl Hd Ha) as (c0 & d & He & _ & _ & _ & ->).
  unfold execCommand in He. simpl in He. rewrite Txn_eq in He. injection He as <- <-.
  eexists. split; [done|]. right. split; [done|]. simpl. by rewrite length_execTxnOps.
Qed.

(** *** The members handler *)

(** The handler right after its first two steps, holding the mutex. *)
Definition members_stuck (ord : MapOrder) (self : Z) : prog (reply MembersResponse) :=
  Do httpAddr (λ addr,
  Do (gets (λ s, peers (book s))) (λ ps,
  let members := mkPeerInfo self addr ::
    ((λ p, mkPeerInfo p.1 (HTTPAddr p.2)) <$> visit ord (map_to_list ps)) in
  Do Unlock (λ _,
  sendHTTPResponse (mkMembersResponse StatusOK members)))).

Section locked.
Context `{Codec kvSnapshot}.

Lemma locked_block s env cmd i term : mu s = true -> handleCommand env cmd i term s = Block.
Proof. intros Hm. unfold handleCommand, bindM, Lock. by rewrite Hm. Qed.

Lemma locked_subscribe s i : mu s = true -> createCommitSubscription i s = Block.
Proof. intros Hm. unfold createCommitSubscription, bindM, Lock. by rewrite Hm. Qed.

Lemma nstep_locked s e s' : nstep s e s' -> mu s = true -> mu s' = true.
Proof.
  intros Hn Hm. destruct Hn as [i ref s s' Hc|env cmd i term call cmd' s s' Hsub Hseq Hh Ha
    |ord i data snap s s' Hd Hwf Hh|ref o s s' Hr|s|b s|b s|w s Hw|cmd i s]; try done.
  - by rewrite locked_subscribe in Hc.
  - by rewrite locked_block in Hh.
  - unfold handleSnapshot, bindM, Lock in Hh. by rewrite Hd, Hm in Hh.
  - by destruct (receive_eq _ _ _ _ Hr) as (ch & ch' & _ & _ & ->).
Qed.
End locked.

(** C28 (liveness).  [GET /members/] deadlocks the node: the handler takes the mutex and
    then calls [httpAddr], which takes it again.  From every state with the
    mutex free it gets to that call in two steps and never past it, whatever
    the other goroutines do to the rest of the state; and while it waits there,
    no command can be applied, no handler can subscribe, and every step of the
    rest of the node leaves the mutex taken. *)
Theorem members_deadlocks `{Codec kvSnapshot} ord s :
  mu s = false ->
  (∀ answer ctx, pstep answer ctx s (handleMembers ord) =
     Ret (EvOther, set_mu true s, Do (gets id) (members_stuck ord))) ∧
  (∀ answer ctx, pstep answer ctx (set_mu true s) (Do (gets id) (members_stuck ord)) =
     Ret (EvOther, set_mu true s, members_stuck ord (id s))) ∧
  (∀ s' answer ctx, mu s' = true -> pstep answer ctx s' (members_stuck ord (id s)) = Block) ∧
  (∀ s', mu s' = true ->
     (∀ env cmd i term, handleCommand env cmd i term s' = Block) ∧
     (∀ i, createCommitSubscription i s' = Block) ∧
     (∀ e s'', nstep s' e s'' -> mu s'' = true)).
Proof.
  intros Hm. split_and!; intros.
  - simpl. unfold Lock. by rewrite Hm.
  - done.
  - simpl. unfold httpAddr, bindM, Lock. by match goal with E : mu _ = true |- _ => rewrite E end.
  - split_and!; [by intros; apply locked_block| |by intros; eapply nstep_locked].
    intros. by apply locked_subscribe.
Qed.

(** *** Running a handler without interference *)

(** All steps of a program, with the answers of [answer]; the fuel bounds the number
    of steps. *)
Fixpoint runProg {R} (fuel : nat) (answer : oracle) (s : KVService) (p : prog R)
    : go (KVService * option R) :=
  match p, fuel with
  | Done r, _ => Ret (s, Some r)
  | _, O => Ret (s, None)
  | _, S n => let! q := pstep answer false s p in runProg n answer q.1.2 q.2
  end.

Lemma setPending_eq node pi s :
  mu s = false ->
  setPending node pi s =
    Ret (tt, set_book (set_pending (book s) (<[node := pi]> (pendingJoinAddrs (book s)))) s).
Proof. destruct s; simpl. by intros ->. Qed.

Lemma clearPending_eq node s :
  mu s = false ->
  clearPending node s =
    Ret (tt, set_book (set_pending (book s) (delete node (pendingJoinAddrs (book s)))) s).
Proof. destruct s; simpl. by intros ->. Qed.

(** The join handler, on every branch: a node that is not the leader,
    an address that does not resolve and a peer that cannot be reached are
    reported and change nothing; when Raft accepts the new peer its addresses are
    pending under its id; when Raft refuses it, no pending entry is left
    for that id.  It never blocks and needs at most seven steps. *)
Theorem join_effect `{MediaTypes} `{JSONDecode JoinRequest} answer req jr s :
  mu s = false -> readRequestJSON req = inr jr ->
  ∃ s' r, runProg 7 answer s (handleJoin req) = Ret (s', Some r) ∧
    if answer _ IsLeader then
      match answer _ (ResolveTCPAddr (JoinReq_RaftAddr jr)) with
      | None => r = ReplyError "invalid raft address" StatusBadRequest ∧ s' = s
      | Some a =>
          match answer _ (ConnectToPeer (JoinReq_ID jr) a) with
          | Some msg => r = ReplyError msg StatusInternalServerError ∧ s' = s
          | None =>
              if answer _ (AddPeer (JoinReq_ID jr) a)
              then r = ReplyJSON (mkJoinResponse StatusOK) ∧
                pendingJoinAddrs (book s') !! JoinReq_ID jr =
                  Some (mkPeerAddrs (JoinReq_RaftAddr jr) (JoinReq_HTTPAddr jr))
              else r = ReplyJSON (mkJoinResponse StatusFailedCommit) ∧
                pendingJoinAddrs (book s') !! JoinReq_ID jr = None
          end
      end
    else r = ReplyJSON (mkJoinResponse StatusNotLeader) ∧ book s' = book s.
Proof.
  intros Hm Hreq. unfold handleJoin, withRequest. rewrite Hreq. cbn [runProg pstep go_bind fst snd].
  destruct (answer _ IsLeader); cbn [negb]; [|cbn; eauto].
  cbn [runProg pstep go_bind fst snd].
  destruct (answer _ (ResolveTCPAddr _)) as [a|]; [|cbn; eauto].
  cbn [runProg pstep go_bind fst snd].
  destruct (answer _ (ConnectToPeer _ a)) as [msg|]; [cbn; eauto|].
  cbn [runProg pstep go_bind fst snd]. rewrite setPending_eq by done. cbn [go_bind fst snd runProg pstep].
  destruct (answer _ (AddPeer _ a)).
  - cbn. eexists _, _. split_and!; [done..|]. simpl. apply lookup_insert_eq.
  - cbn [go_bind fst snd runProg pstep]. rewrite clearPending_eq by done. cbn.
    eexists _, _. split_and!; [done..|]. simpl. apply lookup_delete_eq.
Qed.

(** ** Witnesses and an execution *)

Section handler_samples.
#[local] Instance sample_snapshots : Codec kvSnapshot := sample_codec.

(** Raft accepts every command at index 5. *)
Definition index5 : oracle := λ B c,
  match c in external B return B with
  | Submit _ => 5
  | IsLeader => true
  | ResolveTCPAddr addr => Some addr
  | ConnectToPeer _ _ => None
  | AddPeer _ _ => false
  | RemovePeer _ => true
  end.

Definition put_a : PutRequest := mkPutRequest "a" "1" 7 1 0.
Definition put_b : PutRequest := mkPutRequest "b" "2" 8 1 0.
Definition putProgram (pr : PutRequest) : prog (reply PutResponse) :=
  submitAndWait (putCmd pr) (λ st, mkPutResponse st false "" 0)
    (λ commitCmd, sendHTTPResponse (putReply commitCmd)).

(** The result of applying [put_b] first in an empty store, and the service after
    it when a handler waits for index 5. *)
Definition b_result : Command := with_revision (with_value (putCmd put_b 1) ("", false)) 1.

Lemma apply_b :
  ∃ s, handleCommand env0 (putCmd put_b 1) 5 1 (subscribed 5 sample_service) = Ret (None, s) ∧
    applyCommand env0 (putCmd put_b 1) (rep (subscribed 5 sample_service)) = Ret (b_result, rep s) ∧
    chans s = [notified b_result] ∧ data (ds (rep s)) !! "a" = None.
Proof. eexists. split_and!; vm_compute; reflexivity. Qed.

(** A put whose handler runs while another command of the same node is applied at
    its index. *)
Lemma put_run pr :
  ∃ s, hrun sample_service (putProgram pr)
      [(Own, EvOther); (Own, EvSubmit (putCmd pr 1) 5); (Own, EvSubscribe 5 0);
       (Rest, EvApply 5 (putCmd put_b 1) b_result); (Own, EvReceive 0 (Some b_result)); (Own, EvOther)]
      s (Done (ReplyJSON (putReply b_result))) ∧
    data (ds (rep s)) !! "a" = None.
Proof.
  destruct apply_b as (s & Hh & Ha & Hch & Hdata).
  eexists. split.
  - eapply (hrun_own _ _ [_; _; _; _; _] _ _ index5 false).
    + eapply (hrun_own _ _ [_; _; _; _] _ _ index5 false).
      * eapply (hrun_other _ _ [_; _; _]).
        { eapply (hrun_own _ _ [_; _] _ _ index5 false).
          - eapply (hrun_own _ _ [_] _ _ index5 false).
            + eapply (hrun_own _ _ [] _ _ index5 false); [apply (hrun_start _ _ []), nrun_nil|reflexivity].
            + reflexivity.
          - reflexivity. }
        { eapply n_apply; [|..|exact Hh|exact Ha]; [by repeat split|done]. }
      * unfold awaitCommit. cbn [pstep]. unfold recvFrom, onChan. rewrite Hch. reflexivity.
    + reflexivity.
  - simpl. done.
Qed.

(** C29 (error).  A handler can report success for a command that was never applied: after
    node 1 lost and regained leadership before its entry at index 5 was
    committed, another command of node 1 may be committed there; the waiting
    handler finds the node's own id in the result and answers OK, with the
    other command's revision, while its key was never written. *)
Theorem ok_for_another_command :
  ∃ es s resp, hrun sample_service (putProgram put_a) es s (Done (ReplyJSON resp)) ∧
    PutResp_RespStatus resp = StatusOK ∧
    (∀ i c, EvApply i (putCmd put_a 1) c ∉ es.*2) ∧ data (ds (rep s)) !! "a" = None.
Proof.
  destruct (put_run put_a) as (s & Hr & Hd). eexists _, s, _. split_and!; [exact Hr|done| |done].
  intros i c. cbn [fmap list_fmap snd]. rewrite !not_elem_of_cons.
  by split_and!; [done..| |done|done|apply not_elem_of_nil].
Qed.


Lemma grant_reply_is_new_lease_witness :
  ∃ c r', applyCommand env0 (grantCmd (mkLeaseGrantRequest 60 1 1) 1) newReplicated = Ret (c, r') ∧
    leases (ds newReplicated) !! GrantResp_ID (grantReply (mkLeaseGrantRequest 60 1 1) c) = None.
Proof.
  eexists _, _. split; [reflexivity|].
  apply (grant_reply_is_new_lease env0 (mkLeaseGrantRequest 60 1 1) 1 newReplicated _ _
    wf_NewDataStore ltac:(by vm_compute) eq_refl eq_refl).
Defined.

Lemma keepalive_of_missing_lease_is_ok_witness :
  ∃ c r', applyCommand env0 (keepAliveCmd (mkLeaseKeepAliveRequest 9 1 1) 1) newReplicated = Ret (c, r') ∧
    keepAliveReply (mkLeaseKeepAliveRequest 9 1 1) c = mkLeaseKeepAliveResponse StatusOK 9.
Proof.
  eexists _, _. split; [reflexivity|].
  apply (keepalive_of_missing_lease_is_ok env0 (mkLeaseKeepAliveRequest 9 1 1) 1 newReplicated _ _
    eq_refl eq_refl eq_refl).
Defined.

Definition sample_txn : TxnRequest :=
  mkTxnRequest [mkTxnCondition "a" CompareNotExists ""] [mkTxnOp TxnOpPut "a" "1" "" 0] [] 1 1.

Lemma txn_reply_total_witness :
  ∃ c resp, txnRespond c = sendHTTPResponse resp ∧ TxnResult c ≠ None.
Proof.
  destruct (applyCommand env0 (txnCmd sample_txn 1) newReplicated) as [[c r']| |] eqn:E;
    [|by vm_compute in E..].
  destruct (txn_reply_total env0 sample_txn 1 newReplicated c r' E) as (resp & Hr & _).
  exists c, resp. split; [done|]. vm_compute in E. by simplify_eq.
Defined.

Lemma members_deadlocks_witness :
  pstep index5 false sample_service (handleMembers in_order) =
    Ret (EvOther, set_mu true sample_service, Do (gets id) (members_stuck in_order)) ∧
  pstep index5 false (set_mu true sample_service) (members_stuck in_order (id sample_service)) = Block.
Proof.
  destruct (members_deadlocks in_order sample_service eq_refl) as (H1 & _ & H3 & _).
  split; [apply H1|by apply H3].
Defined.

Definition sample_join : JoinRequest := mkJoinRequest 4 "host:9004" "host:8004".
#[local] Instance sample_media : MediaTypes := λ s, inr s.
#[local] Instance sample_decode : JSONDecode JoinRequest := λ _, inr sample_join.

Lemma join_effect_witness :
  ∃ s' r, runProg 7 index5 sample_service (handleJoin (mkHttpRequest "application/json" [])) =
      Ret (s', Some r) ∧
    r = ReplyJSON (mkJoinResponse StatusFailedCommit) ∧ pendingJoinAddrs (book s') !! 4 = None.
Proof.
  apply (join_effect index5 (mkHttpRequest "application/json" []) sample_join sample_service
    eq_refl ltac:(by vm_compute)).
Defined.
End handler_samples.
