(* ===== verification/Cluster.v ===== *)
(** * A cluster of nodes over one Raft log

    The Raft library is not part of the sources; what the code relies on is
    written as the steps it allows: there is one log of committed entries, it
    only grows, and it is delivered to the apply loop of each node in order and
    without gaps from the node's position; a snapshot handed to a node is one
    that some node gave to [InstallSnapshot], and delivery resumes after its
    index; a restarted process starts from the beginning.  In between, the HTTP
    handlers subscribe, receive and change the address book, and the two handlers
    that keep the mutex over several steps, [handleStatus] and [handleMembers], run
    their programs.

    The nodes run the code of [KVService].  The invariant relates every node to
    the log prefix it has applied, and its mutex to the handler inside. *)

From S2P Require Import Prelude GoLib Api DataStore StoreSpec Command StateMachine Replication Watch WatchLog Codec Snapshot Peers KVService Commits Handlers.
Import EventBuffer WatchSubs.

(** ** The state a log prefix determines *)

Definition commandsOf (es : list LogEntry) : list Command :=
  omap (λ e, match e with EntryCommand cmd => Some cmd | EntryConfigChange _ => None end) es.

Definition canonical (es : list LogEntry) : replicated :=
  match applyLog ((λ c, (mkEnv 0 in_order, c)) <$> commandsOf es) newReplicated with
  | Ret p => p.2
  | _ => newReplicated
  end.

Definition submittedEntry (e : LogEntry) : Prop :=
  match e with EntryCommand cmd => submitted cmd | EntryConfigChange _ => True end.

Lemma commandsOf_app es1 es2 : commandsOf (es1 ++ es2) = commandsOf es1 ++ commandsOf es2.
Proof. apply omap_app. Qed.

Lemma commandsOf_submitted es :
  Forall submittedEntry es ->
  Forall (λ p : Env * Command, submitted p.2) ((λ c, (mkEnv 0 in_order, c)) <$> commandsOf es).
Proof. induction 1 as [|[cmd|cc] es He Hes IH]; simpl; [constructor|by constructor|done]. Qed.

Lemma canonical_command es cmd env r :
  Forall submittedEntry es -> submitted cmd -> r ≡ canonical es ->
  ∃ cmd' r', applyCommand env cmd r = Ret (cmd', r') ∧ r' ≡ canonical (es ++ [EntryCommand cmd]).
Proof.
  intros Hes Hc Hr. destruct (apply_total env cmd r Hc) as (cmd' & r' & Ha).
  exists cmd', r'. split; [done|]. unfold canonical in *.
  rewrite commandsOf_app, fmap_app, applyLog_app. simpl.
  destruct (applyLog_total _ newReplicated (commandsOf_submitted _ Hes)) as (cs & r0 & E).
  rewrite E in *. simpl in *. pose proof (apply_equiv env (mkEnv 0 in_order) cmd r r0 Hr) as Heq.
  rewrite Ha in Heq. destruct (applyCommand _ cmd r0) as [[]| |]; simpl in *; naive_solver.
Qed.

Lemma canonical_change es cc : canonical (es ++ [EntryConfigChange cc]) = canonical es.
Proof. unfold canonical. rewrite commandsOf_app. simpl. by rewrite app_nil_r. Qed.

(** ** Clusters *)

(** A handler that holds the mutex of its node, with the rest of its program. *)
Inductive critical :=
| InStatus (p : prog (reply StatusResponse))
| InMembers (p : prog (reply MembersResponse)).

(** A node: how many entries of the log it has applied, and its service; and for each
    node the handler that holds its mutex. *)
Record cluster := mkCluster {
  clog : list LogEntry;
  nodes : gmap Z (nat * KVService);
  snaps : list InstallSnapshot;
  inside : gmap Z critical }.

Definition optionList {A} (o : option A) : list A := match o with Some a => [a] | None => [] end.

Section cluster.
Context `{Codec kvSnapshot} `{Codec (list persistedPeer)} {S : Type} `{RaftStorage S}.

(** What the handlers of a node do to its service in one step: subscribe to an index,
    receive from a channel, watch, change the address book, write a response. *)
Inductive handlerStep : KVService -> KVService -> Prop :=
| h_subscribe i ref s s' : createCommitSubscription i s = Ret (ref, s') -> handlerStep s s'
| h_receive ref o s s' : recvFrom ref s = Ret (o, s') -> handlerStep s s'
| h_watch p s : handlerStep s (set_watch (subscribeWatch p (watch s)).2 s)
| h_unwatch i w s : unsubscribeWatch i (watch s) = Ret w -> handlerStep s (set_watch w s)
| h_book b s : handlerStep s (set_book b s)
| h_delay b s : handlerStep s (set_delay b s).

(** A handler inside is gone when it has unlocked the mutex: what is left of it writes the
    response. *)
Definition leave (n : Z) (s' : KVService) (cr : critical) (m : gmap Z critical) : gmap Z critical :=
  if mu s' then <[n := cr]> m else delete n m.

Inductive cstep : cluster -> cluster -> Prop :=
| c_commit e c :
    submittedEntry e ->
    cstep c (mkCluster (clog c ++ [e]) (nodes c) (snaps c) (inside c))
| c_apply n p s e env term call s' c :
    nodes c !! n = Some (p, s) -> clog c !! p = Some e ->
    updaterStep env (InCommit e (Z.of_nat p) term) s = Ret (call, s') ->
    cstep c (mkCluster (clog c) (<[n := (Datatypes.S p, s')]> (nodes c)) (snaps c ++ optionList call)
               (inside c))
| c_snapshot n p s inst env call s' c :
    nodes c !! n = Some (p, s) -> inst ∈ snaps c ->
    updaterStep env (InSnapshot (inst_index inst) (inst_data inst)) s = Ret (call, s') ->
    cstep c (mkCluster (clog c) (<[n := (Z.to_nat (inst_index inst + 1), s')]> (nodes c))
               (snaps c ++ optionList call) (inside c))
| c_restart n ids (st : S) c :
    cstep c (mkCluster (clog c) (<[n := (0%nat, NewKVService n ids st)]> (nodes c)) (snaps c)
               (delete n (inside c)))
| c_handler n p s s' c :
    nodes c !! n = Some (p, s) -> handlerStep s s' ->
    cstep c (mkCluster (clog c) (<[n := (p, s')]> (nodes c)) (snaps c) (inside c))
| c_enterStatus n p s answer ctx e s' pr c :
    nodes c !! n = Some (p, s) -> pstep answer ctx s handleStatus = Ret (e, s', pr) ->
    cstep c (mkCluster (clog c) (<[n := (p, s')]> (nodes c)) (snaps c) (<[n := InStatus pr]> (inside c)))
| c_enterMembers n p s ord answer ctx e s' pr c :
    nodes c !! n = Some (p, s) -> pstep answer ctx s (handleMembers ord) = Ret (e, s', pr) ->
    cstep c (mkCluster (clog c) (<[n := (p, s')]> (nodes c)) (snaps c) (<[n := InMembers pr]> (inside c)))
| c_status n p s answer ctx e s' pr pr' c :
    nodes c !! n = Some (p, s) -> inside c !! n = Some (InStatus pr) ->
    pstep answer ctx s pr = Ret (e, s', pr') ->
    cstep c (mkCluster (clog c) (<[n := (p, s')]> (nodes c)) (snaps c)
               (leave n s' (InStatus pr') (inside c)))
| c_members n p s answer ctx e s' pr pr' c :
    nodes c !! n = Some (p, s) -> inside c !! n = Some (InMembers pr) ->
    pstep answer ctx s pr = Ret (e, s', pr') ->
    cstep c (mkCluster (clog c) (<[n := (p, s')]> (nodes c)) (snaps c)
               (leave n s' (InMembers pr') (inside c))).

(** ** Handlers that hold the mutex *)

(** The points of [handleStatus] after its lock, with the steps left until it unlocks. *)
Inductive statusPoint : nat -> prog (reply StatusResponse) -> Prop :=
| sp_unlock self l pc :
    statusPoint 0 (Do Unlock (λ _, sendHTTPResponse (mkStatusResponse StatusOK self l pc)))
| sp_id l pc :
    statusPoint 1 (Do (gets id) (λ self,
      Do Unlock (λ _, sendHTTPResponse (mkStatusResponse StatusOK self l pc))))
| sp_leader pc :
    statusPoint 2 (Call IsLeader (λ l, Do (gets id) (λ self,
      Do Unlock (λ _, sendHTTPResponse (mkStatusResponse StatusOK self l pc)))))
| sp_count :
    statusPoint 3 (Do (gets (λ s, Z.of_nat (base.size (peers (book s))))) (λ pc,
      Call IsLeader (λ l, Do (gets id) (λ self,
      Do Unlock (λ _, sendHTTPResponse (mkStatusResponse StatusOK self l pc)))))).

(** The points of [handleMembers] after its lock; it does not get past the second. *)
Inductive membersPoint : prog (reply MembersResponse) -> Prop :=
| mp_id ord : membersPoint (Do (gets id) (members_stuck ord))
| mp_stuck ord self : membersPoint (members_stuck ord self).

Lemma statusPoint_step k p answer ctx s :
  statusPoint k p -> mu s = true ->
  ∃ e p', pstep answer ctx s p = Ret (e, match k with O => set_mu false s | _ => s end, p') ∧
    (k ≠ 0%nat -> statusPoint (pred k) p').
Proof.
  destruct 1; intros Hm; simpl; unfold Unlock; rewrite ?Hm; eexists _, _; (split; [reflexivity|]);
    intros; first [done|constructor].
Qed.

Lemma membersPoint_step p answer ctx s e s' p' :
  membersPoint p -> mu s = true -> pstep answer ctx s p = Ret (e, s', p') -> s' = s ∧ membersPoint p'.
Proof.
  destruct 1 as [ord|ord self]; intros Hm Hp; simpl in Hp.
  - injection Hp as <- <- <-. split; [done|constructor].
  - unfold httpAddr, bindM, Lock in Hp. by rewrite Hm in Hp.
Qed.

Lemma enterStatus_eq answer ctx s e s' pr :
  pstep answer ctx s handleStatus = Ret (e, s', pr) ->
  mu s = false ∧ s' = set_mu true s ∧ statusPoint 3 pr.
Proof.
  simpl. unfold Lock. destruct (mu s); intros Hp; [done|]. injection Hp as <- <- <-. by repeat constructor.
Qed.

Lemma enterMembers_eq ord answer ctx s e s' pr :
  pstep answer ctx s (handleMembers ord) = Ret (e, s', pr) ->
  mu s = false ∧ s' = set_mu true s ∧ membersPoint pr.
Proof.
  simpl. unfold Lock. destruct (mu s); intros Hp; [done|]. injection Hp as <- <- <-.
  split_and!; [done..|]. apply mp_id.
Qed.

(** The mutex is taken exactly while a handler is inside. *)
Definition lockState (o : option critical) (s : KVService) : Prop :=
  match o with
  | None => mu s = false
  | Some (InStatus pr) => mu s = true ∧ ∃ k, statusPoint k pr
  | Some (InMembers pr) => mu s = true ∧ membersPoint pr
  end.

Lemma lockState_free o s : lockState o s -> mu s = false -> o = None.
Proof. destruct o as [[]|]; [intros [? _] ?; congruence..|done]. Qed.

Lemma lockState_mu o s s' : lockState o s -> mu s' = mu s -> lockState o s'.
Proof. unfold lockState. intros Hl ->. exact Hl. Qed.

Lemma set_mu_free s : mu s = false -> set_mu false s = s.
Proof. destruct s; simpl. by intros ->. Qed.

(** While it is taken, the apply loop waits. *)
Lemma locked_updater env e index term s :
  mu s = true -> updaterStep env (InCommit e index term) s = Block.
Proof.
  intros Hm. destruct e as [cmd|cc]; simpl; [by apply locked_block|].
  unfold handleConfigChange, bindM, Lock. by rewrite Hm.
Qed.

Lemma locked_snapshot env index data s :
  mu s = true -> is_Some (decodeSnapshot data) -> updaterStep env (InSnapshot index data) s = Block.
Proof.
  intros Hm [snap Hd]. simpl. unfold handleSnapshot, bindM, Lock. by rewrite Hd, Hm.
Qed.

(** The other handlers' steps do not see the mutex, but for a subscription, which needs it. *)
Lemma handler_unlocked s s' :
  handlerStep s s' -> mu s' = mu s ∧ handlerStep (set_mu false s) (set_mu false s').
Proof.
  intros Hh. destruct Hh as [i ref s s' Hc|ref o s s' Hc|p s|i w s Hc|b s|b s].
  - destruct (mu s) eqn:Hm; [by rewrite locked_subscribe in Hc|].
    assert (Hm': mu s' = false).
    { revert Hc. unfold createCommitSubscription, bindM, Lock, gets, newChan, modify, Unlock. rewrite Hm. simpl.
      case_match; [done|]. by intros [= _ <-]. }
    split; [done|]. rewrite !set_mu_free by done. by eapply h_subscribe.
  - destruct (receive_eq _ _ _ _ Hc) as (ch & ch' & Hch & Hr & ->). split; [done|].
    eapply (h_receive ref o). unfold recvFrom, onChan. simpl. rewrite Hch, Hr. done.
  - split; [done|]. apply (h_watch p (set_mu false s)).
  - split; [done|]. by apply (h_unwatch i w (set_mu false s)).
  - split; [done|]. apply (h_book b (set_mu false s)).
  - split; [done|]. apply (h_delay b (set_mu false s)).
Qed.

(** ** The invariant *)

(** A service that has applied the entries [es]. *)
Record upToDate (es : list LogEntry) (s : KVService) : Prop := {
  utd_wfs : wfs s;
  utd_rep : rep s ≡ canonical es;
  utd_seq : leaseIDSeq (ds (rep s)) <= Z.of_nat (length es) }.

(** A snapshot of the state after the entries [es]. *)
Definition snapshotOf (es : list LogEntry) (data : bytes) : Prop :=
  ∃ ord r, encodeSnapshot ord r = Some data ∧ wf (ds r) ∧ r ≡ canonical es ∧
    leaseIDSeq (ds r) <= Z.of_nat (length es).

Record consistent (c : cluster) : Prop := {
  con_log : Forall submittedEntry (clog c);
  con_node n p s : nodes c !! n = Some (p, s) ->
    (p <= length (clog c))%nat ∧ upToDate (take p (clog c)) (set_mu false s) ∧
    lockState (inside c !! n) s;
  con_snap inst : inst ∈ snaps c ->
    0 <= inst_index inst < Z.of_nat (length (clog c)) ∧
    snapshotOf (take (Z.to_nat (inst_index inst + 1)) (clog c)) (inst_data inst) }.

Lemma consistent_start log : Forall submittedEntry log -> consistent (mkCluster log ∅ [] ∅).
Proof. intros Hl. split; simpl; [done|by intros ???; rewrite lookup_empty|by intros ? ?%elem_of_nil]. Qed.

(** *** Handlers keep a service up to date *)

Lemma handler_upToDate es s s' : handlerStep s s' -> upToDate es s -> upToDate es s'.
Proof.
  intros Hh [Hs Hr Hq]. destruct Hh as [i ref s s' Hc|ref o s s' Hc|p s|i w s Hc|b s|b s].
  - rewrite create_eq in Hc by done. case_match eqn:Hi; simplify_eq.
    split; [by apply wfs_subscribed|done..].
  - unfold recvFrom, onChan in Hc. destruct (chans s !! ref) as [ch|] eqn:Hch; [|done].
    destruct (Chan.recv ch) as [[o' ch']| |] eqn:Hrecv; simpl in Hc; simplify_eq.
    split; [|done..]. split; simpl; try apply Hs. intros j ref' Hj.
    pose proof (wfs_sub _ Hs _ _ Hj). rewrite list_lookup_insert_ne; [done|].
    intros ->. by simplify_eq.
  - split; [|done..]. split; simpl; try apply Hs. apply wfw_subscribe, Hs.
  - split; [|done..]. split; simpl; try apply Hs.
    rewrite (unsubscribe_correct i _ (wfs_watch _ Hs)) in Hc. simplify_eq. apply wfw_unsubscribe, Hs.
  - split; [|done..]. split; simpl; apply Hs.
  - split; [|done..]. split; simpl; apply Hs.
Qed.

(** *** The updater *)

Lemma updater_command es env cmd index term s :
  Forall submittedEntry es -> submitted cmd -> upToDate es s -> Z.of_nat (length es) < int64_max ->
  ∃ call s', handleCommand env cmd index term s = Ret (call, s') ∧
    upToDate (es ++ [EntryCommand cmd]) s' ∧
    ∀ inst, call = Some inst ->
      inst_index inst = index ∧ snapshotOf (es ++ [EntryCommand cmd]) (inst_data inst).
Proof.
  intros Hes Hc [Hs Hr Hq] Hlen.
  destruct (handleCommand_eq env cmd index term s Hs Hc) as (cmd' & r' & evs & w' & Ha & _ & _ & He).
  destruct (wfs_handleCommand env cmd index term s Hs Hc) as (call & s' & Hcall & Hs' & Hq'); [lia|].
  destruct (canonical_command es cmd env (rep s) Hes Hc Hr) as (c2 & r2 & Ha2 & Hr2).
  rewrite Ha in Ha2. injection Ha2 as <- <-. set (s1 := applied index cmd' r' w' s) in *.
  assert (Hrep: rep s' = r').
  { destruct (snapshotted_fields (env_ord env) index term s1) as (F & _). rewrite He in Hcall.
    case_match; [|by simplify_eq]. destruct (snapshotted _ _ _ _). by simplify_eq/=. }
  assert (Hutd: upToDate (es ++ [EntryCommand cmd]) s').
  { split; [done|by rewrite Hrep|]. rewrite length_app. simpl. lia. }
  exists call, s'. split_and!; [done..|]. intros inst ->. rewrite He in Hcall.
  case_match; [|done]. unfold snapshotted in Hcall. repeat case_match; simplify_eq/=.
  split; [done|]. eexists (env_ord env), _. split_and!; [done|apply Hs'|done|apply Hutd].
Qed.

Lemma handleConfigChange_eq cc s :
  mu s = false ->
  handleConfigChange cc s =
    Ret (tt, set_book (handleCommittedConfigChange (id s) cc (book s)) s).
Proof. destruct s; simpl. by intros ->. Qed.

Lemma updater_change es cc s :
  upToDate es s ->
  ∃ s', handleConfigChange cc s = Ret (tt, s') ∧ upToDate (es ++ [EntryConfigChange cc]) s'.
Proof.
  intros [Hs Hr Hq]. eexists. split; [apply handleConfigChange_eq, Hs|].
  split; [|by rewrite canonical_change|rewrite length_app; simpl; lia]. split; simpl; apply Hs.
Qed.

Lemma updater_snapshot `{!CodecLaws kvSnapshot (λ _, True)} es ord i data es' s :
  upToDate es' s -> snapshotOf es data ->
  ∃ s', handleSnapshot ord i data s = Ret (tt, s') ∧ upToDate es s'.
Proof.
  intros [Hs Hr Hq] (ord' & r & He & Hwf & Hr' & Hq').
  assert (Hd: decodeSnapshot data = Some (takeSnapshot ord' r)).
  { destruct (codec_roundtrip (takeSnapshot ord' r) I) as (b & Hm & Hu).
    unfold encodeSnapshot in He. by simplify_eq. }
  destruct (wfs_handleSnapshot ord i data s Hs) as (s' & Hh & Hs').
  { intros snap Hsnap. simplify_eq. by rewrite restore_take. }
  destruct (handleSnapshot_eq ord i data _ s Hs Hd) as (h & t & Hh' & _). rewrite Hh in Hh'. injection Hh' as ->.
  eexists. split; [done|]. split; [exact Hs'|..]; change (rep _) with (restoreSnapshot (takeSnapshot ord' r) (rep s));
    by rewrite restore_take.
Qed.

Lemma updater_entry es env e index term s :
  Forall submittedEntry es -> submittedEntry e -> upToDate es s ->
  Z.of_nat (length es) < int64_max ->
  ∃ call s', updaterStep env (InCommit e index term) s = Ret (call, s') ∧
    upToDate (es ++ [e]) s' ∧
    ∀ inst, call = Some inst -> inst_index inst = index ∧ snapshotOf (es ++ [e]) (inst_data inst).
Proof.
  intros Hes He Hu Hlen. destruct e as [cmd|cc]; [by apply updater_command|].
  destruct (updater_change es cc s Hu) as (s' & Hh & Hu'). exists None, s'. split_and!; [|done..].
  unfold updaterStep. by mstep by (exact Hh).
Qed.

Lemma snapshot_decodes `{!CodecLaws kvSnapshot (λ _, True)} es data :
  snapshotOf es data -> is_Some (decodeSnapshot data).
Proof.
  intros (ord & r & He & _). destruct (codec_roundtrip (takeSnapshot ord r) I) as (b & Hb & Hd).
  unfold encodeSnapshot in He. simplify_eq. by eexists.
Qed.

(** *** Steps of the cluster *)

Lemma con_insert c n p s calls ins :
  consistent c -> (p <= length (clog c))%nat -> upToDate (take p (clog c)) (set_mu false s) ->
  lockState (ins !! n) s -> (∀ m, m ≠ n -> ins !! m = inside c !! m) ->
  (∀ inst, inst ∈ calls ->
     inst_index inst + 1 = Z.of_nat p ∧ (0 < p)%nat ∧ snapshotOf (take p (clog c)) (inst_data inst)) ->
  consistent (mkCluster (clog c) (<[n := (p, s)]> (nodes c)) (snaps c ++ calls) ins).
Proof.
  intros Hc Hp Hu Hl Hins Hcalls. split; simpl; [apply Hc|..].
  - intros n' p' s' [[<- E]|[Hne E]]%lookup_insert_Some; simplify_eq; [done|].
    rewrite Hins by done. by eapply con_node.
  - intros inst [Hin|Hin]%elem_of_app; [by apply con_snap|].
    destruct (Hcalls _ Hin) as (Hi & Hp0 & Hsn). rewrite Hi, Nat2Z.id. split; [lia|done].
Qed.

(** A step that leaves the position of the node and its replicated state alone. *)
Lemma con_handler c n p s s' ins :
  consistent c -> nodes c !! n = Some (p, s) -> upToDate (take p (clog c)) (set_mu false s') ->
  lockState (ins !! n) s' -> (∀ m, m ≠ n -> ins !! m = inside c !! m) ->
  consistent (mkCluster (clog c) (<[n := (p, s')]> (nodes c)) (snaps c) ins).
Proof.
  intros Hc Hn Hu Hl Hins. destruct (con_node _ Hc _ _ _ Hn) as [Hp _].
  rewrite <-(app_nil_r (snaps c)). by apply con_insert; [..|intros ? ?%elem_of_nil].
Qed.

Lemma con_commit c e :
  consistent c -> submittedEntry e ->
  consistent (mkCluster (clog c ++ [e]) (nodes c) (snaps c) (inside c)).
Proof.
  intros Hc He. split; simpl.
  - apply Forall_app. split; [apply Hc|by constructor].
  - intros n p s Hn. destruct (con_node _ Hc _ _ _ Hn) as (Hp & Hu & Hl).
    rewrite take_app_le by done. rewrite length_app. split_and!; [lia|done|done].
  - intros inst Hin. destruct (con_snap _ Hc _ Hin) as [Hi Hs].
    rewrite take_app_le by lia. rewrite length_app. split; [lia|done].
Qed.

(** An entry the apply loop can take: the mutex is free. *)
Lemma con_apply c n p s e env term call s' :
  Z.of_nat (length (clog c)) <= int64_max -> consistent c ->
  nodes c !! n = Some (p, s) -> clog c !! p = Some e ->
  updaterStep env (InCommit e (Z.of_nat p) term) s = Ret (call, s') ->
  consistent (mkCluster (clog c) (<[n := (Datatypes.S p, s')]> (nodes c)) (snaps c ++ optionList call)
    (inside c)).
Proof.
  intros Hlen Hc Hn He Hu. destruct (con_node _ Hc _ _ _ Hn) as (Hp & Hutd & Hl).
  pose proof (lookup_lt_Some _ _ _ He).
  destruct (mu s) eqn:Hm; [by rewrite locked_updater in Hu|]. rewrite set_mu_free in Hutd by done.
  destruct (updater_entry (take p (clog c)) env e (Z.of_nat p) term s) as (call2 & s2 & Hu2 & Hutd2 & Hin).
  { apply Forall_take, Hc. } { by eapply Forall_lookup_1; [apply Hc|]. } { done. }
  { rewrite length_take. lia. }
  rewrite Hu in Hu2. injection Hu2 as <- <-. rewrite <-take_S_r in * by done.
  pose proof (wfs_mu _ (utd_wfs _ _ Hutd2)) as Hm2.
  apply con_insert; [done|lia|by rewrite set_mu_free| |done|].
  - rewrite (lockState_free _ _ Hl Hm). exact Hm2.
  - intros inst Hcall. destruct call; [|by apply elem_of_nil in Hcall].
    apply list_elem_of_singleton in Hcall as ->. destruct (Hin _ eq_refl). split_and!; [lia|lia|done].
Qed.

Lemma con_restore `{!CodecLaws kvSnapshot (λ _, True)} c n p s inst env call s' :
  consistent c -> nodes c !! n = Some (p, s) -> inst ∈ snaps c ->
  updaterStep env (InSnapshot (inst_index inst) (inst_data inst)) s = Ret (call, s') ->
  consistent (mkCluster (clog c) (<[n := (Z.to_nat (inst_index inst + 1), s')]> (nodes c))
    (snaps c ++ optionList call) (inside c)).
Proof.
  intros Hc Hn Hi Hu. destruct (con_node _ Hc _ _ _ Hn) as (Hp & Hutd & Hl).
  destruct (con_snap _ Hc _ Hi) as [Hidx Hs].
  destruct (mu s) eqn:Hm.
  { rewrite locked_snapshot in Hu; [done..|]. by eapply snapshot_decodes. }
  rewrite set_mu_free in Hutd by done.
  destruct (updater_snapshot _ (env_ord env) (inst_index inst) (inst_data inst) _ s Hutd Hs)
    as (s2 & Hh & Hutd2).
  unfold updaterStep in Hu. rewrite (bindM_ret _ _ _ _ _ Hh) in Hu. injection Hu as <- <-.
  pose proof (wfs_mu _ (utd_wfs _ _ Hutd2)) as Hm2.
  apply con_insert; [done|lia|by rewrite set_mu_free| |done|by intros ? ?%elem_of_nil].
  rewrite (lockState_free _ _ Hl Hm). exact Hm2.
Qed.

Lemma leave_other n m s' cr ins : m ≠ n -> leave n s' cr ins !! m = ins !! m.
Proof. intros. unfold leave. case_match; by rewrite ?lookup_insert_ne, ?lookup_delete_ne. Qed.

Lemma con_status c n p s answer ctx e s' pr pr' :
  consistent c -> nodes c !! n = Some (p, s) -> inside c !! n = Some (InStatus pr) ->
  pstep answer ctx s pr = Ret (e, s', pr') ->
  consistent (mkCluster (clog c) (<[n := (p, s')]> (nodes c)) (snaps c)
    (leave n s' (InStatus pr') (inside c))).
Proof.
  intros Hc Hn Hi Hp. destruct (con_node _ Hc _ _ _ Hn) as (_ & Hutd & Hl).
  rewrite Hi in Hl. destruct Hl as [Hm [k Hk]].
  destruct (statusPoint_step k pr answer ctx s Hk Hm) as (e2 & p2 & Hp2 & Hnext).
  rewrite Hp in Hp2. injection Hp2 as _ -> <-.
  destruct k as [|k]; (apply (con_handler c n p s); [done|done|done| |by intros; apply leave_other]);
    unfold leave; simpl; rewrite ?Hm, ?lookup_delete_eq, ?lookup_insert_eq; simpl; [done|].
  split; [done|]. exists k. by apply Hnext.
Qed.

Lemma con_members c n p s answer ctx e s' pr pr' :
  consistent c -> nodes c !! n = Some (p, s) -> inside c !! n = Some (InMembers pr) ->
  pstep answer ctx s pr = Ret (e, s', pr') ->
  consistent (mkCluster (clog c) (<[n := (p, s')]> (nodes c)) (snaps c)
    (leave n s' (InMembers pr') (inside c))).
Proof.
  intros Hc Hn Hi Hp. destruct (con_node _ Hc _ _ _ Hn) as (_ & Hutd & Hl).
  rewrite Hi in Hl. destruct Hl as [Hm Hpt].
  destruct (membersPoint_step _ _ _ _ _ _ _ Hpt Hm Hp) as [-> Hpt'].
  apply (con_handler c n p s); [done..| |by intros; apply leave_other].
  unfold leave. rewrite Hm, lookup_insert_eq. by split.
Qed.

Lemma consistent_step `{!CodecLaws kvSnapshot (λ _, True)} c c' :
  Z.of_nat (length (clog c)) <= int64_max -> consistent c -> cstep c c' -> consistent c'.
Proof.
  intros Hlen Hc Hstep. destruct Hstep as
    [e c He|n p s e env term call s' c Hn He Hu|n p s inst env call s' c Hn Hi Hu|n ids st c
    |n p s s' c Hn Hh|n p s answer ctx e s' pr c Hn Hp|n p s ord answer ctx e s' pr c Hn Hp
    |n p s answer ctx e s' pr pr' c Hn Hi Hp|n p s answer ctx e s' pr pr' c Hn Hi Hp].
  - by apply con_commit.
  - by eapply con_apply.
  - by eapply con_restore.
  - rewrite <-(app_nil_r (snaps c)). apply con_insert; [done|lia| |by rewrite lookup_delete_eq
      |by intros; rewrite lookup_delete_ne|by intros ? ?%elem_of_nil].
    rewrite take_0. split; [apply wfs_new|done|simpl; lia].
  - destruct (con_node _ Hc _ _ _ Hn) as (Hp & Hutd & Hl). destruct (handler_unlocked _ _ Hh) as [Hm Hh'].
    apply (con_handler c n p s); [done..|by eapply handler_upToDate|by eapply lockState_mu|done].
  - destruct (con_node _ Hc _ _ _ Hn) as (_ & Hutd & Hl). destruct (enterStatus_eq _ _ _ _ _ _ Hp) as (Hm & -> & Hpt).
    apply (con_handler c n p s); [done..|rewrite lookup_insert_eq; by split; eauto
      |by intros; rewrite lookup_insert_ne].
  - destruct (con_node _ Hc _ _ _ Hn) as (_ & Hutd & Hl). destruct (enterMembers_eq _ _ _ _ _ _ _ Hp) as (Hm & -> & Hpt).
    apply (con_handler c n p s); [done..|by rewrite lookup_insert_eq|by intros; rewrite lookup_insert_ne].
  - by eapply con_status.
  - by eapply con_members.
Qed.

Lemma cstep_log c c' : cstep c c' -> (length (clog c) <= length (clog c'))%nat.
Proof. destruct 1; simpl; rewrite ?length_app; lia. Qed.

Lemma rtc_log c c' : rtc cstep c c' -> (length (clog c) <= length (clog c'))%nat.
Proof. induction 1 as [|c1 c2 c3 Hs _ IH]; [done|]. apply cstep_log in Hs. lia. Qed.

Lemma consistent_reachable `{!CodecLaws kvSnapshot (λ _, True)} c c' :
  consistent c -> rtc cstep c c' -> Z.of_nat (length (clog c')) <= int64_max -> consistent c'.
Proof.
  intros Hc Hr. revert Hc. induction Hr as [|c1 c2 c3 Hs Hr IH]; intros Hc Hlen; [done|].
  apply IH; [|done]. apply (consistent_step c1); [|done..].
  apply cstep_log in Hs. apply rtc_log in Hr. lia.
Qed.

(** *** The snapshot index of a node that never restored a snapshot *)

Lemma entry_no_snapshot env e index term s call s' :
  wfs s -> submittedEntry e -> lastSnapshotIndex s < 0 ->
  updaterStep env (InCommit e index term) s = Ret (call, s') ->
  call = None ∧ lastSnapshotIndex s' = lastSnapshotIndex s.
Proof.
  intros Hs He Hl Hu. destruct e as [cmd|cc]; simpl in Hu.
  - destruct (handleCommand_eq env cmd index term s Hs He) as (cmd' & r' & es & w' & _ & _ & _ & Hc).
    rewrite Hc in Hu. rewrite (proj2 (Z.leb_gt _ _)) in Hu by lia. by simplify_eq.
  - rewrite (bindM_ret _ _ _ _ _ (handleConfigChange_eq cc s (wfs_mu _ Hs))) in Hu. by injection Hu as <- <-.
Qed.

Lemma handler_no_snapshot s s' :
  wfs s -> handlerStep s s' -> lastSnapshotIndex s' = lastSnapshotIndex s.
Proof.
  intros Hs Hh. destruct Hh as [i ref s s' Hc|ref o s s' Hc|p s|i w s Hc|b s|b s]; try done.
  - rewrite create_eq in Hc by done. case_match; by simplify_eq.
  - unfold recvFrom, onChan in Hc. case_match; [|done].
    destruct (Chan.recv _) as [[]| |]; simpl in Hc; by simplify_eq.
Qed.

Definition noSnapshot (c : cluster) : Prop :=
  snaps c = [] ∧ ∀ n p s, nodes c !! n = Some (p, s) -> lastSnapshotIndex s < 0.

Lemma noSnapshot_insert c n p s ins :
  noSnapshot c -> lastSnapshotIndex s < 0 ->
  noSnapshot (mkCluster (clog c) (<[n := (p, s)]> (nodes c)) (snaps c) ins).
Proof.
  intros [Hsn Hno] Hs. split; simpl; [done|].
  intros n' p' s' [[_ E]|[_ E]]%lookup_insert_Some; simplify_eq; eauto.
Qed.

Lemma noSnapshot_step c c' : consistent c -> noSnapshot c -> cstep c c' -> noSnapshot c'.
Proof.
  intros Hc Hno Hstep. pose proof Hno as [Hsn Hlt]. destruct Hstep as
    [e c He|n p s e env term call s' c Hn He Hu|n p s inst env call s' c Hn Hi Hu|n ids st c
    |n p s s' c Hn Hh|n p s answer ctx e s' pr c Hn Hp|n p s ord answer ctx e s' pr c Hn Hp
    |n p s answer ctx e s' pr pr' c Hn Hi Hp|n p s answer ctx e s' pr pr' c Hn Hi Hp].
  - done.
  - destruct (con_node _ Hc _ _ _ Hn) as (_ & Hutd & _).
    destruct (mu s) eqn:Hm; [by rewrite locked_updater in Hu|]. rewrite set_mu_free in Hutd by done.
    destruct (entry_no_snapshot env e (Z.of_nat p) term s call s') as [-> Hl];
      [apply Hutd|by eapply Forall_lookup_1; [apply Hc|]|eauto|done|].
    simpl. rewrite app_nil_r. apply noSnapshot_insert; [done|]. rewrite Hl. eauto.
  - rewrite Hsn in Hi. by apply elem_of_nil in Hi.
  - by apply noSnapshot_insert.
  - destruct (con_node _ Hc _ _ _ Hn) as (_ & Hutd & _). destruct (handler_unlocked _ _ Hh) as [_ Hh'].
    apply noSnapshot_insert; [done|]. pose proof (handler_no_snapshot _ _ (utd_wfs _ _ Hutd) Hh') as Hl.
    simpl in Hl. rewrite Hl. eauto.
  - destruct (enterStatus_eq _ _ _ _ _ _ Hp) as (_ & -> & _). apply noSnapshot_insert; [done|]. simpl. eauto.
  - destruct (enterMembers_eq _ _ _ _ _ _ _ Hp) as (_ & -> & _). apply noSnapshot_insert; [done|]. simpl. eauto.
  - destruct (con_node _ Hc _ _ _ Hn) as (_ & _ & Hl). rewrite Hi in Hl. destruct Hl as [Hm [k Hk]].
    destruct (statusPoint_step k pr answer ctx s Hk Hm) as (e2 & p2 & Hp2 & _).
    rewrite Hp in Hp2. injection Hp2 as _ -> _. apply noSnapshot_insert; [done|]. destruct k; simpl; eauto.
  - destruct (con_node _ Hc _ _ _ Hn) as (_ & _ & Hl). rewrite Hi in Hl. destruct Hl as [Hm Hpt].
    destruct (membersPoint_step _ _ _ _ _ _ _ Hpt Hm Hp) as [-> _]. apply noSnapshot_insert; eauto.
Qed.

(** *** Progress *)

(** A status handler leaves its critical section by its own steps. *)
Lemma status_leaves k : ∀ c n p s pr,
  nodes c !! n = Some (p, s) -> inside c !! n = Some (InStatus pr) -> mu s = true -> statusPoint k pr ->
  ∃ c1, rtc cstep c c1 ∧ clog c1 = clog c ∧ snaps c1 = snaps c ∧
    nodes c1 = <[n := (p, set_mu false s)]> (nodes c) ∧ inside c1 = delete n (inside c).
Proof.
  induction k as [|k IH]; intros c n p s pr Hn Hi Hm Hpt.
  - destruct (statusPoint_step _ _ index5 false s Hpt Hm) as (e & p' & Hp & _).
    pose proof (c_status n p s _ _ _ _ _ _ c Hn Hi Hp) as Hs. eexists. split; [by apply rtc_once|done].
  - destruct (statusPoint_step _ _ index5 false s Hpt Hm) as (e & p' & Hp & Hnext). specialize (Hnext ltac:(done)).
    pose proof (c_status n p s _ _ _ _ _ _ c Hn Hi Hp) as Hs. unfold leave in Hs. rewrite Hm in Hs.
    destruct (IH (mkCluster (clog c) (<[n := (p, s)]> (nodes c)) (snaps c) (<[n := InStatus p']> (inside c)))
      n p s p') as (c1 & Hr & Hl & Hsn & Hnd & Hin); [apply lookup_insert_eq..|done|done|].
    exists c1. split_and!; [by eapply rtc_l|done|done| |].
    + rewrite Hnd. simpl. by rewrite insert_insert_eq.
    + rewrite Hin. simpl. by rewrite delete_insert_eq.
Qed.

(** A node with a members handler inside stays as it is until its process is restarted. *)
Lemma members_stays `{!CodecLaws kvSnapshot (λ _, True)} c c' n p s pr :
  consistent c -> nodes c !! n = Some (p, s) -> inside c !! n = Some (InMembers pr) ->
  cstep c c' ->
  (∃ s' pr', nodes c' !! n = Some (p, s') ∧ inside c' !! n = Some (InMembers pr')) ∨
  ∃ ids (st : S), nodes c' !! n = Some (0%nat, NewKVService n ids st).
Proof.
  intros Hc Hn Hi Hstep. destruct (con_node _ Hc _ _ _ Hn) as (_ & _ & Hl).
  rewrite Hi in Hl. destruct Hl as [Hm Hpt].
  destruct Hstep as
    [e c He|n' p' s1 e env term call s' c Hn' He Hu|n' p' s1 inst env call s' c Hn' Hi' Hu|n' ids st c
    |n' p' s1 s' c Hn' Hh|n' p' s1 answer ctx e s' pr1 c Hn' Hp|n' p' s1 ord answer ctx e s' pr1 c Hn' Hp
    |n' p' s1 answer ctx e s' pr1 pr' c Hn' Hi' Hp|n' p' s1 answer ctx e s' pr1 pr' c Hn' Hi' Hp];
    simpl; [by left; eauto|..];
    (destruct (decide (n' = n)) as [->|Hne];
      [|left; rewrite ?lookup_insert_ne, ?lookup_delete_ne, ?leave_other by done; by eauto]);
    rewrite ?lookup_insert_eq; simplify_eq.
  - by rewrite locked_updater in Hu.
  - rewrite locked_snapshot in Hu; [done..|]. by eapply snapshot_decodes, con_snap.
  - right. eauto.
  - left. eauto.
  - destruct (enterStatus_eq _ _ _ _ _ _ Hp). congruence.
  - destruct (enterMembers_eq _ _ _ _ _ _ _ Hp). congruence.
  - left. destruct (membersPoint_step _ _ _ _ _ _ _ Hpt Hm Hp) as [-> _].
    unfold leave. rewrite Hm, lookup_insert_eq. eauto.
Qed.

(** ** Properties *)

(** C1 (invariant).  Agreement in the whole system: from a consistent cluster, through
    commits, applications, crashes and restarts, snapshots and any activity
    of the handlers, two nodes that have applied the same number of log
    entries hold equivalent replicated state: the same data, leases,
    request table and revision, up to the local clocks of lease deadlines. *)
Theorem nodes_agree `{!CodecLaws kvSnapshot (λ _, True)} c c' n m p s1 s2 :
  consistent c -> rtc cstep c c' -> Z.of_nat (length (clog c')) <= int64_max ->
  nodes c' !! n = Some (p, s1) -> nodes c' !! m = Some (p, s2) -> rep s1 ≡ rep s2.
Proof.
  intros Hc Hr Hlen Hn Hm. pose proof (consistent_reachable c c' Hc Hr Hlen) as Hc'.
  destruct (con_node _ Hc' _ _ _ Hn) as (_ & [_ E1 _] & _).
  destruct (con_node _ Hc' _ _ _ Hm) as (_ & [_ E2 _] & _). simpl in E1, E2. by rewrite E1, E2.
Qed.

(** C9 (liveness).  When the apply loop can go on: in every reachable cluster, a node that has not
    applied the whole log either has a [GET /members/] handler inside, and then
    the apply loop is blocked and every step of the cluster leaves it so but a
    restart of that process; or it takes its next entry without a panic and
    moves on by one, after at most the steps in which a [GET /status/] handler
    leaves its critical section, which change nothing but the mutex. *)
Theorem apply_loop_progress `{!CodecLaws kvSnapshot (λ _, True)} c c' n p s e env term :
  consistent c -> rtc cstep c c' -> Z.of_nat (length (clog c')) <= int64_max ->
  nodes c' !! n = Some (p, s) -> clog c' !! p = Some e ->
  (∃ pr, inside c' !! n = Some (InMembers pr) ∧
     updaterStep env (InCommit e (Z.of_nat p) term) s = Block ∧
     ∀ c'', cstep c' c'' ->
       (∃ s' pr', nodes c'' !! n = Some (p, s') ∧ inside c'' !! n = Some (InMembers pr')) ∨
       ∃ ids (st : S), nodes c'' !! n = Some (0%nat, NewKVService n ids st)) ∨
  ∃ c1 call s' c2, rtc cstep c' c1 ∧ clog c1 = clog c' ∧
    nodes c1 = <[n := (p, set_mu false s)]> (nodes c') ∧
    updaterStep env (InCommit e (Z.of_nat p) term) (set_mu false s) = Ret (call, s') ∧
    cstep c1 c2 ∧ nodes c2 !! n = Some (Datatypes.S p, s').
Proof.
  intros Hc Hr Hlen Hn He. pose proof (consistent_reachable c c' Hc Hr Hlen) as Hc'.
  destruct (con_node _ Hc' _ _ _ Hn) as (Hp & Hu & Hl). pose proof (lookup_lt_Some _ _ _ He).
  destruct (updater_entry (take p (clog c')) env e (Z.of_nat p) term (set_mu false s)) as (call & s' & Hs & _).
  { apply Forall_take, Hc'. } { by eapply Forall_lookup_1; [apply Hc'|]. } { done. }
  { rewrite length_take. lia. }
  assert (Hgo: ∀ c1, rtc cstep c' c1 -> clog c1 = clog c' -> nodes c1 = <[n := (p, set_mu false s)]> (nodes c') ->
    ∃ c1 call s' c2, rtc cstep c' c1 ∧ clog c1 = clog c' ∧
      nodes c1 = <[n := (p, set_mu false s)]> (nodes c') ∧
      updaterStep env (InCommit e (Z.of_nat p) term) (set_mu false s) = Ret (call, s') ∧
      cstep c1 c2 ∧ nodes c2 !! n = Some (Datatypes.S p, s')).
  { intros c1 Hr1 Hl1 Hn1. exists c1, call, s'. eexists. split_and!; [done..| |].
    - eapply (c_apply n p (set_mu false s)); [by rewrite Hn1, lookup_insert_eq|by rewrite Hl1|exact Hs].
    - simpl. apply lookup_insert_eq. }
  destruct (inside c' !! n) as [[pr|pr]|] eqn:Hi; simpl in Hl.
  - right. destruct Hl as [Hm [k Hk]].
    destruct (status_leaves k c' n p s pr Hn Hi Hm Hk) as (c1 & Hr1 & Hl1 & _ & Hn1 & _). by apply (Hgo c1).
  - left. destruct Hl as [Hm Hpt]. exists pr. split_and!; [done|by apply locked_updater|].
    intros c'' Hstep. by eapply members_stays.
  - right. apply (Hgo c'); [done..|]. rewrite set_mu_free by done. by rewrite insert_id.
Qed.

(** C30 (invariant).  No snapshot is ever taken: [lastSnapshotIndex] starts at -1,
    only a restored snapshot raises it, and a command considers taking a
    snapshot only when it is not negative.  So in no execution from a cluster
    without snapshots, however long the log, does a node call
    [InstallSnapshot]. *)
Theorem no_snapshot_is_ever_taken `{!CodecLaws kvSnapshot (λ _, True)} log c :
  Forall submittedEntry log -> rtc cstep (mkCluster log ∅ [] ∅) c ->
  Z.of_nat (length (clog c)) <= int64_max -> snaps c = [].
Proof.
  intros Hlog Hr Hlen.
  assert (Hinv: consistent c ∧ noSnapshot c); [|by destruct Hinv as [_ [? _]]].
  revert c Hr Hlen. apply (rtc_ind_r (λ c, Z.of_nat (length (clog c)) <= int64_max ->
    consistent c ∧ noSnapshot c)).
  - intros _. split; [by apply consistent_start|]. split; [done|].
    intros n p s. simpl. by rewrite lookup_empty.
  - intros c1 c2 _ Hs IH Hlen. pose proof (cstep_log _ _ Hs). destruct IH as [IH1 IH2]; [lia|].
    split; [by eapply consistent_step; [|done..]; lia|by eapply noSnapshot_step].
Qed.
End cluster.

(** *** Witnesses: two nodes that apply the same put *)

Section sample.
#[local] Instance peers_codec : Codec (list persistedPeer) :=
  Encoded.countable_codec (list persistedPeer).
#[local] Instance snapshot_codec : Codec kvSnapshot := sample_codec.
#[local] Instance snapshot_codec_laws : CodecLaws kvSnapshot (λ _, True) :=
  Encoded.countable_codec_laws kvSnapshot (λ _, True).

Definition sample_entries : list LogEntry := [EntryCommand (putCommand 1 1 "k" "v" 0)].
Definition sample_step := cstep (S := gmap string bytes).
Definition fresh_node (n : Z) : KVService := NewKVService n [1; 2] (∅ : gmap string bytes).

Definition sample_cluster (nodes : gmap Z (nat * KVService)) : cluster :=
  mkCluster sample_entries nodes [] ∅.

Lemma sample_submitted_entries : Forall submittedEntry sample_entries.
Proof. by repeat constructor. Qed.

Lemma sample_started :
  rtc sample_step (sample_cluster ∅) (sample_cluster {[1 := (0%nat, fresh_node 1); 2 := (0%nat, fresh_node 2)]}).
Proof.
  eapply rtc_l; [apply (c_restart 2 [1; 2] (∅ : gmap string bytes))|].
  apply rtc_once. apply (c_restart 1 [1; 2] (∅ : gmap string bytes)).
Qed.

(** Both nodes have applied the put, each with its own clock and orders. *)
Lemma sample_applied :
  ∃ s1 s2, rtc sample_step (sample_cluster ∅) (sample_cluster {[1 := (1%nat, s1); 2 := (1%nat, s2)]}).
Proof.
  destruct (updaterStep (mkEnv 7 in_order) (InCommit (EntryCommand (putCommand 1 1 "k" "v" 0)) 0 1)
    (fresh_node 1)) as [[call1 s1]| |] eqn:E1; [|by vm_compute in E1..].
  destruct (updaterStep (mkEnv 9 reversed) (InCommit (EntryCommand (putCommand 1 1 "k" "v" 0)) 0 1)
    (fresh_node 2)) as [[call2 s2]| |] eqn:E2; [|by vm_compute in E2..].
  assert (call1 = None) as -> by (vm_compute in E1; by simplify_eq).
  assert (call2 = None) as -> by (vm_compute in E2; by simplify_eq).
  exists s1, s2. etrans; [exact sample_started|].
  eapply rtc_l; [eapply (c_apply 2 0); [reflexivity|reflexivity|exact E2]|].
  eapply rtc_l; [eapply (c_apply 1 0); [reflexivity|reflexivity|exact E1]|].
  apply rtc_refl.
Qed.

Lemma nodes_agree_witness :
  ∃ s1 s2, rtc sample_step (sample_cluster ∅) (sample_cluster {[1 := (1%nat, s1); 2 := (1%nat, s2)]}) ∧
    rep s1 ≡ rep s2.
Proof.
  destruct sample_applied as (s1 & s2 & Hr). exists s1, s2. split; [done|].
  eapply (nodes_agree _ _ 1 2 1 s1 s2 (consistent_start _ sample_submitted_entries) Hr);
    [vm_compute; discriminate|done|done].
Defined.

(** Node 1 with a status handler inside. *)
Definition status_rest : prog (reply StatusResponse) :=
  Do (gets (λ s, Z.of_nat (base.size (peers (book s))))) (λ pc,
  Call IsLeader (λ l, Do (gets id) (λ self,
  Do Unlock (λ _, sendHTTPResponse (mkStatusResponse StatusOK self l pc))))).
Definition status_inside : cluster :=
  mkCluster sample_entries (<[1 := (0%nat, set_mu true (fresh_node 1))]>
    {[1 := (0%nat, fresh_node 1); 2 := (0%nat, fresh_node 2)]}) [] (<[1 := InStatus status_rest]> ∅).

Lemma status_inside_reachable : rtc sample_step (sample_cluster ∅) status_inside.
Proof.
  eapply rtc_r; [exact sample_started|].
  unfold sample_step, status_inside.
  refine (c_enterStatus 1 0 (fresh_node 1) index5 false EvOther (set_mu true (fresh_node 1)) status_rest
    (sample_cluster _) _ _); reflexivity.
Qed.

Lemma apply_loop_progress_witness :
  ∃ c1 call s' c2, rtc sample_step status_inside c1 ∧
    updaterStep env0 (InCommit (EntryCommand (putCommand 1 1 "k" "v" 0)) 0 1) (fresh_node 1) = Ret (call, s') ∧
    sample_step c1 c2 ∧ nodes c2 !! 1 = Some (1%nat, s').
Proof.
  destruct (apply_loop_progress _ _ 1 0 (set_mu true (fresh_node 1)) (EntryCommand (putCommand 1 1 "k" "v" 0))
    env0 1 (consistent_start _ sample_submitted_entries) status_inside_reachable)
    as [(pr & Hi & _)|(c1 & call & s' & c2 & H1 & _ & _ & H2 & H3 & H4)];
    [vm_compute; discriminate|done|done|discriminate Hi|].
  by exists c1, call, s', c2.
Defined.

Lemma no_snapshot_is_ever_taken_witness :
  ∃ c, rtc sample_step (sample_cluster ∅) c ∧ snaps c = [].
Proof.
  destruct sample_applied as (s1 & s2 & Hr). eexists. split; [exact Hr|].
  apply (no_snapshot_is_ever_taken sample_entries _ sample_submitted_entries Hr).
  vm_compute. discriminate.
Defined.

End sample.
