(* ===== verification/Sse.v ===== *)
(** * The event stream on the wire

    The server writes watch events as server-sent events ([handleWatch],
    [writeSSE] of src/kvservice/watch.go) and the client reads them line by
    line ([readSSE] of src/kvclient/kvclient.go).  The text is a [string] of
    bytes.  The line format needs three properties of the JSON of an event, the
    class [EventJSONLaws]: it is not empty, has no line break, and decodes to
    the event without its type, which has the tag "-".  [event_json] is that
    JSON and has them. *)

From S2P Require Import Prelude GoLib Utf8 Json Schema Api Watch Codec Peers Messages.
From Stdlib Require Import Ascii.
From Stdlib Require String.
Import EventBuffer WatchSubs.
Import GoStrings.

Definition LF : ascii := "010"%char.
Definition CR : ascii := "013"%char.

(** Every character of a string satisfies [P]. *)
Fixpoint StringAll (P : ascii -> Prop) (s : string) : Prop :=
  match s with EmptyString => True | String c s' => P c ∧ StringAll P s' end.

Definition lineChar (c : ascii) : Prop := c ≠ LF ∧ c ≠ CR.

(** ** The JSON form of an event *)

Definition without_type (e : WatchEvent) : WatchEvent :=
  mkWatchEvent (Ev_Key e) (Ev_Value e) (Ev_Revision e) EventInvalid.
Definition with_type (t : WatchEventType) (e : WatchEvent) : WatchEvent :=
  mkWatchEvent (Ev_Key e) (Ev_Value e) (Ev_Revision e) t.

Class EventJSON := mkEventJSON {
  ev_marshal : WatchEvent -> string;
  ev_unmarshal : string -> option WatchEvent }.

Class EventJSONLaws `{EventJSON} (representable : WatchEvent -> Prop) : Prop := {
  ev_one_line e : StringAll lineChar (ev_marshal e);
  ev_not_empty e : ev_marshal e ≠ "";
  ev_roundtrip e : representable e -> ev_unmarshal (ev_marshal e) = Some (without_type e) }.

(** ** The server side *)

Section server.
Context `{EventJSON}.

Definition endl : string := String LF "".

Definition writeSSE (e : WatchEvent) : string :=
  ("event: " +:+ WatchEventName (Ev_Type e) +:+ endl +:+
   "id: " +:+ Strconv.FormatInt (Ev_Revision e) +:+ endl +:+
   "data: " +:+ ev_marshal e +:+ endl +:+ endl).

Fixpoint writeAll (es : list WatchEvent) : string :=
  match es with [] => "" | e :: rest => (writeSSE e +:+ writeAll rest) end.

(** The query and the header of a watch request, and whether the connection can
    stream. *)
Record watchRequest := mkWatchRequest {
  wr_prefix : string; wr_since : string; wr_lastEventID : string; wr_flusher : bool }.

(** The revision to resume from; [None] when the parameter is not a number. *)
Definition watchSince (req : watchRequest) : option Z :=
  let sinceStr :=
    if bool_decide (wr_lastEventID req ≠ "") then
      match Strconv.ParseInt (wr_lastEventID req) with
      | (rev, None) => if 0 <? rev then wr_lastEventID req else wr_since req
      | _ => wr_since req
      end
    else wr_since req in
  if bool_decide (sinceStr = "") then Some 0
  else match Strconv.ParseInt sinceStr with (rev, None) => Some rev | _ => None end.

Inductive watchReply :=
| WatchError (msg : string) (code : Z)
| WatchOpen (subID since : Z).

(** [handleWatch] up to its subscription. *)
Definition openWatch (req : watchRequest) (ws : watchState) : watchReply * watchState :=
  match watchSince req with
  | None => (WatchError "invalid since parameter" 400, ws)
  | Some since =>
      if negb (wr_flusher req) then (WatchError "streaming not supported" 500, ws)
      else let '(subID, ws1) := subscribeWatch (wr_prefix req) ws in (WatchOpen subID since, ws1)
  end.

(** The replay, in a step of its own; it is not filtered by the prefix. *)
Definition replayWatch (since : Z) (ws : watchState) : go string :=
  let! events := Replay since (eventBuf ws) in Ret (writeAll events).

(** One turn of the loop: [None] when the channel was closed and the handler
    returns; it blocks while the channel is empty. *)
Definition nextWatch (subID : Z) (ws : watchState) : go (option string * watchState) :=
  let! p := Chan.recv (getWatchChan subID ws) in
  Ret (writeSSE <$> p.1,
       match watchSubs ws !! subID with
       | Some sub => mkWatchState (eventBuf ws)
           (<[subID := mkWatchSub (prefix sub) p.2]> (watchSubs ws)) (watchSeq ws)
       | None => ws
       end).

End server.

(** ** The client side *)

(** [bufio.Scanner] with [ScanLines]: lines without their line break and one
    carriage return before it; a line that does not fit its buffer ends the
    scan. *)
Definition maxScanTokenSize : Z := 65536.

Fixpoint dropCR (s : string) : string :=
  match s with
  | EmptyString => ""
  | String c EmptyString => if bool_decide (c = CR) then "" else s
  | String c s' => String c (dropCR s')
  end.

(** [cur] is the current line and [n] its length. *)
Fixpoint scanLines (cur : string) (n : Z) (s : string) : list string :=
  match s with
  | EmptyString => if bool_decide (cur = "") then [] else [dropCR cur]
  | String c rest =>
      if bool_decide (c = LF) then dropCR cur :: scanLines "" 0 rest
      else if maxScanTokenSize <=? n + 1 then []
      else scanLines (cur +:+ String c "") (n + 1) rest
  end.

Section client.
Context `{EventJSON}.

Record sseState := mkSseState { eventType : string; eventID : string; eventData : string }.
Definition sseEmpty : sseState := mkSseState "" "" "".

(** [flushEvent], as the event it sends. *)
Definition flushEvent (st : sseState) : option WatchEvent :=
  if bool_decide (eventType st = "") || bool_decide (eventData st = "") then None
  else match WatchEventTypeFromName (eventType st) with
       | None => None
       | Some evType =>
           match ev_unmarshal (eventData st) with
           | None => None
           | Some ev =>
               let ev1 := with_type evType ev in
               match Strconv.ParseInt (eventID st) with
               | (rev, None) =>
                   if 0 <? rev then Some (mkWatchEvent (Ev_Key ev1) (Ev_Value ev1) rev evType)
                   else Some ev1
               | _ => Some ev1
               end
           end
       end.

Definition flushed (st : sseState) : list WatchEvent :=
  match flushEvent st with Some ev => [ev] | None => [] end.

(** The loop over the lines, as the events sent to the channel. *)
Fixpoint readSSE (lines : list string) (st : sseState) : list WatchEvent :=
  match lines with
  | [] => flushed st
  | line :: rest =>
      if bool_decide (line = "") then flushed st ++ readSSE rest sseEmpty
      else
        let st1 :=
          if HasPrefix line "event: " then
            mkSseState (TrimPrefix line "event: ") (eventID st) (eventData st)
          else if HasPrefix line "id: " then
            mkSseState (eventType st) (TrimPrefix line "id: ") (eventData st)
          else if HasPrefix line "data: " then
            mkSseState (eventType st) (eventID st) (TrimPrefix line "data: ")
          else st in
        readSSE rest st1
  end.

(** What the client receives from a stream. *)
Definition received (text : string) : list WatchEvent := readSSE (scanLines "" 0 text) sseEmpty.

End client.

(** ** Lemmas on text *)

Lemma StringAll_app P (a b : string) : StringAll P (a +:+ b) <-> StringAll P a ∧ StringAll P b.
Proof. induction a as [|x a IH]; [simpl; tauto|]. rewrite append_cons. simpl. rewrite IH. tauto. Qed.

Lemma dropCR_line s : StringAll lineChar s -> dropCR s = s.
Proof.
  induction s as [|c s IH]; [done|]. intros [[_ Hc] Hs]. simpl.
  destruct s as [|d s]; [by rewrite bool_decide_eq_false_2|]. by rewrite IH.
Qed.

(** A line that fits the buffer is scanned. *)
Lemma scan_line cur n l rest :
  StringAll lineChar l -> StringAll lineChar cur -> n + Z.of_nat (String.length l) < maxScanTokenSize ->
  scanLines cur n (l +:+ endl +:+ rest) = (cur +:+ l) :: scanLines "" 0 rest.
Proof.
  revert cur n. induction l as [|c l IH]; intros cur n Hl Hcur Hlen.
  - change ("" +:+ ?x) with x. simpl. by rewrite append_nil, dropCR_line.
  - rewrite append_cons. cbn [scanLines]. destruct Hl as [[Hc Hc'] Hl]. cbn [String.length] in Hlen.
    rewrite bool_decide_eq_false_2 by done. rewrite (proj2 (Z.leb_gt _ _)) by lia.
    rewrite IH; [by rewrite append_assoc|done| |lia].
    apply StringAll_app. by repeat split.
Qed.

Lemma digit_line d : 0 <= d < 10 -> lineChar (Strconv.digit_char d).
Proof.
  intros Hd. pose proof (Strconv.digit_val_char d Hd) as Hv.
  split; intros E; rewrite E in Hv; discriminate Hv.
Qed.

Lemma format_uint_line fuel n acc :
  0 <= n -> StringAll lineChar acc ->
  StringAll lineChar (Strconv.format_uint fuel n acc) ∧
  (String.length (Strconv.format_uint fuel n acc) <= fuel + String.length acc)%nat.
Proof.
  revert n acc. induction fuel as [|fuel IH]; intros n acc Hn Hacc; [done|].
  cbn [Strconv.format_uint]. pose proof (Z.mod_pos_bound n 10 ltac:(lia)).
  destruct (Z.ltb_spec n 10) as [Hlt|Hge].
  - split; [split; [apply digit_line; lia|done]|simpl; lia].
  - destruct (IH (n / 10) (String (Strconv.digit_char (n `mod` 10)) acc)) as [H1 H2];
      [apply Z.div_pos; lia|split; [by apply digit_line|done]|].
    split; [done|]. cbn [String.length] in H2. lia.
Qed.

Lemma FormatInt_line z :
  StringAll lineChar (Strconv.FormatInt z) ∧ (String.length (Strconv.FormatInt z) <= 21)%nat.
Proof.
  unfold Strconv.FormatInt. destruct (Z.ltb_spec z 0).
  - destruct (format_uint_line 20 (- z) "") as [H1 H2]; [lia|done|].
    split; [by repeat split|]. cbn [String.length] in *. lia.
  - destruct (format_uint_line 20 z "") as [H1 H2]; [lia|done|]. split; [done|]. cbn [String.length] in *. lia.
Qed.

(** ** A written event is read back *)

Section wire.
Context `{EventJSON} {representable : WatchEvent -> Prop} `{!EventJSONLaws representable}.

(** An event that fits the client's line buffer and has a type the API names. *)
Record sendable (e : WatchEvent) : Prop := {
  snd_rep : representable e;
  snd_type : Ev_Type e ≠ EventInvalid;
  snd_rev : in_int64 (Ev_Revision e);
  snd_fits : Z.of_nat (String.length (ev_marshal e)) + 6 < maxScanTokenSize }.

(** The four lines of an event. *)
Lemma event_lines (pe pi pd name num js rest : string) :
  (pe +:+ name +:+ endl +:+ pi +:+ num +:+ endl +:+ pd +:+ js +:+ endl +:+ endl) +:+ rest =
  (pe +:+ name) +:+ endl +:+ (pi +:+ num) +:+ endl +:+ (pd +:+ js) +:+ endl +:+ "" +:+ endl +:+ rest.
Proof. by rewrite !append_assoc. Qed.

Lemma name_line t :
  StringAll lineChar ("event: " +:+ WatchEventName t) ∧
  (String.length ("event: " +:+ WatchEventName t) <= 13)%nat.
Proof. destruct t; (split; [by repeat split|simpl; lia]). Qed.

Lemma scan_event e rest :
  Z.of_nat (String.length (ev_marshal e)) + 6 < maxScanTokenSize ->
  scanLines "" 0 (writeSSE e +:+ rest) =
    ["event: " +:+ WatchEventName (Ev_Type e); "id: " +:+ Strconv.FormatInt (Ev_Revision e);
     "data: " +:+ ev_marshal e; ""] ++ scanLines "" 0 rest.
Proof.
  intros Hfit. unfold writeSSE. rewrite event_lines.
  destruct (name_line (Ev_Type e)) as [Ht Htl]. destruct (FormatInt_line (Ev_Revision e)) as [Hn Hnl].
  rewrite scan_line; [|done|done|unfold maxScanTokenSize; lia].
  rewrite scan_line; [|apply StringAll_app; by repeat split|done|].
  2: { rewrite length_append. unfold maxScanTokenSize. change (String.length "id: ") with 4%nat. lia. }
  rewrite scan_line; [|apply StringAll_app; split; [by repeat split|apply ev_one_line]|done|].
  2: { rewrite length_append. change (String.length "data: ") with 6%nat. lia. }
  by rewrite scan_line.
Qed.

Lemma read_event e rest :
  sendable e ->
  readSSE (["event: " +:+ WatchEventName (Ev_Type e); "id: " +:+ Strconv.FormatInt (Ev_Revision e);
     "data: " +:+ ev_marshal e; ""] ++ rest) sseEmpty = e :: readSSE rest sseEmpty.
Proof.
  intros [Hr Ht Hv _]. cbn [app readSSE].
  rewrite !(bool_decide_eq_false_2 (_ +:+ _ = "")) by done.
  rewrite !HasPrefix_app, !TrimPrefix_app.
  change (HasPrefix ("id: " +:+ ?x) "event: ") with false.
  change (HasPrefix ("data: " +:+ ?x) "event: ") with false.
  change (HasPrefix ("data: " +:+ ?x) "id: ") with false.
  cbn [eventType eventID eventData sseEmpty]. rewrite bool_decide_eq_true_2 by done.
  unfold flushed, flushEvent. cbn [eventType eventID eventData].
  rewrite (bool_decide_eq_false_2 (WatchEventName _ = "")) by (by destruct (Ev_Type e)).
  rewrite (bool_decide_eq_false_2 (ev_marshal e = "")) by (apply ev_not_empty).
  cbn [orb]. rewrite WatchEventTypeFromName_name, ev_roundtrip, Strconv.ParseInt_FormatInt by done.
  destruct e as [k v rev t]. simpl. by destruct (0 <? rev).
Qed.

Lemma received_events es :
  Forall sendable es -> received (writeAll es) = es.
Proof.
  unfold received. induction 1 as [|e es He Hes IH]; [done|]. cbn [writeAll].
  rewrite scan_event by apply He. by rewrite read_event, IH.
Qed.

(** *** A line that does not fit ends the scan *)

Lemma scan_too_long cur n l rest :
  StringAll lineChar l -> n < maxScanTokenSize -> maxScanTokenSize <= n + Z.of_nat (String.length l) ->
  scanLines cur n (l +:+ rest) = [].
Proof.
  revert cur n. induction l as [|c l IH]; intros cur n Hl Hn Hlen; [simpl in Hlen; lia|].
  destruct Hl as [[Hc _] Hl]. cbn [String.length] in Hlen. rewrite append_cons. cbn [scanLines].
  rewrite bool_decide_eq_false_2 by done.
  destruct (Z.leb_spec maxScanTokenSize (n + 1)); [done|]. apply IH; [done|lia|lia].
Qed.

Lemma scan_long_event e rest :
  maxScanTokenSize <= Z.of_nat (String.length (ev_marshal e)) + 6 ->
  scanLines "" 0 (writeSSE e +:+ rest) =
    ["event: " +:+ WatchEventName (Ev_Type e); "id: " +:+ Strconv.FormatInt (Ev_Revision e)].
Proof.
  intros Hlong. unfold writeSSE. rewrite event_lines.
  destruct (name_line (Ev_Type e)) as [Ht Htl]. destruct (FormatInt_line (Ev_Revision e)) as [Hn Hnl].
  rewrite scan_line; [|done|done|unfold maxScanTokenSize; lia].
  rewrite scan_line; [|apply StringAll_app; by repeat split|done|].
  2: { rewrite length_append. unfold maxScanTokenSize. change (String.length "id: ") with 4%nat. lia. }
  rewrite scan_too_long; [done|apply StringAll_app; split; [by repeat split|apply ev_one_line]|done|].
  rewrite length_append. change (String.length "data: ") with 6%nat. lia.
Qed.

Lemma received_app es rest :
  Forall sendable es -> received (writeAll es +:+ rest) = es ++ received rest.
Proof.
  unfold received. induction 1 as [|e es He Hes IH]; [done|]. cbn [writeAll].
  rewrite append_assoc, scan_event by apply He. by rewrite read_event, IH.
Qed.

Lemma writeAll_app es1 es2 : writeAll (es1 ++ es2) = writeAll es1 +:+ writeAll es2.
Proof. induction es1 as [|e es1 IH]; [done|]. cbn [writeAll app]. by rewrite IH, append_assoc. Qed.

(** *** The loop of the server among the apply loop *)

(** A step of the node that bears on one watch: the apply loop puts an event into the
    buffer or delivers it to the subscribers, the watch handler takes a turn of its
    loop. *)
Inductive watchAct :=
| ABuffer (e : WatchEvent)
| ADeliver (e : WatchEvent)
| ATurn.

(** The steps in order, with the text the handler writes. *)
Fixpoint runActs (ord : MapOrder) (subID : Z) (acts : list watchAct) (ws : watchState)
    : go (string * watchState) :=
  match acts with
  | [] => Ret ("", ws)
  | a :: rest =>
      let! p := match a with
                | ABuffer e => let! ws1 := bufferEvent e ws in Ret (None, ws1)
                | ADeliver e => let! ws1 := deliverEvent ord e ws in Ret (None, ws1)
                | ATurn => nextWatch subID ws
                end in
      let! q := runActs ord subID rest p.2 in
      Ret (default "" p.1 +:+ q.1, q.2)
  end.

(** The specification: a queue of at most 64 events under the prefix.  The events the
    handler takes and those that wait in the end; [None] when a turn would find
    nothing. *)
Fixpoint boundedQueue (pre : string) (q : list WatchEvent) (acts : list watchAct)
    : option (list WatchEvent * list WatchEvent) :=
  match acts with
  | [] => Some ([], q)
  | ABuffer _ :: rest => boundedQueue pre q rest
  | ADeliver e :: rest =>
      boundedQueue pre (if matches e (newWatchSub pre 64) && Nat.ltb (length q) 64 then q ++ [e] else q) rest
  | ATurn :: rest =>
      match q with
      | [] => None
      | e :: q' => (λ p, (e :: p.1, p.2)) <$> boundedQueue pre q' rest
      end
  end.

Definition buffered (acts : list watchAct) : list WatchEvent :=
  omap (λ a, match a with ABuffer e => Some e | _ => None end) acts.
Definition deliveries (acts : list watchAct) : list WatchEvent :=
  omap (λ a, match a with ADeliver e => Some e | _ => None end) acts.

Lemma boundedQueue_app pre a1 a2 : ∀ q,
  boundedQueue pre q (a1 ++ a2) =
    p ← boundedQueue pre q a1; p' ← boundedQueue pre p.2 a2; Some (p.1 ++ p'.1, p'.2).
Proof.
  induction a1 as [|[e|e|] a1 IH]; intros q; simpl.
  - by destruct (boundedQueue pre q a2) as [[]|].
  - apply IH.
  - apply IH.
  - destruct q as [|x q]; [done|]. rewrite IH. destruct (boundedQueue pre q a1) as [[w q1]|]; simpl; [|done].
    by destruct (boundedQueue pre q1 a2) as [[]|].
Qed.

Lemma boundedQueue_idle pre acts : ∀ q,
  ATurn ∉ acts -> ∃ q', boundedQueue pre q acts = Some ([], q').
Proof.
  induction acts as [|[e|e|] acts IH]; intros q Hn; simpl; [by eexists|..];
    apply not_elem_of_cons in Hn as [? Hn]; first [done|by apply IH].
Qed.

(** While there is room for all, nothing is dropped. *)
Lemma boundedQueue_all pre acts : ∀ q w q',
  boundedQueue pre q acts = Some (w, q') ->
  (length (q ++ filter (λ e, matches e (newWatchSub pre 64) = true) (deliveries acts)) <= 64)%nat ->
  w ++ q' = q ++ filter (λ e, matches e (newWatchSub pre 64) = true) (deliveries acts).
Proof.
  induction acts as [|[e|e|] acts IH]; intros q w q' Hq Hlen; cbn [boundedQueue] in Hq.
  - simplify_eq. by rewrite app_nil_r.
  - by apply IH.
  - change (deliveries (ADeliver e :: acts)) with (e :: deliveries acts) in *.
    destruct (matches e (newWatchSub pre 64)) eqn:Em; cbn [andb] in Hq.
    + rewrite filter_cons_True in * by done. rewrite length_app in Hlen. cbn [length] in Hlen.
      rewrite (proj2 (Nat.ltb_lt _ _)) in Hq by lia. rewrite (cons_middle e), app_assoc.
      apply IH; [done|]. rewrite !length_app. cbn [length]. lia.
    + rewrite filter_cons_False in * by (by rewrite Em). by apply IH.
  - change (deliveries (ATurn :: acts)) with (deliveries acts) in *.
    destruct q as [|x q]; [done|]. destruct (boundedQueue pre q acts) as [[w1 q1]|] eqn:E; [|done].
    injection Hq as <- <-. cbn [app fst snd] in *. f_equal. apply IH; [done|]. cbn [length] in Hlen. lia.
Qed.

Lemma boundedQueue_sub (P : WatchEvent -> Prop) pre acts : ∀ q w q',
  boundedQueue pre q acts = Some (w, q') -> Forall P q -> Forall P (deliveries acts) -> Forall P w.
Proof.
  unfold deliveries. induction acts as [|[e|e|] acts IH]; intros q w q' Hb Hq Hd; simpl in *.
  - simplify_eq. constructor.
  - by eapply IH.
  - apply Forall_cons in Hd as [He Hd]. eapply IH; [exact Hb| |done]. case_match; [|done].
    apply Forall_app. split; [done|by constructor].
  - destruct q as [|x q]; [done|]. destruct (boundedQueue pre q acts) as [[w1 q1]|] eqn:E; [|done].
    injection Hb as <- <-. apply Forall_cons in Hq as [Hx Hq]. constructor; [done|]. by eapply IH.
Qed.

(** The subscription of the handler is that queue. *)
Lemma runActs_correct ord subID pre acts : ∀ q w q' ws,
  wfw ws -> watchSubs ws !! subID = Some (mkWatchSub pre (Chan.mkChan 64 q false)) ->
  boundedQueue pre q acts = Some (w, q') ->
  ∃ ws', runActs ord subID acts ws = Ret (writeAll w, ws') ∧ wfw ws' ∧
    watchSubs ws' !! subID = Some (mkWatchSub pre (Chan.mkChan 64 q' false)) ∧
    pushAll (buffered acts) (eventBuf ws) = Ret (eventBuf ws').
Proof.
  induction acts as [|[e|e|] acts IH]; intros q w q' ws Hwf Hsub Hq; cbn [runActs boundedQueue] in *.
  - simplify_eq. by exists ws.
  - destruct (bufferEvent_correct e ws Hwf) as (eb & Hp & -> & Hwf1). cbn [go_bind fst snd].
    destruct (IH q w q' _ Hwf1 Hsub Hq) as (ws' & -> & Hwf' & Hs' & Hb'). cbn [go_bind fst snd default].
    exists ws'. split_and!; [done..|]. unfold buffered in *. simpl. by rewrite Hp.
  - destruct (deliverEvent_correct ord e ws Hwf) as [-> Hwf1]. cbn [go_bind fst snd].
    assert (Hs1: (delivered e <$> watchSubs ws) !! subID = Some (mkWatchSub pre (Chan.mkChan 64
      (if matches e (newWatchSub pre 64) && Nat.ltb (length q) 64 then q ++ [e] else q) false))).
    { rewrite lookup_fmap, Hsub. simpl. unfold delivered. simpl. change (matches e (mkWatchSub pre _))
        with (matches e (newWatchSub pre 64)). by case_match. }
    destruct (IH _ w q' _ Hwf1 Hs1 Hq) as (ws' & -> & Hwf' & Hs' & Hb'). cbn [go_bind fst snd default].
    by exists ws'.
  - destruct q as [|x q]; [done|]. destruct (boundedQueue pre q acts) as [[w1 q1]|] eqn:E; [|done].
    injection Hq as <- <-. unfold nextWatch, getWatchChan. rewrite Hsub. simpl.
    destruct (IH q w1 q1 (mkWatchState (eventBuf ws)
      (<[subID := mkWatchSub pre (Chan.mkChan 64 q false)]> (watchSubs ws)) (watchSeq ws)))
      as (ws' & -> & Hwf' & Hs' & Hb'); [| |done|].
    + split; simpl; [apply Hwf|]. intros id sub. rewrite lookup_insert_Some.
      intros [[_ <-]|[_ Hl]]; [done|]. by apply (wfw_open _ Hwf id).
    + simpl. apply lookup_insert_eq.
    + by exists ws'.
Qed.

(** ** Properties *)

(** The wire format is faithful: whatever list of events the server
    writes, the client reads back exactly these events, in order, with their
    types and revisions, as long as each fits the client's line buffer. *)
Theorem wire_roundtrip es : Forall sendable es -> received (writeAll es) = es.
Proof. apply received_events. Qed.

(** C39 (bounds).  An event whose JSON is 65530 bytes or longer ends the stream for
    the client: it gets the events before it and silently nothing after. *)
Theorem long_event_ends_stream es1 e es2 :
  Forall sendable es1 -> 65530 <= Z.of_nat (String.length (ev_marshal e)) ->
  received (writeAll (es1 ++ e :: es2)) = es1.
Proof.
  intros Hes Hlong. rewrite writeAll_app, received_app by done. cbn [writeAll].
  unfold received. rewrite scan_long_event by (unfold maxScanTokenSize; lia).
  cbn [readSSE]. rewrite !(bool_decide_eq_false_2 (_ +:+ _ = "")) by done.
  rewrite !HasPrefix_app. change (HasPrefix ("id: " +:+ ?x) "event: ") with false.
  unfold flushed, flushEvent. simpl. rewrite orb_true_r. by rewrite app_nil_r.
Qed.

(** C14 (functional).  A watch end to end, in any interleaving with the apply loop.  The
    handler subscribes, the apply loop does [acts1], the handler replays the
    buffer, and then the two run on with [acts2].  If the events are ones that
    survive the wire (valid UTF-8, shorter than the client's line buffer),
    the client receives first all buffered events newer than the revision it
    asked for, of every prefix and those of [acts1] included, and then
    what a queue of 64 events under its prefix lets through of the deliveries
    of [acts1] and [acts2], in order: every one of them when there are at
    most 64.  So an event of [acts1] is received twice. *)
Theorem watch_end_to_end ord req since acts1 acts2 ws w waiting :
  wfw ws -> watchSince req = Some since -> wr_flusher req = true -> ATurn ∉ acts1 ->
  let replayed := filter (newer since)
    (lastn (Z.to_nat (size (eventBuf ws))) (contents (eventBuf ws) ++ buffered acts1)) in
  Forall sendable replayed -> Forall sendable (deliveries (acts1 ++ acts2)) ->
  boundedQueue (wr_prefix req) [] (acts1 ++ acts2) = Some (w, waiting) ->
  ∃ subID ws1 ws2 out out' ws3,
    openWatch req ws = (WatchOpen subID since, ws1) ∧
    runActs ord subID acts1 ws1 = Ret ("", ws2) ∧ replayWatch since ws2 = Ret out ∧
    runActs ord subID acts2 ws2 = Ret (out', ws3) ∧
    received (out +:+ out') = replayed ++ w ∧
    let live := filter (λ e, matches e (newWatchSub (wr_prefix req) 64) = true)
      (deliveries (acts1 ++ acts2)) in
    ((length live <= 64)%nat -> w ++ waiting = live).
Proof.
  intros Hwf Hsince Hfl Hidle replayed Hrep Hdel Hq.
  pose proof (wfw_subscribe (wr_prefix req) ws Hwf) as Hwf1.
  set (ws1 := (subscribeWatch (wr_prefix req) ws).2) in *.
  set (subID := (subscribeWatch (wr_prefix req) ws).1).
  assert (Hsub: watchSubs ws1 !! subID = Some (mkWatchSub (wr_prefix req) (Chan.mkChan 64 [] false)))
    by apply lookup_insert_eq.
  pose proof Hq as Hq0. destruct (boundedQueue_idle (wr_prefix req) acts1 [] Hidle) as [q1 Hq1].
  rewrite boundedQueue_app, Hq1 in Hq. simpl in Hq.
  destruct (boundedQueue (wr_prefix req) q1 acts2) as [[w2 q2]|] eqn:Hq2; [|done].
  simpl in Hq. injection Hq as -> ->.
  destruct (runActs_correct ord subID _ acts1 [] [] q1 ws1 Hwf1 Hsub Hq1) as (ws2 & Hr1 & Hwf2 & Hs2 & Hb).
  destruct (runActs_correct ord subID _ acts2 q1 w waiting ws2 Hwf2 Hs2 Hq2) as (ws3 & Hr2 & _).
  destruct (pushAll_correct (buffered acts1) (eventBuf ws1) (wfw_buf _ Hwf1)) as (eb & Hp & _ & _ & Hc).
  rewrite Hb in Hp. injection Hp as <-.
  exists subID, ws1, ws2, (writeAll replayed), (writeAll w), ws3. split_and!; [|done| |done|..].
  - unfold openWatch. by rewrite Hsince, Hfl.
  - unfold replayWatch. rewrite Replay_correct by apply Hwf2. by rewrite Hc.
  - rewrite <-writeAll_app, received_events; [done|]. apply Forall_app. split; [done|].
    by eapply boundedQueue_sub; [exact Hq0|constructor|].
  - intros live Hlen. by apply (boundedQueue_all _ _ [] w waiting Hq0).
Qed.
End wire.

(** ** The JSON of an event

    The three members with their tags; the type is not one of them. *)

Record eventBody := mkEventBody { eb_key : string; eb_value : string; eb_revision : Z }.

#[export] Instance eventBody_struct : Struct eventBody := {|
  schemaOf := @Member string _ _ "key" false $ @Member string _ _ "value" true $
    @Member Z _ _ "revision" false $ End;
  unpack r := (eb_key r, (eb_value r, (eb_revision r, tt)));
  pack '(x1, (x2, (x3, _))) := mkEventBody x1 x2 x3 |}.
#[export] Instance eventBody_laws : StructLaws eventBody.
Proof. struct_laws. Qed.

Definition bodyOf (e : WatchEvent) : eventBody :=
  mkEventBody (Ev_Key e) (Ev_Value e) (Ev_Revision e).

#[export] Instance event_json : EventJSON :=
  mkEventJSON (λ e, marshalDoc (toJSON (λ _, false) "" (bodyOf e)))
    (λ s, match decodeInto false (unmarshalDoc s) (Schema.zero : eventBody) with
          | (b, None) => Some (mkWatchEvent (eb_key b) (eb_value b) (eb_revision b) EventInvalid)
          | (_, Some _) => None
          end).

(** Events whose strings are valid UTF-8. *)
Definition textEvent (e : WatchEvent) : Prop :=
  Valid (Ev_Key e) = true ∧ Valid (Ev_Value e) = true ∧ in_int64 (Ev_Revision e).

Lemma StringAll_bytes P s : Forall P (String.list_ascii_of_string s) -> StringAll P s.
Proof. induction s as [|c s IH]; [done|]. simpl. intros [Hc Hs]%Forall_cons. auto. Qed.

#[export] Instance event_json_laws : EventJSONLaws textEvent.
Proof.
  split; intros e; cbn [ev_marshal ev_unmarshal event_json].
  - apply StringAll_bytes. eapply Forall_impl; [apply encodeAll_bytes, print_printables|].
    + cbn. by destruct (bool_decide _); cbn; rewrite intLiteral_printable.
    + intros c Hc. split; intros ->; vm_compute in Hc; by apply Hc.
  - done.
  - intros (Hk & Hv & Hr). rewrite unmarshalDoc_marshalDoc.
    + cbn [decodeInto]. rewrite json_roundtrip; [done|by split_and!|apply json_blank].
    + apply json_int. by split_and!.
    + etrans; [apply json_depth|]. by vm_compute.
Qed.

(** ** Witnesses *)

Section wire_samples.

Definition sample_event : WatchEvent := mkWatchEvent "k" "v" 3 EventPut.
Lemma sample_sendable : sendable (representable := textEvent) sample_event.
Proof. split; [by repeat split|done|by vm_compute|by vm_compute]. Qed.

Lemma wire_roundtrip_witness :
  received (writeAll [sample_event; sample_event]) = [sample_event; sample_event].
Proof.
  apply (wire_roundtrip (representable := textEvent)).
  repeat constructor; apply sample_sendable.
Defined.

(** A value of 65530 bytes. *)
Definition long_event : WatchEvent :=
  mkWatchEvent "k" (encodeAll (replicate (Z.to_nat 65530) 97)) 4 EventPut.

Lemma long_event_ends_stream_witness :
  received (writeAll ([sample_event] ++ long_event :: [sample_event])) = [sample_event].
Proof.
  apply (long_event_ends_stream (representable := textEvent) [sample_event] long_event [sample_event]).
  - repeat constructor; apply sample_sendable.
  - vm_compute. discriminate.
Defined.

(** An event that is pushed between the subscription and the replay arrives twice. *)
Lemma watch_end_to_end_witness :
  ∃ subID ws1 ws2 out out' ws3,
    openWatch (mkWatchRequest "k" "" "" true) (mkWatchState (newEventBuffer 1000) ∅ 0) =
      (WatchOpen subID 0, ws1) ∧
    runActs in_order subID [ABuffer sample_event; ADeliver sample_event] ws1 = Ret ("", ws2) ∧
    replayWatch 0 ws2 = Ret out ∧ runActs in_order subID [ATurn] ws2 = Ret (out', ws3) ∧
    received (out +:+ out') = [sample_event; sample_event].
Proof.
  destruct (watch_end_to_end (representable := textEvent) in_order (mkWatchRequest "k" "" "" true) 0
    [ABuffer sample_event; ADeliver sample_event] [ATurn] (mkWatchState (newEventBuffer 1000) ∅ 0)
    [sample_event] []) as (subID & ws1 & ws2 & out & out' & ws3 & H1 & H2 & H3 & H4 & H5 & _).
  - split; simpl; [by apply wfb_new|]. intros ??. by rewrite lookup_empty.
  - by vm_compute.
  - done.
  - intros Hin. by repeat (apply elem_of_cons in Hin as [?|Hin]; [done|]); apply elem_of_nil in Hin.
  - change (filter _ _) with [sample_event]. repeat constructor; apply sample_sendable.
  - repeat constructor; apply sample_sendable.
  - by vm_compute.
  - exists subID, ws1, ws2, out, out', ws3. split_and!; [done..|]. exact H5.
Defined.
End wire_samples.
