(* ===== verification/TextStore.v ===== *)
(** * UTF-8 from the request to the reply

    JSON replaces bytes that are not UTF-8, so a value that holds such bytes would not
    reach a client as it is stored.  It cannot come to that: the decoder accepts
    only UTF-8 ([Wire.accepted_request_typed]), and this file shows that the
    state machine keeps it: every key and value in the store, every result
    and every watch event is UTF-8 with integers in range, so replies and
    events survive their encoding. *)

From S2P Require Import Prelude GoLib Utf8 Json Schema Api DataStore StoreSpec Command StateMachine Replication Watch WatchLog Codec Snapshot Peers Messages KVService Commits Handlers Sse.

(** ** Text *)

Definition text2 (k v : string) : Prop := Valid k = true ∧ Valid v = true.
Definition textMap (m : gmap string string) : Prop := ∀ k v, m !! k = Some v -> text2 k v.

Record textStore (d : DataStore) : Prop := mkTextStore {
  ts_data : textMap (data d);
  ts_lease i l k : leases d !! i = Some l -> k ∈ Keys l -> Valid k = true }.

Definition textOp (op : TxnOp) : Prop := text2 (Op_Key op) (Op_Value op).
Definition textTxn (t : TxnData) : Prop := Forall textOp (Success t) ∧ Forall textOp (Failure t).

(** The inputs and the results of a command. *)
Record textCommand (c : Command) : Prop := mkTextCommand {
  tc_key : Valid (Key c) = true;
  tc_value : Valid (Value c) = true;
  tc_txn t : TxnIn c = Some t -> textTxn t;
  tc_result : Valid (ResultValue c) = true;
  tc_pairs : textMap (default ∅ (ResultPairs c));
  tc_results res : TxnResult c = Some res -> Forall (λ r, text2 (Res_Key r) (Res_PrevValue r)) (Results res);
  tc_revision : in_int64 (Revision c) }.

(** ** Strings *)

Lemma Valid_app a b : Valid a = true -> Valid b = true -> Valid (a +:+ b) = true.
Proof.
  intros Ha Hb. rewrite <-(ToValid_Valid a Ha). unfold ToValidUTF8, Valid.
  rewrite decodeAll_encodeAll by apply scalars_runes. rewrite forallb_app. unfold Valid in Hb. rewrite Hb.
  rewrite andb_true_r. induction (runes a) as [|r rs IH]; [done|]. done.
Qed.

Lemma Valid_ascii s : StringAll (λ c, code c < 128) s -> Valid s = true.
Proof.
  induction s as [|c s IH]; [done|]. intros [Hc Hs]. specialize (IH Hs).
  unfold Valid, decodeAll in *. pose proof (code_range c). cbn [decodeFrom].
  assert (DecodeRune (String c s) = (Some (code c), 1%nat)) as ->.
  { cbn [DecodeRune]. by rewrite (proj2 (Z.ltb_lt _ _)). }
  done.
Qed.

Lemma format_uint_ascii fuel n acc :
  0 <= n -> StringAll (λ c, code c < 128) acc ->
  StringAll (λ c, code c < 128) (Strconv.format_uint fuel n acc).
Proof.
  revert n acc. induction fuel as [|fuel IH]; intros n acc Hn Hacc; [done|]. cbn [Strconv.format_uint].
  pose proof (Z.mod_pos_bound n 10 ltac:(lia)). destruct (Z.ltb_spec n 10).
  - split; [rewrite code_digit; lia|done].
  - apply IH; [apply Z.div_pos; lia|]. split; [rewrite code_digit; lia|done].
Qed.

Lemma Valid_FormatInt z : Valid (Strconv.FormatInt z) = true.
Proof.
  apply Valid_ascii. unfold Strconv.FormatInt. destruct (Z.ltb_spec z 0).
  - split; [by vm_compute|]. by apply format_uint_ascii; [lia|].
  - by apply format_uint_ascii.
Qed.

(** ** The store *)

Lemma textMap_empty : textMap ∅.
Proof. intros k v. by rewrite lookup_empty. Qed.
Lemma textMap_insert m k v : text2 k v -> textMap m -> textMap (<[k := v]> m).
Proof. intros Hkv Hm j w [[<- <-]|[_ ?]]%lookup_insert_Some; auto. Qed.
Lemma textMap_delete m k : textMap m -> textMap (delete k m).
Proof. intros Hm j w [_ ?]%lookup_delete_Some. auto. Qed.

Lemma text_comma_ok m k : textMap m -> Valid (comma_ok (m !! k)).1 = true.
Proof. intros Hm. destruct (m !! k) eqn:E; [by apply Hm in E as [_ ?]|done]. Qed.

Lemma text_set_data d m : textStore d -> textMap m -> textStore (set_data d m).
Proof. intros [_ Hl] Hm. by split. Qed.

Lemma text_set_leases d m :
  textStore d -> (∀ i l k, m !! i = Some l -> k ∈ Keys l -> Valid k = true) -> textStore (set_leases d m).
Proof. intros [Hd _] Hm. by split. Qed.

Lemma text_set_keyLease d m : textStore d -> textStore (set_keyLease d m).
Proof. intros [Hd Hl]. by split. Qed.

Lemma text_new : textStore NewDataStore.
Proof. split; [apply textMap_empty|]. intros i l k. cbn. by rewrite lookup_empty. Qed.

Lemma text_insert_lease d i l :
  textStore d -> (∀ k, k ∈ Keys l -> Valid k = true) -> textStore (set_leases d (<[i := l]> (leases d))).
Proof.
  intros Hd Hl. apply text_set_leases; [done|]. intros j l' k [[<- <-]|[_ Hj]]%lookup_insert_Some; [apply Hl|].
  by eapply ts_lease.
Qed.

Lemma text_detach k d : textStore d -> textStore (detachKeyFromLease k d).
Proof.
  intros Hd. unfold detachKeyFromLease. case_match; [|done]. cbn [leases set_keyLease].
  destruct (leases d !! _) as [l|] eqn:El; [|by apply text_set_keyLease].
  apply (text_insert_lease (set_keyLease d (delete k (keyLease d)))); [by apply text_set_keyLease|].
  cbn. intros j Hj.
  eapply ts_lease; [exact Hd|exact El|]. set_solver.
Qed.

Lemma text_attach k i d : Valid k = true -> textStore d -> textStore (attachKeyToLease k i d).
Proof.
  intros Hk Hd. unfold attachKeyToLease. pose proof (text_detach k d Hd) as Hd1.
  destruct (leases (detachKeyFromLease k d) !! i) as [l|] eqn:El; [|done].
  apply text_set_keyLease, text_insert_lease; [done|]. cbn.
  intros j [->%elem_of_singleton|Hj]%elem_of_union; [done|]. by eapply ts_lease.
Qed.

(** What an operation promises: a valid previous value and a store of text. *)
Definition textEffect (p : (string * bool) * DataStore) : Prop := Valid p.1.1 = true ∧ textStore p.2.

Lemma text_put k v i d : text2 k v -> textStore d -> textEffect (putLocked k v i d).
Proof.
  intros Hkv Hd. pose proof (text_detach k d Hd) as Hd1. unfold putLocked. split; cbn [fst snd].
  - by apply text_comma_ok, ts_data.
  - assert (textStore (set_data (detachKeyFromLease k d) (<[k := v]> (data (detachKeyFromLease k d))))).
    { apply text_set_data; [done|]. by apply textMap_insert, ts_data. }
    case_bool_decide; [|done]. apply text_attach; [apply Hkv|done].
Qed.

Lemma text_append k v d : text2 k v -> textStore d -> textEffect (appendLocked k v d).
Proof.
  intros [Hk Hv] Hd. unfold appendLocked. pose proof (text_comma_ok (data d) k (ts_data _ Hd)) as Hp.
  destruct (comma_ok _) as [p ok]. split; cbn [fst snd]; [done|]. apply text_set_data; [done|].
  apply textMap_insert; [|by apply ts_data]. split; [done|]. by apply Valid_app.
Qed.

Lemma text_cas k c v d : text2 k v -> textStore d -> textEffect (casLocked k c v d).
Proof.
  intros Hkv Hd. unfold casLocked. pose proof (text_comma_ok (data d) k (ts_data _ Hd)) as Hp.
  destruct (comma_ok _) as [p ok]. split; cbn [fst snd]; [done|]. case_match; [|done].
  apply text_set_data; [done|]. by apply textMap_insert, ts_data.
Qed.

Lemma text_delete k d : textStore d -> textEffect (deleteLocked k d).
Proof.
  intros Hd. pose proof (text_detach k d Hd) as Hd1. unfold deleteLocked. split; cbn [fst snd].
  - by apply text_comma_ok, ts_data.
  - apply text_set_data; [done|]. by apply textMap_delete, ts_data.
Qed.

Lemma text_txnOp op d : textOp op -> textStore d -> textEffect (txnOpEffect op d).
Proof.
  intros Hop Hd. unfold txnOpEffect. destruct (Op_Op op);
    [by apply text_put|by apply text_delete|by apply text_cas|by apply text_append|by split].
Qed.

Lemma text_txnOps ops d :
  Forall textOp ops -> textStore d ->
  Forall (λ r, text2 (Res_Key r) (Res_PrevValue r)) (execTxnOps ops d).1 ∧ textStore (execTxnOps ops d).2.
Proof.
  intros Hops. revert d. induction Hops as [|op ops Hop Hops IH]; intros d Hd; [by split|].
  rewrite execTxnOps_cons, execTxnOp_effect. cbn [fst snd].
  destruct (text_txnOp op d Hop Hd) as [Hp Hd1]. destruct (IH _ Hd1). split; [|done].
  constructor; [|done]. split; [apply Hop|done].
Qed.

Lemma text_revoke ord i d :
  textStore d -> Forall (λ k, Valid k = true) (RevokeLease ord i d).1 ∧ textStore (RevokeLease ord i d).2.
Proof.
  intros Hd. unfold RevokeLease. destruct (leases d !! i) as [l|] eqn:El; [|by split; [constructor|]].
  split; cbn [fst snd].
  - apply Forall_forall. intros k Hk. rewrite (visit_perm ord) in Hk. apply elem_of_elements in Hk.
    by eapply ts_lease.
  - assert (Hd1: textStore (set_leases d (delete i (leases d)))).
    { apply text_set_leases; [done|]. intros j l' k [_ Hj]%lookup_delete_Some. by eapply ts_lease. }
    revert Hd1. generalize (set_leases d (delete i (leases d))).
    induction (visit ord (elements (Keys l))) as [|k ks IH]; intros d1 Hd1; [done|]. cbn [fold_left].
    apply IH. apply text_set_keyLease, text_set_data; [done|]. by apply textMap_delete, ts_data.
Qed.

(** ** Commands *)

Lemma text_with_value c r : textCommand c -> Valid r.1 = true -> textCommand (with_value c r).
Proof. intros [] Hr. by split. Qed.
Lemma text_with_pairs c m : textCommand c -> textMap (default ∅ m) -> textCommand (with_pairs c m).
Proof. intros [] Hr. by split. Qed.
Lemma text_with_revision c rev : textCommand c -> in_int64 rev -> textCommand (with_revision c rev).
Proof. intros [] Hr. by split. Qed.
Lemma text_with_duplicate c : textCommand c -> textCommand (with_duplicate c).
Proof. intros []. by split. Qed.
Lemma text_with_txnResult c res :
  textCommand c -> Forall (λ r, text2 (Res_Key r) (Res_PrevValue r)) (Results res) ->
  textCommand (with_txnResult c res).
Proof. intros [] Hr. split; try done. by intros ? [= <-]. Qed.
#[local] Hint Resolve text_with_value text_with_pairs text_with_revision text_with_duplicate text_with_txnResult
  : zodiac.

Lemma text_listPagedLoop m limit i keys result :
  textMap m -> Forall (λ k, Valid k = true) keys -> textMap result ->
  textMap (listPagedLoop m limit i keys result).1 ∧ Valid (listPagedLoop m limit i keys result).2 = true.
Proof.
  intros Hm Hk. revert i result. induction Hk as [|k keys Hk Hks IH]; intros i result Hr; [done|].
  cbn [listPagedLoop]. case_match; [done|]. apply IH. apply textMap_insert; [|done]. split; [done|].
  destruct (m !! k) eqn:E; [by apply Hm in E as [_ ?]|done].
Qed.

Lemma text_list c d : textCommand c -> textStore d -> textCommand (listCommand c d).
Proof.
  intros Hc Hd. unfold listCommand. case_match.
  - unfold ListPaged.
    destruct (text_listPagedLoop (data d) (Limit c) 0 (pagedKeys (Key c) (KeyAfter c) d) ∅) as [H1 H2];
      [apply Hd| |apply textMap_empty|].
    { apply Forall_forall. intros k Hk. unfold pagedKeys in Hk.
      rewrite sort_Strings_perm, elem_of_elements, elem_of_dom in Hk. destruct Hk as [v Hv].
      apply map_lookup_filter_Some in Hv as [Hv _]. by apply Hd in Hv as [? _]. }
    destruct (listPagedLoop _ _ _ _ _) as [pairs next]. by auto with zodiac.
  - apply text_with_pairs; [done|]. intros k v [Hv _]%map_lookup_filter_Some. by apply Hd in Hv.
Qed.

Lemma text_addDeleted ks m : Forall (λ k, Valid k = true) ks -> textMap m -> textMap (addDeleted ks m).
Proof.
  intros Hks. revert m. induction Hks as [|k ks Hk Hks IH]; intros m Hm; [done|].
  cbn [addDeleted fold_left]. apply IH. by apply textMap_insert.
Qed.

Lemma text_expire ord ids pairs d :
  textMap (default ∅ pairs) -> textStore d ->
  textMap (default ∅ (expireLeases ord ids pairs d).1) ∧ textStore (expireLeases ord ids pairs d).2.
Proof.
  revert pairs d. induction ids as [|i ids IH]; intros pairs d Hp Hd; [done|]. cbn [expireLeases].
  destruct (text_revoke ord i d Hd) as [Hk Hd1]. destruct (RevokeLease ord i d) as [ks d1]. cbn [fst snd] in *.
  apply IH; [|done]. cbn. by apply text_addDeleted.
Qed.

Lemma text_exec env c d c' d' :
  textCommand c -> textStore d -> execCommand env c d = Ret (c', d') -> textCommand c' ∧ textStore d'.
Proof.
  intros Hc Hd He. pose proof (tc_key _ Hc) as Hk. pose proof (tc_value _ Hc) as Hv.
  unfold execCommand in He. destruct (Kind c) eqn:Ek; try done.
  - injection He as <- <-. split; [|done]. apply text_with_value; [done|]. by apply text_comma_ok, ts_data.
  - destruct (text_put (Key c) (Value c) (LeaseID c) d) as [H1 H2]; [done|done|].
    unfold Put in He. destruct (putLocked _ _ _ _). injection He as <- <-. by auto with zodiac.
  - destruct (text_append (Key c) (Value c) d) as [H1 H2]; [done|done|].
    unfold Append in He. destruct (appendLocked _ _ _). injection He as <- <-. by auto with zodiac.
  - destruct (text_cas (Key c) (CompareValue c) (Value c) d) as [H1 H2]; [done|done|].
    unfold CAS in He. destruct (casLocked _ _ _ _). injection He as <- <-. by auto with zodiac.
  - injection He as <- <-. split; [by apply text_list|done].
  - destruct (TxnIn c) as [t|] eqn:Et; [|done]. apply (tc_txn _ Hc) in Et as [Hs Hf].
    rewrite Txn_eq in He. injection He as <- <-.
    destruct (text_txnOps (if evalConditions (Conditions t) d then Success t else Failure t) d);
      [by case_match|done|]. by auto with zodiac.
  - injection He as <- <-. split; [apply text_with_value; [done|apply Valid_FormatInt]|].
    split; [apply Hd|]. cbn. intros j l k [[<- <-]|[_ Hj]]%lookup_insert_Some; [cbn; set_solver|].
    by eapply ts_lease.
  - unfold KeepAliveLease in He. destruct (leases d !! LeaseID c) as [l|] eqn:El; injection He as <- <-;
      (split; [apply text_with_value; [done|apply Hc]|]); [|done].
    apply text_insert_lease; [done|]. cbn. intros k. by apply (ts_lease _ Hd _ _ _ El).
  - destruct (text_revoke (env_ord env) (LeaseID c) d Hd) as [Hks Hd1].
    destruct (RevokeLease _ _ _) as [ks d1]. injection He as <- <-. split; [|done].
    apply text_with_pairs; [done|]. apply text_addDeleted; [done|apply textMap_empty].
  - destruct (text_expire (env_ord env) (LeaseIDs c) (ResultPairs c) d) as [Hp Hd1]; [apply Hc|done|].
    destruct (expireLeases _ _ _ _) as [pairs d1]. injection He as <- <-. by auto with zodiac.
Qed.

(** The locked section keeps text, duplicates included. *)
Lemma text_apply env c r c' r' :
  IsDuplicate c = false -> textCommand c -> textStore (ds r) -> in_int64 (currentRevision r) ->
  applyCommand env c r = Ret (c', r') ->
  textCommand c' ∧ textStore (ds r') ∧ in_int64 (currentRevision r').
Proof.
  intros Hnd Hc Hd Hrev Ha. destruct (isDuplicate c r) eqn:Edup.
  - rewrite apply_duplicate in Ha by done. injection Ha as <- <-. split_and!; [|done|done].
    apply text_with_revision; [|done]. unfold duplicateResult. apply text_with_duplicate.
    case_match; try done; [|by apply text_list]. apply text_with_value; [done|]. by apply text_comma_ok, ts_data.
  - destruct (apply_fresh env c r c' r' Hnd Edup Ha) as (c0 & d0 & He & <- & Hr & _ & ->).
    destruct (text_exec env c (ds r) c0 (ds r') Hc Hd He) as [Hc0 Hd0].
    assert (in_int64 (currentRevision r')) by (rewrite Hr; case_match; [apply wrap64_range|done]).
    split_and!; [by apply text_with_revision|done|done].
Qed.

(** ** Events *)

Lemma text_get d k : textStore d -> Valid (Get k d).1 = true.
Proof. intros Hd. by apply text_comma_ok, ts_data. Qed.

(** No event, or one with text in its fields. *)
Ltac one_event := first [apply Forall_nil_2 | by apply Forall_singleton; split_and! | done].

Lemma text_txnOpEvent rev d op res :
  in_int64 rev -> textStore d -> textOp op -> text2 (Res_Key res) (Res_PrevValue res) ->
  Forall textEvent (txnOpEvent rev d op res).
Proof.
  intros Hrev Hd [Hk Hv] [Hrk Hrv]. unfold txnOpEvent. pose proof (text_get d (Op_Key op) Hd).
  repeat case_match; one_event.
Qed.

Lemma text_txnEvents rev d branch i results es :
  in_int64 rev -> textStore d -> Forall textOp branch ->
  Forall (λ r, text2 (Res_Key r) (Res_PrevValue r)) results ->
  txnEvents rev d branch i results = Ret es -> Forall textEvent es.
Proof.
  intros Hrev Hd Hb Hres. revert i es. induction Hres as [|res results Hr Hres IH]; intros i es; cbn [txnEvents].
  { intros [= <-]. constructor. }
  destruct (slice_get branch i) as [op| |] eqn:Eop; [|done..]. cbn [go_bind].
  assert (Hop: op ∈ branch).
  { unfold slice_get in Eop. repeat case_match; try done. injection Eop as <-. by eapply list_elem_of_lookup_2. }
  destruct (txnEvents rev d branch (i + 1) results) as [es'| |] eqn:Ees; [|done..]. cbn [go_bind].
  intros [= <-]. apply Forall_app. split; [|by eapply IH]. rewrite Forall_forall in Hb.
  apply text_txnOpEvent; auto.
Qed.

Lemma text_events ord c d es :
  textCommand c -> textStore d -> commandEvents ord c d = Ret es -> Forall textEvent es.
Proof.
  intros Hc Hd He. pose proof (tc_revision _ Hc) as Hrev. pose proof (tc_key _ Hc) as Hk.
  pose proof (tc_value _ Hc) as Hv. pose proof (text_get d (Key c) Hd) as Hg.
  assert (Hdel: Forall textEvent (deleteEvent (Revision c) <$>
    (visit ord (map_to_list (default ∅ (ResultPairs c)))).*1)).
  { apply Forall_fmap, Forall_fmap, Forall_forall. intros [k v] Hkv. rewrite (visit_perm ord) in Hkv.
    apply elem_of_map_to_list in Hkv. apply (tc_pairs _ Hc) in Hkv as [? _]. by split_and!. }
  unfold commandEvents in He. destruct (IsDuplicate c); [injection He as <-; constructor|].
  destruct (Kind c) eqn:Ek; try (injection He as <-; one_event; fail).
  - case_match; injection He as <-; one_event.
  - destruct (TxnResult c) as [res|] eqn:Er; [|injection He as <-; constructor].
    destruct (TxnIn c) as [t|] eqn:Et; [|done]. apply (tc_txn _ Hc) in Et as [Hs Hf].
    apply (tc_results _ Hc) in Er. eapply text_txnEvents; [done|done| |exact Er|exact He]. by case_match.
Qed.

(** ** The commands of the handlers *)

(** What the nine handlers submit for an accepted request, and the expiry loop. *)
Inductive clientCommand : Command -> Prop :=
| cc_put pr self : okJSON pr -> clientCommand (putCmd pr self)
| cc_append ar self : okJSON ar -> clientCommand (appendCmd ar self)
| cc_get gr self : okJSON gr -> clientCommand (getCmd gr self)
| cc_cas cr self : okJSON cr -> clientCommand (casCmd cr self)
| cc_list lr self : okJSON lr -> clientCommand (listCmd lr self)
| cc_txn tr self : okJSON tr -> clientCommand (txnCmd tr self)
| cc_grant lr self : okJSON lr -> clientCommand (grantCmd lr self)
| cc_keepAlive lr self : okJSON lr -> clientCommand (keepAliveCmd lr self)
| cc_revoke lr self : okJSON lr -> clientCommand (revokeCmd lr self)
| cc_expiry env s c : expiryTick env s = Some c -> clientCommand c.

Lemma okJSON_op op : okJSON op -> textOp op.
Proof. intros (_ & Hk & Hv & _). by split. Qed.

Lemma clientCommand_text c : clientCommand c -> textCommand c ∧ IsDuplicate c = false.
Proof.
  assert (Hmk: ∀ c, Valid (Key c) = true -> Valid (Value c) = true -> (∀ t, TxnIn c = Some t -> textTxn t) ->
    ResultValue c = "" -> ResultPairs c = None -> TxnResult c = None -> Revision c = 0 -> textCommand c).
  { intros c' Hk Hv Ht Hr Hp Hx Hrev. split; [done|done|done|by rewrite Hr| |by rewrite Hx|].
    - rewrite Hp. apply textMap_empty.
    - rewrite Hrev. by vm_compute. }
  destruct 1 as [pr self Hok|ar self Hok|gr self Hok|cr self Hok|lr self Hok|tr self Hok|lr self Hok
    |lr self Hok|lr self Hok|env s c Hc].
  10: { unfold expiryTick in Hc. case_match; [done|]. injection Hc as <-. split; [by apply Hmk|done]. }
  all: split; [|done]; apply Hmk; try done; try apply Hok.
  intros t [= <-]. destruct Hok as (_ & Hs & Hf & _). 
  split; (eapply Forall_impl; [|apply okJSON_op]); [exact Hs|exact Hf].
Qed.

(** ** Replies *)

(** The replies that carry values of the store. *)
Record repliesOK (c : Command) : Prop := mkRepliesOK {
  ro_put : okJSON (putReply c);
  ro_append : okJSON (appendReply c);
  ro_get : okJSON (getReply c);
  ro_cas : okJSON (casReply c);
  ro_list : okJSON (listReply c);
  ro_txn res : TxnResult c = Some res ->
    okJSON (mkTxnResponse StatusOK (Succeeded res) (Results res) (Revision c));
  ro_grant lr : okJSON lr -> okJSON (grantReply lr c) }.

Lemma text_replies c : textCommand c -> repliesOK c.
Proof.
  intros Hc. pose proof (tc_result _ Hc) as Hr. pose proof (tc_revision _ Hc) as Hrev.
  pose proof (tc_pairs _ Hc) as Hp.
  assert (Hst: okJSON StatusOK ∧ okJSON StatusDuplicateRequest) by (by repeat split).
  destruct Hst as [Hok Hdup]. assert (H0: in_int64 0) by (by vm_compute).
  split.
  - unfold putReply. case_match; by split_and!.
  - unfold appendReply. case_match; by split_and!.
  - unfold getReply. case_match; by split_and!.
  - unfold casReply. case_match; by split_and!.
  - unfold listReply. case_match; by split_and!.
  - intros res Hres%(tc_results _ Hc). split; [done|split; [done|split; [|done]]].
    eapply Forall_impl; [exact Hres|]. intros r [Hk Hv]. by split_and!.
  - intros lr (Httl & _). unfold grantReply. case_match; [by split_and!|].
    split; [done|split; [apply Strconv.ParseInt_range|by split_and!]].
Qed.

(** ** Properties *)

Lemma text_log log cs r : ∀ r0,
  Forall (λ p, clientCommand p.2) log -> textStore (ds r0) -> in_int64 (currentRevision r0) ->
  applyLog log r0 = Ret (cs, r) ->
  Forall textCommand cs ∧ textStore (ds r) ∧ in_int64 (currentRevision r).
Proof.
  revert cs. induction log as [|[env c] log IH]; intros cs r0 Hlog Hd Hrev Ha; cbn [applyLog] in Ha.
  { injection Ha as <- <-. by split_and!. }
  apply Forall_cons in Hlog as [Hc Hlog]. apply clientCommand_text in Hc as [Hc Hnd].
  destruct (applyCommand env c r0) as [[c1 r1]| |] eqn:E; [|done..]. cbn [go_bind fst snd] in Ha.
  destruct (text_apply env c r0 c1 r1 Hnd Hc Hd Hrev E) as (Hc1 & Hd1 & Hrev1).
  destruct (applyLog log r1) as [[cs2 r2]| |] eqn:E2; [|done..]. injection Ha as <- <-.
  destruct (IH cs2 r1 Hlog Hd1 Hrev1 E2) as (H1 & H2 & H3). split_and!; [by constructor|done|done].
Qed.

(** C10 (invariant).  Text in, text out: in every state a log of commands from accepted requests and
    from the expiry loop leads to, all keys and values are valid UTF-8, and when
    one more such command is applied, its result makes replies that JSON
    returns unchanged, and so are its watch events. *)
Theorem text_in_text_out log cs r env cmd c r' :
  Forall (λ p, clientCommand p.2) log -> applyLog log newReplicated = Ret (cs, r) ->
  clientCommand cmd -> applyCommand env cmd r = Ret (c, r') ->
  textMap (data (ds r)) ∧ textMap (data (ds r')) ∧ repliesOK c ∧
  (∀ ord es, commandEvents ord c (ds r') = Ret es -> Forall textEvent es).
Proof.
  intros Hlog Hl Hcmd Ha.
  destruct (text_log log cs r newReplicated Hlog text_new ltac:(by vm_compute) Hl) as (_ & Hd & Hrev).
  apply clientCommand_text in Hcmd as [Htc Hnd].
  destruct (text_apply env cmd r c r' Hnd Htc Hd Hrev Ha) as (Hc & Hd' & _).
  split_and!; [apply Hd|apply Hd'|by apply text_replies|]. intros ord es. by apply text_events.
Qed.

Lemma text_in_text_out_witness :
  ∃ c r', applyCommand env0 (putCmd put_b 1) newReplicated = Ret (c, r') ∧ okJSON (putReply c).
Proof.
  destruct (applyCommand env0 (putCmd put_b 1) newReplicated) as [[c r']| |] eqn:E; [|by vm_compute in E..].
  exists c, r'. split; [done|].
  destruct (text_in_text_out [] [] newReplicated env0 (putCmd put_b 1) c r') as (_ & _ & Hr & _);
    [constructor|done| |exact E|apply Hr].
  apply cc_put. by repeat split.
Defined.
