(* ===== verification/Client.v ===== *)
(** * The client library: [src/kvclient/kvclient.go]

    A [KVClient] with its address list, the node it takes for the leader and its
    request counter; the methods that build a request and [send] it; the search
    for the leader; discovery of the members.  The network is an argument: the
    outcome of the [n]-th attempt at an address.  The loop of [send] has no
    bound of its own, so it takes fuel; [send_finds_leader] says how much is
    enough. *)

From S2P Require Import Prelude GoLib Api DataStore StoreSpec Command StateMachine Replication Watch WatchLog Codec Snapshot Peers KVService Commits Handlers.

(** ** State *)

Record KVClient := mkKVClient {
  addrs : list string; assumedLeader : Z; clientID : Z; requestID : Z }.

Definition set_leader (c : KVClient) (i : Z) : KVClient :=
  mkKVClient (addrs c) i (clientID c) (requestID c).

(** [New], with the counter [clientCount] of the process. *)
Definition newClient (serviceAddrs : list string) (clientCount : Z) : KVClient * Z :=
  let id := wrap64 (clientCount + 1) in
  (mkKVClient serviceAddrs 0 id 0, id).

(** [requestID.Add(1)]. *)
Definition nextRequest (c : KVClient) : Z * KVClient :=
  let r := wrap64 (requestID c + 1) in
  (r, mkKVClient (addrs c) (assumedLeader c) (clientID c) r).

(** ** Sending a request *)

(** The outcome of [sendJSONRequest]: the decoded response, or an error with
    what the two contexts say at that moment. *)
Inductive attempt (R : Type) : Type :=
| Answer (resp : R)
| Failure (err : string) (parentDone retryTimedOut : bool).
Arguments Answer {R} resp.
Arguments Failure {R} err parentDone retryTimedOut.

Inductive sendResult (R : Type) : Type :=
| SendOK (resp : R)
| SendError (err : string)
| SendPending.
Arguments SendOK {R} resp.
Arguments SendError {R} err.
Arguments SendPending {R}.

Definition url (addr route : string) : string := "http://" +:+ addr +:+ "/" +:+ route +:+ "/".

Section send.
Context {R : Type} `{Response R}.

(** [c.assumedLeader = (c.assumedLeader + 1) % len(c.addrs)]. *)
Definition nextLeader (c : KVClient) : go KVClient :=
  let! i := go_rem (wrap64 (assumedLeader c + 1)) (Z.of_nat (length (addrs c))) in
  Ret (set_leader c i).

Fixpoint send (fuel : nat) (route : string) (net : nat -> string -> attempt R) (n : nat)
    (c : KVClient) : go (sendResult R * KVClient) :=
  match fuel with
  | O => Ret (SendPending, c)
  | S fuel' =>
      let! addr := slice_get (addrs c) (assumedLeader c) in
      match net n (url addr route) with
      | Failure err parentDone retryTimedOut =>
          if parentDone then Ret (SendError err, c)
          else if retryTimedOut then
            let! c1 := nextLeader c in send fuel' route net (S n) c1
          else Ret (SendError err, c)
      | Answer resp =>
          match Status resp with
          | StatusNotLeader => let! c1 := nextLeader c in send fuel' route net (S n) c1
          | StatusOK => Ret (SendOK resp, c)
          | StatusFailedCommit => Ret (SendError "commit failed; please retry", c)
          | StatusDuplicateRequest => Ret (SendError "this request was already completed", c)
          | StatusInvalid | StatusOther _ => Panic "unreachable"
          end
      end
  end.

End send.

(** *** The methods: the request of each, with the next request id *)

Definition PutReq (key value : string) (c : KVClient) : PutRequest * KVClient :=
  let '(rid, c1) := nextRequest c in (mkPutRequest key value (clientID c) rid 0, c1).
Definition PutWithLeaseReq (key value : string) (leaseID : Z) (c : KVClient)
    : PutRequest * KVClient :=
  let '(rid, c1) := nextRequest c in (mkPutRequest key value (clientID c) rid leaseID, c1).
Definition AppendReq (key value : string) (c : KVClient) : AppendRequest * KVClient :=
  let '(rid, c1) := nextRequest c in (mkAppendRequest key value (clientID c) rid, c1).
Definition GetReq (key : string) (c : KVClient) : GetRequest * KVClient :=
  let '(rid, c1) := nextRequest c in (mkGetRequest key (clientID c) rid, c1).
Definition ListPagedReq (pre : string) (limit : Z) (keyAfter : string) (c : KVClient)
    : ListRequest * KVClient :=
  let '(rid, c1) := nextRequest c in (mkListRequest pre limit keyAfter (clientID c) rid, c1).
Definition ListReq (pre : string) (c : KVClient) : ListRequest * KVClient :=
  let '(rid, c1) := nextRequest c in (mkListRequest pre 0 "" (clientID c) rid, c1).
Definition LeaseGrantReq (ttl : Z) (c : KVClient) : LeaseGrantRequest * KVClient :=
  let '(rid, c1) := nextRequest c in (mkLeaseGrantRequest ttl (clientID c) rid, c1).
Definition LeaseKeepAliveReq (lease : Z) (c : KVClient) : LeaseKeepAliveRequest * KVClient :=
  let '(rid, c1) := nextRequest c in (mkLeaseKeepAliveRequest lease (clientID c) rid, c1).
Definition LeaseRevokeReq (lease : Z) (c : KVClient) : LeaseRevokeRequest * KVClient :=
  let '(rid, c1) := nextRequest c in (mkLeaseRevokeRequest lease (clientID c) rid, c1).
Definition TxnReq (conds : list TxnCondition) (success failure : list TxnOp) (c : KVClient)
    : TxnRequest * KVClient :=
  let '(rid, c1) := nextRequest c in (mkTxnRequest conds success failure (clientID c) rid, c1).
Definition CASReq (key compare value : string) (c : KVClient) : CASRequest * KVClient :=
  let '(rid, c1) := nextRequest c in (mkCASRequest key compare value (clientID c) rid, c1).

(** ** Discovery *)

(** What a [GET /members/] of an address yields. *)
Inductive fetched :=
| FetchBadURL
| FetchError (err : string)
| FetchBadBody
| FetchMembers (resp : MembersResponse).

Definition noSeed : string := "discovery failed: no reachable seed nodes".

(** The error of a request ends the loop only at the last seed. *)
Fixpoint DiscoverMembers (fetch : string -> fetched) (seedAddrs : list string)
    : string + list PeerInfo :=
  match seedAddrs with
  | [] => inl noSeed
  | addr :: rest =>
      match fetch addr with
      | FetchBadURL | FetchBadBody => DiscoverMembers fetch rest
      | FetchError err =>
          match rest with
          | [] => inl ("discovery failed: " +:+ err)
          | _ => DiscoverMembers fetch rest
          end
      | FetchMembers resp =>
          if bool_decide (MembersResp_RespStatus resp = StatusOK)
          then inr (MembersResp_Members resp) else DiscoverMembers fetch rest
      end
  end.

Definition httpAddrs (members : list PeerInfo) : list string :=
  filter (λ a, a ≠ "") (Peer_HTTPAddr <$> members).

Definition NewWithDiscovery (fetch : string -> fetched) (seedAddrs : list string) (clientCount : Z)
    : KVClient * Z :=
  match DiscoverMembers fetch seedAddrs with
  | inl _ => newClient seedAddrs clientCount
  | inr members =>
      match httpAddrs members with
      | [] => newClient seedAddrs clientCount
      | newAddrs => newClient newAddrs clientCount
      end
  end.

Definition RefreshMembers (fetch : string -> fetched) (c : KVClient)
    : go ((string + Z) * KVClient) :=
  let! addr := slice_get (addrs c) (assumedLeader c) in
  match DiscoverMembers fetch [addr] with
  | inl err => Ret (inl err, c)
  | inr members =>
      let newAddrs := httpAddrs members in
      let c1 :=
        match newAddrs with
        | [] => c
        | _ => mkKVClient newAddrs
                 (if Z.of_nat (length newAddrs) <=? assumedLeader c then 0 else assumedLeader c)
                 (clientID c) (requestID c)
        end in
      Ret (inr (Z.of_nat (length newAddrs)), c1)
  end.

(** ** The invariant of a client: its assumed leader is one of its addresses *)

Definition wfc (c : KVClient) : Prop :=
  0 <= assumedLeader c < Z.of_nat (length (addrs c)) ∧ Z.of_nat (length (addrs c)) <= int64_max.

Lemma wfc_new addrs count :
  addrs ≠ [] -> Z.of_nat (length addrs) <= int64_max -> wfc (newClient addrs count).1.
Proof. intros Hne Hl. destruct addrs; [done|]. split; [cbn [length newClient assumedLeader fst addrs]; lia|done]. Qed.

Lemma nextLeader_eq c :
  wfc c ->
  nextLeader c =
    Ret (set_leader c ((assumedLeader c + 1) `mod` Z.of_nat (length (addrs c)))) ∧
  wfc (set_leader c ((assumedLeader c + 1) `mod` Z.of_nat (length (addrs c)))).
Proof.
  intros [Hr Hl]. unfold nextLeader.
  rewrite wrap64_id by (unfold in_int64, int64_min; lia). rewrite go_rem_mod by lia.
  split; [done|]. split; simpl; [|done]. apply Z.mod_pos_bound. lia.
Qed.

Lemma slice_get_leader c : wfc c -> ∃ a, slice_get (addrs c) (assumedLeader c) = Ret a ∧
  addrs c !! Z.to_nat (assumedLeader c) = Some a.
Proof.
  intros [Hr _]. destruct (lookup_lt_is_Some_2 (addrs c) (Z.to_nat (assumedLeader c))) as [a Ha]; [lia|].
  exists a. split; [by apply slice_get_Some; [lia|]|done].
Qed.

(** ** The search for the leader *)

(** A status the switch of [send] has a case for. *)
Definition knownStatus (rs : ResponseStatus) : bool :=
  match rs with
  | StatusInvalid | StatusOther _ => false
  | _ => true
  end.

Section search.
Context {R : Type} `{Response R} (route : string) (net : nat -> string -> attempt R).

(** A node that is up but not the leader, or that does not answer in time. *)
Definition redirects (addr : string) : Prop :=
  ∀ n, match net n (url addr route) with
       | Answer resp => Status resp = StatusNotLeader
       | Failure _ parentDone retryTimedOut => parentDone = false ∧ retryTimedOut = true
       end.

(** The leader is the address at position [k], and answers with [resp]. *)
Record leaderAt (c : KVClient) (k : Z) (resp : R) : Prop := {
  lead_range : 0 <= k < Z.of_nat (length (addrs c));
  lead_ok : Status resp = StatusOK;
  lead_answer a : addrs c !! Z.to_nat k = Some a -> ∀ n, net n (url a route) = Answer resp;
  lead_others i a : 0 <= i -> i ≠ k -> addrs c !! Z.to_nat i = Some a -> redirects a }.

(** The distance to the leader shrinks by one with each rotation. *)
Lemma rotate_distance i k len d :
  0 <= i < len -> 0 <= k < len -> (k - i) `mod` len = Z.of_nat (S d) ->
  (k - (i + 1) `mod` len) `mod` len = Z.of_nat d.
Proof.
  intros Hi Hk Hd. rewrite Zminus_mod_idemp_r.
  replace (k - (i + 1)) with ((k - i) - 1) by lia.
  rewrite <-Zminus_mod_idemp_l, Hd. rewrite Z.mod_small; [lia|].
  pose proof (Z.mod_pos_bound (k - i) len). lia.
Qed.

Lemma send_from d n c k resp fuel :
  wfc c -> leaderAt c k resp ->
  (k - assumedLeader c) `mod` Z.of_nat (length (addrs c)) = Z.of_nat d -> (d < fuel)%nat ->
  send fuel route net n c = Ret (SendOK resp, set_leader c k).
Proof.
  revert n c fuel. induction d as [|d IH]; intros n c fuel Hc Hl Hd Hf;
    (destruct fuel as [|fuel]; [lia|]); destruct (slice_get_leader c Hc) as (a & Hg & Ha);
    pose proof (lead_range _ _ _ Hl); pose proof Hc as [Hr Hmax]; cbn [send]; rewrite Hg; cbn [go_bind].
  - assert (assumedLeader c = k) as Heq.
    { destruct (decide (assumedLeader c = k)); [done|]. exfalso.
      destruct (decide (assumedLeader c < k)); [rewrite Z.mod_small in Hd by lia; lia|].
      rewrite <-(Z.mod_add _ 1), Z.mod_small in Hd by lia. lia. }
    rewrite Heq in Ha. rewrite (lead_answer _ _ _ Hl a Ha n), (lead_ok _ _ _ Hl), <-Heq. by destruct c.
  - assert (Hne: assumedLeader c ≠ k).
    { intros Heq. rewrite Heq, Z.sub_diag, Z.mod_0_l in Hd by lia. lia. }
    destruct (nextLeader_eq c Hc) as [Hn Hc'].
    set (c' := set_leader c ((assumedLeader c + 1) `mod` Z.of_nat (length (addrs c)))) in *.
    assert (Hsend: send fuel route net (S n) c' = Ret (SendOK resp, set_leader c k)).
    { rewrite (IH (S n) c' fuel); [done|done|by destruct Hl; split| |lia].
      simpl. by apply rotate_distance. }
    pose proof (lead_others _ _ _ Hl _ _ (proj1 Hr) Hne Ha n) as Hred.
    destruct (net n (url a route)) as [r|err pd to]; [by rewrite Hred, Hn|].
    destruct Hred as [-> ->]. by rewrite Hn.
Qed.

(** C15 (liveness).  The search finds the leader: if one of the addresses answers
    requests as the leader and every other one redirects or times out, [send]
    returns the leader's response after at most one attempt per address,
    and remembers the leader, so that the next request takes one attempt. *)
Theorem send_finds_leader c k resp n :
  wfc c -> leaderAt c k resp ->
  send (length (addrs c)) route net n c = Ret (SendOK resp, set_leader c k) ∧
  ∀ m, send 1 route net m (set_leader c k) = Ret (SendOK resp, set_leader c k).
Proof.
  intros Hc Hl. pose proof (lead_range _ _ _ Hl). split.
  - pose proof (Z.mod_pos_bound (k - assumedLeader c) (Z.of_nat (length (addrs c)))).
    apply (send_from (Z.to_nat ((k - assumedLeader c) `mod` Z.of_nat (length (addrs c)))));
      [done|done|lia|lia].
  - intros m. rewrite (send_from 0 m (set_leader c k) k resp); [done| |by destruct Hl; split| |lia].
    + destruct Hc. by split.
    + simpl. by rewrite Z.sub_diag, Z.mod_0_l by lia.
Qed.

(** Whatever the network answers, as long as every response has one of
    the four statuses a server gives, [send] never panics, keeps the assumed leader within the
    address list and keeps the client's ids. *)
Theorem send_safe fuel n c :
  wfc c -> (∀ m u resp, net m u = Answer resp -> knownStatus (Status resp) = true) ->
  ∃ res i, send fuel route net n c = Ret (res, set_leader c i) ∧ wfc (set_leader c i).
Proof.
  intros Hc Hnet. revert n c Hc. induction fuel as [|fuel IH]; intros n c Hc; cbn [send].
  { exists SendPending, (assumedLeader c). by destruct c. }
  destruct (slice_get_leader c Hc) as (a & -> & _). cbn [go_bind].
  destruct (nextLeader_eq c Hc) as [Hn Hc'].
  assert (Hstop: ∀ r : sendResult R, ∃ res i, Ret (r, c) = Ret (res, set_leader c i) ∧ wfc (set_leader c i)).
  { intros r. exists r, (assumedLeader c). by destruct c. }
  assert (Hgo: ∃ res i, go_bind (nextLeader c) (λ c1, send fuel route net (S n) c1) =
    Ret (res, set_leader c i) ∧ wfc (set_leader c i)).
  { rewrite Hn. cbn [go_bind]. destruct (IH (S n) _ Hc') as (res & i & -> & Hi). eauto. }
  destruct (net n _) as [r|err [] []] eqn:E; [|by eauto..]. pose proof (Hnet _ _ _ E).
  by destruct (Status r).
Qed.

End search.

(** ** Client ids *)

(** C35 (error).  Two processes get the same ids: the counters start anew in every
    process, so the first put of a second process carries the client and
    request id of the first put of the first one.  Once that was applied, on any
    state, the second process's put has no effect and is answered as a
    duplicate, which [send] reports as already completed. *)
Theorem second_process_is_refused addrs1 addrs2 k1 v1 k2 v2 n1 n2 env1 env2 r c1 r1 :
  let pr1 := (PutReq k1 v1 (newClient addrs1 0).1).1 in
  let pr2 := (PutReq k2 v2 (newClient addrs2 0).1).1 in
  applyCommand env1 (putCmd pr1 n1) r = Ret (c1, r1) ->
  ∃ c2, applyCommand env2 (putCmd pr2 n2) r1 = Ret (c2, r1) ∧
    Status (putReply c2) = StatusDuplicateRequest.
Proof.
  intros pr1 pr2 Ha.
  assert (Hdup: isDuplicate (putCmd pr2 n2) r1 = true).
  { destruct (isDuplicate (putCmd pr1 n1) r) eqn:Hd.
    - rewrite apply_duplicate in Ha by done. injection Ha as _ <-. exact Hd.
    - destruct (apply_fresh env1 (putCmd pr1 n1) r c1 r1 eq_refl Hd Ha) as (c & d & _ & _ & _ & Ht & _).
      unfold isDuplicate. rewrite Ht. simpl. by rewrite lookup_insert_eq. }
  rewrite apply_duplicate by done. eexists. split; [done|]. done.
Qed.

(** ** Discovery *)

(** Discovery returns the members of the first seed that answers with
    status OK, whatever the seeds before it do. *)
Theorem discovery_uses_first_ok fetch pre a post resp :
  Forall (λ b, ∀ r, fetch b = FetchMembers r -> MembersResp_RespStatus r ≠ StatusOK) pre ->
  fetch a = FetchMembers resp -> MembersResp_RespStatus resp = StatusOK ->
  DiscoverMembers fetch (pre ++ a :: post) = inr (MembersResp_Members resp).
Proof.
  intros Hpre Ha Hok. induction Hpre as [|b pre Hb Hpre IH]; simpl.
  - by rewrite Ha, bool_decide_eq_true_2.
  - destruct (fetch b) as [|err| |r] eqn:E; [done| |done|].
    + by destruct pre.
    + by rewrite bool_decide_eq_false_2 by (by apply Hb).
Qed.

(** Refreshing the members never leaves the client with an assumed
    leader outside its address list or without addresses, whatever the answer. *)
Theorem refresh_keeps_leader_valid fetch c :
  wfc c -> (∀ a r, fetch a = FetchMembers r -> Z.of_nat (length (MembersResp_Members r)) <= int64_max) ->
  ∃ res c', RefreshMembers fetch c = Ret (res, c') ∧ wfc c' ∧ clientID c' = clientID c ∧
    requestID c' = requestID c.
Proof.
  intros Hc Hf. unfold RefreshMembers. destruct (slice_get_leader c Hc) as (a & -> & _). simpl.
  destruct (fetch a) as [|err| |r] eqn:E; try by eauto 10. case_bool_decide; [|by eauto 10].
  eexists _, _. split; [done|]. destruct (httpAddrs (MembersResp_Members r)) as [|b l] eqn:Hh; [done|].
  split_and!; [|done..]. pose proof (Hf _ _ E) as Hlen.
  assert ((length (b :: l) <= length (MembersResp_Members r))%nat).
  { rewrite <-Hh. unfold httpAddrs. etrans; [apply length_filter|]. by rewrite length_fmap. }
  destruct Hc as [Hr _]. unfold wfc. cbn [assumedLeader addrs].
  split; [|lia]. destruct (Z.leb_spec (Z.of_nat (length (b :: l))) (assumedLeader c)); [|lia].
  simpl. lia.
Qed.

(** ** Witnesses *)

Section client_samples.

Definition three : KVClient := (newClient ["a:1"; "b:1"; "c:1"] 0).1.
Definition leader_c : nat -> string -> attempt GetResponse := λ n u,
  if bool_decide (u = url "c:1" "get") then Answer (mkGetResponse StatusOK true "v" 4)
  else if Nat.even n then Answer (mkGetResponse StatusNotLeader false "" 0)
  else Failure "timeout" false true.

Lemma three_wfc : wfc three.
Proof. by apply wfc_new. Qed.

Lemma three_leader : leaderAt "get" leader_c three 2 (mkGetResponse StatusOK true "v" 4).
Proof.
  split; [simpl; lia|done|..].
  - intros a [= <-] n. done.
  - intros i a Hi Hne Ha n. assert (i = 0 ∨ i = 1) as [-> | ->].
    { apply lookup_lt_Some in Ha. cbn in Ha. lia. }
    all: injection Ha as <-; unfold leader_c; rewrite bool_decide_eq_false_2 by done;
      by destruct (Nat.even n).
Qed.

Lemma send_finds_leader_witness :
  send 3 "get" leader_c 0 three = Ret (SendOK (mkGetResponse StatusOK true "v" 4), set_leader three 2).
Proof.
  apply (send_finds_leader "get" leader_c three 2 (mkGetResponse StatusOK true "v" 4) 0
    three_wfc three_leader).
Defined.

Lemma send_safe_witness :
  ∃ res i, send 7 "get" (λ _ _, Failure (R := GetResponse) "timeout" false true) 0 three =
    Ret (res, set_leader three i) ∧ wfc (set_leader three i).
Proof.
  apply (send_safe "get" (λ _ _, Failure (R := GetResponse) "timeout" false true) 7 0 three three_wfc).
  discriminate.
Defined.

Lemma second_process_is_refused_witness :
  ∃ c1 r1 c2,
    applyCommand env0 (putCmd (PutReq "a" "1" (newClient [] 0).1).1 1) newReplicated = Ret (c1, r1) ∧
    applyCommand env0 (putCmd (PutReq "b" "2" (newClient [] 0).1).1 1) r1 = Ret (c2, r1) ∧
    Status (putReply c2) = StatusDuplicateRequest.
Proof.
  destruct (applyCommand env0 (putCmd (PutReq "a" "1" (newClient [] 0).1).1 1) newReplicated)
    as [[c1 r1]| |] eqn:E; [|by vm_compute in E..].
  destruct (second_process_is_refused [] [] "a" "1" "b" "2" 1 1 env0 env0 newReplicated c1 r1 E)
    as (c2 & H1 & H2). by exists c1, r1, c2.
Defined.

Definition sample_fetch : string -> fetched := λ a,
  if bool_decide (a = "a:1") then FetchError "refused"
  else FetchMembers (mkMembersResponse StatusOK [mkPeerInfo 1 "x:1"; mkPeerInfo 2 ""]).

Lemma discovery_uses_first_ok_witness :
  DiscoverMembers sample_fetch ["a:1"; "b:1"] = inr [mkPeerInfo 1 "x:1"; mkPeerInfo 2 ""].
Proof.
  apply (discovery_uses_first_ok sample_fetch ["a:1"] "b:1" []
    (mkMembersResponse StatusOK [mkPeerInfo 1 "x:1"; mkPeerInfo 2 ""])); [|done|done].
  by repeat constructor.
Defined.

Lemma refresh_keeps_leader_valid_witness :
  ∃ res c', RefreshMembers sample_fetch (set_leader three 2) = Ret (res, c') ∧ wfc c'.
Proof.
  destruct (refresh_keeps_leader_valid sample_fetch (set_leader three 2)) as (res & c' & H1 & H2 & _).
  - split; simpl; unfold int64_max; lia.
  - intros a r. unfold sample_fetch. case_bool_decide; [done|]. intros [= <-]. vm_compute. discriminate.
  - eauto.
Defined.

End client_samples.
