(* ===== verification/Wire.v ===== *)
(** * Requests over HTTP: client and server joined

    [sendJSONRequest] of src/kvclient/kvclient.go encodes a request and decodes the
    response into the caller's variable; [readRequestJSON] and [renderJSON] of
    src/kvservice/json.go do the same on the server.  [sendRequest] is the loop of
    [KVClient.send] with the bytes it exchanges and the response variable that
    all its attempts share; [sendRequest_refines] shows that, against servers that
    answer with their own JSON, it is the loop [send] of [Client] over decoded
    messages. *)

From S2P Require Import Prelude GoLib Utf8 Json Schema Api DataStore StoreSpec Command StateMachine Replication Watch WatchLog Codec Snapshot Peers Messages KVService Commits Handlers Client.

(** ** The server's side *)

(** The texts of the errors of encoding/json. *)
Class ErrorText := errorText : jsonError -> string.

(** [dec.DisallowUnknownFields(); dec.Decode(target)], the target being new. *)
#[export] Instance strict_decoder {A} `{ErrorText} `{JSONValue A} : JSONDecode A := λ b,
  match decodeBody true b zero with
  | (a, None) => inr a
  | (_, Some e) => inl (errorText e)
  end.

Record httpResponse := mkHttpResponse {
  statusCode : Z; responseType : string; responseBody : bytes }.

Definition StatusCodeOK : Z := 200.
Definition newline : string := String (Ascii.ascii_of_N 10) "".

(** [http.Error]. *)
Definition httpError (msg : string) (code : Z) : httpResponse :=
  mkHttpResponse code "text/plain; charset=utf-8" (toBytes (msg +:+ newline)).

(** The result of [json.Marshal] is an argument: it fails on values of other types
    than the ones the handlers pass. *)
Definition renderJSON (js : string + bytes) : httpResponse :=
  match js with
  | inl err => httpError err StatusInternalServerError
  | inr b => mkHttpResponse StatusCodeOK "application/json" b
  end.

(** What a handler leaves on its connection; one that returns without writing
    leaves an empty response. *)
Definition respond {R} `{JSONValue R} (nils : nilness) (r : reply R) : httpResponse :=
  match r with
  | ReplyJSON resp => renderJSON (inr (marshalBody nils resp))
  | ReplyError msg code => httpError msg code
  | ReplyNone => mkHttpResponse StatusCodeOK "" []
  end.

(** ** The client's side *)

(** A context at one moment. *)
Inductive ctxState := CtxActive | CtxCanceled | CtxDeadlineExceeded.

Definition contextDone (c : ctxState) : bool :=
  match c with
  | CtxActive => false
  | _ => true
  end.
Definition contextDeadlineExceeded (c : ctxState) : bool :=
  match c with
  | CtxDeadlineExceeded => true
  | _ => false
  end.

(** What the HTTP client makes of a POST. *)
Inductive exchange :=
| BadRequest (err : string)
| Unreachable (err : string)
| Answered (resp : httpResponse).

Section send_json.
Context `{ErrorText} {A R : Type} `{JSONValue A} `{JSONValue R}.

(** The request [sendJSONRequest] makes. *)
Definition jsonRequest (nils : nilness) (reqData : A) : httpRequest :=
  mkHttpRequest "application/json" (encodeBody nils reqData).

(** The response variable is written also when decoding fails half way. *)
Definition sendJSONRequest (nils : nilness) (post : httpRequest -> exchange) (reqData : A)
    (respData : R) : R * option string :=
  match post (jsonRequest nils reqData) with
  | BadRequest err => (respData, Some ("creating HTTP request: " +:+ err))
  | Unreachable err => (respData, Some err)
  | Answered resp =>
      match decodeBody false (responseBody resp) respData with
      | (r, None) => (r, None)
      | (r, Some e) => (r, Some ("JSON-decoding response data: " +:+ errorText e))
      end
  end.

(** The network: for each attempt, the exchange and then the states of the caller's
    context and of the one with the 50 ms timeout. *)
Definition transport : Type := nat -> string -> httpRequest -> exchange * ctxState * ctxState.

Context `{Response R}.

Fixpoint sendRequest (fuel : nat) (nils : nilness) (net : transport) (route : string) (req : A)
    (n : nat) (resp : R) (c : KVClient) : go (sendResult R * R * KVClient) :=
  match fuel with
  | O => Ret (SendPending, resp, c)
  | S fuel' =>
      let! addr := slice_get (addrs c) (assumedLeader c) in
      let path := url addr route in
      let ctxs := net n path (jsonRequest nils req) in
      let '(resp1, err) := sendJSONRequest nils (λ r, (net n path r).1.1) req resp in
      let next := let! c1 := nextLeader c in
                  sendRequest fuel' nils net route req (S n) resp1 c1 in
      match err with
      | Some e =>
          if contextDone ctxs.1.2 then Ret (SendError e, resp1, c)
          else if contextDeadlineExceeded ctxs.2 then next
          else Ret (SendError e, resp1, c)
      | None =>
          match Status resp1 with
          | StatusNotLeader => next
          | StatusOK => Ret (SendOK resp1, resp1, c)
          | StatusFailedCommit => Ret (SendError "commit failed; please retry", resp1, c)
          | StatusDuplicateRequest =>
              Ret (SendError "this request was already completed", resp1, c)
          | StatusInvalid | StatusOther _ => Panic "unreachable"
          end
      end
  end.

(** The attempts of [Client.send] that the network stands for. *)
Definition attempts (nils : nilness) (net : transport) (req : A) (n : nat) (path : string)
    : attempt R :=
  let ctxs := net n path (jsonRequest nils req) in
  match sendJSONRequest nils (λ r, (net n path r).1.1) req zero with
  | (r, None) => Answer r
  | (_, Some e) => Failure e (contextDone ctxs.1.2) (contextDeadlineExceeded ctxs.2)
  end.
End send_json.

(** ** Request and response survive the wire *)

(** The documented answer of [mime.ParseMediaType] for a plain media type. *)
Class MediaTypesLaws `{MediaTypes} : Prop :=
  parse_json_type : ParseMediaType "application/json" = inr "application/json".

Section wire.
Context `{MediaTypes} `{!MediaTypesLaws} `{ErrorText}.
Context {A R : Type} `{JSONValue A} `{!JSONLaws A} `{JSONValue R} `{!JSONLaws R} `{Response R}.
Context (HA : @levels A _ <= maxNestingDepth) (HR : @levels R _ <= maxNestingDepth).

Lemma request_received nils (a : A) : okJSON a -> readRequestJSON (jsonRequest nils a) = inr a.
Proof.
  intros Ha. unfold readRequestJSON, jsonRequest. cbn [contentType body]. rewrite parse_json_type.
  rewrite bool_decide_eq_true_2 by done. unfold json_decode, strict_decoder.
  by rewrite decode_encode by (done || apply json_blank).
Qed.

Lemma response_received nils (r r0 : R) :
  okJSON r -> blank r0 -> decodeBody false (responseBody (respond nils (ReplyJSON r))) r0 = (r, None).
Proof. intros. by apply decode_marshal. Qed.

(** A response is a server's own JSON, where a redirect leaves the variable as
    good as new, or text that is not JSON. *)
Definition faithful (net : transport) (route : string) (cl : KVClient) (rq : httpRequest) : Prop :=
  ∀ n addr resp, addr ∈ addrs cl -> (net n (url addr route) rq).1.1 = Answered resp ->
    (∃ nils (r : R), okJSON r ∧ resp = respond nils (ReplyJSON r) ∧
       (Status r = StatusNotLeader -> blank r)) ∨
    (∀ r0 : R, decodeBody false (responseBody resp) r0 = (r0, Some SyntaxError)).

(** Attempts do not depend on the blank value they decode into. *)
Lemma sendJSONRequest_blank net route cl n addr nils (a : A) (r0 : R) :
  faithful net route cl (jsonRequest nils a) -> addr ∈ addrs cl -> blank r0 ->
  match sendJSONRequest nils (λ r, (net n (url addr route) r).1.1) a zero with
  | (r, None) => sendJSONRequest nils (λ r, (net n (url addr route) r).1.1) a r0 = (r, None) ∧
      (Status r = StatusNotLeader -> blank r)
  | (_, Some e) => sendJSONRequest nils (λ r, (net n (url addr route) r).1.1) a r0 = (r0, Some e)
  end.
Proof.
  intros Hf Hin Hblank. unfold sendJSONRequest.
  destruct ((net n (url addr route) (jsonRequest nils a)).1.1) as [err|err|resp] eqn:E; [done..|].
  destruct (Hf _ _ _ Hin E) as [(nils' & r & Hr & -> & Hb)|Hs].
  - rewrite !response_received by (done || apply json_blank). done.
  - by rewrite !Hs.
Qed.

Lemma nextLeader_addrs c c1 : nextLeader c = Ret c1 -> addrs c1 = addrs c.
Proof. unfold nextLeader. destruct (go_rem _ _); simpl; try done. by intros [= <-]. Qed.

Lemma slice_get_elem {B} (l : list B) i x : slice_get l i = Ret x -> x ∈ l.
Proof.
  unfold slice_get. repeat case_match; try done. intros [= <-]. by eapply list_elem_of_lookup_2.
Qed.

(** Forgetting the response variable. *)
Definition result {B} (m : go (sendResult R * B * KVClient)) : go (sendResult R * KVClient) :=
  let! q := m in Ret (q.1.1, q.2).

Lemma result_bind {B C} (m : go B) (f : B -> go (sendResult R * C * KVClient)) :
  result (go_bind m f) = go_bind m (λ x, result (f x)).
Proof. by destruct m. Qed.

Lemma sendRequest_send fuel nils net route (a : A) n (r0 : R) cl :
  faithful net route cl (jsonRequest nils a) -> blank r0 ->
  result (sendRequest fuel nils net route a n r0 cl) =
    send fuel route (attempts nils net a) n cl.
Proof.
  revert n r0 cl. induction fuel as [|fuel IH]; intros n r0 cl Hf Hb; [done|].
  cbn [sendRequest send]. rewrite result_bind.
  destruct (slice_get (addrs cl) (assumedLeader cl)) as [addr|msg|] eqn:Eg; [|done..]. cbn [go_bind].
  apply slice_get_elem in Eg. unfold attempts at 1.
  pose proof (sendJSONRequest_blank net route cl n addr nils a r0 Hf Eg Hb) as Hsend.
  assert (Hnext: ∀ r1, blank r1 ->
    result (go_bind (nextLeader cl) (λ c1, sendRequest fuel nils net route a (S n) r1 c1)) =
    go_bind (nextLeader cl) (λ c1, send fuel route (attempts nils net a) (S n) c1)).
  { intros r1 Hr1. rewrite result_bind. destruct (nextLeader cl) as [c1| |] eqn:En; [|done..].
    cbn [go_bind]. apply IH; [|done]. unfold faithful. by rewrite (nextLeader_addrs _ _ En). }
  destruct (sendJSONRequest nils _ a (zero : R)) as [r [e|]].
  - rewrite Hsend. repeat case_match; try done. by apply Hnext.
  - destruct Hsend as [-> Hnl]. destruct (Status r) eqn:Es; try done. by apply Hnext, Hnl.
Qed.

(** *** One client request against a cluster *)

(** What the client meets at each of its addresses: the leader at position [k] with
    the response [resp], elsewhere a redirect or no answer in time. *)
Record clusterOf (net : transport) (route : string) (cl : KVClient) (rq : httpRequest) (k : Z)
    (redirect resp : R) : Prop := {
  cl_range : 0 <= k < Z.of_nat (length (addrs cl));
  cl_leader addr : addrs cl !! Z.to_nat k = Some addr ->
    ∀ n, ∃ nils, (net n (url addr route) rq).1.1 = Answered (respond nils (ReplyJSON resp));
  cl_other i addr : 0 <= i -> i ≠ k -> addrs cl !! Z.to_nat i = Some addr ->
    ∀ n, (∃ nils, (net n (url addr route) rq).1.1 = Answered (respond nils (ReplyJSON redirect))) ∨
      (∃ err, net n (url addr route) rq = (Unreachable err, CtxActive, CtxDeadlineExceeded)) }.

Lemma cluster_leaderAt net route cl nils (a : A) k redirect resp :
  clusterOf net route cl (jsonRequest nils a) k redirect resp ->
  okJSON resp -> Status resp = StatusOK -> okJSON redirect -> Status redirect = StatusNotLeader ->
  leaderAt route (attempts nils net a) cl k resp.
Proof.
  intros [Hk Hl Ho] Hok Hst Hokr Hstr. split; [done|done|..].
  - intros addr Ha n. destruct (Hl _ Ha n) as [nils' E]. unfold attempts, sendJSONRequest. rewrite E.
    by rewrite response_received by (done || apply json_blank).
  - intros i addr Hi Hne Ha n. unfold attempts, sendJSONRequest.
    destruct (Ho _ _ Hi Hne Ha n) as [[nils' E]|[err E]].
    + rewrite E. by rewrite response_received by (done || apply json_blank).
    + by rewrite E.
Qed.

Lemma cluster_faithful net route cl rq k redirect resp :
  clusterOf net route cl rq k redirect resp -> okJSON resp -> Status resp = StatusOK ->
  okJSON redirect -> blank redirect -> faithful net route cl rq.
Proof.
  intros [Hk Hl Ho] Hok Hst Hokr Hb n addr rs [i Hi]%list_elem_of_lookup_1 E. left.
  assert (Hi': addrs cl !! Z.to_nat (Z.of_nat i) = Some addr) by (by rewrite Nat2Z.id).
  destruct (decide (Z.of_nat i = k)) as [<-|Hne].
  - destruct (Hl _ Hi' n) as [nils' E']. rewrite E in E'. injection E' as ->.
    exists nils', resp. split_and!; [done|done|congruence].
  - destruct (Ho _ _ (Nat2Z.is_nonneg i) Hne Hi' n) as [[nils' E']|[err E']]; rewrite E' in E; [|done].
    injection E as <-. by exists nils', redirect.
Qed.

(** C12 (refinement).  The loop of the client over bytes is the loop over messages: as long
    as every response is a server's own JSON (or not JSON at all), sending a
    request through encoding, transport and decoding into the one response
    variable its attempts share gives what [send] gives on decoded messages,
    panics included. *)
Theorem sendRequest_refines fuel nils net route (a : A) n (r0 : R) cl :
  faithful net route cl (jsonRequest nils a) -> blank r0 ->
  result (sendRequest fuel nils net route a n r0 cl) =
    send fuel route (attempts nils net a) n cl.
Proof. apply sendRequest_send. Qed.

(** C7 (functional).  A request from end to end: when the leader among the client's
    addresses runs the handler on the bytes the client posted and its reply is
    OK, the client's loop ends within one round of its addresses with exactly
    that reply and remembers the leader; and that handler submitted the
    command of the client's own request, subscribed to the index Raft gave it,
    received on its own channel the result of the first command applied at that
    index after it subscribed, a command of its node, and built the reply from
    it. *)
Theorem request_end_to_end `{Codec kvSnapshot} nils net route (a : A) cl k (status : ResponseStatus -> R)
    cmd (onCommit : A -> Command -> prog (reply R)) `{!∀ a', Answers (onCommit a')} s0 es s (resp : R) :
  wfc cl -> okJSON a -> okJSON resp -> okJSON (status StatusNotLeader) ->
  blank (status StatusNotLeader) -> (∀ st, Status (status st) = st) ->
  wfs s0 -> chans s0 = [] ->
  hrun s0 (withRequest (jsonRequest nils a) (λ a' : A, submitAndWait (cmd a') status (onCommit a')))
    es s (Done (ReplyJSON resp)) ->
  Status resp = StatusOK ->
  clusterOf net route cl (jsonRequest nils a) k (status StatusNotLeader) resp ->
  result (sendRequest (length (addrs cl)) nils net route a 0 (zero : R) cl) =
    Ret (SendOK resp, set_leader cl k) ∧
  ∃ i ref ran c,
    ownEvents es = [EvOther; EvSubmit (cmd a (id s0)) i; EvSubscribe i ref; EvReceive ref (Some c); EvOther] ∧
    firstTouch es i ref (EvApply i ran c) ∧ ServiceID c = id s0 ∧
    onCommit a c = sendHTTPResponse resp.
Proof.
  intros Hcl Ha Hr Hnl Hblank Hst Hs0 Hch Hrun Hok Hcluster. split.
  - rewrite sendRequest_send; [|by eapply cluster_faithful|apply json_blank].
    assert (Hlead: leaderAt route (attempts nils net a) cl k resp) by (by eapply cluster_leaderAt).
    pose proof (lead_range _ _ _ _ _ Hlead).
    pose proof (Z.mod_pos_bound (k - assumedLeader cl) (Z.of_nat (length (addrs cl)))).
    eapply (send_from _ _ (Z.to_nat ((k - assumedLeader cl) `mod` Z.of_nat (length (addrs cl)))));
      [done|done|lia|lia].
  - unfold withRequest in Hrun. rewrite request_received in Hrun by done.
    destruct (hrun_outcome s0 Hs0 Hch (cmd a) status (onCommit a) _ _ _ Hrun) as (own & -> & Ho).
    destruct Ho as [i Hi|i ref e Hi Ht|i ref ran c Hi Ht Hid|i ref ran c r Hi Ht Hid Hans];
      [by rewrite Hst in Hok..|]. by exists i, ref, ran, c.
Qed.
End wire.

(** ** Requests that are refused *)

Section refused.
Context `{MediaTypes} `{ErrorText}.

Lemma unknown_is_error {T} (s : schema T) ms t m :
  m ∈ ms -> findField s m.1 = None -> (setMembers true s ms t).2 ≠ None.
Proof.
  intros Hin Hm. revert t. induction ms as [|m' ms IH]; intros t; [by apply elem_of_nil in Hin|].
  cbn [setMembers snd]. apply elem_of_cons in Hin as [<-|Hin].
  - unfold setMember. by rewrite Hm.
  - destruct (setMember true s m' t).2; [done|]. by apply IH.
Qed.

(** C11 (type).  What the server accepts as a request, whatever bytes a client sends: its
    content type is application/json, its body starts with [null], which gives the
    zero request, or with an object all of whose members are fields of the
    request type, up to case; and the request is well typed: integers in the
    range of int64, strings valid UTF-8, in nested lists and members too. *)
Theorem accepted_request_typed {A} `{Struct A} `{!StructLaws A} req (a : A) :
  readRequestJSON req = inr a ->
  ParseMediaType (contentType req) = inr "application/json" ∧
  (decodeDoc (ofBytes (body req)) = Some JNull ∧ a = zero ∨
   ∃ ms, decodeDoc (ofBytes (body req)) = Some (JObject ms) ∧
     Forall (λ m, is_Some (findField (schemaOf (R := A)) m.1)) ms) ∧
  okJSON a.
Proof.
  unfold readRequestJSON. destruct (ParseMediaType (contentType req)) as [err|mt]; [done|].
  case_bool_decide as Hmt; [|done]. subst mt.
  unfold json_decode, strict_decoder, decodeBody, decodeInto.
  destruct (decodeDoc _) as [j|] eqn:Ed; [|done]. pose proof (decodeDoc_valid _ _ Ed) as Hv.
  pose proof (json_typed true j (zero : A) Hv json_zero) as Hok.
  destruct (fromJSON true j (zero : A)) as [a' [e|]] eqn:Ef; [done|]. intros [= <-].
  split_and!; [done| |exact Hok]. destruct j as [|b|t|x|l|ms]; try discriminate Ef.
  - left. by injection Ef as <-.
  - right. exists ms. split; [done|]. apply Forall_forall. intros m Hin.
    destruct (findField schemaOf m.1) eqn:Ef'; [by eexists|].
    pose proof (unknown_is_error schemaOf ms (unpack (zero : A)) m Hin Ef') as Hne.
    cbn [fromJSON struct_json] in Ef. by injection Ef as _ Ef.
Qed.

(** A body with a member that is no field of the request, under any
    spelling the decoder accepts, is refused with 400 and changes nothing: the
    handler's program ends at once. *)
Theorem unknown_member_refused {A R} `{Struct A} req ms m (k : A -> prog (reply R)) :
  decodeDoc (ofBytes (body req)) = Some (JObject ms) -> m ∈ ms ->
  findField (schemaOf (R := A)) m.1 = None ->
  ∃ err, withRequest req k = Done (ReplyError err StatusBadRequest).
Proof.
  intros Hd Hin Hm. unfold withRequest, readRequestJSON.
  destruct (ParseMediaType (contentType req)) as [err|mt]; [by eexists|].
  case_bool_decide; [|by eexists]. unfold json_decode, strict_decoder, decodeBody. rewrite Hd.
  cbn [decodeInto fromJSON struct_json].
  pose proof (unknown_is_error schemaOf ms (unpack (zero : A)) m Hin Hm) as Hne.
  destruct (setMembers true schemaOf ms (unpack zero)) as [t [e|]]; [by eexists|done].
Qed.

(** Text that no JSON value starts with. *)
Definition notJSON (s : string) : bool :=
  match skipSpace (runes s) with
  | [] => true
  | c :: _ =>
      negb ((c =? 123) || (c =? 91) || (c =? 34) || (c =? 116) || (c =? 102) || (c =? 110) ||
        (c =? 45) || isDigit c)
  end.

Lemma notJSON_decode s : notJSON s = true -> decodeDoc s = None.
Proof.
  unfold notJSON, decodeDoc, parseText. cbn [parseValue].
  destruct (skipSpace (runes s)) as [|c t]; [done|]. intros Hc%negb_true_iff.
  repeat (apply orb_false_iff in Hc as [Hc ?]).
  assert (Hnum: lexNumber (c :: t) = None).
  { unfold lexNumber, lexInt. assert (between 49 57 c = false) as ->.
    { apply not_true_iff_false. rewrite between_iff. intros Hr.
      assert (isDigit c = true) by (apply between_iff; lia). congruence. }
    assert ((c =? 48) = false) as ->.
    { apply Z.eqb_neq. by intros ->. }
    by case_match. }
  repeat match goal with E : (c =? _) = false |- _ => rewrite E; clear E end. by rewrite Hnum.
Qed.

(** What the server says when it refuses a request is lost: the client does not
    look at the status code and reports that the text is not JSON. *)
Theorem refusal_text_is_lost {A R} `{JSONValue A} `{JSONValue R} nils (a : A) (r0 : R) msg code :
  notJSON (msg +:+ newline) = true ->
  sendJSONRequest nils (λ _, Answered (httpError msg code)) a r0 =
    (r0, Some ("JSON-decoding response data: " +:+ errorText SyntaxError)).
Proof.
  intros Hn. unfold sendJSONRequest, httpError. cbn [responseBody]. unfold decodeBody.
  by rewrite ofBytes_toBytes, notJSON_decode.
Qed.
End refused.

(** ** Strings that are not UTF-8 *)

Definition utf8Put (pr : PutRequest) : PutRequest :=
  mkPutRequest (ToValidUTF8 (PutReq_Key pr)) (ToValidUTF8 (PutReq_Value pr))
    (PutReq_ClientID pr) (PutReq_RequestID pr) (PutReq_LeaseID pr).

Lemma ToValid_idem s : ToValidUTF8 (ToValidUTF8 s) = ToValidUTF8 s.
Proof. apply ToValid_Valid, Valid_ToValid. Qed.

(** C32 (functional).  A put reaches the server with every byte of its key and value that is
    not part of valid UTF-8 replaced by U+FFFD, and is accepted; keys
    that differ only in such bytes are one key there. *)
Theorem put_arrives_as_utf8 `{MediaTypes} `{!MediaTypesLaws} `{ErrorText} nils pr :
  in_int64 (PutReq_ClientID pr) -> in_int64 (PutReq_RequestID pr) -> in_int64 (PutReq_LeaseID pr) ->
  readRequestJSON (jsonRequest nils pr) = inr (utf8Put pr).
Proof.
  intros Hc Hr Hl.
  assert (Hok: okJSON (utf8Put pr)).
  { repeat split; first [apply Valid_ToValid|done|apply Hc|apply Hr|apply Hl]. }
  assert (Hlev: @levels PutRequest _ <= maxNestingDepth) by (by vm_compute).
  rewrite <-(request_received Hlev nils (utf8Put pr) Hok).
  unfold readRequestJSON, jsonRequest. cbn [contentType body]. rewrite parse_json_type.
  rewrite bool_decide_eq_true_2 by done. unfold json_decode, strict_decoder, decodeBody, encodeBody.
  rewrite !ofBytes_toBytes.
  assert (Hint: intDoc (toJSON nils "" pr) = true).
  { cbn. by rewrite !intText_literal. }
  rewrite !decodeDoc_encodeDoc; [|by apply json_int|by etrans; [apply json_depth|]
    |done|by etrans; [apply json_depth|]].
  cbn [decodeInto]. unfold utf8Put. cbn -[fromJSON ToValidUTF8]. by rewrite !ToValid_idem.
Qed.

(** ** Witnesses *)

Section wire_witnesses.
#[local] Instance sample_types : MediaTypes := λ s, inr s.
#[local] Instance sample_types_laws : MediaTypesLaws := eq_refl.
#[local] Instance sample_texts : ErrorText := λ _, "error".
#[local] Instance sample_snapshots : Codec kvSnapshot := sample_codec.

Definition noNil : nilness := λ _, false.
Definition two : KVClient := (newClient ["a:1"; "b:1"] 0).1.
Definition putStatus (st : ResponseStatus) : PutResponse := mkPutResponse st false "" 0.

(** Node a does not answer in time, node b is the leader. *)
Definition leader_b : transport := λ _ path _,
  if bool_decide (path = url "b:1" "put")
  then (Answered (respond noNil (ReplyJSON (putReply b_result))), CtxActive, CtxActive)
  else (Unreachable "timeout", CtxActive, CtxDeadlineExceeded).

Lemma two_cluster rq :
  clusterOf leader_b "put" two rq 1 (putStatus StatusNotLeader) (putReply b_result).
Proof.
  split; [by vm_compute|..].
  - intros addr [= <-] n. by exists noNil.
  - intros i addr Hi Hne Ha n. right. exists "timeout". unfold leader_b.
    assert (i = 0 ∨ 2 <= i) as [->|Hge] by lia; [by injection Ha as <-|].
    assert (Hlen: (Z.to_nat i < 2)%nat) by (by apply lookup_lt_Some in Ha). lia.
Qed.

Lemma put_b_ok : okJSON put_b.
Proof. repeat split; by vm_compute. Qed.
Lemma reply_b_ok : okJSON (putReply b_result).
Proof. repeat split; by vm_compute. Qed.
Lemma redirect_ok : okJSON (putStatus StatusNotLeader) ∧ blank (putStatus StatusNotLeader).
Proof. repeat split; by vm_compute. Qed.

Lemma request_levels : @levels PutRequest _ <= maxNestingDepth.
Proof. by vm_compute. Qed.
Lemma response_levels : @levels PutResponse _ <= maxNestingDepth.
Proof. by vm_compute. Qed.

Lemma request_end_to_end_witness :
  result (sendRequest 2 noNil leader_b "put" put_b 0 (zero : PutResponse) two) =
    Ret (SendOK (putReply b_result), set_leader two 1).
Proof.
  destruct (put_run put_b) as (s & Hrun & _).
  eapply (request_end_to_end request_levels response_levels noNil leader_b "put" put_b two 1
    putStatus putCmd (λ _ c, sendHTTPResponse (putReply c)) sample_service _ s (putReply b_result));
    [by vm_compute|apply put_b_ok|apply reply_b_ok|apply redirect_ok|apply redirect_ok|done
    |apply sample_service_wfs|done| |done|apply two_cluster].
  unfold withRequest. rewrite (request_received request_levels) by apply put_b_ok. exact Hrun.
Defined.

Lemma sendRequest_refines_witness :
  result (sendRequest 1 noNil leader_b "put" put_b 0 (zero : PutResponse) two) =
    send 1 "put" (attempts noNil leader_b put_b) 0 two.
Proof.
  apply (sendRequest_refines response_levels).
  - eapply (cluster_faithful (R := PutResponse) _ _ _ _ 1 (putStatus StatusNotLeader) (putReply b_result));
      [apply two_cluster|apply reply_b_ok|done|apply redirect_ok|apply redirect_ok].
  - apply json_blank.
Defined.

Lemma accepted_request_typed_witness :
  ParseMediaType (contentType (jsonRequest noNil put_b)) = inr "application/json" ∧ okJSON put_b.
Proof.
  destruct (accepted_request_typed (jsonRequest noNil put_b) put_b) as (H1 & _ & H2); [by vm_compute|].
  by split.
Defined.

(** A member the put request does not have. *)
Definition stranger : httpRequest :=
  mkHttpRequest "application/json" (toBytes (encodeDoc (JObject [("Foo", JNull)]))).

Lemma unknown_member_refused_witness :
  ∃ err, handlePut stranger = Done (ReplyError err StatusBadRequest).
Proof.
  apply (unknown_member_refused stranger [("Foo", JNull)] ("Foo", JNull));
    [by vm_compute|left|by vm_compute].
Defined.

Lemma refusal_text_is_lost_witness :
  sendJSONRequest noNil (λ _, Answered (httpError "invalid raft address" StatusBadRequest)) put_b
    (zero : PutResponse) = (zero, Some ("JSON-decoding response data: " +:+ errorText SyntaxError)).
Proof. apply (refusal_text_is_lost noNil put_b zero "invalid raft address" StatusBadRequest). by vm_compute. Defined.

(** Two keys of one byte each that the server takes for the same. *)
Definition put_byte (b : Z) : PutRequest := mkPutRequest (String (char b) "") "v" 1 1 0.

Lemma put_arrives_as_utf8_witness :
  readRequestJSON (jsonRequest noNil (put_byte 255)) = inr (utf8Put (put_byte 254)).
Proof.
  rewrite (put_arrives_as_utf8 noNil (put_byte 255)); by vm_compute.
Defined.
End wire_witnesses.
