(* ===== verification/WatchClient.v ===== *)
(** * Opening a watch from the client

    [KVClient.Watch] of src/kvclient/kvclient.go writes the prefix and the revision
    into a URL; [handleWatch] of src/kvservice/watch.go reads them from the parsed
    query.  The file models what the two use of net/url, the request of the
    client and its checks, and shows which prefixes arrive as they were given. *)

From S2P Require Import Prelude GoLib Utf8 Json Schema Api DataStore StoreSpec Command StateMachine Replication Watch WatchLog Codec Snapshot Peers Messages KVService Commits Handlers Sse Client Wire.
From Stdlib Require Import Ascii.
From Stdlib Require String.
Import EventBuffer WatchSubs.

(** ** net/url *)

(** [strings.Cut] at a byte: what is before and after its first occurrence. *)
Fixpoint cutAt (c : ascii) (s : string) : string * string :=
  match s with
  | EmptyString => ("", "")
  | String d s' =>
      if bool_decide (d = c) then ("", s')
      else let q := cutAt c s' in (String d q.1, q.2)
  end.

Fixpoint contains (c : ascii) (s : string) : bool :=
  match s with
  | EmptyString => false
  | String d s' => bool_decide (d = c) || contains c s'
  end.

(** [url.QueryUnescape]. *)
Fixpoint QueryUnescape (s : string) : option string :=
  match s with
  | EmptyString => Some ""
  | String c s' =>
      if bool_decide (c = "%"%char) then
        match s' with
        | String h1 (String h2 s'') =>
            a ← hexVal (code h1); b ← hexVal (code h2); r ← QueryUnescape s'';
            Some (String (char (a * 16 + b)) r)
        | _ => None
        end
      else if bool_decide (c = "+"%char) then String " " <$> QueryUnescape s'
      else String c <$> QueryUnescape s'
  end.

(** [url.ParseQuery] without its error: the pairs that can be read, in order.  A
    query of [n] bytes has at most [n] pairs, and the fuel is its length. *)
Definition parsePair (pair : string) : option (string * string) :=
  if contains ";" pair then None
  else if bool_decide (pair = "") then None
  else
    let q := cutAt "=" pair in
    k ← QueryUnescape q.1; v ← QueryUnescape q.2; Some (k, v).

Fixpoint parsePairs (fuel : nat) (query : string) : list (string * string) :=
  match fuel with
  | O => []
  | S fuel' =>
      if bool_decide (query = "") then []
      else
        let q := cutAt "&" query in
        match parsePair q.1 with
        | Some p => p :: parsePairs fuel' q.2
        | None => parsePairs fuel' q.2
        end
  end.
Definition ParseQuery (query : string) : list (string * string) :=
  parsePairs (String.length query) query.

(** [Values.Get]. *)
Definition queryGet (key : string) (vs : list (string * string)) : string :=
  default "" (snd <$> find (λ p, bool_decide (p.1 = key)) vs).

(** [url.Parse]: the query of a URL, without the fragment. *)
Definition rawQuery (u : string) : string := (cutAt "?" (cutAt "#" u).1).2.

(** ** The two ends *)

Definition watchURL (addr pre : string) (since : Z) : string :=
  "http://" +:+ addr +:+ "/watch/?prefix=" +:+ pre +:+ "&since=" +:+ Strconv.FormatInt since.

(** [KVClient.Watch]: the stream of events is read from the body of the response. *)
Definition openStream (get : string -> exchange) (pre : string) (since : Z) (c : KVClient)
    : go (string + httpResponse) :=
  let! addr := slice_get (addrs c) (assumedLeader c) in
  match get (watchURL addr pre since) with
  | BadRequest err => Ret (inl ("creating watch request: " +:+ err))
  | Unreachable err => Ret (inl ("watch request failed: " +:+ err))
  | Answered resp =>
      if bool_decide (statusCode resp ≠ StatusCodeOK)
      then Ret (inl ("watch request returned status " +:+ Strconv.FormatInt (statusCode resp)))
      else Ret (inr resp)
  end.

(** The watch request the server reads from a URL that reaches it: the client sends no
    Last-Event-ID. *)
Definition watchRequestOf (u : string) : watchRequest :=
  let vs := ParseQuery (rawQuery u) in
  mkWatchRequest (queryGet "prefix" vs) (queryGet "since" vs) "" true.

(** ** Plain text *)

(** Characters a URL can hold on the wire: [url.Parse] refuses control characters, and a
    space would end the request line. *)
Definition urlChar (c : ascii) : bool := (32 <? code c) && negb (code c =? 127).

(** Characters that stand for themselves in a query value. *)
Definition plainChar (c : ascii) : Prop :=
  c ≠ "&"%char ∧ c ≠ "#"%char ∧ c ≠ "%"%char ∧ c ≠ "+"%char ∧ c ≠ ";"%char ∧ urlChar c = true.

Lemma cutAt_app c s rest :
  StringAll (λ d, d ≠ c) s -> cutAt c (s +:+ String c rest) = (s, rest).
Proof.
  induction s as [|d s IH]; intros Hs.
  - change ("" +:+ ?x) with x. simpl. by rewrite bool_decide_eq_true_2.
  - destruct Hs as [Hd Hs]. rewrite append_cons. simpl. by rewrite bool_decide_eq_false_2, IH.
Qed.

Lemma cutAt_none c s : StringAll (λ d, d ≠ c) s -> cutAt c s = (s, "").
Proof.
  induction s as [|d s IH]; [done|]. intros [Hd Hs]. simpl. by rewrite bool_decide_eq_false_2, IH.
Qed.

Lemma StringAll_impl (P Q : ascii -> Prop) s : (∀ c, P c -> Q c) -> StringAll P s -> StringAll Q s.
Proof. intros H. induction s as [|c s IH]; [done|]. intros [??]. split; auto. Qed.

Lemma unescape_plain s rest :
  StringAll plainChar s -> QueryUnescape (s +:+ rest) = (λ r, s +:+ r) <$> QueryUnescape rest.
Proof.
  intros Hs. induction s as [|c s IH].
  - change ("" +:+ ?x) with x. by destruct (QueryUnescape rest).
  - destruct Hs as [(_ & _ & H1 & H2 & _) Hs]. rewrite append_cons. cbn [QueryUnescape].
    rewrite !bool_decide_eq_false_2, IH by done. by destruct (QueryUnescape rest).
Qed.

Lemma unescape_id s : StringAll plainChar s -> QueryUnescape s = Some s.
Proof. intros. rewrite <-(append_nil s) at 1. rewrite unescape_plain by done. simpl. by rewrite append_nil. Qed.

Lemma contains_app c s rest :
  StringAll (λ d, d ≠ c) s -> contains c (s +:+ rest) = contains c rest.
Proof.
  induction s as [|d s IH]; [done|]. intros [Hd Hs]. rewrite append_cons. simpl.
  by rewrite bool_decide_eq_false_2, IH.
Qed.

Lemma contains_none c s : StringAll (λ d, d ≠ c) s -> contains c s = false.
Proof. intros. rewrite <-(append_nil s). by rewrite contains_app. Qed.

Ltac plain := eapply StringAll_impl; [|eassumption]; unfold plainChar; tauto.

(** One pair of a query. *)
Lemma parsePair_plain key value :
  key ≠ "" -> StringAll (λ c, plainChar c ∧ c ≠ "="%char) key -> StringAll plainChar value ->
  parsePair (key +:+ "=" +:+ value) = Some (key, value).
Proof.
  intros Hne Hk Hv. unfold parsePair.
  rewrite contains_app by plain. change ("=" +:+ value) with (String "=" value).
  cbn [contains]. rewrite bool_decide_eq_false_2, contains_none by (done || plain). cbn [orb].
  rewrite bool_decide_eq_false_2 by (by destruct key). rewrite cutAt_app by plain.
  rewrite !unescape_id by plain. done.
Qed.

(** The query the client writes. *)
Definition watchQuery (pre : string) (since : Z) : string :=
  "prefix=" +:+ pre +:+ "&since=" +:+ Strconv.FormatInt since.

Lemma FormatInt_plain z : StringAll (λ c, plainChar c ∧ c ≠ "?"%char) (Strconv.FormatInt z).
Proof.
  assert (Hd: ∀ d, 0 <= d < 10 -> plainChar (Strconv.digit_char d) ∧ Strconv.digit_char d ≠ "?"%char).
  { intros d Hd. pose proof (Strconv.digit_val_char d Hd) as Hv.
    repeat split; try (intros E; rewrite E in Hv; discriminate Hv).
    unfold Strconv.digit_char in *. destruct Hd as [Hd1 Hd2].
    assert (Hc: d ∈ [0;1;2;3;4;5;6;7;8;9]) by (rewrite !elem_of_cons; lia).
    repeat (apply elem_of_cons in Hc as [->|Hc]; [by vm_compute|]). by apply elem_of_nil in Hc. }
  assert (Hf: ∀ fuel n acc, 0 <= n -> StringAll (λ c, plainChar c ∧ c ≠ "?"%char) acc ->
    StringAll (λ c, plainChar c ∧ c ≠ "?"%char) (Strconv.format_uint fuel n acc)).
  { induction fuel as [|fuel IH]; intros n acc Hn Hacc; [done|]. cbn [Strconv.format_uint].
    pose proof (Z.mod_pos_bound n 10 ltac:(lia)). destruct (Z.ltb_spec n 10).
    - split; [apply Hd; lia|done].
    - apply IH; [apply Z.div_pos; lia|]. split; [by apply Hd|done]. }
  unfold Strconv.FormatInt. destruct (Z.ltb_spec z 0).
  - split; [by repeat split|]. apply Hf; [lia|done].
  - by apply Hf.
Qed.

(** A host and port. *)
Definition plainAddr (addr : string) : Prop := StringAll (λ c, c ≠ "?"%char ∧ c ≠ "#"%char) addr.

Ltac all_chars := by repeat first [apply StringAll_app; split | split | done].

Lemma rawQuery_watch addr pre since :
  plainAddr addr -> StringAll (λ c, c ≠ "#"%char) pre ->
  rawQuery (watchURL addr pre since) = watchQuery pre since.
Proof.
  intros Ha Hp. unfold rawQuery.
  assert (E: watchURL addr pre since = ("http://" +:+ addr +:+ "/watch/") +:+ String "?" (watchQuery pre since)).
  { unfold watchURL, watchQuery. rewrite !append_assoc. done. }
  assert (Hn: StringAll (λ c, c ≠ "#"%char) (watchQuery pre since)).
  { unfold watchQuery. rewrite !StringAll_app. split_and!; [by repeat split|done|by repeat split|].
    eapply StringAll_impl; [|apply FormatInt_plain]. unfold plainChar. tauto. }
  assert (Hu: StringAll (λ c, c ≠ "?"%char ∧ c ≠ "#"%char) ("http://" +:+ addr +:+ "/watch/")).
  { rewrite !StringAll_app. split_and!; [by repeat split|done|by repeat split]. }
  rewrite E, (cutAt_none "#").
  - cbn [fst]. rewrite cutAt_app; [done|]. eapply StringAll_impl; [|exact Hu]. by intros c [].
  - rewrite StringAll_app. split; [eapply StringAll_impl; [|exact Hu]; by intros c []|]. by split.
Qed.

(** The pairs of a query whose first value is [v] once unescaped. *)
Lemma parse_first fuel value v rest :
  StringAll (λ c, c ≠ "&"%char ∧ c ≠ ";"%char) value -> QueryUnescape value = Some v ->
  parsePairs (S fuel) ("prefix=" +:+ value +:+ "&" +:+ rest) = ("prefix", v) :: parsePairs fuel rest.
Proof.
  intros Hv Hu. cbn [parsePairs]. rewrite bool_decide_eq_false_2 by done.
  rewrite <-append_assoc. change ("&" +:+ rest) with (String "&" rest).
  rewrite cutAt_app by (apply StringAll_app; split; [by repeat split|]; eapply StringAll_impl; [|exact Hv]; by intros c []).
  cbn [fst snd]. unfold parsePair.
  rewrite contains_none by (apply StringAll_app; split; [by repeat split|]; eapply StringAll_impl; [|exact Hv]; by intros c []).
  rewrite bool_decide_eq_false_2 by done. change ("prefix=" +:+ value) with ("prefix" +:+ String "=" value).
  rewrite cutAt_app by (by repeat split). cbn [fst snd]. rewrite Hu. done.
Qed.

Lemma parse_watchQuery pre v since :
  StringAll (λ c, c ≠ "&"%char ∧ c ≠ ";"%char) pre -> QueryUnescape pre = Some v ->
  ParseQuery (watchQuery pre since) = [("prefix", v); ("since", Strconv.FormatInt since)].
Proof.
  intros Hp Hu. unfold ParseQuery.
  assert (∃ n, String.length (watchQuery pre since) = S (S (S n))) as [n ->].
  { unfold watchQuery. change ("prefix=" +:+ ?x) with (String "p" (String "r" (String "e" ("fix=" +:+ x)))).
    by eexists. }
  unfold watchQuery. change ("&since=" +:+ ?x) with ("&" +:+ ("since=" +:+ x)).
  rewrite (parse_first _ pre v) by done. f_equal. cbn [parsePairs].
  rewrite bool_decide_eq_false_2 by done.
  assert (Hs: StringAll (λ c, plainChar c) ("since=" +:+ Strconv.FormatInt since)).
  { apply StringAll_app. split; [by repeat split|]. eapply StringAll_impl; [|apply FormatInt_plain]. by intros c []. }
  rewrite cutAt_none by plain. cbn [fst snd]. change ("since=" +:+ ?x) with ("since" +:+ "=" +:+ x).
  rewrite parsePair_plain; [by destruct n|done|by repeat split|].
  eapply StringAll_impl; [|apply FormatInt_plain]. by intros c [].
Qed.

(** C23 (roundtrip).  A watch request arrives: for a prefix without the characters that mean
    something in a query, the server reads from the client's URL exactly the
    prefix and the revision the caller of [Watch] gave. *)
Theorem watch_request_arrives addr pre since :
  plainAddr addr -> StringAll plainChar pre -> in_int64 since ->
  let req := watchRequestOf (watchURL addr pre since) in
  wr_prefix req = pre ∧ watchSince req = Some since.
Proof.
  intros Ha Hp Hs. cbn zeta. unfold watchRequestOf. rewrite rawQuery_watch by (done || plain).
  rewrite (parse_watchQuery pre pre) by (by apply unescape_id || plain).
  split; [done|]. unfold watchSince. cbn [wr_lastEventID wr_since].
  change (bool_decide ("" ≠ "")) with false. cbv iota.
  change (queryGet "since" _) with (Strconv.FormatInt since).
  rewrite Strconv.ParseInt_FormatInt by done. case_bool_decide as E; [|done].
  pose proof (Strconv.ParseInt_FormatInt since Hs) as Hi. by rewrite E in Hi.
Qed.

(** C33 (error).  [Watch] does not escape the prefix: a caller that asks for a prefix with an
    ampersand watches everything under the part before it, and a plus sign
    arrives as a space. *)
Theorem watch_prefix_not_escaped addr pre1 pre2 since :
  plainAddr addr -> StringAll plainChar pre1 -> StringAll plainChar pre2 ->
  wr_prefix (watchRequestOf (watchURL addr (pre1 +:+ "&" +:+ pre2) since)) = pre1 ∧
  wr_prefix (watchRequestOf (watchURL addr (pre1 +:+ "+" +:+ pre2) since)) = pre1 +:+ " " +:+ pre2.
Proof.
  intros Ha H1 H2. unfold watchRequestOf. cbn [wr_prefix].
  assert (Hn: ∀ c : ascii, c ≠ "#"%char -> StringAll (λ c, c ≠ "#"%char) (pre1 +:+ String c "" +:+ pre2)).
  { intros c Hc. rewrite !StringAll_app. split_and!; [plain|done|plain]. }
  rewrite !rawQuery_watch by (done || by apply Hn). split.
  - unfold watchQuery, ParseQuery. rewrite !append_assoc.
    change ("prefix=" +:+ ?x) with (String "p" ("refix=" +:+ x)) at 1. cbn [String.length].
    by rewrite (parse_first _ pre1 pre1) by (by apply unescape_id || plain).
  - rewrite (parse_watchQuery _ (pre1 +:+ " " +:+ pre2)); [done|..].
    + rewrite !StringAll_app. split_and!; [plain|by repeat split|plain].
    + rewrite unescape_plain by done. change ("+" +:+ pre2) with (String "+" pre2). cbn [QueryUnescape].
      rewrite bool_decide_eq_false_2, bool_decide_eq_true_2 by done. by rewrite unescape_id.
Qed.

Lemma watch_request_arrives_witness :
  wr_prefix (watchRequestOf (watchURL "localhost:8000" "users/" 7)) = "users/".
Proof.
  apply (watch_request_arrives "localhost:8000" "users/" 7); [by repeat split..|by vm_compute].
Defined.

Lemma watch_prefix_not_escaped_witness :
  wr_prefix (watchRequestOf (watchURL "localhost:8000" "a&b" 0)) = "a".
Proof. apply (watch_prefix_not_escaped "localhost:8000" "a" "b" 0); by repeat split. Defined.
