(* ===== verification/Server.v ===== *)
(** * Configuration and the start of a node

    [src/config/config.go], the join protocol of [src/cmd/zodiacServer/main.go]
    ([joinCluster], [findLeader], [fetchMembers], [sendJoin]) and the address
    list of [src/cmd/zodiacClient/main.go] ([splitAddrs]).  The answers of the
    network are arguments. *)

From S2P Require Import Prelude GoLib Utf8 Json Schema Api DataStore StoreSpec Command StateMachine Replication Watch WatchLog Codec Snapshot Peers Messages KVService Commits Handlers Sse Client Wire.
From Stdlib Require Import Ascii.

(** ** Configuration *)

Record PeerConfig := mkPeerConfig { pc_ID : Z; pc_HTTPAddr : string; pc_RaftAddr : string }.

Record Config := mkConfig {
  NodeID : Z; HTTPPort : Z; DataDir : string; InitialCluster : list PeerConfig }.

#[export] Instance PeerConfig_struct : Struct PeerConfig := {|
  schemaOf := @Member Z _ _ "id" false $ @Member string _ _ "http_addr" false $
    @Member string _ _ "raft_addr" false $ End;
  unpack r := (pc_ID r, (pc_HTTPAddr r, (pc_RaftAddr r, tt)));
  pack '(x1, (x2, (x3, _))) := mkPeerConfig x1 x2 x3 |}.
#[export] Instance PeerConfig_laws : StructLaws PeerConfig.
Proof. struct_laws. Qed.

#[export] Instance Config_struct : Struct Config := {|
  schemaOf := @Member Z _ _ "node_id" false $ @Member Z _ _ "http_port" false $
    @Member string _ _ "data_dir" false $ @Member (list PeerConfig) _ _ "initial_cluster" false $ End;
  unpack r := (NodeID r, (HTTPPort r, (DataDir r, (InitialCluster r, tt))));
  pack '(x1, (x2, (x3, (x4, _)))) := mkConfig x1 x2 x3 x4 |}.
#[export] Instance Config_laws : StructLaws Config.
Proof. struct_laws. Qed.

(** [LoadConfig]: the file's content, [json.Unmarshal] and the checks. *)
Definition LoadConfig `{ErrorText} (readFile : string + bytes) : string + Config :=
  match readFile with
  | inl err => inl ("reading config: " +:+ err)
  | inr data =>
      match unmarshalBody data (Schema.zero : Config) with
      | (_, Some err) => inl ("parsing config: " +:+ errorText err)
      | (cfg, None) =>
          if NodeID cfg <? 0 then inl "node_id must be >= 0"
          else if HTTPPort cfg <=? 0 then inl "http_port must be > 0"
          else if bool_decide (DataDir cfg = "") then inl "data_dir is required"
          else inr cfg
      end
  end.

Definition cfgPeerIDs (c : Config) : list Z :=
  filter (λ i, i ≠ NodeID c) (pc_ID <$> InitialCluster c).

Definition PeerMap (c : Config) : gmap Z PeerConfig :=
  fold_left (λ m p, <[pc_ID p := p]> m) (InitialCluster c) ∅.

Fixpoint findSelf (self : Z) (ps : list PeerConfig) : option PeerConfig :=
  match ps with
  | [] => None
  | p :: rest => if bool_decide (pc_ID p = self) then Some p else findSelf self rest
  end.

Definition cfgHTTPAddr (c : Config) : string :=
  match findSelf (NodeID c) (InitialCluster c) with
  | Some p => pc_HTTPAddr p
  | None => "localhost:" +:+ Strconv.FormatInt (HTTPPort c)
  end.

Definition IsInitialMember (c : Config) : bool :=
  match findSelf (NodeID c) (InitialCluster c) with Some _ => true | None => false end.

(** A configuration that [LoadConfig] accepts. *)
Definition validConfig (cfg : Config) : Prop :=
  okJSON cfg ∧ 0 <= NodeID cfg ∧ 0 < HTTPPort cfg ∧ DataDir cfg ≠ "".

(** ** Joining a cluster *)

(** The answers of the network: the status of a node, its members, its answer to
    a join request. *)
Record network := mkNetwork {
  net_status : string -> option StatusResponse;
  net_members : string -> option MembersResponse;
  net_join : string -> JoinRequest -> option JoinResponse }.

Definition probe (net : network) (addr : string) : option bool :=
  match net_status net addr with
  | None => None
  | Some st => Some (StatusResp_IsLeader st && bool_decide (StatusResp_RespStatus st = StatusOK))
  end.

Definition fetchMembers (net : network) (addr : string) : option (list PeerInfo) :=
  match net_members net addr with
  | None => None
  | Some mr => if bool_decide (MembersResp_RespStatus mr = StatusOK)
               then Some (MembersResp_Members mr) else None
  end.

(** The first address that probes as the leader. *)
Fixpoint firstLeader (net : network) (l : list string) : option string :=
  match l with
  | [] => None
  | a :: rest => match probe net a with Some true => Some a | _ => firstLeader net rest end
  end.

Definition findLeader (net : network) (seedAddr : string) (allSeeds : list string)
    : option string :=
  match probe net seedAddr with
  | Some true => Some seedAddr
  | _ =>
      match fetchMembers net seedAddr with
      | None => firstLeader net allSeeds
      | Some members => firstLeader net (httpAddrs members)
      end
  end.

Definition sendJoin (net : network) (leaderAddr : string) (jr : JoinRequest) : bool :=
  match net_join net leaderAddr jr with
  | None => false
  | Some resp => bool_decide (JoinResp_RespStatus resp = StatusOK)
  end.

(** The loop over the seeds; [ctxErr] is the error of the context at each turn and,
    at the end of the list, when the loop is over. *)
Fixpoint joinLoop (net : network) (ctxErr : nat -> option string) (n : nat) (jr : JoinRequest)
    (allSeeds seeds : list string) : option string :=
  match seeds with
  | [] => ctxErr n
  | seed :: rest =>
      match ctxErr n with
      | Some err => Some err
      | None =>
          match findLeader net seed allSeeds with
          | None => joinLoop net ctxErr (S n) jr allSeeds rest
          | Some leader =>
              if sendJoin net leader jr then None
              else joinLoop net ctxErr (S n) jr allSeeds rest
          end
      end
  end.

(** The result is the error, [None] for nil. *)
Definition joinCluster (net : network) (ctxErr : nat -> option string) (raftAddr : string)
    (cfg : Config) : option string :=
  let seeds := pc_HTTPAddr <$> InitialCluster cfg in
  match seeds with
  | [] => None
  | _ => joinLoop net ctxErr 0 (mkJoinRequest (NodeID cfg) raftAddr (cfgHTTPAddr cfg)) seeds seeds
  end.

(** ** The command line *)

(** [splitAddrs]: [cur] is the part of the string since [start]. *)
Fixpoint splitLoop (cur : string) (s : string) : list string :=
  match s with
  | EmptyString => if bool_decide (cur = "") then [] else [cur]
  | String c rest =>
      if bool_decide (c = ","%char)
      then (if bool_decide (cur = "") then [] else [cur]) ++ splitLoop "" rest
      else splitLoop (cur +:+ String c "") rest
  end.

Definition splitAddrs (s : string) : list string := splitLoop "" s.

(** ** Lemmas *)

Lemma firstLeader_Some net l a : firstLeader net l = Some a -> a ∈ l ∧ probe net a = Some true.
Proof.
  induction l as [|b l IH]; simpl; [done|]. intros H.
  destruct (probe net b) as [[]|] eqn:E; [by simplify_eq; split; [left|]|..];
    destruct (IH H); (split; [by right|done]).
Qed.

Lemma findSelf_Some self ps p : findSelf self ps = Some p -> p ∈ ps ∧ pc_ID p = self.
Proof.
  induction ps as [|q ps IH]; simpl; [done|]. case_bool_decide.
  - intros [= ->]. by split; [left|].
  - intros [? ?]%IH. by split; [right|].
Qed.

Lemma findSelf_None self ps : findSelf self ps = None <-> self ∉ pc_ID <$> ps.
Proof.
  induction ps as [|q ps IH]; simpl; [split; [intros; apply not_elem_of_nil|done]|].
  rewrite not_elem_of_cons. case_bool_decide; [split; [done|naive_solver]|]. rewrite IH. naive_solver.
Qed.

Lemma join_all_fail net ctxErr n jr allSeeds seeds :
  (∀ m, ctxErr m = None) ->
  Forall (λ s, ∀ l, findLeader net s allSeeds = Some l -> sendJoin net l jr = false) seeds ->
  joinLoop net ctxErr n jr allSeeds seeds = None.
Proof.
  intros Hctx Hs. revert n. induction Hs as [|s seeds Hs Hseeds IH]; intros n; simpl; [done|].
  rewrite Hctx. destruct (findLeader net s allSeeds) as [l|] eqn:E; [|done]. by rewrite (Hs l eq_refl).
Qed.

(** A string without a separator. *)
Fixpoint noComma (s : string) : Prop :=
  match s with EmptyString => True | String c s' => c ≠ ","%char ∧ noComma s' end.

Fixpoint joinAddrs (l : list string) : string :=
  match l with
  | [] => ""
  | [a] => a
  | a :: rest => a +:+ String ","%char (joinAddrs rest)
  end.

Lemma split_word cur a rest :
  noComma a -> splitLoop cur (a +:+ String ","%char rest) =
    (if bool_decide (cur +:+ a = "") then [] else [cur +:+ a]) ++ splitLoop "" rest.
Proof.
  revert cur. induction a as [|c a IH]; intros cur Ha.
  - change ("" +:+ ?x) with x. cbn [splitLoop]. rewrite bool_decide_eq_true_2 by done.
    by rewrite append_nil.
  - destruct Ha as [Hc Ha]. rewrite append_cons. cbn [splitLoop].
    rewrite bool_decide_eq_false_2 by done. rewrite IH by done. by rewrite append_assoc.
Qed.

Lemma split_last cur a :
  noComma a -> splitLoop cur a = if bool_decide (cur +:+ a = "") then [] else [cur +:+ a].
Proof.
  revert cur. induction a as [|c a IH]; intros cur Ha; cbn [splitLoop].
  - by rewrite append_nil.
  - destruct Ha as [Hc Ha]. rewrite bool_decide_eq_false_2 by done. rewrite IH by done.
    by rewrite append_assoc.
Qed.

(** ** Properties *)

(** C40 (error).  A failed join is reported as a success: when no leader is found through
    any seed, or every leader refuses, and the context has not ended, the result
    is nil, the same as for an accepted join. *)
Theorem failed_join_is_nil net ctxErr raftAddr cfg :
  let seeds := pc_HTTPAddr <$> InitialCluster cfg in
  (∀ m, ctxErr m = None) ->
  Forall (λ s, ∀ l, findLeader net s seeds = Some l ->
    ∀ jr, sendJoin net l jr = false) seeds ->
  joinCluster net ctxErr raftAddr cfg = None.
Proof.
  intros seeds Hctx Hs. unfold joinCluster. fold seeds. destruct seeds eqn:E; [done|].
  rewrite <-E in *. apply join_all_fail; [done|]. eapply Forall_impl; [exact Hs|]. simpl. auto.
Qed.

(** The leader that a search returns answered a probe as the leader, and is the
    seed, one of the seeds, or a member that the seed named. *)
Theorem findLeader_sound net seed seeds l :
  findLeader net seed seeds = Some l ->
  probe net l = Some true ∧
  (l = seed ∨ l ∈ seeds ∨ ∃ ms, fetchMembers net seed = Some ms ∧ l ∈ Peer_HTTPAddr <$> ms).
Proof.
  unfold findLeader. intros H.
  assert (Hother: probe net seed ≠ Some true ->
    match fetchMembers net seed with
    | None => firstLeader net seeds
    | Some members => firstLeader net (httpAddrs members) end = Some l ->
    probe net l = Some true ∧
    (l ∈ seeds ∨ ∃ ms, fetchMembers net seed = Some ms ∧ l ∈ Peer_HTTPAddr <$> ms)).
  { intros _ Hf. destruct (fetchMembers net seed) as [ms|]; apply firstLeader_Some in Hf as [Hin Hp];
      (split; [done|]); [right|by left]. exists ms. split; [done|].
    by apply list_elem_of_filter in Hin as [_ Hin]. }
  destruct (probe net seed) as [[]|] eqn:E; [by simplify_eq; auto|..];
    destruct Hother as [? [?|?]]; auto.
Qed.

(** The peers a node is configured with never include itself, and a node is an
    initial member exactly when its id is in the list. *)
Theorem config_self cfg :
  (NodeID cfg ∉ cfgPeerIDs cfg) ∧
  (IsInitialMember cfg = true <-> NodeID cfg ∈ pc_ID <$> InitialCluster cfg).
Proof.
  split.
  - unfold cfgPeerIDs. rewrite list_elem_of_filter. by intros [? _].
  - unfold IsInitialMember. destruct (findSelf _ _) as [p|] eqn:E.
    + apply findSelf_Some in E as [Hin <-]. split; [intros _; by apply list_elem_of_fmap_2|done].
    + apply findSelf_None in E. split; [done|]. intros; contradiction.
Qed.

(** Splitting a comma-separated list of addresses gives the addresses back. *)
Theorem splitAddrs_joinAddrs l :
  Forall (λ a, a ≠ "" ∧ noComma a) l -> splitAddrs (joinAddrs l) = l.
Proof.
  unfold splitAddrs. induction 1 as [|a l [Hne Ha] Hl IH]; [done|]. destruct l as [|b l].
  - cbn [joinAddrs]. rewrite split_last by done. by rewrite bool_decide_eq_false_2.
  - change (joinAddrs (a :: b :: l)) with (a +:+ String ","%char (joinAddrs (b :: l))).
    rewrite split_word by done. rewrite bool_decide_eq_false_2 by done. by rewrite IH.
Qed.

(** C24 (roundtrip).  Loading a configuration: every file [LoadConfig] accepts gives a valid
    configuration (integers in range, UTF-8 strings, the three checks), and
    every valid configuration, written as JSON, is loaded unchanged. *)
Theorem config_roundtrip `{ErrorText} cfg :
  (∀ data, LoadConfig (inr data) = inr cfg -> validConfig cfg) ∧
  (∀ nils, validConfig cfg -> LoadConfig (inr (marshalBody nils cfg)) = inr cfg).
Proof.
  split.
  - intros data Hl. unfold LoadConfig, unmarshalBody in Hl.
    destruct (unmarshalDoc (ofBytes data)) as [j|] eqn:Ed; [|done]. apply unmarshalDoc_valid in Ed.
    cbn [decodeInto] in Hl. pose proof (json_typed false j (Schema.zero : Config) Ed json_zero) as Hok.
    destruct (fromJSON false j (Schema.zero : Config)) as [c [e|]]; [done|].
    destruct (Z.ltb_spec (NodeID c) 0); [done|]. destruct (Z.leb_spec (HTTPPort c) 0); [done|].
    case_bool_decide; [done|]. injection Hl as ->. by split_and!.
  - intros nils (Hok & Hid & Hport & Hdir). unfold LoadConfig.
    assert (Hlev: @levels Config _ <= maxNestingDepth) by (by vm_compute).
    rewrite (unmarshal_marshal Hlev) by (done || apply json_blank).
    rewrite (proj2 (Z.ltb_ge _ _)), (proj2 (Z.leb_gt _ _)), bool_decide_eq_false_2 by (done || lia). done.
Qed.

(** ** Witnesses *)

Definition empty_network : network := mkNetwork (λ _, None) (λ _, None) (λ _ _, None).

Lemma failed_join_is_nil_witness :
  joinCluster empty_network (λ _, None) "r:1"
    (mkConfig 4 8004 "/d" [mkPeerConfig 1 "h1" "r1"; mkPeerConfig 2 "h2" "r2"]) = None.
Proof.
  apply (failed_join_is_nil empty_network (λ _, None) "r:1"
    (mkConfig 4 8004 "/d" [mkPeerConfig 1 "h1" "r1"; mkPeerConfig 2 "h2" "r2"])); [done|].
  by repeat constructor.
Defined.

Lemma config_roundtrip_witness :
  let texts : ErrorText := λ _, "error" in
  let cfg := mkConfig 1 8001 "/d" [mkPeerConfig 1 "h1" "r1"; mkPeerConfig 2 "h2" "r2"] in
  LoadConfig (inr (marshalBody (λ _, false) cfg)) = inr cfg.
Proof.
  intros texts cfg. apply (proj2 (config_roundtrip cfg)). split_and!; [|done..]. by repeat split; repeat constructor.
Defined.
