(* ===== verification/Cli.v ===== *)
(** * The command line client: [src/cmd/zodiacClient/main.go]

    [cliMain] is the main function after the flags have been parsed: the choice of the
    addresses, the client, the five commands with their argument checks, what
    they print and the exit code.  The servers are an argument: the outcome of
    each attempt, as in [Client].  [fuel] bounds the attempts of one request;
    the real loop ends with the timeout of its context. *)

From S2P Require Import Prelude GoLib Utf8 Json Schema Api DataStore StoreSpec Command StateMachine Replication Watch WatchLog Codec Snapshot Peers Messages KVService Commits Handlers Sse Client Wire Server.

(** ** Input and output *)

Record flags := mkFlags { fl_addr : string; fl_discover : bool; fl_verbose : bool }.

(** The answers of the nodes to each kind of request, and to discovery. *)
Record servers := mkServers {
  sv_get : GetRequest -> nat -> string -> attempt GetResponse;
  sv_put : PutRequest -> nat -> string -> attempt PutResponse;
  sv_append : AppendRequest -> nat -> string -> attempt AppendResponse;
  sv_cas : CASRequest -> nat -> string -> attempt CASResponse;
  sv_list : ListRequest -> nat -> string -> attempt ListResponse;
  sv_members : string -> fetched }.

(** The end of the process: exit code, the lines on standard output, the message
    on standard error; or still waiting when the fuel is used up. *)
Inductive ending :=
| Exit (code : Z) (out : list string) (err : string)
| Running.

Definition fatal (msg : string) : ending := Exit 1 [] msg.
Definition exitOK (out : list string) : ending := Exit 0 out "".

Definition withRev (verbose : bool) (s : string) (rev : Z) : string :=
  if verbose then s +:+ " (rev=" +:+ Strconv.FormatInt rev +:+ ")" else s.

Definition usage : string :=
  "Usage: zodiac-client [flags] <command> [args...]" +:+ newline +:+ newline +:+
  "Commands:" +:+ newline +:+ "  get <key>" +:+ newline +:+ "  put <key> <value>" +:+ newline +:+
  "  append <key> <value>" +:+ newline +:+ "  cas <key> <compare> <value>" +:+ newline +:+
  "  list <prefix>".

(** ** The commands *)

Section commands.
Context (fuel : nat) (sv : servers) (ord : MapOrder) (verbose : bool).

(** A request, and what to do with the response. *)
Definition request {A R} `{Response R} (route : string) (net : A -> nat -> string -> attempt R)
    (rc : A * KVClient) (k : R -> ending) : go ending :=
  let! q := send fuel route (net rc.1) 0 rc.2 in
  Ret match q.1 with
      | SendOK resp => k resp
      | SendError err => fatal err
      | SendPending => Running
      end.

Definition runGet (args : list string) (c : KVClient) : go ending :=
  match args with
  | key :: _ =>
      request "get" (sv_get sv) (GetReq key c) (λ resp,
        if GetResp_KeyFound resp
        then exitOK [withRev verbose (GetResp_Value resp) (GetResp_Revision resp)]
        else Exit 1 [] "")
  | [] => Ret (fatal "Usage: zodiac-client get <key>")
  end.

(** The previous value, if there was one. *)
Definition printPrev (found : bool) (prev : string) (rev : Z) : ending :=
  exitOK (if found then [withRev verbose prev rev] else []).

Definition runPut (args : list string) (c : KVClient) : go ending :=
  match args with
  | key :: value :: _ =>
      request "put" (sv_put sv) (PutReq key value c) (λ resp,
        printPrev (PutResp_KeyFound resp) (PutResp_PrevValue resp) (PutResp_Revision resp))
  | _ => Ret (fatal "Usage: zodiac-client put <key> <value>")
  end.

Definition runAppend (args : list string) (c : KVClient) : go ending :=
  match args with
  | key :: value :: _ =>
      request "append" (sv_append sv) (AppendReq key value c) (λ resp,
        printPrev (AppendResp_KeyFound resp) (AppendResp_PrevValue resp) (AppendResp_Revision resp))
  | _ => Ret (fatal "Usage: zodiac-client append <key> <value>")
  end.

Definition runCAS (args : list string) (c : KVClient) : go ending :=
  match args with
  | key :: compare :: value :: _ =>
      request "cas" (sv_cas sv) (CASReq key compare value c) (λ resp,
        printPrev (CASResp_KeyFound resp) (CASResp_PrevValue resp) (CASResp_Revision resp))
  | _ => Ret (fatal "Usage: zodiac-client cas <key> <compare> <value>")
  end.

Definition runList (args : list string) (c : KVClient) : go ending :=
  match args with
  | pre :: _ =>
      request "list" (sv_list sv) (ListReq pre c) (λ resp,
        exitOK ((λ p, withRev verbose (p.1 +:+ ": " +:+ p.2) (ListResp_Revision resp)) <$>
          visit ord (map_to_list (default ∅ (ListResp_Pairs resp)))))
  | [] => Ret (fatal "Usage: zodiac-client list <prefix>")
  end.

Definition runCommand (cmd : string) (args : list string) (c : KVClient) : go ending :=
  if bool_decide (cmd = "get") then runGet args c
  else if bool_decide (cmd = "put") then runPut args c
  else if bool_decide (cmd = "append") then runAppend args c
  else if bool_decide (cmd = "cas") then runCAS args c
  else if bool_decide (cmd = "list") then runList args c
  else Ret (fatal ("unknown command: " +:+ cmd)).
End commands.

(** The client of a new process: its counter of clients starts at 0. *)
Definition newProcessClient (sv : servers) (fl : flags) : KVClient :=
  let seedAddrs := splitAddrs (fl_addr fl) in
  (if fl_discover fl then NewWithDiscovery (sv_members sv) seedAddrs 0
   else newClient seedAddrs 0).1.

Definition cliMain (fuel : nat) (sv : servers) (ord : MapOrder) (fl : flags) (args : list string)
    : go ending :=
  match args with
  | [] => Ret (fatal usage)
  | cmd :: rest => runCommand fuel sv ord (fl_verbose fl) cmd rest (newProcessClient sv fl)
  end.

(** ** Lemmas *)

Lemma newProcess_ids sv fl :
  clientID (newProcessClient sv fl) = 1 ∧ requestID (newProcessClient sv fl) = 0.
Proof.
  unfold newProcessClient, NewWithDiscovery. destruct (fl_discover fl); [|done].
  repeat case_match; done.
Qed.

(** ** Properties *)

(** C34 (functional).  The exit code and the output of [get]: when the leader is among the
    addresses, the process prints the value it holds and exits with 0 if the key
    exists, and prints nothing and exits with 1 if it does not; the request
    that reaches the leader names the key. *)
Theorem cli_get sv ord fl key rest k resp :
  let c := newProcessClient sv fl in
  let req := (GetReq key c).1 in
  wfc c -> leaderAt "get" (sv_get sv req) c k resp ->
  GetReq_Key req = key ∧
  cliMain (length (addrs c)) sv ord fl ("get" :: key :: rest) =
    Ret (if GetResp_KeyFound resp
         then Exit 0 [withRev (fl_verbose fl) (GetResp_Value resp) (GetResp_Revision resp)] ""
         else Exit 1 [] "").
Proof.
  intros c req Hc Hl. split; [done|]. cbn [cliMain]. unfold runCommand.
  rewrite bool_decide_eq_true_2 by done. cbn [runGet]. unfold request.
  change (GetReq key (newProcessClient sv fl)) with (req, (nextRequest c).2). cbn [fst snd].
  assert (Hc': wfc (nextRequest c).2) by (destruct Hc; by split).
  assert (Hl': leaderAt "get" (sv_get sv req) (nextRequest c).2 k resp) by (by destruct Hl; split).
  pose proof (lead_range _ _ _ _ _ Hl') as Hr.
  pose proof (Z.mod_pos_bound (k - assumedLeader c) (Z.of_nat (length (addrs c)))).
  rewrite (send_from "get" (sv_get sv req)
    (Z.to_nat ((k - assumedLeader c) `mod` Z.of_nat (length (addrs c)))) 0 _ k resp);
    [done|done|done|cbn [nextRequest snd addrs assumedLeader] in *; lia|
     cbn [nextRequest snd addrs] in *; lia].
Qed.

(** [list] prints every pair of the response on a line of its own, once, in
    whatever order the map is visited, and nothing else. *)
Theorem cli_list_prints_all sv ord fl pre rest resp :
  let c := newProcessClient sv fl in
  wfc c -> (∀ req n path, sv_list sv req n path = Answer resp) -> Status resp = StatusOK ->
  ∃ out, cliMain 1 sv ord fl ("list" :: pre :: rest) = Ret (Exit 0 out "") ∧
    out ≡ₚ (λ p, withRev (fl_verbose fl) (p.1 +:+ ": " +:+ p.2) (ListResp_Revision resp)) <$>
      map_to_list (default ∅ (ListResp_Pairs resp)).
Proof.
  intros c Hc Hsv Hs. eexists. split.
  - cbn [cliMain]. unfold runCommand. rewrite !bool_decide_eq_false_2, bool_decide_eq_true_2 by done.
    cbn [runList]. unfold request. cbn [send].
    change (ListReq pre (newProcessClient sv fl)) with ((ListReq pre c).1, (nextRequest c).2). cbn [fst snd].
    destruct (slice_get_leader (nextRequest c).2) as (a & -> & _); [destruct Hc; by split|].
    cbn [go_bind]. by rewrite Hsv, Hs.
  - by rewrite (visit_perm ord).
Qed.

(** A command that needs an address panics when the address flag holds none: [New]
    accepts an empty list and [send] indexes it. *)
Theorem cli_no_address_panics fuel sv ord fl key rest :
  splitAddrs (fl_addr fl) = [] -> fl_discover fl = false ->
  cliMain (S fuel) sv ord fl ("get" :: key :: rest) = Panic "index out of range".
Proof.
  intros Ha Hd. cbn [cliMain]. unfold runCommand. rewrite bool_decide_eq_true_2 by done.
  unfold newProcessClient. rewrite Hd, Ha. done.
Qed.

(** Every process sends its first request under client id 1 and request id 1. *)
Theorem cli_ids sv fl key value :
  let pr := (PutReq key value (newProcessClient sv fl)).1 in
  PutReq_ClientID pr = 1 ∧ PutReq_RequestID pr = 1.
Proof.
  destruct (newProcess_ids sv fl) as [Hc Hr]. unfold PutReq, nextRequest. cbn. by rewrite Hc, Hr.
Qed.

(** ** Witnesses *)

Definition three_flags : flags := mkFlags "a:1,b:1,c:1" false true.
Definition sample_pairs : ListResponse :=
  mkListResponse StatusOK (Some {["k1" := "v1"; "k2" := "v2"]}) "" 4.
Definition sample_servers : servers :=
  mkServers (λ _, leader_c) (λ _ _ _, Failure "down" false false) (λ _ _ _, Failure "down" false false)
    (λ _ _ _, Failure "down" false false) (λ _ _ _, Answer sample_pairs) (λ _, FetchBadURL).

Lemma cli_get_witness :
  cliMain 3 sample_servers in_order three_flags ["get"; "k"] = Ret (Exit 0 ["v (rev=4)"] "").
Proof.
  apply (cli_get sample_servers in_order three_flags "k" [] 2 (mkGetResponse StatusOK true "v" 4));
    [apply three_wfc|apply three_leader].
Defined.

Lemma cli_list_prints_all_witness :
  ∃ out, cliMain 1 sample_servers in_order three_flags ["list"; "k"] = Ret (Exit 0 out "") ∧
    "k2: v2 (rev=4)" ∈ out.
Proof.
  destruct (cli_list_prints_all sample_servers in_order three_flags "k" [] sample_pairs)
    as (out & Ho & Hp); [apply three_wfc|done|done|].
  exists out. split; [done|]. rewrite Hp. apply list_elem_of_fmap. exists ("k2", "v2").
  split; [done|]. apply elem_of_map_to_list. by vm_compute.
Defined.

Lemma cli_no_address_panics_witness :
  cliMain 1 sample_servers in_order (mkFlags "," false false) ["get"; "k"] = Panic "index out of range".
Proof. by apply (cli_no_address_panics 0 sample_servers in_order (mkFlags "," false false) "k" []). Defined.
