(* ===== verification/Node.v ===== *)
(** * Starting and stopping a node

    The main function of src/cmd/zodiacServer/main.go: which peers it dials, the loop
    of a dial with its backoff, and the start sequence up to the wait for a
    signal; [ServeHTTP] and [Shutdown] of src/kvservice/kvservice.go as a small
    state machine.  Time is in milliseconds and the outcomes of dialling are
    arguments. *)

From S2P Require Import Prelude GoLib Utf8 Json Schema Api DataStore StoreSpec Command StateMachine Replication Watch WatchLog Codec Snapshot Peers Messages KVService Commits Handlers Sse Client Wire Server.

(** ** Dialling a peer *)

Definition firstBackoff : Z := 100.
Definition maxBackoff : Z := 2000.
Definition dialTimeout : Z := 30000.

Inductive dialResult := DialResolveFailed | DialConnectFailed | DialConnected.
#[export] Instance dialResult_eq_dec : EqDecision dialResult.
Proof. solve_decision. Defined.

(** The end of the goroutine, with the number of tries that failed. *)
Inductive dialEnd := Connected (failures : nat) | GaveUp (failures : nat) | Dialling.

(** The loop; [try n] is the outcome of the [n]-th try and the time it takes, waiting
    for the scheduler included. *)
Fixpoint dialLoop (fuel : nat) (try : nat -> dialResult * Z) (n : nat) (now deadline backoff : Z)
    : dialEnd :=
  match fuel with
  | O => Dialling
  | S fuel' =>
      if deadline <=? now then GaveUp n
      else
        match (try n).1 with
        | DialConnected => Connected n
        | DialResolveFailed | DialConnectFailed =>
            dialLoop fuel' try (S n) (now + (try n).2 + backoff) deadline
              (Z.min (backoff * 2) maxBackoff)
        end
  end.

(** The most tries there is time for, and one more turn to notice. *)
Definition maxTries : nat := 19.
Definition dialPeer (try : nat -> dialResult * Z) (now : Z) : dialEnd :=
  dialLoop (S maxTries) try 0 now (now + dialTimeout) firstBackoff.

(** ** Which peers are dialled *)

Definition connect (self : Z) (p : gset Z * list (Z * string)) (peer : Z * string)
    : gset Z * list (Z * string) :=
  if bool_decide (peer.1 = self) || bool_decide (peer.1 ∈ p.1) then p
  else ({[peer.1]} ∪ p.1, p.2 ++ [peer]).

(** The known peers with an address, then the initial cluster. *)
Definition peersToDial (ord : MapOrder) (known : gmap Z peerInfo) (cfg : Config)
    : list (Z * string) :=
  let candidates :=
    filter (λ p, p.2 ≠ "") ((λ p, (p.1, RaftAddr p.2)) <$> visit ord (map_to_list known)) ++
    ((λ p, (pc_ID p, pc_RaftAddr p)) <$> InitialCluster cfg) in
  (fold_left (connect (NodeID cfg)) candidates (∅, [])).2.

(** ** The life of a service: [ServeHTTP] and [Shutdown] *)

Inductive httpServer := NoServer | Serving (port : Z) | Closing.

Record life := mkLife {
  lf_expiry : bool;
  lf_raft : bool;
  lf_commitChan : bool;
  lf_srv : httpServer }.

Definition newLife : life := mkLife true true true NoServer.

Definition ServeHTTP (port : Z) (l : life) : go life :=
  match lf_srv l with
  | NoServer => Ret (mkLife (lf_expiry l) (lf_raft l) (lf_commitChan l) (Serving port))
  | _ => Panic "ServeHTTP called with existing server"
  end.

(** [srv.Shutdown] lets [ListenAndServe] return; the goroutine of [ServeHTTP] then
    forgets the server. *)
Definition Shutdown (l : life) : go life :=
  if lf_commitChan l then
    Ret (mkLife false false false
      match lf_srv l with
      | NoServer => NoServer
      | Serving _ | Closing => Closing
      end)
  else Panic "close of closed channel".

Definition serveReturned (l : life) : life :=
  match lf_srv l with
  | Closing => mkLife (lf_expiry l) (lf_raft l) (lf_commitChan l) NoServer
  | _ => l
  end.

Inductive lifeStep : life -> life -> Prop :=
| l_serve port l l' : ServeHTTP port l = Ret l' -> lifeStep l l'
| l_shutdown l l' : Shutdown l = Ret l' -> lifeStep l l'
| l_returned l : lifeStep l (serveReturned l).

(** ** The start sequence *)

Record started (S : Type) := mkStarted {
  st_service : KVService;
  st_storage : S;
  st_life : life;
  st_dials : list (Z * string);
  (** the result of [joinCluster], when it was called *)
  st_join : option (option string) }.
Arguments mkStarted {S} _ _ _ _ _.
Arguments st_service {S} _.
Arguments st_storage {S} _.
Arguments st_life {S} _.
Arguments st_dials {S} _.
Arguments st_join {S} _.

Definition startNode {S} `{RaftStorage S} `{ErrorText} (readFile : string + bytes)
    (openStorage : string -> string + S) (ord1 ord2 : MapOrder) (net : network)
    (ctxErr : nat -> option string) (raftAddr : string) (args : list string)
    : go (string + started S) :=
  match args with
  | [] | [_] => Ret (inl "Usage: zodiac <config.json>")
  | _ =>
      match LoadConfig readFile with
      | inl err => Ret (inl ("Config error: " +:+ err))
      | inr cfg =>
          match openStorage (DataDir cfg) with
          | inl err => Ret (inl err)
          | inr st =>
              let kvs := NewKVService (NodeID cfg) (cfgPeerIDs cfg) st in
              let dials := peersToDial ord1 (KnownPeers (book kvs)) cfg in
              let! l := ServeHTTP (HTTPPort cfg) newLife in
              let '(b, st1) := SetLocalHTTPAddr ord2 (NodeID cfg) (cfgHTTPAddr cfg) (book kvs, st) in
              Ret (inr (mkStarted (set_book b kvs) st1 l dials
                (if IsInitialMember cfg then None else Some (joinCluster net ctxErr raftAddr cfg))))
          end
      end
  end.

(** After the signal. *)
Definition stopNode {S} (s : started S) : go life := Shutdown (st_life s).

(** ** Lemmas on dialling *)

Definition backoffAt (n : nat) : Z := Z.min (firstBackoff * 2 ^ Z.of_nat n) maxBackoff.

(** The time slept before try [n]. *)
Fixpoint slept (n : nat) : Z :=
  match n with
  | O => 0
  | S n' => slept n' + backoffAt n'
  end.

Lemma backoffAt_next n : Z.min (backoffAt n * 2) maxBackoff = backoffAt (S n).
Proof.
  unfold backoffAt. rewrite Nat2Z.inj_succ, Z.pow_succ_r by lia. unfold maxBackoff.
  pose proof (Z.pow_pos_nonneg 2 (Z.of_nat n)). lia.
Qed.

(** What the end of a dial says about its tries. *)
Definition dialSpec (try : nat -> dialResult * Z) (e : dialEnd) : Prop :=
  match e with
  | Connected n => (n < maxTries)%nat ∧ (try n).1 = DialConnected ∧
      ∀ m, (m < n)%nat -> (try m).1 ≠ DialConnected
  | GaveUp n => (0 < n <= maxTries)%nat ∧ ∀ m, (m < n)%nat -> (try m).1 ≠ DialConnected
  | Dialling => False
  end.

Lemma dialLoop_spec try start k : (∀ n, 0 <= (try n).2) ->
  ∀ n now, (n + k = maxTries)%nat -> start + slept n <= now -> (n = 0%nat -> now = start) ->
  (∀ m, (m < n)%nat -> (try m).1 ≠ DialConnected) ->
  dialSpec try (dialLoop (S k) try n now (start + dialTimeout) (backoffAt n)).
Proof.
  intros Htime. induction k as [|k IH]; intros n now Hk Hnow H0 Hprev; cbn [dialLoop].
  - assert (n = maxTries) as -> by lia. assert (slept maxTries = 31100) as Hs by (by vm_compute).
    rewrite (proj2 (Z.leb_le _ _)) by (unfold dialTimeout; lia). split; [unfold maxTries; lia|exact Hprev].
  - destruct (Z.leb_spec (start + dialTimeout) now) as [Hle|Hlt].
    + split; [|exact Hprev]. destruct n; [|lia]. specialize (H0 eq_refl). unfold dialTimeout in Hle. lia.
    + assert (Hfail: (try n).1 ≠ DialConnected ->
        dialSpec try (dialLoop (S k) try (S n) (now + (try n).2 + backoffAt n) (start + dialTimeout)
          (Z.min (backoffAt n * 2) maxBackoff))).
      { intros Hn. rewrite backoffAt_next. apply IH; [lia| |done|].
        - cbn [slept]. pose proof (Htime n). lia.
        - intros m Hm. destruct (decide (m = n)) as [->|]; [done|]. apply Hprev. lia. }
      destruct (try n).1 eqn:E; [apply Hfail; congruence..|]. split_and!; [lia|done|exact Hprev].
Qed.

Lemma connect_fold self cands : ∀ seen out,
  NoDup out.*1 -> (∀ i, i ∈ seen <-> i ∈ out.*1) -> self ∉ out.*1 ->
  let r := fold_left (connect self) cands (seen, out) in
  NoDup r.2.*1 ∧ (self ∉ r.2.*1) ∧ (out `prefix_of` r.2) ∧
  (∀ i, i ∈ r.2.*1 <-> i ∈ out.*1 ∨ i ≠ self ∧ i ∈ cands.*1) ∧
  (∀ p, p ∈ r.2 -> p ∈ out ∨ p ∈ cands).
Proof.
  induction cands as [|[i a] cands IH]; intros seen out Hnd Hseen Hself; cbn [fold_left].
  { split_and!; [done|done|done| |by auto]. intros i. cbn. rewrite elem_of_nil. naive_solver. }
  assert (Hc: connect self (seen, out) (i, a) =
    if bool_decide (i = self) || bool_decide (i ∈ seen) then (seen, out)
    else ({[i]} ∪ seen, out ++ [(i, a)])) by done. rewrite Hc. clear Hc.
  destruct (bool_decide (i = self) || bool_decide (i ∈ seen)) eqn:E.
  - destruct (IH seen out Hnd Hseen Hself) as (H1 & H2 & H3 & H4 & H5). split_and!; [done|done|done| |].
    + intros j. rewrite H4. cbn. rewrite elem_of_cons. apply orb_true_iff in E as [E|E].
      * apply bool_decide_eq_true in E. naive_solver.
      * apply bool_decide_eq_true in E. apply Hseen in E. naive_solver.
    + intros p [?|?]%H5; [by left|right; by right].
  - apply orb_false_iff in E as [Ei Es]. apply bool_decide_eq_false in Ei, Es. rewrite Hseen in Es.
    destruct (IH ({[i]} ∪ seen) (out ++ [(i, a)])) as (H1 & H2 & H3 & H4 & H5).
    + rewrite fmap_app. cbn. apply NoDup_app. split_and!; [done| |apply NoDup_singleton].
      intros j Hj ->%list_elem_of_singleton. done.
    + intros j. rewrite fmap_app, elem_of_app, elem_of_union, elem_of_singleton, Hseen.
      cbn. rewrite list_elem_of_singleton. tauto.
    + rewrite fmap_app, elem_of_app. cbn. rewrite list_elem_of_singleton. naive_solver.
    + split_and!; [done|done| | |].
      * by eapply prefix_app_l.
      * intros j. rewrite H4, fmap_app, elem_of_app. cbn. rewrite list_elem_of_singleton, elem_of_cons. naive_solver.
      * intros p [Hp|Hp]%H5; [|right; by right]. apply elem_of_app in Hp as [?|Hp]; [by left|].
        right. apply list_elem_of_singleton in Hp as ->. left.
Qed.

Lemma peersToDial_spec ord known cfg :
  let dials := peersToDial ord known cfg in
  NoDup dials.*1 ∧ (NodeID cfg ∉ dials.*1) ∧
  (∀ i, i ∈ dials.*1 <-> i ≠ NodeID cfg ∧
     ((∃ pi, known !! i = Some pi ∧ RaftAddr pi ≠ "") ∨ i ∈ pc_ID <$> InitialCluster cfg)) ∧
  (∀ i a, (i, a) ∈ dials ->
     (∃ pi, known !! i = Some pi ∧ a = RaftAddr pi) ∨
     ∃ p, p ∈ InitialCluster cfg ∧ i = pc_ID p ∧ a = pc_RaftAddr p).
Proof.
  intros dials. unfold dials, peersToDial.
  set (cands := filter _ _ ++ _).
  destruct (connect_fold (NodeID cfg) cands ∅ []) as (H1 & H2 & _ & H4 & H5);
    [constructor|set_solver|apply not_elem_of_nil|].
  assert (Hk: ∀ i a, (i, a) ∈ cands <->
    (∃ pi, known !! i = Some pi ∧ a = RaftAddr pi ∧ a ≠ "") ∨
    (∃ p, p ∈ InitialCluster cfg ∧ i = pc_ID p ∧ a = pc_RaftAddr p)).
  { intros i a. unfold cands. rewrite elem_of_app, list_elem_of_filter, !list_elem_of_fmap. cbn.
    setoid_rewrite visit_perm. split.
    - intros [[Ha ([j pi] & [= -> ->] & Hj%elem_of_map_to_list)]|(p & [= -> ->] & Hp)];
        [left; by exists pi|right; by exists p].
    - intros [(pi & Hpi & -> & Ha)|(p & Hp & -> & ->)]; [left|right; by exists p].
      split; [done|]. exists (i, pi). by rewrite elem_of_map_to_list. }
  split_and!; [done|done| |].
  - intros i. rewrite H4, elem_of_nil, !list_elem_of_fmap. split.
    + intros [[]|[Hne ([j a] & -> & Hin)]]. split; [done|]. apply Hk in Hin. naive_solver.
    + intros [Hne Hor]. right. split; [done|]. destruct Hor as [(pi & Hpi & Ha)|(p & -> & Hp)].
      * exists (i, RaftAddr pi). split; [done|]. apply Hk. left. eauto.
      * exists (pc_ID p, pc_RaftAddr p). split; [done|]. apply Hk. right. eauto.
  - intros i a [Hin|Hin]%H5; [by apply elem_of_nil in Hin|]. apply Hk in Hin. naive_solver.
Qed.

(** ** Properties *)

(** C17 (termination).  A dial ends: whatever the tries yield and however long they
    take, the goroutine connects at the first try that succeeds, or gives up
    after at most 19 failed tries because its 30 seconds are over. *)
Theorem dial_terminates try now : (∀ n, 0 <= (try n).2) -> dialSpec try (dialPeer try now).
Proof.
  intros Htime. apply (dialLoop_spec try now maxTries Htime 0 now); [done|simpl; lia|done|lia].
Qed.

(** C25 (functional).  The peers dialled at the start are exactly the known peers with an address
    and the members of the initial cluster, other than the node itself, each
    once; and each address dialled is one that was known or configured
    for that peer. *)
Theorem dials_each_peer_once ord known cfg :
  let dials := peersToDial ord known cfg in
  NoDup dials.*1 ∧ (NodeID cfg ∉ dials.*1) ∧
  (∀ i, i ∈ dials.*1 <-> i ≠ NodeID cfg ∧
     ((∃ pi, known !! i = Some pi ∧ RaftAddr pi ≠ "") ∨ i ∈ pc_ID <$> InitialCluster cfg)) ∧
  (∀ i a, (i, a) ∈ dials ->
     (∃ pi, known !! i = Some pi ∧ a = RaftAddr pi) ∨
     ∃ p, p ∈ InitialCluster cfg ∧ i = pc_ID p ∧ a = pc_RaftAddr p).
Proof. apply peersToDial_spec. Qed.

(** The life of a service: [ServeHTTP] panics while a server exists; the commit channel is
    closed only after Raft and the lease loop have stopped; a second [Shutdown]
    closes a closed channel and panics, at any later time. *)
Theorem shutdown_once l :
  rtc lifeStep newLife l ->
  (∀ port, (∃ l', ServeHTTP port l = Ret l') <-> lf_srv l = NoServer) ∧
  (lf_commitChan l = false -> lf_raft l = false ∧ lf_expiry l = false) ∧
  (∀ l1 l2, Shutdown l = Ret l1 -> rtc lifeStep l1 l2 -> Shutdown l2 = Panic "close of closed channel").
Proof.
  intros Hr. split_and!.
  - intros port. unfold ServeHTTP. destruct (lf_srv l); split; try done; [by eexists|by intros [? ?]..].
  - revert Hr. apply (rtc_ind_r (λ l, lf_commitChan l = false -> lf_raft l = false ∧ lf_expiry l = false));
      [done|]. intros x y _ Hxy IH. destruct Hxy as [port x y H|x y H|x].
    + unfold ServeHTTP in H. destruct (lf_srv x); simplify_eq. done.
    + unfold Shutdown in H. destruct (lf_commitChan x); by simplify_eq.
    + unfold serveReturned. by destruct (lf_srv x).
  - intros l1 l2 Hs Hrun. assert (lf_commitChan l2 = false) as Hc; [|unfold Shutdown; by rewrite Hc].
    assert (lf_commitChan l1 = false) as Hc.
    { unfold Shutdown in Hs. destruct (lf_commitChan l); by simplify_eq. }
    clear Hs Hr. induction Hrun as [|x y z Hxy _ IH]; [done|]. apply IH.
    destruct Hxy as [port x y H|x y H|x].
    + unfold ServeHTTP in H. destruct (lf_srv x); by simplify_eq.
    + unfold Shutdown in H. by rewrite Hc in H.
    + unfold serveReturned. by destruct (lf_srv x).
Qed.

(** Two starts of the same node. *)
Lemma startNode_eq {S} `{RaftStorage S} `{ErrorText} readFile openStorage ord1 ord2 net ctxErr raftAddr
    a1 a2 args cfg (st : S) :
  LoadConfig readFile = inr cfg -> openStorage (DataDir cfg) = inr st ->
  let b0 := restart (NodeID cfg) (cfgPeerIDs cfg) st in
  let b1 := set_peers b0 (<[NodeID cfg := mkPeerAddrs "" (cfgHTTPAddr cfg)]> (peers b0)) in
  ∃ s, startNode readFile openStorage ord1 ord2 net ctxErr raftAddr (a1 :: a2 :: args) = Ret (inr s) ∧
    st_life s = mkLife true true true (Serving (HTTPPort cfg)) ∧ book (st_service s) = b1 ∧ st_storage s = savePeers ord2 b1 st ∧
    st_dials s = peersToDial ord1 (KnownPeers b0) cfg ∧
    st_join s = (if IsInitialMember cfg then None else Some (joinCluster net ctxErr raftAddr cfg)).
Proof.
  intros Hcfg Hst b0 b1. unfold startNode. rewrite Hcfg, Hst. eexists. split; [reflexivity|]. done.
Qed.

(** C16 (roundtrip).  Restarting a node: the start sequence serves HTTP, is ended by the signal
    without a panic, and leaves the node's own configured
    address in the book beside the peers the storage held, and starting again
    from the storage it left gives the same book and dials the same peers,
    with their stored addresses. *)
Theorem restart_same_node {S} `{RaftStorage S} `{!RaftStorageLaws S} `{ErrorText}
    readFile openStorage openAgain ord1 ord2 ord3 ord4 net ctxErr raftAddr a1 a2 args cfg (st : S) s1 :
  LoadConfig readFile = inr cfg -> openStorage (DataDir cfg) = inr st ->
  startNode readFile openStorage ord1 ord2 net ctxErr raftAddr (a1 :: a2 :: args) = Ret (inr s1) ->
  openAgain (DataDir cfg) = inr (st_storage s1) ->
  Forall okJSON (storedPeers ord2 (book (st_service s1))) ->
  ∃ s2, startNode readFile openAgain ord3 ord4 net ctxErr raftAddr (a1 :: a2 :: args) = Ret (inr s2) ∧
    stopNode s1 = Ret (mkLife false false false Closing) ∧
    httpAddrOf (NodeID cfg) (book (st_service s1)) = cfgHTTPAddr cfg ∧
    KnownPeers (book (st_service s2)) = KnownPeers (book (st_service s1)) ∧
    (∀ i, i ∈ (st_dials s2).*1 <-> i ∈ (st_dials s1).*1).
Proof.
  intros Hcfg Hst Hs1 Hagain Hok.
  destruct (startNode_eq readFile openStorage ord1 ord2 net ctxErr raftAddr a1 a2 args cfg st Hcfg Hst)
    as (s1' & E1 & Hl1 & Hb1 & Hst1 & Hd1 & _). rewrite Hs1 in E1. injection E1 as <-.
  destruct (startNode_eq readFile openAgain ord3 ord4 net ctxErr raftAddr a1 a2 args cfg (st_storage s1) Hcfg Hagain)
    as (s2 & E2 & _ & Hb2 & _ & Hd2 & _). exists s2.
  set (b0 := restart (NodeID cfg) (cfgPeerIDs cfg) st) in *.
  pose proof (restart_saved ord2 (NodeID cfg) (cfgPeerIDs cfg) _ st Hok) as Hr.
  rewrite Hst1, <-Hb1 in Hb2, Hd2. set (b2 := restart _ _ (savePeers _ _ st)) in *.
  assert (Hpeers: KnownPeers b2 = delete (NodeID cfg) (KnownPeers b0)).
  { rewrite Hr, Hb1. cbn [peers set_peers]. by rewrite delete_insert_eq. }
  split_and!; [done|unfold stopNode; by rewrite Hl1| | |].
  - rewrite Hb1. unfold httpAddrOf. cbn [peers set_peers]. by rewrite lookup_insert_eq.
  - unfold KnownPeers in *. rewrite Hb2, Hb1. cbn [peers set_peers]. rewrite Hpeers. by rewrite insert_delete_eq.
  - intros i. rewrite Hd1, Hd2.
    destruct (peersToDial_spec ord3 (KnownPeers b2) cfg) as (_ & _ & -> & _).
    destruct (peersToDial_spec ord1 (KnownPeers b0) cfg) as (_ & _ & -> & _).
    rewrite Hpeers. split; intros [Hne Hor]; (split; [done|]); destruct Hor as [(pi & Hpi & Ha)|?]; auto;
      left; exists pi; [rewrite lookup_delete_ne in Hpi by done|rewrite lookup_delete_ne by done]; done.
Qed.

(** ** Witnesses *)

(** No try succeeds: nineteen of them. *)
Lemma dial_terminates_witness :
  dialSpec (λ _, (DialConnectFailed, 0)) (dialPeer (λ _, (DialConnectFailed, 0)) 5) ∧
  dialPeer (λ _, (DialConnectFailed, 0)) 5 = GaveUp 19.
Proof.
  split; [|by vm_compute].
  apply (dial_terminates (λ _, (DialConnectFailed, 0)) 5). intros; simpl; lia.
Defined.

Lemma shutdown_once_witness :
  ∃ l l1, ServeHTTP 8000 newLife = Ret l ∧ Shutdown l = Ret l1 ∧
    Shutdown (serveReturned l1) = Panic "close of closed channel".
Proof.
  eexists _, _. split_and!; [reflexivity|reflexivity|].
  destruct (shutdown_once (mkLife true true true (Serving 8000))) as (_ & _ & H).
  - by eapply rtc_once, (l_serve 8000).
  - apply (H (mkLife false false false Closing)); [done|]. apply rtc_once, l_returned.
Defined.

Section node_samples.
#[local] Instance node_texts : ErrorText := λ _, "error".
Definition sample_cfg : Config :=
  mkConfig 1 8001 "/d" [mkPeerConfig 1 "h1" "r1"; mkPeerConfig 2 "h2" "r2"].
Definition sample_file : string + bytes := inr (marshalBody (λ _, false) sample_cfg).
Definition first_start : go (string + started (gmap string bytes)) :=
  startNode sample_file (λ _, inr ∅) in_order in_order empty_network (λ _, None) "r1" ["zodiac"; "c"].

Lemma restart_same_node_witness :
  ∃ s1 s2, first_start = Ret (inr s1) ∧
    startNode sample_file (λ _, inr (st_storage s1)) reversed reversed empty_network (λ _, None) "r1"
      ["zodiac"; "c"] = Ret (inr s2) ∧
    KnownPeers (book (st_service s2)) = KnownPeers (book (st_service s1)).
Proof.
  destruct (startNode_eq sample_file (λ _, inr (∅ : gmap string bytes)) in_order in_order empty_network
    (λ _, None) "r1" "zodiac" "c" [] sample_cfg ∅) as (s1 & E & _ & Hb & _); [by vm_compute|done|].
  destruct (restart_same_node sample_file (λ _, inr ∅) (λ _, inr (st_storage s1)) in_order in_order
    reversed reversed empty_network (λ _, None) "r1" "zodiac" "c" [] sample_cfg ∅ s1) as (s2 & H2 & _ & _ & Hk & _).
  - by vm_compute.
  - done.
  - exact E.
  - done.
  - assert (Hl: storedPeers in_order (book (st_service s1)) = [mkPersistedPeer 1 "" "h1"]).
    { rewrite Hb. by vm_compute. }
    rewrite Hl. repeat constructor; by vm_compute.
  - exists s1, s2. split_and!; [exact E|exact H2|exact Hk].
Defined.
End node_samples.
